(** * MetaFix: scan engine, artwork detector, provider aggregation, editions

    A shallow embedding of the parts of the MetaFix backend that the
    specification's properties talk about, and the proofs (or refutations)
    of those properties.

    Conventions of the embedding.
    - Python [int] is [Z] (or [nat] for counters that are never negative).
    - Python [float] values that come from JSON numbers or from the division
      of two image dimensions are modelled by exact rationals [Q]; decimal
      literals of the source ([0.9], [0.667], ...) are read as the decimal
      fractions they denote.
    - [dict] objects used as maps are stdpp [gmap]s; database tables are
      lists of rows, an SQL [UPDATE ... WHERE id = k] maps over the rows.
    - An operation that may raise returns a [res]; [try/except Exception]
      is written out as a match on it.
    - The media server and the other coroutines of the process are an
      explicit environment: a record of answers for the server, and for the
      coroutines a schedule of the control calls they make at each await
      of the scan task and of the await, if any, at which that task is
      cancelled. *)

From Stdlib Require Import ZArith QArith Qround Lia Lqa List Bool.
From Stdlib Require Import Sorting.Sorted Sorting.Permutation.
From stdpp Require Import gmap strings list fin_maps pretty.

Import ListNotations.

(** ** Python helpers *)

Module Py.

(** Exceptions that matter to the modelled code. *)
Inductive exn : Type :=
| PlexAuthenticationError
| PlexConnectionError
| ValueError
| ZeroDivisionError
| MultipleResultsFound
| OtherError.

(** Outcome of a call that may raise. *)
Inductive res (A : Type) : Type :=
| Ok (a : A)
| Raise (e : exn).
Arguments Ok {A} a.
Arguments Raise {A} e.

Definition bind {A B : Type} (r : res A) (k : A -> res B) : res B :=
  match r with
  | Ok a => k a
  | Raise e => Raise e
  end.

(** [int(x)] on a float: truncation toward zero. *)
Definition int_of_float (x : Q) : Z :=
  if Qle_bool 0 x then Qfloor x else Qceiling x.

(** [round(x)] on a float, one argument: nearest integer, ties to even. *)
Definition round (x : Q) : Z :=
  let f := Qfloor x in
  match Qcompare (x - inject_Z f) (1 # 2) with
  | Lt => f
  | Gt => (f + 1)%Z
  | Eq => if Z.even f then f else (f + 1)%Z
  end.

(** [x < y] on floats. *)
Definition Qltb (x y : Q) : bool := negb (Qle_bool y x).

(** Truthiness of an [Optional[str]]: [None] and the empty string are
    falsy. *)
Definition truthy (s : option string) : bool :=
  match s with
  | None => false
  | Some s => negb (String.eqb s "")
  end.

End Py.

(** ** models/schemas.py and services/providers/base.py *)

Module Schemas.

Inductive ArtworkType : Type := POSTER | BACKGROUND | LOGO.

Inductive Provider : Type := FANART | MEDIUX | TMDB | TVDB | PLEX.

(** [Provider.value], the string of the enum member. *)
Definition value (p : Provider) : string :=
  match p with
  | FANART => "fanart"
  | MEDIUX => "mediux"
  | TMDB => "tmdb"
  | TVDB => "tvdb"
  | PLEX => "plex"
  end.

(** [ArtworkResult] of providers/base.py. *)
Record ArtworkResult : Type := mkArtworkResult {
  source : Provider;
  artwork_type : ArtworkType;
  image_url : string;
  thumbnail_url : option string;
  language : option string;
  score : Z;
  set_name : option string;
  creator_name : option string
}.

End Schemas.

(** ** services/providers/tmdb.py *)

Module TMDB.

Import Schemas.

(** One element of the [posters], [backdrops] or [logos] array of the
    images endpoint; a field is [None] when the key is absent. *)
Record ImageEntry : Type := mkImageEntry {
  file_path : option string;
  iso_639_1 : option string;
  vote_average : option Q
}.

(** The decoded body of [/{movie|tv}/{id}/images]; a field is [None] when
    the key is not in the dict. *)
Record ImagesData : Type := mkImagesData {
  posters : option (list ImageEntry);
  backdrops : option (list ImageEntry);
  logos : option (list ImageEntry)
}.

(** [data[type_mapping[art_type]]] guarded by [key in data]. *)
Definition entries (data : ImagesData) (art_type : ArtworkType)
  : option (list ImageEntry) :=
  match art_type with
  | POSTER => posters data
  | BACKGROUND => backdrops data
  | LOGO => logos data
  end.

(** [item.get("vote_average", 0)]. *)
Definition vote_or_default (item : ImageEntry) : Q :=
  match vote_average item with
  | Some v => v
  | None => 0
  end.

(** Body of the inner loop of [_parse_response]: nothing for an entry
    without a file path, one result otherwise. *)
Definition parse_entry (base_url : string) (art_type : ArtworkType)
    (item : ImageEntry) : option ArtworkResult :=
  match file_path item with
  | None => None
  | Some fp =>
      if String.eqb fp "" then None
      else Some {| source := TMDB;
                   artwork_type := art_type;
                   image_url := base_url +:+ "original" +:+ fp;
                   thumbnail_url := Some (base_url +:+ "w500" +:+ fp);
                   language := iso_639_1 item;
                   score := Py.int_of_float (vote_or_default item * 10);
                   set_name := None;
                   creator_name := None |}
  end.

Fixpoint parse_entries (base_url : string) (art_type : ArtworkType)
    (items : list ImageEntry) : list ArtworkResult :=
  match items with
  | [] => []
  | item :: rest =>
      match parse_entry base_url art_type item with
      | Some r => r :: parse_entries base_url art_type rest
      | None => parse_entries base_url art_type rest
      end
  end.

Fixpoint _parse_response (data : ImagesData) (base_url : string)
    (artwork_types : list ArtworkType) : list ArtworkResult :=
  match artwork_types with
  | [] => []
  | art_type :: rest =>
      match entries data art_type with
      | Some items =>
          parse_entries base_url art_type items
            ++ _parse_response data base_url rest
      | None => _parse_response data base_url rest
      end
  end.

(** The property as the specification words it: the score of the
    suggestion made from an entry is [round(vote_average * 10)]. *)
Definition score_is_rounded (data : ImagesData) (base_url : string)
    (artwork_types : list ArtworkType) : Prop :=
  forall art_type items item v r,
    In art_type artwork_types ->
    entries data art_type = Some items ->
    In item items ->
    vote_average item = Some v ->
    parse_entry base_url art_type item = Some r ->
    score r = Py.round (v * 10).

(** One poster with [vote_average = 8.57]. *)
Definition poster_857 : ImagesData :=
  {| posters := Some [ {| file_path := Some "/p.jpg";
                          iso_639_1 := Some "en";
                          vote_average := Some (857 # 100) |} ];
     backdrops := None;
     logos := None |}.

(** What [_parse_response] makes of it. *)
Definition poster_857_result : ArtworkResult :=
  {| source := TMDB; artwork_type := POSTER;
     image_url := "https://image.tmdb.org/t/p/original/p.jpg";
     thumbnail_url := Some "https://image.tmdb.org/t/p/w500/p.jpg";
     language := Some "en"; score := 85;
     set_name := None; creator_name := None |}.

End TMDB.

(** ** services/plex_service.py: data *)

Module Plex.

Record PlexItem : Type := mkPlexItem {
  rating_key : string;
  title : string;
  year : option Z;
  type : string;
  guid : option string;
  thumb : option string;
  art : option string;
  library_name : string;
  added_at : option Z;
  edition_title : option string;
  guids : list string
}.

(** [PlexItem.is_matched]. *)
Definition is_matched (item : PlexItem) : bool :=
  match guid item with
  | None => false
  | Some g =>
      if String.eqb g "" then false
      else negb (String.prefix "local://" g)
  end.

(** [PlexItem.has_poster]. *)
Definition has_poster (item : PlexItem) : bool := Py.truthy (thumb item).

(** [PlexItem.has_background]. *)
Definition has_background (item : PlexItem) : bool := Py.truthy (art item).

(** [PlexItem.get_external_id]. *)
Fixpoint first_with_prefix (prefix : string) (gs : list string)
  : option string :=
  match gs with
  | [] => None
  | g :: rest =>
      if String.prefix prefix g
      then Some (String.substring (String.length prefix)
                   (String.length g - String.length prefix) g)
      else first_with_prefix prefix rest
  end.

Definition get_external_id (item : PlexItem) (source : string)
  : option string :=
  first_with_prefix (source +:+ "://") (guids item).

(** One element of the [Media] array of an item's raw metadata. *)
Record MediaEntry : Type := mkMediaEntry {
  bitrate : option Z;
  videoResolution : option string;
  width : option Z;
  height : option Z
}.

(** The first element of [MediaContainer.Metadata] as the server sends it
    for [/library/metadata/{rating_key}]; a field is [None] when the key is
    absent. *)
Record Metadata : Type := mkMetadata {
  ratingKey : option string;
  md_title : option string;
  md_year : option Z;
  md_type : option string;
  md_guid : option string;
  md_thumb : option string;
  md_art : option string;
  addedAt : option Z;
  editionTitle : option string;
  Guid : list string;
  Media : list MediaEntry
}.

(** The requests the client sends through [PlexService._request]. *)
Inductive Request : Type :=
| GetSections
| GetSectionItems (library_id : string)
| GetMetadata (rating_key : string)
| PutEdition (rating_key : string) (edition_title : string).

(** The media server as the client sees it: what [_request] returns or
    raises for each request ([Raise PlexAuthenticationError] is the 401
    branch of [_request]), and what an image download yields.  The number
    given to an answer is the number of requests (for [image]: of
    downloads) made before, so the server may answer the same request
    differently over time. *)
Inductive FetchOutcome : Type :=
| FetchFailed
| ImageSize (w h : Z).

Record Server : Type := mkServer {
  base_url : string;
  token : string;
  sections : nat -> Py.res (list string);
  section_items : nat -> string -> Py.res (list PlexItem);
  metadata : nat -> string -> Py.res (list Metadata);
  put_edition : nat -> string -> string -> Py.res unit;
  image : nat -> string -> FetchOutcome
}.

(** [PlexService.get_poster_url]. *)
Definition get_poster_url (srv : Server) (thumb_path : string) : string :=
  if String.prefix "http" thumb_path then thumb_path
  else base_url srv +:+ thumb_path +:+ "?X-Plex-Token=" +:+ token srv.

Definition or_default (o : option string) (d : string) : string :=
  match o with
  | Some s => s
  | None => d
  end.

(** The [PlexItem] that [get_item_metadata] builds from raw metadata. *)
Definition item_of_metadata (md : Metadata) : PlexItem :=
  {| rating_key := or_default (ratingKey md) "None";
     title := or_default (md_title md) "Unknown";
     year := md_year md;
     type := or_default (md_type md) "movie";
     guid := md_guid md;
     thumb := md_thumb md;
     art := md_art md;
     library_name := "Unknown";
     added_at := addedAt md;
     edition_title := editionTitle md;
     guids := List.filter (fun g => negb (String.eqb g "")) (Guid md) |}.

End Plex.

(** ** services/edition/modules: base.py and video.py *)

Module EditionModules.

Import Plex.

(** [int(x.get("bitrate", 0))]. *)
Definition bitrate_key (m : MediaEntry) : Z :=
  match bitrate m with
  | Some b => b
  | None => 0
  end.

(** [sorted(media, key=..., reverse=True)]: a stable sort, entries of equal
    bitrate keep their order. *)
Fixpoint insert_desc (x : MediaEntry) (l : list MediaEntry)
  : list MediaEntry :=
  match l with
  | [] => [x]
  | y :: ys =>
      if (bitrate_key x <? bitrate_key y)%Z
      then y :: insert_desc x ys
      else x :: y :: ys
  end.

Fixpoint sorted_desc (l : list MediaEntry) : list MediaEntry :=
  match l with
  | [] => []
  | x :: xs => insert_desc x (sorted_desc xs)
  end.

(** [BaseEditionModule._get_main_media]. *)
Definition _get_main_media (md : Metadata) : option MediaEntry :=
  match Media md with
  | [] => None
  | _ => head (sorted_desc (Media md))
  end.

(** [ResolutionModule.RESOLUTION_MAP], in the order of the dict literal. *)
Definition RESOLUTION_MAP : list (Z * Z * string) :=
  [ (7680, 4320, "8K");
    (3840, 2160, "4K");
    (2560, 1440, "2K");
    (1920, 1080, "1080p");
    (1280, 720, "720p");
    (720, 576, "576p");
    (720, 480, "480p") ]%Z.

(** The test of the ladder loop:
    [width >= w * 0.85 or height >= h * 0.85]. *)
Definition fits (width height : Z) (e : Z * Z * string) : bool :=
  let '(w, h, _) := e in
  Qle_bool (inject_Z w * (85 # 100)) (inject_Z width)
  || Qle_bool (inject_Z h * (85 # 100)) (inject_Z height).

(** The [for ... in RESOLUTION_MAP.items()] loop and the final
    [return "SD"]. *)
Fixpoint ladder (width height : Z) (entries : list (Z * Z * string))
  : string :=
  match entries with
  | [] => "SD"
  | e :: rest =>
      if fits width height e then snd e else ladder width height rest
  end.

(** [str.upper] on ASCII letters. *)
Definition upper_ascii (c : Ascii.ascii) : Ascii.ascii :=
  let n := Ascii.nat_of_ascii c in
  if (97 <=? n)%nat && (n <=? 122)%nat
  then Ascii.ascii_of_nat (n - 32)
  else c.

Fixpoint upper (s : string) : string :=
  match s with
  | EmptyString => EmptyString
  | String c rest => String (upper_ascii c) (upper rest)
  end.

(** The branch taken when width or height is zero. *)
Definition fallback_label (res_label : string) : string :=
  if String.eqb res_label "4k" then "4K"
  else if String.eqb res_label "1080" then "1080p"
  else if String.eqb res_label "720" then "720p"
  else if String.eqb res_label "sd" then "SD"
  else upper res_label.

Definition int_or_zero (o : option Z) : Z :=
  match o with
  | Some z => z
  | None => 0%Z
  end.

(** [ResolutionModule.extract]. *)
Definition extract (md : Metadata) : option string :=
  match _get_main_media md with
  | None => None
  | Some media =>
      if negb (Py.truthy (videoResolution media)) then None
      else
        let width := int_or_zero (width media) in
        let height := int_or_zero (height media) in
        if (width =? 0)%Z || (height =? 0)%Z
        then option_map fallback_label (videoResolution media)
        else Some (ladder width height RESOLUTION_MAP)
  end.

(** Raw metadata with one [Media] entry and nothing else. *)
Definition metadata_of_media (m : MediaEntry) : Metadata :=
  {| ratingKey := None; md_title := None; md_year := None; md_type := None;
     md_guid := None; md_thumb := None; md_art := None; addedAt := None;
     editionTitle := None; Guid := []; Media := [m] |}.

(** A 3840x2160 entry without [videoResolution], and a 1920x800 entry
    labelled "1080". *)
Definition uhd_unlabelled : MediaEntry :=
  {| bitrate := Some 20000%Z; videoResolution := None;
     width := Some 3840%Z; height := Some 2160%Z |}.

Definition cropped_1080 : MediaEntry :=
  {| bitrate := Some 8000%Z; videoResolution := Some "1080";
     width := Some 1920%Z; height := Some 800%Z |}.

End EditionModules.

(** ** services/artwork_scanner.py *)

Module ArtworkScanner.

Inductive IssueType : Type :=
| NO_MATCH
| NO_POSTER
| NO_BACKGROUND
| NO_LOGO
| PLACEHOLDER_POSTER
| PLACEHOLDER_BACKGROUND.

(** [details] is either empty or the one entry [detected_aspect_ratio]. *)
Record ArtworkIssue : Type := mkArtworkIssue {
  issue_type : IssueType;
  plex_rating_key : string;
  plex_guid : option string;
  title : string;
  year : option Z;
  media_type : string;
  library_name : string;
  external_ids : gmap string string;
  details : option Q
}.

(** The flags given to [ArtworkScanner.__init__]. *)
Record Scanner : Type := mkScanner {
  check_posters : bool;
  check_backgrounds : bool;
  check_logos : bool;
  check_unmatched : bool;
  check_placeholders : bool
}.

(** The mutable part of a scanner instance: the memo, and the image
    downloads its HTTP client has made so far (path asked for and what came
    back), oldest first. *)
Record State : Type := mkState {
  _aspect_ratio_cache : gmap string Q;
  downloads : list (string * Plex.FetchOutcome)
}.

Definition fresh : State :=
  {| _aspect_ratio_cache := ∅; downloads := [] |}.

Definition POSTER_ASPECT_RATIO : Q := 667 # 1000.
Definition ASPECT_RATIO_TOLERANCE : Q := 15 # 100.
Definition BACKGROUND_ASPECT_RATIO : Q := 1778 # 1000.

Definition add_external (name : string) (v : option string)
    (m : gmap string string) : gmap string string :=
  match v with
  | Some s => if String.eqb s "" then m else <[name := s]> m
  | None => m
  end.

(** [ArtworkScanner._create_issue]. *)
Definition _create_issue (item : Plex.PlexItem) (t : IssueType)
    (d : option Q) : ArtworkIssue :=
  {| issue_type := t;
     plex_rating_key := Plex.rating_key item;
     plex_guid := Plex.guid item;
     title := Plex.title item;
     year := Plex.year item;
     media_type := Plex.type item;
     library_name := Plex.library_name item;
     external_ids :=
       add_external "tvdb" (Plex.get_external_id item "tvdb")
         (add_external "imdb" (Plex.get_external_id item "imdb")
            (add_external "tmdb" (Plex.get_external_id item "tmdb") ∅));
     details := d |}.

(** [ArtworkScanner._get_image_aspect_ratio]. *)
Definition _get_image_aspect_ratio (srv : Plex.Server) (st : State)
    (image_path : string) : option Q * State :=
  match _aspect_ratio_cache st !! image_path with
  | Some r => (Some r, st)
  | None =>
      let out :=
        Plex.image srv (length (downloads st))
          (Plex.get_poster_url srv image_path) in
      let log := downloads st ++ [(image_path, out)] in
      match out with
      | Plex.FetchFailed =>
          (None, {| _aspect_ratio_cache := _aspect_ratio_cache st;
                    downloads := log |})
      | Plex.ImageSize w h =>
          if (h =? 0)%Z
          then (None, {| _aspect_ratio_cache := _aspect_ratio_cache st;
                         downloads := log |})
          else
            let ratio := (inject_Z w / inject_Z h)%Q in
            (Some ratio,
             {| _aspect_ratio_cache :=
                  <[image_path := ratio]> (_aspect_ratio_cache st);
                downloads := log |})
      end
  end.

(** The decision of [_check_placeholder_poster] once the ratio is known. *)
Definition poster_ratio_is_placeholder (ratio : Q) : bool :=
  if Py.Qltb 1 ratio then true
  else
    let min_valid := (POSTER_ASPECT_RATIO * (1 - ASPECT_RATIO_TOLERANCE))%Q in
    let max_valid := (POSTER_ASPECT_RATIO * (1 + ASPECT_RATIO_TOLERANCE))%Q in
    if Qle_bool min_valid ratio && Qle_bool ratio max_valid then false
    else if Py.Qltb (9 # 10) ratio || Py.Qltb ratio (4 # 10) then true
    else false.

(** [ArtworkScanner._check_placeholder_poster]. *)
Definition _check_placeholder_poster (srv : Plex.Server) (st : State)
    (item : Plex.PlexItem) : bool * State :=
  match Plex.thumb item with
  | None => (false, st)
  | Some p =>
      if String.eqb p "" then (false, st)
      else
        match _get_image_aspect_ratio srv st p with
        | (None, st') => (false, st')
        | (Some ratio, st') => (poster_ratio_is_placeholder ratio, st')
        end
  end.

(** The decision of [_check_placeholder_background] once the ratio is
    known. *)
Definition background_ratio_is_placeholder (ratio : Q) : bool :=
  if Py.Qltb ratio 1 then true
  else if Py.Qltb ratio (12 # 10) then true
  else false.

(** [ArtworkScanner._check_placeholder_background]. *)
Definition _check_placeholder_background (srv : Plex.Server) (st : State)
    (item : Plex.PlexItem) : bool * State :=
  match Plex.art item with
  | None => (false, st)
  | Some p =>
      if String.eqb p "" then (false, st)
      else
        match _get_image_aspect_ratio srv st p with
        | (None, st') => (false, st')
        | (Some ratio, st') => (background_ratio_is_placeholder ratio, st')
        end
  end.

(** [self._aspect_ratio_cache.get(path, 0)]. *)
Definition cached_ratio (st : State) (path : option string) : Q :=
  match path with
  | Some p => default 0%Q (_aspect_ratio_cache st !! p)
  | None => 0%Q
  end.

(** [ArtworkScanner.scan_item]. *)
Definition scan_item (srv : Plex.Server) (sc : Scanner) (st : State)
    (item : Plex.PlexItem) : list ArtworkIssue * State :=
  if check_unmatched sc && negb (Plex.is_matched item)
  then ([_create_issue item NO_MATCH None], st)
  else
    let issues1 :=
      if check_posters sc && negb (Plex.has_poster item)
      then [_create_issue item NO_POSTER None] else [] in
    let issues2 :=
      if check_backgrounds sc && negb (Plex.has_background item)
      then issues1 ++ [_create_issue item NO_BACKGROUND None]
      else issues1 in
    let '(issues3, st3) :=
      if check_placeholders sc && Plex.has_poster item
      then
        let '(is_placeholder, st') := _check_placeholder_poster srv st item in
        if is_placeholder
        then (issues2 ++ [_create_issue item PLACEHOLDER_POSTER
                            (Some (cached_ratio st' (Plex.thumb item)))],
              st')
        else (issues2, st')
      else (issues2, st) in
    if check_placeholders sc && Plex.has_background item
    then
      let '(is_placeholder, st') := _check_placeholder_background srv st3 item in
      if is_placeholder
      then (issues3 ++ [_create_issue item PLACEHOLDER_BACKGROUND
                          (Some (cached_ratio st' (Plex.art item)))],
            st')
      else (issues3, st')
    else (issues3, st3).

(** The kinds of the issues a call reports. *)
Definition kinds (found : list ArtworkIssue) : list IssueType :=
  map issue_type found.

(** A sequence of [scan_item] calls on one scanner instance. *)
Fixpoint scan_items (srv : Plex.Server) (sc : Scanner) (st : State)
    (items : list Plex.PlexItem) : State :=
  match items with
  | [] => st
  | item :: rest => scan_items srv sc (snd (scan_item srv sc st item)) rest
  end.

(** A download that yielded a ratio (and so filled the memo). *)
Definition succeeded (out : Plex.FetchOutcome) : bool :=
  match out with
  | Plex.FetchFailed => false
  | Plex.ImageSize _ h => negb (h =? 0)%Z
  end.

(** How often [path] was downloaded. *)
Definition fetch_count (path : string) (log : list (string * Plex.FetchOutcome))
  : nat :=
  length (List.filter (fun e => String.eqb (fst e) path) log).

(** The property as the specification words it: whatever the server does,
    no path is downloaded more than once by one instance. *)
Definition fetched_at_most_once (srv : Plex.Server) (sc : Scanner)
    (items : list Plex.PlexItem) : Prop :=
  forall path,
    (fetch_count path (downloads (scan_items srv sc fresh items)) <= 1)%nat.

(** No path is downloaded again after a download of it has succeeded. *)
Definition no_refetch (log : list (string * Plex.FetchOutcome)) : Prop :=
  forall l1 p out l2,
    log = l1 ++ (p, out) :: l2 ->
    succeeded out = true ->
    forall e, In e l2 -> fst e <> p.

(** How often a download of [path] succeeded. *)
Definition success_count (path : string)
    (log : list (string * Plex.FetchOutcome)) : nat :=
  length (List.filter
            (fun e => String.eqb (fst e) path && succeeded (snd e)) log).

(** The memo knows every path that was downloaded with success, and
    [no_refetch] holds of the downloads. *)
Definition memo_ok (st : State) : Prop :=
  (forall p out, In (p, out) (downloads st) -> succeeded out = true ->
     is_Some (_aspect_ratio_cache st !! p))
  /\ no_refetch (downloads st).

(** The memo holds no path but those of which a download succeeded. *)
Definition memo_from_success (st : State) : Prop :=
  forall p, is_Some (_aspect_ratio_cache st !! p) ->
    exists out, In (p, out) (downloads st) /\ succeeded out = true.

(** A scanner with every check on. *)
Definition all_checks : Scanner :=
  {| check_posters := true; check_backgrounds := true; check_logos := true;
     check_unmatched := true; check_placeholders := true |}.

(** A media server whose image downloads always yield the given outcome
    (the other answers are empty). *)
Definition image_server (out : Plex.FetchOutcome) : Plex.Server :=
  {| Plex.base_url := "http://plex:32400";
     Plex.token := "token";
     Plex.sections := fun _ => Py.Ok [];
     Plex.section_items := fun _ _ => Py.Ok [];
     Plex.metadata := fun _ _ => Py.Ok [];
     Plex.put_edition := fun _ _ _ => Py.Ok tt;
     Plex.image := fun _ _ => out |}.

(** An unmatched item without artwork, and a matched movie with a poster
    path. *)
Definition unmatched_item : Plex.PlexItem :=
  {| Plex.rating_key := "123"; Plex.title := "Home Video";
     Plex.year := None; Plex.type := "movie";
     Plex.guid := Some "local://123"; Plex.thumb := None; Plex.art := None;
     Plex.library_name := "Movies"; Plex.added_at := None;
     Plex.edition_title := None; Plex.guids := [] |}.

Definition poster_item : Plex.PlexItem :=
  {| Plex.rating_key := "603"; Plex.title := "The Matrix";
     Plex.year := Some 1999%Z; Plex.type := "movie";
     Plex.guid := Some "plex://movie/603";
     Plex.thumb := Some "/library/metadata/603/thumb"; Plex.art := None;
     Plex.library_name := "Movies"; Plex.added_at := None;
     Plex.edition_title := None; Plex.guids := ["tmdb://603"] |}.

End ArtworkScanner.

(** ** services/artwork_service.py *)

Module ArtworkService.

Import Schemas.

(** One entry of [self.providers] as [get_artwork] uses it: whether the
    provider is configured, and what its [get_artwork] coroutine yields for
    the query at hand ([Raise] when it raised, which [asyncio.gather]
    hands back as a value). *)
Record ProviderEntry : Type := mkProviderEntry {
  provider_enum : Provider;
  is_configured : bool;
  answer : Py.res (list ArtworkResult)
}.

(** [{name: i for i, name in enumerate(priority_list_str)}]: a later
    occurrence of a name replaces the index of an earlier one. *)
Fixpoint priority_map_from (i : nat) (names : list string)
    (m : gmap string nat) : gmap string nat :=
  match names with
  | [] => m
  | name :: rest => priority_map_from (S i) rest (<[name := i]> m)
  end.

Definition priority_map (priority_list_str : list string) : gmap string nat :=
  priority_map_from 0 priority_list_str ∅.

(** The sentinel of [priority_map.get(item.source.value, 999)]. *)
Definition SENTINEL : nat := 999.

(** [sort_key]. *)
Definition sort_key (pm : gmap string nat) (item : ArtworkResult) : nat * Z :=
  (default SENTINEL (pm !! value (source item)), (- score item)%Z).

(** Order of Python tuples [(int, int)]. *)
Definition key_ltb (a b : nat * Z) : bool :=
  (fst a <? fst b)%nat || ((fst a =? fst b)%nat && (snd a <? snd b)%Z).

Definition key_le (a b : nat * Z) : Prop := key_ltb b a = false.

(** [list.sort(key=sort_key)]: a stable sort, written as the insertion
    sort that keeps elements of equal key in their order. *)
Fixpoint insert_by (pm : gmap string nat) (x : ArtworkResult)
    (l : list ArtworkResult) : list ArtworkResult :=
  match l with
  | [] => [x]
  | y :: ys =>
      if key_ltb (sort_key pm y) (sort_key pm x)
      then y :: insert_by pm x ys
      else x :: y :: ys
  end.

Fixpoint sort_by (pm : gmap string nat) (l : list ArtworkResult)
  : list ArtworkResult :=
  match l with
  | [] => []
  | x :: xs => insert_by pm x (sort_by pm xs)
  end.

(** The results gathered from the active providers, in the order of the
    providers, a raised exception counting for nothing. *)
Fixpoint gather (active : list ProviderEntry) : list ArtworkResult :=
  match active with
  | [] => []
  | p :: rest =>
      match answer p with
      | Py.Ok results => results ++ gather rest
      | Py.Raise _ => gather rest
      end
  end.

(** [ArtworkService.get_artwork], after [initialize]: [providers] are the
    entries of [self.providers] in insertion order, [priority_list_str] is
    what [get_provider_priority] returned. *)
Definition get_artwork (priority_list_str : list string)
    (providers : list ProviderEntry) : list ArtworkResult :=
  let pm := priority_map priority_list_str in
  let active := List.filter is_configured providers in
  match active with
  | [] => []
  | _ => sort_by pm (gather active)
  end.

(** A source is listed when its name occurs in the priority list. *)
Definition listed (priority_list_str : list string) (r : ArtworkResult)
  : Prop :=
  In (value (source r)) priority_list_str.

(** The last part of the property as the specification words it: in the
    returned list no result of an unlisted source stands before a result
    of a listed source. *)
Definition unlisted_sort_last (priority_list_str : list string)
    (out : list ArtworkResult) : Prop :=
  forall l1 x l2 y l3,
    out = l1 ++ x :: l2 ++ y :: l3 ->
    ~ listed priority_list_str x ->
    ~ listed priority_list_str y.

(** [x] may stand before [y] in a list sorted by [sort_key]. *)
Definition by_key (pm : gmap string nat) (x y : ArtworkResult) : Prop :=
  key_le (sort_key pm x) (sort_key pm y).

(** The results whose sort key is [k]. *)
Definition has_key (pm : gmap string nat) (k : nat * Z) (r : ArtworkResult)
  : bool :=
  (fst (sort_key pm r) =? fst k)%nat && (snd (sort_key pm r) =? snd k)%Z.

Definition with_key (pm : gmap string nat) (k : nat * Z)
    (l : list ArtworkResult) : list ArtworkResult :=
  List.filter (has_key pm k) l.

(** A priority list of a thousand entries: 999 times "fanart", then
    "mediux" (the settings endpoint stores any list of provider names,
    repetitions included). *)
Definition long_priority : list string := repeat "fanart" 999 ++ ["mediux"].

(** A poster as [MediuxProvider._parse_response] makes it: the score is
    always 0. *)
Definition mediux_poster : ArtworkResult :=
  {| source := MEDIUX; artwork_type := POSTER;
     image_url := "https://staged.mediux.io/assets/f1";
     thumbnail_url := Some "https://staged.mediux.io/assets/f1?width=400";
     language := Some "en"; score := 0;
     set_name := Some "Set A"; creator_name := Some "alice" |}.

(** Mediux and TMDB configured, one poster each, as their parsers make
    them. *)
Definition two_providers : list ProviderEntry :=
  [ {| provider_enum := MEDIUX; is_configured := true;
       answer := Py.Ok [mediux_poster] |};
    {| provider_enum := TMDB; is_configured := true;
       answer := Py.Ok [TMDB.poster_857_result] |} ].

End ArtworkService.

(** ** models/database.py and the state of the process *)

Module Sys.

(** The JSON object stored in the [checkpoint] column. *)
Record Checkpoint : Type := mkCheckpoint {
  cp_processed : Z;
  cp_current_library : string;
  cp_timestamp : nat
}.

(** A row of table [scans]. *)
Record Scan : Type := mkScan {
  id : nat;
  scan_type : string;
  status : string;
  total_items : Z;
  processed_items : Z;
  issues_found : Z;
  editions_updated : Z;
  current_library : option string;
  checkpoint : option Checkpoint;
  triggered_by : string;
  started_at : option nat;
  paused_at : option nat;
  completed_at : option nat
}.

(** A row of table [scan_events]. *)
Record ScanEvent : Type := mkScanEvent {
  ev_scan_id : nat;
  event_type : string
}.

(** A row of table [issues]. *)
Record Issue : Type := mkIssue {
  is_scan_id : nat;
  is_issue : ArtworkScanner.ArtworkIssue;
  is_status : string
}.

(** A row of table [edition_backups]. *)
Record EditionBackup : Type := mkEditionBackup {
  plex_rating_key : string;
  title : string;
  original_edition : option string
}.

(** The row of table [edition_config], its JSON columns decoded. *)
Record EditionConfig : Type := mkEditionConfig {
  enabled_modules : list string;
  module_order : list string;
  separator : option string
}.

Record Db : Type := mkDb {
  scans : list Scan;
  scan_events : list ScanEvent;
  issues : list Issue;
  edition_backups : list EditionBackup;
  edition_config : option EditionConfig;
  plex_url : option string;
  plex_token : option string
}.

Inductive ScanStatus : Type :=
| IDLE | PENDING | RUNNING | PAUSED | COMPLETED | CANCELLED | FAILED.

(** [ScanManager._progress]. *)
Record Progress : Type := mkProgress {
  processed : Z;
  total : Z;
  p_issues_found : Z;
  p_editions_updated : Z;
  p_current_library : option string;
  p_current_item : option string
}.

(** The fields of the [ScanManager] singleton ([_scan_task] is never
    assigned a task anywhere in the program and stays [None]). *)
Record Manager : Type := mkManager {
  _status : ScanStatus;
  _current_scan_id : option nat;
  _cancel_requested : bool;
  _pause_event : bool;
  _progress : Progress
}.

(** The events [_broadcast] puts on every subscriber queue.
    [scan_progress_total] is the [scan_progress] event sent once after the
    enumeration: it carries the total and [processed = 0] only. *)
Inductive Event : Type :=
| scan_started (scan_id : nat)
| scan_progress_total (scan_id : nat) (total : Z)
| scan_progress (scan_id : nat) (processed total issues editions : Z)
    (current_item current_library : string)
| scan_paused (scan_id : option nat)
| scan_resumed (scan_id : option nat)
| scan_cancelled (scan_id : nat)
| scan_completed (scan_id : nat) (processed issues editions : Z)
| scan_failed (scan_id : nat) (error : Py.exn).

(** Everything the modelled code reads or writes: the database, the
    requests sent through [PlexService._request] with the exception each
    one raised (oldest first), the clock behind [datetime.utcnow], the scan
    manager, the scanner instance of the running scan, and the events
    broadcast so far (oldest first).  Writes reach the tables when they are
    executed; sessions and transaction boundaries are not modelled. *)
Record World : Type := mkWorld {
  db : Db;
  requests : list (Plex.Request * option Py.exn);
  clock : nat;
  mgr : Manager;
  scanner : ArtworkScanner.State;
  sent : list Event
}.

Definition set_db (f : Db -> Db) (w : World) : World :=
  {| db := f (db w); requests := requests w; clock := clock w;
     mgr := mgr w; scanner := scanner w; sent := sent w |}.

Definition set_mgr (f : Manager -> Manager) (w : World) : World :=
  {| db := db w; requests := requests w; clock := clock w;
     mgr := f (mgr w); scanner := scanner w; sent := sent w |}.

Definition set_scanner (s : ArtworkScanner.State) (w : World) : World :=
  {| db := db w; requests := requests w; clock := clock w;
     mgr := mgr w; scanner := s; sent := sent w |}.

(** [ScanManager._broadcast]. *)
Definition _broadcast (e : Event) (w : World) : World :=
  {| db := db w; requests := requests w; clock := clock w;
     mgr := mgr w; scanner := scanner w; sent := sent w ++ [e] |}.

(** [datetime.utcnow()]: the clock is read and moves on. *)
Definition utcnow (w : World) : nat * World :=
  (clock w,
   {| db := db w; requests := requests w; clock := S (clock w);
      mgr := mgr w; scanner := scanner w; sent := sent w |}).

Definition log_request (r : Plex.Request) (e : option Py.exn) (w : World)
  : World :=
  {| db := db w; requests := requests w ++ [(r, e)]; clock := clock w;
     mgr := mgr w; scanner := scanner w; sent := sent w |}.

(** [UPDATE scans SET ... WHERE id = scan_id]. *)
Definition update_scan (scan_id : nat) (f : Scan -> Scan) (d : Db) : Db :=
  {| scans := map (fun s => if (id s =? scan_id)%nat then f s else s) (scans d);
     scan_events := scan_events d;
     issues := issues d;
     edition_backups := edition_backups d;
     edition_config := edition_config d;
     plex_url := plex_url d;
     plex_token := plex_token d |}.

Definition add_scan (s : Scan) (d : Db) : Db :=
  {| scans := scans d ++ [s];
     scan_events := scan_events d;
     issues := issues d;
     edition_backups := edition_backups d;
     edition_config := edition_config d;
     plex_url := plex_url d;
     plex_token := plex_token d |}.

Definition add_scan_event (e : ScanEvent) (d : Db) : Db :=
  {| scans := scans d;
     scan_events := scan_events d ++ [e];
     issues := issues d;
     edition_backups := edition_backups d;
     edition_config := edition_config d;
     plex_url := plex_url d;
     plex_token := plex_token d |}.

Definition add_issue (i : Issue) (d : Db) : Db :=
  {| scans := scans d;
     scan_events := scan_events d;
     issues := issues d ++ [i];
     edition_backups := edition_backups d;
     edition_config := edition_config d;
     plex_url := plex_url d;
     plex_token := plex_token d |}.

Definition add_backup (b : EditionBackup) (d : Db) : Db :=
  {| scans := scans d;
     scan_events := scan_events d;
     issues := issues d;
     edition_backups := edition_backups d ++ [b];
     edition_config := edition_config d;
     plex_url := plex_url d;
     plex_token := plex_token d |}.

(** The row of a scan, if there is one. *)
Definition find_scan (scan_id : nat) (w : World) : option Scan :=
  find (fun s => (id s =? scan_id)%nat) (scans (db w)).

End Sys.

(** ** services/plex_service.py: the calls *)

Module PlexService.

Import Sys.

(** [PlexService._request]: the server's answer is returned or raised, the
    request is on record. *)
Definition _request {A : Type} (answer : Py.res A) (r : Plex.Request)
    (w : World) : Py.res A * World :=
  (answer,
   log_request r
     (match answer with
      | Py.Ok _ => None
      | Py.Raise e => Some e
      end) w).

(** [PlexService.get_libraries]: the ids of the video libraries. *)
Definition get_libraries (srv : Plex.Server) (w : World)
  : Py.res (list string) * World :=
  _request (Plex.sections srv (length (requests w))) Plex.GetSections w.

(** [PlexService.get_all_library_items]; the pages of one library are one
    answer, an exception on any page is the exception of the call. *)
Definition get_all_library_items (srv : Plex.Server) (library_id : string)
    (w : World) : Py.res (list Plex.PlexItem) * World :=
  _request (Plex.section_items srv (length (requests w)) library_id)
    (Plex.GetSectionItems library_id) w.

(** [PlexService.get_item_metadata]: every exception is caught and turned
    into [None]. *)
Definition get_item_metadata (srv : Plex.Server) (rating_key : string)
    (w : World) : option Plex.PlexItem * World :=
  let '(r, w1) :=
    _request (Plex.metadata srv (length (requests w)) rating_key)
      (Plex.GetMetadata rating_key) w in
  match r with
  | Py.Raise _ => (None, w1)
  | Py.Ok [] => (None, w1)
  | Py.Ok (md :: _) => (Some (Plex.item_of_metadata md), w1)
  end.

(** [PlexService.set_edition]: every exception is caught and turned into
    [False]. *)
Definition set_edition (srv : Plex.Server) (rating_key edition_title : string)
    (w : World) : bool * World :=
  let '(r, w1) :=
    _request (Plex.put_edition srv (length (requests w)) rating_key edition_title)
      (Plex.PutEdition rating_key edition_title) w in
  match r with
  | Py.Raise _ => (false, w1)
  | Py.Ok _ => (true, w1)
  end.

End PlexService.

(** ** services/edition_manager.py *)

Module EditionManager.

Import Sys.

(** An entry of [MODULE_REGISTRY]: the name and the [extract] of the module
    (already given the settings).  The source registers 22 modules; the
    functions below work for any registry. *)
Definition Registry : Type :=
  list (string * (Plex.Metadata -> Py.res (option string))).

(** The registry restricted to the module embedded in [EditionModules]. *)
Definition resolution_registry : Registry :=
  [("Resolution", fun md => Py.Ok (EditionModules.extract md))].

Fixpoint registry_get (reg : Registry) (name : string)
  : option (Plex.Metadata -> Py.res (option string)) :=
  match reg with
  | [] => None
  | (n, f) :: rest => if String.eqb n name then Some f else registry_get rest name
  end.

Definition mem (name : string) (l : list string) : bool :=
  existsb (String.eqb name) l.

(** [EditionManager._get_plex_service]. *)
Definition _get_plex_service (w : World) : Py.res unit :=
  if Py.truthy (plex_url (db w)) && Py.truthy (plex_token (db w))
  then Py.Ok tt
  else Py.Raise Py.ValueError.

Definition default_enabled : list string :=
  ["Resolution"; "DynamicRange"; "AudioCodec"; "AudioChannels"; "Cut";
   "Release"].

(** The loop of [get_config] that appends the modules missing from the
    saved order. *)
Fixpoint complete_order (all_modules saved_order : list string)
  : list string :=
  match all_modules with
  | [] => saved_order
  | m :: rest =>
      complete_order rest
        (if mem m saved_order then saved_order else saved_order ++ [m])
  end.

(** [EditionManager.get_config]: enabled modules, order and separator. *)
Definition get_config (reg : Registry) (w : World)
  : list string * list string * string :=
  let all_modules := map fst reg in
  match edition_config (db w) with
  | None => (default_enabled, all_modules, " . ")
  | Some config =>
      (enabled_modules config,
       complete_order all_modules (module_order config),
       Plex.or_default (separator config) " . ")
  end.

(** The loop of [generate_edition] over [module_order]. *)
Fixpoint collect_parts (reg : Registry) (enabled : list string)
    (md : Plex.Metadata) (order : list string) : list string :=
  match order with
  | [] => []
  | module_name :: rest =>
      let tail := collect_parts reg enabled md rest in
      if negb (mem module_name enabled) then tail
      else
        match registry_get reg module_name with
        | None => tail
        | Some extract =>
            match extract md with
            | Py.Ok (Some v) => if String.eqb v "" then tail else v :: tail
            | Py.Ok None => tail
            | Py.Raise _ => tail
            end
        end
  end.

(** [EditionManager.generate_edition]. *)
Definition generate_edition (reg : Registry) (srv : Plex.Server)
    (rating_key : string) (w : World) : Py.res (option string) * World :=
  match _get_plex_service w with
  | Py.Raise e => (Py.Raise e, w)
  | Py.Ok _ =>
      let '(r, w1) :=
        PlexService._request
          (Plex.metadata srv (length (requests w)) rating_key)
          (Plex.GetMetadata rating_key) w in
      match r with
      | Py.Raise _ => (Py.Ok None, w1)
      | Py.Ok [] => (Py.Ok None, w1)
      | Py.Ok (md :: _) =>
          let '(enabled, order, sep) := get_config reg w1 in
          match collect_parts reg enabled md order with
          | [] => (Py.Ok None, w1)
          | parts => (Py.Ok (Some (String.concat sep parts)), w1)
          end
      end
  end.

(** The backup rows of an item. *)
Definition backups_of (rating_key : string) (w : World)
  : list EditionBackup :=
  List.filter (fun b => String.eqb (plex_rating_key b) rating_key)
    (edition_backups (db w)).

(** [EditionManager.backup_edition]; [scalar_one_or_none] raises when the
    query finds more than one row. *)
Definition backup_edition (srv : Plex.Server) (rating_key : string)
    (w : World) : Py.res unit * World :=
  match backups_of rating_key w with
  | _ :: _ :: _ => (Py.Raise Py.MultipleResultsFound, w)
  | [_] => (Py.Ok tt, w)
  | [] =>
      match _get_plex_service w with
      | Py.Raise e => (Py.Raise e, w)
      | Py.Ok _ =>
          match PlexService.get_item_metadata srv rating_key w with
          | (None, w1) => (Py.Ok tt, w1)
          | (Some item, w1) =>
              (Py.Ok tt,
               set_db (add_backup
                         {| plex_rating_key := rating_key;
                            title := Plex.title item;
                            original_edition := Plex.edition_title item |})
                 w1)
          end
      end
  end.

(** [EditionManager.apply_edition]. *)
Definition apply_edition (srv : Plex.Server) (rating_key edition_string : string)
    (w : World) : Py.res bool * World :=
  match _get_plex_service w with
  | Py.Raise e => (Py.Raise e, w)
  | Py.Ok _ =>
      match backup_edition srv rating_key w with
      | (Py.Raise e, w1) => (Py.Raise e, w1)
      | (Py.Ok _, w1) =>
          let '(ok, w2) := PlexService.set_edition srv rating_key edition_string w1 in
          (Py.Ok ok, w2)
      end
  end.

(** The invariant as the specification words it, for one call: if the call
    wrote to the server, the item has a backup row at that moment (nothing
    touches the table after the write, so this is the table of the final
    state). *)
Definition backed_up_when_written (srv : Plex.Server)
    (rating_key edition_string : string) (w : World) : Prop :=
  let w' := snd (apply_edition srv rating_key edition_string w) in
  In (Plex.PutEdition rating_key edition_string, None)
     (skipn (length (requests w)) (requests w')) ->
  backups_of rating_key w' <> [].

End EditionManager.

(** ** services/scan_manager.py *)

Module ScanManager.

Import Sys.

(** The [config] dict of a scan; a field is [None] when the key is absent
    and the default of the matching [config.get] applies. *)
Record Config : Type := mkConfig {
  c_scan_type : option string;
  c_triggered_by : option string;
  c_check_posters : option bool;
  c_check_backgrounds : option bool;
  c_check_logos : option bool;
  c_check_unmatched : option bool;
  c_check_placeholders : option bool;
  c_edition_enabled : option bool;
  c_libraries : list string;
  c_checkpoint_interval : option Z
}.

(** Calls the HTTP handlers make on the manager while the scan task is
    suspended. *)
Inductive Control : Type := CtlPause | CtlResume | CtlCancel.

(** The awaits at which the scan task is suspended and the other
    coroutines get to run: the request for the list of libraries, the
    request for the items of the [k]-th library, the wait at the closed
    pause gate before the item numbered [k] (counting from 0 over the whole
    scan), the processing of the item numbered [k], and the UPDATE and
    commit of the [_mark_scan_...] call that ends the run. *)
Inductive Await : Type :=
| AwResolve
| AwEnum (k : nat)
| AwGate (k : nat)
| AwItem (k : nat)
| AwMark.

Definition Await_eqb (a b : Await) : bool :=
  match a, b with
  | AwResolve, AwResolve => true
  | AwEnum j, AwEnum k => (j =? k)%nat
  | AwGate j, AwGate k => (j =? k)%nat
  | AwItem j, AwItem k => (j =? k)%nat
  | AwMark, AwMark => true
  | _, _ => false
  end.

(** What the rest of the process does while the scan task is suspended:
    the calls the HTTP handlers make on the manager at each await (each
    call runs to its end before the next one and before the scan goes on),
    and the await, if any, at which the task of the scan is cancelled from
    outside (nothing in the program cancels it: [_scan_task] is never
    assigned; the event loop does when it shuts down).  A cancelled task
    is resumed with [asyncio.CancelledError], which no [except Exception]
    catches. *)
Record Schedule : Type := mkSchedule {
  during_resolve : list Control;
  during_enum : nat -> list Control;
  at_gate : nat -> list Control;
  during_item : nat -> list Control;
  during_mark : list Control;
  task_cancelled : option Await
}.

(** Whether the task is resumed from the await [a] with
    [CancelledError]. *)
Definition cancelled_at (sched : Schedule) (a : Await) : bool :=
  match task_cancelled sched with
  | Some a' => Await_eqb a a'
  | None => false
  end.

(** [ScanManager.is_running]. *)
Definition is_running (w : World) : bool :=
  match _status (mgr w) with
  | RUNNING | PAUSED => true
  | _ => false
  end.

Definition set_status (s : ScanStatus) (m : Manager) : Manager :=
  {| _status := s;
     _current_scan_id := _current_scan_id m;
     _cancel_requested := _cancel_requested m;
     _pause_event := _pause_event m;
     _progress := _progress m |}.

Definition set_pause_event (b : bool) (m : Manager) : Manager :=
  {| _status := _status m;
     _current_scan_id := _current_scan_id m;
     _cancel_requested := _cancel_requested m;
     _pause_event := b;
     _progress := _progress m |}.

Definition set_cancel_requested (b : bool) (m : Manager) : Manager :=
  {| _status := _status m;
     _current_scan_id := _current_scan_id m;
     _cancel_requested := b;
     _pause_event := _pause_event m;
     _progress := _progress m |}.

Definition set_progress (f : Progress -> Progress) (m : Manager) : Manager :=
  {| _status := _status m;
     _current_scan_id := _current_scan_id m;
     _cancel_requested := _cancel_requested m;
     _pause_event := _pause_event m;
     _progress := f (_progress m) |}.

Definition zero_progress : Progress :=
  {| processed := 0; total := 0; p_issues_found := 0;
     p_editions_updated := 0; p_current_library := None;
     p_current_item := None |}.

(** The next value of the autoincrement key of [scans]. *)
Definition next_id (d : Db) : nat :=
  S (fold_right Nat.max 0%nat (map id (scans d))).

(** [ScanManager.start_scan]; [None] is [ScanAlreadyRunningError]. *)
Definition start_scan (config : Config) (w : World) : option nat * World :=
  if is_running w then (None, w)
  else
    let '(now, w1) := utcnow w in
    let scan_id := next_id (db w1) in
    let scan :=
      {| id := scan_id;
         scan_type := Plex.or_default (c_scan_type config) "artwork";
         status := "running";
         total_items := 0;
         processed_items := 0;
         issues_found := 0;
         editions_updated := 0;
         current_library := None;
         checkpoint := None;
         triggered_by := Plex.or_default (c_triggered_by config) "manual";
         started_at := Some now;
         paused_at := None;
         completed_at := None |} in
    let w2 := set_db (add_scan scan) w1 in
    let w3 :=
      set_mgr (fun _ =>
        {| _status := RUNNING;
           _current_scan_id := Some scan_id;
           _cancel_requested := false;
           _pause_event := true;
           _progress := zero_progress |}) w2 in
    let w4 :=
      set_db (add_scan_event {| ev_scan_id := scan_id; event_type := "started" |})
        w3 in
    (Some scan_id, _broadcast (scan_started scan_id) w4).

(** [ScanManager._save_issue]. *)
Definition _save_issue (scan_id : nat) (issue : ArtworkScanner.ArtworkIssue)
    (w : World) : World :=
  set_db (add_issue {| is_scan_id := scan_id; is_issue := issue;
                       is_status := "pending" |}) w.

(** [ScanManager._save_checkpoint]. *)
Definition _save_checkpoint (scan_id : nat)
    (processed issues_found editions_updated : Z) (current_library : string)
    (w : World) : World :=
  let '(now, w1) := utcnow w in
  let cp := {| cp_processed := processed;
               cp_current_library := current_library;
               cp_timestamp := now |} in
  set_db (update_scan scan_id (fun s =>
    {| id := id s; scan_type := scan_type s; status := status s;
       total_items := total_items s;
       processed_items := processed;
       issues_found := issues_found;
       editions_updated := editions_updated;
       current_library := Some current_library;
       checkpoint := Some cp;
       triggered_by := triggered_by s; started_at := started_at s;
       paused_at := paused_at s; completed_at := completed_at s |})) w1.

(** [if self._current_scan_id:] is false for [None] and for [0]. *)
Definition truthy_id (i : option nat) : option nat :=
  match i with
  | Some (S n) => Some (S n)
  | _ => None
  end.

(** [ScanManager.pause_scan]. *)
Definition pause_scan (w : World) : bool * World :=
  match _status (mgr w) with
  | RUNNING =>
      let w1 := set_mgr (set_pause_event false) w in
      let w2 := set_mgr (set_status PAUSED) w1 in
      let w3 :=
        match truthy_id (_current_scan_id (mgr w2)) with
        | Some scan_id =>
            let '(now, wa) := utcnow w2 in
            let wb :=
              set_db (update_scan scan_id (fun s =>
                {| id := id s; scan_type := scan_type s;
                   status := "paused";
                   total_items := total_items s;
                   processed_items := processed_items s;
                   issues_found := issues_found s;
                   editions_updated := editions_updated s;
                   current_library := current_library s;
                   checkpoint := checkpoint s;
                   triggered_by := triggered_by s; started_at := started_at s;
                   paused_at := Some now;
                   completed_at := completed_at s |})) wa in
            set_db (add_scan_event
                      {| ev_scan_id := scan_id; event_type := "paused" |}) wb
        | None => w2
        end in
      (true, _broadcast (scan_paused (_current_scan_id (mgr w3))) w3)
  | _ => (false, w)
  end.

(** [ScanManager.resume_scan]. *)
Definition resume_scan (w : World) : bool * World :=
  match _status (mgr w) with
  | PAUSED =>
      let w1 := set_mgr (set_pause_event true) w in
      let w2 := set_mgr (set_status RUNNING) w1 in
      let w3 :=
        match truthy_id (_current_scan_id (mgr w2)) with
        | Some scan_id =>
            let wb :=
              set_db (update_scan scan_id (fun s =>
                {| id := id s; scan_type := scan_type s;
                   status := "running";
                   total_items := total_items s;
                   processed_items := processed_items s;
                   issues_found := issues_found s;
                   editions_updated := editions_updated s;
                   current_library := current_library s;
                   checkpoint := checkpoint s;
                   triggered_by := triggered_by s; started_at := started_at s;
                   paused_at := None;
                   completed_at := completed_at s |})) w2 in
            set_db (add_scan_event
                      {| ev_scan_id := scan_id; event_type := "resumed" |}) wb
        | None => w2
        end in
      (true, _broadcast (scan_resumed (_current_scan_id (mgr w3))) w3)
  | _ => (false, w)
  end.

(** [ScanManager.cancel_scan]. *)
Definition cancel_scan (w : World) : bool * World :=
  if negb (is_running w) then (false, w)
  else
    let w1 := set_mgr (set_cancel_requested true) w in
    (true, set_mgr (set_pause_event true) w1).

Definition control (c : Control) (w : World) : World :=
  match c with
  | CtlPause => snd (pause_scan w)
  | CtlResume => snd (resume_scan w)
  | CtlCancel => snd (cancel_scan w)
  end.

(** The other coroutines run their calls one after the other. *)
Definition controls (cs : list Control) (w : World) : World :=
  fold_left (fun w c => control c w) cs w.

(** How a piece of [_execute_scan] ends: it runs to its end, it executes
    the [return] of the cancellation branch, it raises an exception, it
    waits for ever at the pause gate because nobody opens it, or the task
    is cancelled and [CancelledError] travels up. *)
Inductive Flow (A : Type) : Type :=
| Done (a : A) (w : World)
| Returned (w : World)
| Raised (e : Py.exn) (w : World)
| Blocked (w : World)
| Cancelled (w : World).
Arguments Done {A} a w.
Arguments Returned {A} w.
Arguments Raised {A} e w.
Arguments Blocked {A} w.
Arguments Cancelled {A} w.

(** The world a piece of [_execute_scan] leaves. *)
Definition world_of {A : Type} (f : Flow A) : World :=
  match f with
  | Done _ w => w
  | Returned w => w
  | Raised _ w => w
  | Blocked w => w
  | Cancelled w => w
  end.

Definition raised {A : Type} (f : Flow A) : bool :=
  match f with
  | Raised _ _ => true
  | _ => false
  end.

Definition cancelled {A : Type} (f : Flow A) : bool :=
  match f with
  | Cancelled _ => true
  | _ => false
  end.

(** [x = await f; g(x)]: what follows a call that did not run to its end
    is not executed. *)
Definition bind {A B : Type} (f : Flow A) (g : A -> World -> Flow B)
  : Flow B :=
  match f with
  | Done a w => g a w
  | Returned w => Returned w
  | Raised e w => Raised e w
  | Blocked w => Blocked w
  | Cancelled w => Cancelled w
  end.

(** [await f; return]. *)
Definition and_return {A B : Type} (f : Flow A) : Flow B :=
  bind f (fun _ w => Returned w).

(** The UPDATE of [_mark_scan_completed] and its event row. *)
Definition completed_writes (scan_id : nat)
    (processed issues_found editions_updated : Z) (w : World) : World :=
  let '(now, w1) := utcnow w in
  let w2 :=
    set_db (update_scan scan_id (fun s =>
      {| id := id s; scan_type := scan_type s;
         status := "completed";
         total_items := total_items s;
         processed_items := processed;
         issues_found := issues_found;
         editions_updated := editions_updated;
         current_library := current_library s;
         checkpoint := None;
         triggered_by := triggered_by s; started_at := started_at s;
         paused_at := paused_at s;
         completed_at := Some now |})) w1 in
  set_db (add_scan_event {| ev_scan_id := scan_id; event_type := "completed" |})
    w2.

(** The UPDATE of [_mark_scan_cancelled] and its event row. *)
Definition cancelled_writes (scan_id : nat) (w : World) : World :=
  let '(now, w1) := utcnow w in
  let w2 :=
    set_db (update_scan scan_id (fun s =>
      {| id := id s; scan_type := scan_type s;
         status := "cancelled";
         total_items := total_items s;
         processed_items := processed_items s;
         issues_found := issues_found s;
         editions_updated := editions_updated s;
         current_library := current_library s;
         checkpoint := checkpoint s;
         triggered_by := triggered_by s; started_at := started_at s;
         paused_at := paused_at s;
         completed_at := Some now |})) w1 in
  set_db (add_scan_event {| ev_scan_id := scan_id; event_type := "cancelled" |})
    w2.

(** The UPDATE of [_mark_scan_failed] and its event row. *)
Definition failed_writes (scan_id : nat) (w : World) : World :=
  let '(now, w1) := utcnow w in
  let w2 :=
    set_db (update_scan scan_id (fun s =>
      {| id := id s; scan_type := scan_type s;
         status := "failed";
         total_items := total_items s;
         processed_items := processed_items s;
         issues_found := issues_found s;
         editions_updated := editions_updated s;
         current_library := current_library s;
         checkpoint := checkpoint s;
         triggered_by := triggered_by s; started_at := started_at s;
         paused_at := paused_at s;
         completed_at := Some now |})) w1 in
  set_db (add_scan_event {| ev_scan_id := scan_id; event_type := "failed" |})
    w2.

(** What the three [_mark_scan_...] calls do after their writes.  They
    await the UPDATE and the commit before they assign [_status]: the
    manager still says RUNNING or PAUSED meanwhile, so the calls of
    [during_mark] are accepted, and their own UPDATE lands after the one
    of the scan.  Then [_status] is assigned and the event broadcast,
    unless the task was cancelled at this await (the writes stay in the
    tables then: rollbacks are not modelled). *)
Definition finish_mark (sched : Schedule) (s : ScanStatus) (ev : Event)
    (w : World) : Flow unit :=
  let w1 := controls (during_mark sched) w in
  if cancelled_at sched AwMark then Cancelled w1
  else Done tt (_broadcast ev (set_mgr (set_status s) w1)).

(** [ScanManager._mark_scan_completed]. *)
Definition _mark_scan_completed (sched : Schedule) (scan_id : nat)
    (processed issues_found editions_updated : Z) (w : World) : Flow unit :=
  finish_mark sched COMPLETED
    (scan_completed scan_id processed issues_found editions_updated)
    (completed_writes scan_id processed issues_found editions_updated w).

(** [ScanManager._mark_scan_cancelled]. *)
Definition _mark_scan_cancelled (sched : Schedule) (scan_id : nat)
    (w : World) : Flow unit :=
  finish_mark sched CANCELLED (scan_cancelled scan_id)
    (cancelled_writes scan_id w).

(** [ScanManager._mark_scan_failed]. *)
Definition _mark_scan_failed (sched : Schedule) (scan_id : nat)
    (error : Py.exn) (w : World) : Flow unit :=
  finish_mark sched FAILED (scan_failed scan_id error)
    (failed_writes scan_id w).

(** The local variables [processed], [issues_found], [editions_updated]. *)
Definition Counters : Type := (Z * Z * Z)%type.

(** [library_items[lib_id] = items] on a dict that keeps insertion order. *)
Fixpoint dict_set (k : string) (v : list Plex.PlexItem)
    (d : list (string * list Plex.PlexItem))
  : list (string * list Plex.PlexItem) :=
  match d with
  | [] => [(k, v)]
  | (k', v') :: rest =>
      if String.eqb k' k then (k, v) :: rest
      else (k', v') :: dict_set k v rest
  end.

Definition flag (o : option bool) : bool :=
  match o with
  | Some b => b
  | None => true
  end.

(** The scanner [_execute_scan] constructs from the config. *)
Definition scanner_of (config : Config) : ArtworkScanner.Scanner :=
  {| ArtworkScanner.check_posters := flag (c_check_posters config);
     ArtworkScanner.check_backgrounds := flag (c_check_backgrounds config);
     ArtworkScanner.check_logos := flag (c_check_logos config);
     ArtworkScanner.check_unmatched := flag (c_check_unmatched config);
     ArtworkScanner.check_placeholders := flag (c_check_placeholders config) |}.

Definition scan_type_of (config : Config) : string :=
  Plex.or_default (c_scan_type config) "artwork".

Definition run_artwork (config : Config) : bool :=
  String.eqb (scan_type_of config) "artwork"
  || String.eqb (scan_type_of config) "both".

Definition run_edition (config : Config) : bool :=
  String.eqb (scan_type_of config) "edition"
  || String.eqb (scan_type_of config) "both".

Definition checkpoint_interval (config : Config) : Z :=
  match c_checkpoint_interval config with
  | Some n => n
  | None => 100
  end.

(** The first loop of [_execute_scan]: the items of every library, and
    their number. *)
Fixpoint enumerate (srv : Plex.Server) (sched : Schedule) (k : nat)
    (library_ids : list string)
    (library_items : list (string * list Plex.PlexItem)) (total_items : Z)
    (w : World)
  : Flow (list (string * list Plex.PlexItem) * Z) :=
  match library_ids with
  | [] => Done (library_items, total_items) w
  | lib_id :: rest =>
      if _cancel_requested (mgr w)
      then Done (library_items, total_items) w
      else
        let '(r, w1) := PlexService.get_all_library_items srv lib_id w in
        let w2 := controls (during_enum sched k) w1 in
        if cancelled_at sched (AwEnum k) then Cancelled w2
        else
          match r with
          | Py.Raise e => Raised e w2
          | Py.Ok items =>
              enumerate srv sched (S k) rest
                (dict_set lib_id items library_items)
                (total_items + Z.of_nat (length items)) w2
          end
  end.

(** The artwork half of the [try] block. *)
Definition artwork_scan (srv : Plex.Server) (sc : ArtworkScanner.Scanner)
    (scan_id : nat) (item : Plex.PlexItem) (issues_found : Z) (w : World)
  : Z * World :=
  let '(found, st) := ArtworkScanner.scan_item srv sc (scanner w) item in
  (issues_found + Z.of_nat (length found),
   fold_left (fun w i => _save_issue scan_id i w) found (set_scanner st w))%Z.

(** The edition half of the [try] block. *)
Definition edition_scan (reg : EditionManager.Registry) (srv : Plex.Server)
    (item : Plex.PlexItem) (editions_updated : Z) (w : World)
  : Py.res Z * World :=
  match EditionManager.generate_edition reg srv (Plex.rating_key item) w with
  | (Py.Raise e, w1) => (Py.Raise e, w1)
  | (Py.Ok None, w1) => (Py.Ok editions_updated, w1)
  | (Py.Ok (Some edition), w1) =>
      let current_edition := Plex.or_default (Plex.edition_title item) "" in
      if String.eqb edition current_edition
      then (Py.Ok editions_updated, w1)
      else
        match EditionManager.apply_edition srv (Plex.rating_key item) edition w1 with
        | (Py.Raise e, w2) => (Py.Raise e, w2)
        | (Py.Ok _, w2) => (Py.Ok (editions_updated + 1)%Z, w2)
        end
  end.

(** The [try ... except Exception] of the item loop: whatever is raised
    inside is logged and dropped. *)
Definition try_item (reg : EditionManager.Registry) (srv : Plex.Server)
    (config : Config) (scan_id : nat) (item : Plex.PlexItem)
    (issues_found editions_updated : Z) (w : World) : Z * Z * World :=
  let '(issues_found1, w1) :=
    if run_artwork config
    then artwork_scan srv (scanner_of config) scan_id item issues_found w
    else (issues_found, w) in
  if run_edition config && flag (c_edition_enabled config)
     && String.eqb (Plex.type item) "movie"
  then
    match edition_scan reg srv item editions_updated w1 with
    | (Py.Ok editions_updated1, w2) => (issues_found1, editions_updated1, w2)
    | (Py.Raise _, w2) => (issues_found1, editions_updated, w2)
    end
  else (issues_found1, editions_updated, w1).

(** One round of the loop [for item in items]. *)
Definition item_step (reg : EditionManager.Registry) (srv : Plex.Server)
    (sched : Schedule) (config : Config) (scan_id : nat) (total_items : Z)
    (lib_id lib_name : string) (item : Plex.PlexItem) (c : Counters)
    (w : World) : Flow Counters :=
  let '(processed, issues_found, editions_updated) := c in
  if _cancel_requested (mgr w)
  then and_return (_mark_scan_cancelled sched scan_id w)
  else
    let k := Z.to_nat processed in
    let w0 := if _pause_event (mgr w) then w else controls (at_gate sched k) w in
    if negb (_pause_event (mgr w)) && cancelled_at sched (AwGate k)
    then Cancelled w0
    else if negb (_pause_event (mgr w0)) then Blocked w0
    else
      let w1 :=
        set_mgr (set_progress (fun p =>
          {| Sys.processed := Sys.processed p; total := total p;
             p_issues_found := p_issues_found p;
             p_editions_updated := p_editions_updated p;
             p_current_library := p_current_library p;
             p_current_item := Some (Plex.title item) |})) w0 in
      let '(issues_found1, editions_updated1, w2) :=
        try_item reg srv config scan_id item issues_found editions_updated w1 in
      let w3 := controls (during_item sched k) w2 in
      if cancelled_at sched (AwItem k) then Cancelled w3
      else
        let processed1 := (processed + 1)%Z in
        let w4 :=
          set_mgr (set_progress (fun p =>
            {| Sys.processed := processed1; total := total p;
               p_issues_found := issues_found1;
               p_editions_updated := editions_updated1;
               p_current_library := p_current_library p;
               p_current_item := p_current_item p |})) w3 in
        if (checkpoint_interval config =? 0)%Z
        then Raised Py.ZeroDivisionError w4
        else
          let w5 :=
            if (processed1 mod checkpoint_interval config =? 0)%Z
            then _save_checkpoint scan_id processed1 issues_found1
                   editions_updated1 lib_id w4
            else w4 in
          let w6 :=
            if (processed1 mod 5 =? 0)%Z
            then _broadcast (scan_progress scan_id processed1 total_items
                               issues_found1 editions_updated1
                               (Plex.title item) lib_name) w5
            else w5 in
          Done (processed1, issues_found1, editions_updated1) w6.

(** The loop [for item in items]. *)
Fixpoint items_loop (reg : EditionManager.Registry) (srv : Plex.Server)
    (sched : Schedule) (config : Config) (scan_id : nat) (total_items : Z)
    (lib_id lib_name : string) (items : list Plex.PlexItem) (c : Counters)
    (w : World) : Flow Counters :=
  match items with
  | [] => Done c w
  | item :: rest =>
      match item_step reg srv sched config scan_id total_items lib_id
              lib_name item c w with
      | Done c1 w1 =>
          items_loop reg srv sched config scan_id total_items lib_id
            lib_name rest c1 w1
      | other => other
      end
  end.

(** The loop [for lib_id, items in library_items.items()]; its [break]
    leaves the loop, what follows the loop is still executed. *)
Fixpoint libraries_loop (reg : EditionManager.Registry) (srv : Plex.Server)
    (sched : Schedule) (config : Config) (scan_id : nat) (total_items : Z)
    (library_items : list (string * list Plex.PlexItem)) (c : Counters)
    (w : World) : Flow Counters :=
  match library_items with
  | [] => Done c w
  | (lib_id, items) :: rest =>
      if _cancel_requested (mgr w) then Done c w
      else
        let lib_name :=
          match items with
          | first :: _ => Plex.library_name first
          | [] => "Unknown"
          end in
        let w1 :=
          set_mgr (set_progress (fun p =>
            {| processed := processed p; total := total p;
               p_issues_found := p_issues_found p;
               p_editions_updated := p_editions_updated p;
               p_current_library := Some lib_name;
               p_current_item := p_current_item p |})) w in
        match items_loop reg srv sched config scan_id total_items lib_id
                lib_name items c w1 with
        | Done c1 w2 =>
            libraries_loop reg srv sched config scan_id total_items rest c1 w2
        | other => other
        end
  end.

(** The library ids of the config, or those of all video libraries. *)
Definition resolve_libraries (srv : Plex.Server) (sched : Schedule)
    (config : Config) (w : World) : Flow (list string) :=
  match c_libraries config with
  | [] =>
      let '(r, w1) := PlexService.get_libraries srv w in
      let w2 := controls (during_resolve sched) w1 in
      if cancelled_at sched AwResolve then Cancelled w2
      else
        match r with
        | Py.Raise e => Raised e w2
        | Py.Ok ids => Done ids w2
        end
  | ids => Done ids w
  end.

(** [ScanManager._execute_scan]. *)
Definition _execute_scan (reg : EditionManager.Registry) (srv : Plex.Server)
    (sched : Schedule) (scan_id : nat) (config : Config) (w : World)
  : Flow unit :=
  match EditionManager._get_plex_service w with
  | Py.Raise e => Raised e w
  | Py.Ok _ =>
      let w0 := set_scanner ArtworkScanner.fresh w in
      bind (resolve_libraries srv sched config w0) (fun library_ids w1 =>
      bind (enumerate srv sched 0 library_ids [] 0 w1)
        (fun '(library_items, total_items) w2 =>
      let w3 :=
        set_mgr (set_progress (fun p =>
          {| processed := processed p; total := total_items;
             p_issues_found := p_issues_found p;
             p_editions_updated := p_editions_updated p;
             p_current_library := p_current_library p;
             p_current_item := p_current_item p |})) w2 in
      let w4 :=
        set_db (update_scan scan_id (fun s =>
          {| id := id s; scan_type := scan_type s; status := status s;
             total_items := total_items;
             processed_items := processed_items s;
             issues_found := issues_found s;
             editions_updated := editions_updated s;
             current_library := current_library s;
             checkpoint := checkpoint s;
             triggered_by := triggered_by s;
             started_at := started_at s;
             paused_at := paused_at s;
             completed_at := completed_at s |})) w3 in
      let w5 := _broadcast (scan_progress_total scan_id total_items) w4 in
      bind (libraries_loop reg srv sched config scan_id total_items
              library_items (0, 0, 0)%Z w5)
        (fun '(processed, issues_found, editions_updated) w6 =>
      _mark_scan_completed sched scan_id processed issues_found
        editions_updated w6)))
  end.

(** The [finally] of [run_scan]. *)
Definition back_to_idle (m : Manager) : Manager :=
  {| _status := IDLE;
     _current_scan_id := None;
     _cancel_requested := _cancel_requested m;
     _pause_event := _pause_event m;
     _progress := _progress m |}.

(** [ScanManager.run_scan]: the world it leaves, and whether the coroutine
    ended at all ([false]: the task waits at the pause gate for ever).
    A [CancelledError] out of [_execute_scan] is logged and nothing else;
    any other exception is handed to [_mark_scan_failed] (a
    [CancelledError] raised in there leaves [run_scan] as an exception);
    the [finally] runs in every case. *)
Definition run_scan (reg : EditionManager.Registry) (srv : Plex.Server)
    (sched : Schedule) (scan_id : nat) (config : Config) (w : World)
  : World * bool :=
  match _execute_scan reg srv sched scan_id config w with
  | Done _ w1 => (set_mgr back_to_idle w1, true)
  | Returned w1 => (set_mgr back_to_idle w1, true)
  | Cancelled w1 => (set_mgr back_to_idle w1, true)
  | Raised e w1 =>
      (set_mgr back_to_idle (world_of (_mark_scan_failed sched scan_id e w1)),
       true)
  | Blocked w1 => (w1, false)
  end.

(** What the HTTP handler of [/start] does: [start_scan], then [run_scan]
    as a background task. *)
Definition start_and_run (reg : EditionManager.Registry) (srv : Plex.Server)
    (sched : Schedule) (config : Config) (w : World) : World * bool :=
  match start_scan config w with
  | (None, w1) => (w1, true)
  | (Some scan_id, w1) => run_scan reg srv sched scan_id config w1
  end.

(** The status column of a scan. *)
Definition status_of (scan_id : nat) (w : World) : option string :=
  option_map status (find_scan scan_id w).

(** The checkpoint column of a scan ([None] also when there is no row). *)
Definition checkpoint_of (scan_id : nat) (w : World) : option Checkpoint :=
  match find_scan scan_id w with
  | Some s => checkpoint s
  | None => None
  end.

(** The requests of library resolution and of item enumeration. *)
Definition enumeration_request (q : Plex.Request) : bool :=
  match q with
  | Plex.GetSections | Plex.GetSectionItems _ => true
  | _ => false
  end.

(** The requests made between two states of the world. *)
Definition new_requests (before after : World)
  : list (Plex.Request * option Py.exn) :=
  skipn (length (requests before)) (requests after).

(** The property as the specification words it, for the scan that
    [start_and_run] starts in [w]: if any request of the run was answered
    401, the row of the scan ends as failed. *)
Definition auth_error_is_fatal (reg : EditionManager.Registry)
    (srv : Plex.Server) (sched : Schedule) (config : Config) (w : World)
  : Prop :=
  let w' := fst (start_and_run reg srv sched config w) in
  (exists q, In (q, Some Py.PlexAuthenticationError) (new_requests w w')) ->
  status_of (next_id (db w)) w' = Some "failed".

(** The keys of table [scans]. *)
Definition scan_ids (w : World) : list nat := map id (scans (db w)).

(** [w'] has the requests and the scan keys of [w]. *)
Definition same (w w' : World) : Prop :=
  requests w' = requests w /\ scan_ids w' = scan_ids w.

(** [w'] has the scan keys of [w], and the requests of [w] followed by
    requests that satisfy [P]. *)
Definition ext (P : Plex.Request * option Py.exn -> Prop) (w w' : World)
  : Prop :=
  scan_ids w' = scan_ids w
  /\ exists extra, requests w' = requests w ++ extra /\ Forall P extra.

(** A request of the item loop. *)
Definition item_request (qe : Plex.Request * option Py.exn) : Prop :=
  enumeration_request (fst qe) = false.

(** A request that is not a failed enumeration request. *)
Definition clean (qe : Plex.Request * option Py.exn) : Prop :=
  enumeration_request (fst qe) = true -> snd qe = None.

End ScanManager.

(** ** Concrete servers, schedules and worlds *)

Module Scenarios.

Import Sys ScanManager.

(** A database with the media server configured and every table empty. *)
Definition configured_db : Db :=
  {| scans := []; scan_events := []; issues := []; edition_backups := [];
     edition_config := None;
     plex_url := Some "http://plex:32400"; plex_token := Some "token" |}.

(** The manager as [__init__] leaves it. *)
Definition idle : Manager :=
  {| _status := IDLE; _current_scan_id := None; _cancel_requested := false;
     _pause_event := true; _progress := zero_progress |}.

Definition initial_world : World :=
  {| db := configured_db; requests := []; clock := 0; mgr := idle;
     scanner := ArtworkScanner.fresh; sent := [] |}.

(** Nobody calls pause, resume or cancel. *)
Definition quiet : Schedule :=
  {| during_resolve := []; during_enum := fun _ => [];
     at_gate := fun _ => []; during_item := fun _ => [];
     during_mark := []; task_cancelled := None |}.

(** [cancel_scan] is called while item number [k] is being processed. *)
Definition cancel_during_item (k : nat) : Schedule :=
  {| during_resolve := []; during_enum := fun _ => [];
     at_gate := fun _ => [];
     during_item := fun n => if (n =? k)%nat then [CtlCancel] else [];
     during_mark := []; task_cancelled := None |}.

(** [pause_scan] is called while item 0 is being processed, [cancel_scan]
    while the scan waits at the gate before item 1. *)
Definition pause_then_cancel : Schedule :=
  {| during_resolve := []; during_enum := fun _ => [];
     at_gate := fun n => if (n =? 1)%nat then [CtlCancel] else [];
     during_item := fun n => if (n =? 0)%nat then [CtlPause] else [];
     during_mark := []; task_cancelled := None |}.

(** A matched movie with poster and background paths. *)
Definition movie (key library : string) : Plex.PlexItem :=
  {| Plex.rating_key := key; Plex.title := "Movie " +:+ key;
     Plex.year := None; Plex.type := "movie";
     Plex.guid := Some ("plex://movie/" +:+ key);
     Plex.thumb := Some ("/library/metadata/" +:+ key +:+ "/thumb");
     Plex.art := Some ("/library/metadata/" +:+ key +:+ "/art");
     Plex.library_name := library; Plex.added_at := None;
     Plex.edition_title := None; Plex.guids := [] |}.

(** Movies with the rating keys "0", "1", ..., up to [n - 1]. *)
Definition movies (n : nat) : list Plex.PlexItem :=
  map (fun i => movie (pretty i) "Movies") (seq 0 n).

(** Every image is a 1000x1500 poster or a 1920x1080 background. *)
Definition has_suffix (suffix s : string) : bool :=
  String.eqb
    (String.substring (String.length s - String.length suffix)
       (String.length suffix) s)
    suffix.

Definition good_image (url : string) : Plex.FetchOutcome :=
  if has_suffix "/thumb?X-Plex-Token=token" url
  then Plex.ImageSize 1000 1500
  else Plex.ImageSize 1920 1080.

(** A server with the given libraries (id and items) that answers every
    metadata request with an empty list. *)
Definition library_server (libs : list (string * list Plex.PlexItem))
  : Plex.Server :=
  {| Plex.base_url := "http://plex:32400";
     Plex.token := "token";
     Plex.sections := fun _ => Py.Ok (map fst libs);
     Plex.section_items := fun _ lib =>
       match find (fun l => String.eqb (fst l) lib) libs with
       | Some l => Py.Ok (snd l)
       | None => Py.Ok []
       end;
     Plex.metadata := fun _ _ => Py.Ok [];
     Plex.put_edition := fun _ _ _ => Py.Ok tt;
     Plex.image := fun _ url => good_image url |}.

(** The same, with a token that the server stops accepting after [n]
    requests: from then on every request is answered 401. *)
Definition revoking_server (n : nat)
    (libs : list (string * list Plex.PlexItem)) : Plex.Server :=
  let s := library_server libs in
  {| Plex.base_url := Plex.base_url s;
     Plex.token := Plex.token s;
     Plex.sections := fun k =>
       if (k <? n)%nat then Plex.sections s k
       else Py.Raise Py.PlexAuthenticationError;
     Plex.section_items := fun k lib =>
       if (k <? n)%nat then Plex.section_items s k lib
       else Py.Raise Py.PlexAuthenticationError;
     Plex.metadata := fun k key =>
       if (k <? n)%nat then Plex.metadata s k key
       else Py.Raise Py.PlexAuthenticationError;
     Plex.put_edition := fun k key e =>
       if (k <? n)%nat then Plex.put_edition s k key e
       else Py.Raise Py.PlexAuthenticationError;
     Plex.image := Plex.image s |}.

(** A server whose metadata requests time out while its edition writes
    succeed. *)
Definition timeout_server : Plex.Server :=
  {| Plex.base_url := "http://plex:32400";
     Plex.token := "token";
     Plex.sections := fun _ => Py.Ok [];
     Plex.section_items := fun _ _ => Py.Ok [];
     Plex.metadata := fun _ _ => Py.Raise Py.PlexConnectionError;
     Plex.put_edition := fun _ _ _ => Py.Ok tt;
     Plex.image := fun _ _ => Plex.FetchFailed |}.

(** The config the HTTP handler passes: every check on, no library list,
    no checkpoint interval. *)
Definition config_of (scan_type : string) : Config :=
  {| c_scan_type := Some scan_type; c_triggered_by := None;
     c_check_posters := Some true; c_check_backgrounds := Some true;
     c_check_logos := Some true; c_check_unmatched := Some true;
     c_check_placeholders := Some true; c_edition_enabled := Some true;
     c_libraries := []; c_checkpoint_interval := None |}.

(** One library of 101 movies. *)
Definition big_library : Plex.Server := library_server [("1", movies 101)].

(** Two libraries of one movie each. *)
Definition two_libraries : Plex.Server :=
  library_server [("1", [movie "a" "Movies"]); ("2", [movie "b" "Kids"])].

(** One library of three movies. *)
Definition small_library : Plex.Server := library_server [("1", movies 3)].

End Scenarios.

(** ** services/artwork_scanner.py: more of the scanner *)

Module ScannerMore.

Import ArtworkScanner.

(** The state of the scanner when [scan_item] reaches its background
    check: the poster check has run if the item has a poster. *)
Definition before_background (srv : Plex.Server) (sc : Scanner) (st : State)
    (item : Plex.PlexItem) : State :=
  if check_placeholders sc && Plex.has_poster item
  then snd (_check_placeholder_poster srv st item)
  else st.

(** The order in which [scan_item] appends the kinds of issue it can
    report after the unmatched test. *)
Definition report_order : list IssueType :=
  [NO_POSTER; NO_BACKGROUND; PLACEHOLDER_POSTER; PLACEHOLDER_BACKGROUND].

(** The image paths of an item: poster, then background. *)
Definition image_paths (item : Plex.PlexItem) : list string :=
  option_list (Plex.thumb item) ++ option_list (Plex.art item).

(** A matched movie with a poster and a background path. *)
Definition backdrop_item : Plex.PlexItem :=
  {| Plex.rating_key := "604"; Plex.title := "The Matrix Reloaded";
     Plex.year := Some 2003%Z; Plex.type := "movie";
     Plex.guid := Some "plex://movie/604";
     Plex.thumb := Some "/library/metadata/604/thumb";
     Plex.art := Some "/library/metadata/604/art";
     Plex.library_name := "Movies"; Plex.added_at := None;
     Plex.edition_title := None;
     Plex.guids := ["imdb://tt0234215"; "tmdb://604"] |}.

End ScannerMore.

(** ** services/providers/fanart.py *)

Module Fanart.

Import Schemas.

(** One element of an image array of the response.  [i_likes] is what
    [int(...)] makes of the [likes] field: [None] when the key is absent
    (the default 0 applies), [Raise] when [int] rejects the value. *)
Record Item : Type := mkItem {
  i_url : option string;
  i_lang : option string;
  i_likes : option (Py.res Z)
}.

(** [type_mapping.get(art_type, [])]. *)
Definition type_mapping (art_type : ArtworkType) : list string :=
  match art_type with
  | LOGO => ["hdmovielogo"; "hdtvlogo"; "clearlogo"]
  | POSTER => ["movieposter"; "tvposter"]
  | BACKGROUND => ["moviebackground"; "showbackground"]
  end.

(** [int(item.get("likes", 0))]. *)
Definition likes_of (item : Item) : Py.res Z :=
  match i_likes item with
  | Some r => r
  | None => Py.Ok 0%Z
  end.

(** The loop [for item in data[key]]. *)
Fixpoint parse_items (art_type : ArtworkType) (items : list Item)
  : Py.res (list ArtworkResult) :=
  match items with
  | [] => Py.Ok []
  | item :: rest =>
      match i_url item with
      | None => parse_items art_type rest
      | Some url =>
          if String.eqb url "" then parse_items art_type rest
          else
            Py.bind (likes_of item) (fun likes =>
            Py.bind (parse_items art_type rest) (fun results =>
            Py.Ok ({| source := FANART;
                      artwork_type := art_type;
                      image_url := url;
                      thumbnail_url := Some url;
                      language := i_lang item;
                      score := likes;
                      set_name := None;
                      creator_name := None |} :: results)))
      end
  end.

(** The loop [for key in fanart_keys]. *)
Fixpoint parse_keys (data : gmap string (list Item)) (art_type : ArtworkType)
    (fanart_keys : list string) : Py.res (list ArtworkResult) :=
  match fanart_keys with
  | [] => Py.Ok []
  | key :: rest =>
      Py.bind (match data !! key with
               | Some items => parse_items art_type items
               | None => Py.Ok []
               end) (fun first =>
      Py.bind (parse_keys data art_type rest) (fun others =>
      Py.Ok (first ++ others)))
  end.

(** [FanartProvider._parse_response]. *)
Fixpoint _parse_response (data : gmap string (list Item))
    (artwork_types : list ArtworkType) : Py.res (list ArtworkResult) :=
  match artwork_types with
  | [] => Py.Ok []
  | art_type :: rest =>
      Py.bind (parse_keys data art_type (type_mapping art_type)) (fun first =>
      Py.bind (_parse_response data rest) (fun others =>
      Py.Ok (first ++ others)))
  end.

(** What [get_artwork] returns for a decoded body: the [except Exception]
    around the parser turns a raise into the empty list. *)
Definition parsed (data : gmap string (list Item))
    (artwork_types : list ArtworkType) : list ArtworkResult :=
  match _parse_response data artwork_types with
  | Py.Ok results => results
  | Py.Raise _ => []
  end.

End Fanart.

(** ** services/providers/tvdb.py *)

Module TVDB.

Import Schemas.

(** One element of [data.artworks] of the extended record; a field is
    [None] when the key is absent. *)
Record Artwork : Type := mkArtwork {
  a_type : option Z;
  a_image : option string;
  a_thumbnail : option string;
  a_language : option string;
  a_score : option Q
}.

(** [type_map_id.get(art_type_id)]. *)
Definition type_map_id (art_type_id : Z) : option ArtworkType :=
  if (art_type_id =? 3)%Z then Some POSTER
  else if (art_type_id =? 4)%Z then Some BACKGROUND
  else if (art_type_id =? 22)%Z then Some LOGO
  else if (art_type_id =? 23)%Z then Some LOGO
  else None.

Definition ArtworkType_eqb (a b : ArtworkType) : bool :=
  match a, b with
  | POSTER, POSTER | BACKGROUND, BACKGROUND | LOGO, LOGO => true
  | _, _ => false
  end.

(** [mapped_type in wanted_types], with [wanted_types = set(artwork_types)]. *)
Definition in_wanted (artwork_types : list ArtworkType) (t : ArtworkType)
  : bool :=
  existsb (ArtworkType_eqb t) artwork_types.

(** The body of the loop over [artworks]. *)
Definition parse_artwork (artwork_types : list ArtworkType) (item : Artwork)
  : option ArtworkResult :=
  match a_type item with
  | None => None
  | Some art_type_id =>
      match type_map_id art_type_id with
      | None => None
      | Some mapped_type =>
          if in_wanted artwork_types mapped_type
          then
            match a_image item with
            | None => None
            | Some image_url =>
                if String.eqb image_url "" then None
                else Some {| source := TVDB;
                             artwork_type := mapped_type;
                             image_url := image_url;
                             thumbnail_url := a_thumbnail item;
                             language := a_language item;
                             score :=
                               Py.int_of_float
                                 (match a_score item with
                                  | Some s => s
                                  | None => 0
                                  end);
                             set_name := None;
                             creator_name := None |}
            end
          else None
      end
  end.

(** [TVDBProvider._parse_response]; [artworks] is [None] when [data] has no
    [data] key or [data.data] has no [artworks] key. *)
Definition _parse_response (artworks : option (list Artwork))
    (artwork_types : list ArtworkType) : list ArtworkResult :=
  match artworks with
  | None => []
  | Some items => omap (parse_artwork artwork_types) items
  end.

End TVDB.

(** ** services/providers/mediux.py *)

Module Mediux.

Import Schemas.

(** One element of [files] of a set. *)
Record File : Type := mkFile {
  f_id : option string;
  f_type : option string
}.

(** One element of [sets]: [name], [user.username] and [files]; a field is
    [None] when the key is absent. *)
Record ArtSet : Type := mkArtSet {
  s_name : option string;
  s_username : option string;
  s_files : option (list File)
}.

(** [type_mapping.get(file_type)]. *)
Definition type_mapping (file_type : string) : option ArtworkType :=
  if String.eqb file_type "poster" then Some POSTER
  else if String.eqb file_type "background" then Some BACKGROUND
  else if String.eqb file_type "title_card" then Some BACKGROUND
  else if String.eqb file_type "logo" then Some LOGO
  else if String.eqb file_type "clear_logo" then Some LOGO
  else None.

(** [self.BASE_URL.replace("/graphql", "")]. *)
Definition base_domain : string := "https://staged.mediux.io".

(** The body of the loop over [files]. *)
Definition parse_file (artwork_types : list ArtworkType)
    (set_name creator : option string) (file : File) : option ArtworkResult :=
  match f_type file with
  | None => None
  | Some file_type =>
      match type_mapping file_type with
      | None => None
      | Some mapped_type =>
          if TVDB.in_wanted artwork_types mapped_type
          then
            match f_id file with
            | None => None
            | Some file_id =>
                if String.eqb file_id "" then None
                else
                  let image_url := base_domain +:+ "/assets/" +:+ file_id in
                  Some {| source := MEDIUX;
                          artwork_type := mapped_type;
                          image_url := image_url;
                          thumbnail_url := Some (image_url +:+ "?width=400");
                          language := Some "en";
                          score := 0;
                          set_name := set_name;
                          creator_name := creator |}
            end
          else None
      end
  end.

(** The body of the loop over [sets]. *)
Definition parse_set (artwork_types : list ArtworkType) (art_set : ArtSet)
  : list ArtworkResult :=
  omap (parse_file artwork_types (s_name art_set) (s_username art_set))
    (match s_files art_set with
     | Some files => files
     | None => []
     end).

(** [MediuxProvider._parse_response]; [sets] is [None] when [data.data] or
    [data.data.result] is missing or empty, and the empty list when
    [result] has no [sets] key. *)
Definition _parse_response (sets : option (list ArtSet))
    (artwork_types : list ArtworkType) : list ArtworkResult :=
  match sets with
  | None => []
  | Some sets => flat_map (parse_set artwork_types) sets
  end.

End Mediux.

(** ** services/artwork_service.py: the providers behind the aggregator *)

Module Aggregation.

Import Schemas ArtworkService.

(** What the four providers answer to one query: whether each provider has
    a key, and the decoded body of its response (a response without
    artwork is a body without entries). *)
Record Answers : Type := mkAnswers {
  fanart_key : bool;
  fanart_data : gmap string (list Fanart.Item);
  mediux_key : bool;
  mediux_sets : option (list Mediux.ArtSet);
  tmdb_key : bool;
  tmdb_images : TMDB.ImagesData;
  tmdb_base_url : string;
  tvdb_key : bool;
  tvdb_artworks : option (list TVDB.Artwork)
}.

Definition entry (p : Provider) (configured : bool)
    (results : list ArtworkResult) : ProviderEntry :=
  {| provider_enum := p; is_configured := configured;
     answer := Py.Ok results |}.

(** [self.providers] after [initialize], in insertion order: Fanart, TMDB
    and TVDB are registered when they have a key; Mediux is always
    registered, and configured when it has a key. *)
Definition providers_of (a : Answers) (artwork_types : list ArtworkType)
  : list ProviderEntry :=
  (if fanart_key a
   then [entry FANART true (Fanart.parsed (fanart_data a) artwork_types)]
   else [])
  ++ [entry MEDIUX (mediux_key a)
        (Mediux._parse_response (mediux_sets a) artwork_types)]
  ++ (if tmdb_key a
      then [entry TMDB true
              (TMDB._parse_response (tmdb_images a) (tmdb_base_url a)
                 artwork_types)]
      else [])
  ++ (if tvdb_key a
      then [entry TVDB true
              (TVDB._parse_response (tvdb_artworks a) artwork_types)]
      else []).

(** What every parser guarantees of a result: the source is the provider,
    the kind was asked for, the URL is not empty. *)
Definition well_formed (p : Provider) (artwork_types : list ArtworkType)
    (r : ArtworkResult) : Prop :=
  source r = p /\ In (artwork_type r) artwork_types /\ image_url r <> "".

(** The results of one source. *)
Definition is_source (p : Provider) (r : ArtworkResult) : bool :=
  String.eqb (value (source r)) (value p).

Definition of_source (p : Provider) (l : list ArtworkResult)
  : list ArtworkResult :=
  List.filter (is_source p) l.

(** A provider whose coroutine raised, and one without a key. *)
Definition failing (p : Provider) : ProviderEntry :=
  {| provider_enum := p; is_configured := true;
     answer := Py.Raise Py.OtherError |}.

Definition drops_out (q : ProviderEntry) : Prop :=
  is_configured q = false \/ (exists e, answer q = Py.Raise e)
  \/ answer q = Py.Ok [].

(** Two posters and a title card in one Mediux set, a TMDB poster, a TVDB
    poster and logo; no Fanart key. *)
Definition sample_answers : Answers :=
  {| fanart_key := false;
     fanart_data := ∅;
     mediux_key := true;
     mediux_sets :=
       Some [ {| Mediux.s_name := Some "Set A";
                 Mediux.s_username := Some "alice";
                 Mediux.s_files :=
                   Some [ {| Mediux.f_id := Some "f1";
                             Mediux.f_type := Some "poster" |};
                          {| Mediux.f_id := Some "f2";
                             Mediux.f_type := Some "title_card" |};
                          {| Mediux.f_id := Some "f3";
                             Mediux.f_type := Some "poster" |} ] |} ];
     tmdb_key := true;
     tmdb_images := TMDB.poster_857;
     tmdb_base_url := "https://image.tmdb.org/t/p/";
     tvdb_key := true;
     tvdb_artworks :=
       Some [ {| TVDB.a_type := Some 3%Z; TVDB.a_image := Some "https://tvdb/p";
                 TVDB.a_thumbnail := None; TVDB.a_language := Some "eng";
                 TVDB.a_score := Some (100 # 1) |};
              {| TVDB.a_type := Some 22%Z; TVDB.a_image := Some "https://tvdb/l";
                 TVDB.a_thumbnail := None; TVDB.a_language := None;
                 TVDB.a_score := None |} ] |}.

(** A Fanart poster whose [likes] value is not a number. *)
Definition unreadable_item : Fanart.Item :=
  {| Fanart.i_url := Some "https://assets.fanart.tv/p.jpg";
     Fanart.i_lang := Some "en";
     Fanart.i_likes := Some (Py.Raise Py.ValueError) |}.

Definition unreadable_fanart : gmap string (list Fanart.Item) :=
  {[ "movieposter" := [unreadable_item] ]}.

End Aggregation.

(** ** services/edition_manager.py: restoring an edition *)

Module EditionRestore.

Import Sys EditionManager.

(** [EditionManager.restore_edition]; [scalar_one_or_none] raises when the
    query finds more than one row. *)
Definition restore_edition (srv : Plex.Server) (rating_key : string)
    (w : World) : Py.res bool * World :=
  match backups_of rating_key w with
  | _ :: _ :: _ => (Py.Raise Py.MultipleResultsFound, w)
  | [] => (Py.Ok false, w)
  | [backup] =>
      match _get_plex_service w with
      | Py.Raise e => (Py.Raise e, w)
      | Py.Ok _ =>
          let target_edition :=
            Plex.or_default (original_edition backup) "" in
          let '(ok, w1) :=
            PlexService.set_edition srv rating_key target_edition w in
          (Py.Ok ok, w1)
      end
  end.

(** A sequence of [apply_edition] calls, each with its item and edition
    string. *)
Definition apply_editions (srv : Plex.Server)
    (calls : list (string * string)) (w : World) : World :=
  fold_left (fun w c => snd (apply_edition srv (fst c) (snd c) w)) calls w.

(** Whether a request was answered without an exception. *)
Definition answered (e : option Py.exn) : bool :=
  match e with
  | None => true
  | Some _ => false
  end.

(** A server that knows item 42 as "Blade Runner" with the edition
    "Final Cut". *)
Definition blade_runner : Plex.Metadata :=
  {| Plex.ratingKey := Some "42"; Plex.md_title := Some "Blade Runner";
     Plex.md_year := Some 1982%Z; Plex.md_type := Some "movie";
     Plex.md_guid := Some "plex://movie/42"; Plex.md_thumb := None;
     Plex.md_art := None; Plex.addedAt := None;
     Plex.editionTitle := Some "Final Cut"; Plex.Guid := [];
     Plex.Media := [] |}.

Definition edition_server : Plex.Server :=
  {| Plex.base_url := "http://plex:32400";
     Plex.token := "token";
     Plex.sections := fun _ => Py.Ok [];
     Plex.section_items := fun _ _ => Py.Ok [];
     Plex.metadata := fun _ _ => Py.Ok [blade_runner];
     Plex.put_edition := fun _ _ _ => Py.Ok tt;
     Plex.image := fun _ _ => Plex.FetchFailed |}.

End EditionRestore.

(** ** services/plex_service.py: the pages of a library *)

Module Paging.

(** [get_library_items(library_id, start, 100)] as the loop of
    [get_all_library_items] sees it: the items of the page that starts at
    [start] and [totalSize], or the exception one of its two requests
    raised. *)
Definition Pages : Type := nat -> Py.res (list Plex.PlexItem * Z).

Definition size : nat := 100.

(** The [while True] loop of [PlexService.get_all_library_items]; [None]
    when the loop is still running after [fuel] rounds. *)
Fixpoint loop (fuel : nat) (pages : Pages) (start : nat)
    (all_items : list Plex.PlexItem)
  : option (Py.res (list Plex.PlexItem)) :=
  match fuel with
  | O => None
  | S fuel' =>
      match pages start with
      | Py.Raise e => Some (Py.Raise e)
      | Py.Ok (items, total) =>
          let all_items' := all_items ++ items in
          if (total <=? Z.of_nat (start + length items))%Z
          then Some (Py.Ok all_items')
          else loop fuel' pages (start + size) all_items'
      end
  end.

Definition get_all_library_items (fuel : nat) (pages : Pages)
  : option (Py.res (list Plex.PlexItem)) :=
  loop fuel pages 0 [].

(** A server that holds the items [library] and answers a page request
    with at most [cap] items from the start offset, and with the size of
    the library as total. *)
Definition capped (cap : nat) (library : list Plex.PlexItem) : Pages :=
  fun start =>
    Py.Ok (firstn (Nat.min cap size) (skipn start library),
           Z.of_nat (length library)).

(** A server that sends as many items as the client asks for. *)
Definition honest (library : list Plex.PlexItem) : Pages :=
  capped size library.

End Paging.

(** ** services/edition/modules/video.py: the order of the labels *)

Module ResolutionOrder.

Import EditionModules.

(** The labels of the ladder from the largest frame to the smallest, "SD"
    last. *)
Definition labels : list string :=
  map snd RESOLUTION_MAP ++ ["SD"].

Fixpoint index_of (label : string) (l : list string) : nat :=
  match l with
  | [] => 0
  | x :: rest => if String.eqb x label then 0 else S (index_of label rest)
  end.

(** The place of a label in [labels]: 0 for "8K", 7 for "SD". *)
Definition rank (label : string) : nat := index_of label labels.

(** Two media entries of the same bitrate, 1080p first. *)
Definition twin_1080 : Plex.MediaEntry :=
  {| Plex.bitrate := Some 8000%Z; Plex.videoResolution := Some "1080";
     Plex.width := Some 1920%Z; Plex.height := Some 1080%Z |}.

Definition twin_720 : Plex.MediaEntry :=
  {| Plex.bitrate := Some 8000%Z; Plex.videoResolution := Some "720";
     Plex.width := Some 1280%Z; Plex.height := Some 720%Z |}.

Definition twins : Plex.Metadata :=
  {| Plex.ratingKey := None; Plex.md_title := None; Plex.md_year := None;
     Plex.md_type := None; Plex.md_guid := None; Plex.md_thumb := None;
     Plex.md_art := None; Plex.addedAt := None; Plex.editionTitle := None;
     Plex.Guid := []; Plex.Media := [twin_1080; twin_720] |}.

End ResolutionOrder.

(** ** services/scan_manager.py: the steps of a run *)

Module Trace.

Import Sys ScanManager.

(** The elementary state changes a run of [_execute_scan] is made of,
    before one of the [_mark_scan_...] calls ends it. *)
Inductive Step : Type :=
| SLog (q : Plex.Request) (e : option Py.exn)
| SBackup (b : EditionBackup)
| SIssue (scan_id : nat) (issue : ArtworkScanner.ArtworkIssue)
| SScanner (st : ArtworkScanner.State)
| SProgress (f : Progress -> Progress)
| SCheckpoint (scan_id : nat) (processed issues_found editions_updated : Z)
    (current_library : string)
| STotal (scan_id : nat) (total_items : Z)
| SBroadcast (ev : Event)
| SControl (c : Control).

Definition step (s : Step) (w : World) : World :=
  match s with
  | SLog q e => log_request q e w
  | SBackup b => set_db (add_backup b) w
  | SIssue scan_id issue => _save_issue scan_id issue w
  | SScanner st => set_scanner st w
  | SProgress f => set_mgr (set_progress f) w
  | SCheckpoint scan_id p i e lib => _save_checkpoint scan_id p i e lib w
  | STotal scan_id total =>
      set_db (update_scan scan_id (fun s =>
        {| id := id s; scan_type := scan_type s; status := status s;
           total_items := total;
           processed_items := processed_items s;
           issues_found := issues_found s;
           editions_updated := editions_updated s;
           current_library := current_library s;
           checkpoint := checkpoint s;
           triggered_by := triggered_by s;
           started_at := started_at s;
           paused_at := paused_at s;
           completed_at := completed_at s |})) w
  | SBroadcast ev => _broadcast ev w
  | SControl c => control c w
  end.

Definition run (t : list Step) (w : World) : World :=
  fold_left (fun w s => step s w) t w.

(** The issue rows a trace inserts. *)
Definition issue_rows (t : list Step) : list Issue :=
  flat_map (fun s =>
    match s with
    | SIssue scan_id issue =>
        [ {| is_scan_id := scan_id; is_issue := issue;
             is_status := "pending" |} ]
    | _ => []
    end) t.

(** The requests a trace sends. *)
Definition requests_of (t : list Step)
  : list (Plex.Request * option Py.exn) :=
  flat_map (fun s =>
    match s with
    | SLog q e => [(q, e)]
    | _ => []
    end) t.

(** [w'] is reached from [w] by steps that satisfy [P], which insert
    [n' - n] issue rows. *)
Definition reaches (P : Step -> Prop) (w : World) (n : Z) (w' : World)
    (n' : Z) : Prop :=
  exists t, w' = run t w /\ Forall P t
            /\ n' = (n + Z.of_nat (length (issue_rows t)))%Z.

(** Whether the edition half of the item loop is switched on. *)
Definition editions_on (config : Config) : bool :=
  run_edition config && flag (c_edition_enabled config).

(** The steps of the edition half: requests about one item and backup
    rows. *)
Definition edition_step (s : Step) : Prop :=
  match s with
  | SLog q _ => enumeration_request q = false
  | SBackup _ => True
  | _ => False
  end.

Definition progress_event (scan_id : nat) (ev : Event) : Prop :=
  match ev with
  | scan_progress_total i _ => i = scan_id
  | scan_progress i _ _ _ _ _ _ => i = scan_id
  | _ => False
  end.

(** The steps of a run of the scan [scan_id] under [config]. *)
Definition scan_step (config : Config) (scan_id : nat) (s : Step) : Prop :=
  match s with
  | SLog q _ => enumeration_request q = false -> editions_on config = true
  | SBackup _ => editions_on config = true
  | SIssue i _ => i = scan_id
  | SScanner _ => True
  | SProgress _ => True
  | SCheckpoint i _ _ _ _ => i = scan_id
  | STotal i _ => i = scan_id
  | SBroadcast ev => progress_event scan_id ev
  | SControl _ => True
  end.

(** The steps of the loops over libraries and items: as before, without
    enumeration requests and without the update of the total. *)
Definition loop_step (config : Config) (scan_id : nat) (s : Step) : Prop :=
  match s with
  | SLog q _ => enumeration_request q = false /\ editions_on config = true
  | STotal _ _ => False
  | _ => scan_step config scan_id s
  end.

(** The steps of one item: no control call, no progress, no enumeration
    request. *)
Definition item_kind (config : Config) (scan_id : nat) (s : Step) : Prop :=
  match s with
  | SLog q _ => enumeration_request q = false /\ editions_on config = true
  | SBackup _ => editions_on config = true
  | SIssue i _ => i = scan_id
  | SScanner _ => True
  | _ => False
  end.

(** How a run of the scan [scan_id] ends for the table of scans: the
    status its row gets and the event sent last. *)
Definition terminal_event (scan_id : nat) (status : string) (ev : Event)
  : Prop :=
  match ev with
  | scan_completed i _ _ _ => i = scan_id /\ status = "completed"
  | scan_cancelled i => i = scan_id /\ status = "cancelled"
  | scan_failed i _ => i = scan_id /\ status = "failed"
  | _ => False
  end.

(** What the pause gate and the row of the running scan have to do with
    the status of the manager. *)
Definition gate_consistent (scan_id : nat) (w : World) : Prop :=
  (0 < scan_id)%nat /\
  In scan_id (scan_ids w) /\
  _current_scan_id (mgr w) = Some scan_id /\
  (_pause_event (mgr w) = false -> _status (mgr w) = PAUSED) /\
  (_status (mgr w) = PAUSED -> status_of scan_id w = Some "paused").

(** The rows of the other scans. *)
Definition other_scans (scan_id : nat) (w : World) : list Scan :=
  List.filter (fun s => negb (id s =? scan_id)%nat) (scans (db w)).

(** The number of items in the dict of enumerated libraries. *)
Definition item_count (library_items : list (string * list Plex.PlexItem))
  : Z :=
  fold_right (fun l n => (Z.of_nat (length (snd l)) + n)%Z) 0%Z library_items.

(** A server that answers every enumeration request. *)
Definition enumerable (srv : Plex.Server) : Prop :=
  (forall n, exists ids, Plex.sections srv n = Py.Ok ids) /\
  (forall n lib, exists items, Plex.section_items srv n lib = Py.Ok items).

(** The gate is open and no cancellation is pending. *)
Definition going (w : World) : Prop :=
  _cancel_requested (mgr w) = false /\ _pause_event (mgr w) = true.

(** The library ids a scan started in [w] works on: those of the
    config, or (when the config names none) those the server lists. *)
Definition library_ids_of (srv : Plex.Server) (config : Config) (w : World)
  : list string :=
  match c_libraries config with
  | [] =>
      match Plex.sections srv (length (requests w)) with
      | Py.Ok ids => ids
      | Py.Raise _ => []
      end
  | ids => ids
  end.

(** The world in which the scan of [config] has just been started from
    the initial world. *)
Definition started (config : Config) : World :=
  snd (start_scan config Scenarios.initial_world).

(** [pause_scan] is called while item number [k] is being processed, and
    nobody calls [resume_scan] or [cancel_scan] afterwards. *)
Definition pause_during_item (k : nat) : Schedule :=
  {| during_resolve := []; during_enum := fun _ => [];
     at_gate := fun _ => [];
     during_item := fun n => if (n =? k)%nat then [CtlPause] else [];
     during_mark := []; task_cancelled := None |}.

(** What [pause_scan] and [resume_scan] can make of a row: the same row
    but for its pause time and its status, which is the old one, paused
    or running. *)
Definition retouched (r r' : Scan) : Prop :=
  r' = {| id := id r; scan_type := scan_type r; status := status r';
          total_items := total_items r;
          processed_items := processed_items r;
          issues_found := issues_found r;
          editions_updated := editions_updated r;
          current_library := current_library r;
          checkpoint := checkpoint r;
          triggered_by := triggered_by r; started_at := started_at r;
          paused_at := paused_at r'; completed_at := completed_at r |}
  /\ (status r' = status r \/ status r' = "paused" \/ status r' = "running").

(** How a loop of [_execute_scan] started in [w] with [n] issues found
    has ended: steps that satisfy [P] lead to a world [w0] from which the
    loop is left, or in which the item loop calls [_mark_scan_cancelled]
    and returns. *)
Definition ends (P : Step -> Prop) (sched : Schedule) (scan_id : nat)
    (w : World) (n : Z) (f : Flow Counters) : Prop :=
  exists w0 n0,
    reaches P w n w0 n0 /\
    match f with
    | Done (_, n', _) w' => w' = w0 /\ n' = n0
    | Returned w' => _mark_scan_cancelled sched scan_id w0 = Done tt w'
    | Raised _ w' => w' = w0
    | Blocked w' => w' = w0 /\ _pause_event (mgr w') = false
    | Cancelled w' =>
        w' = w0 \/ _mark_scan_cancelled sched scan_id w0 = Cancelled w'
    end.

(** How [_execute_scan] has ended: as a loop, or by
    [_mark_scan_completed] with counters within the total of the row. *)
Definition execution_ends (sched : Schedule) (config : Config)
    (scan_id : nat) (w : World) (f : Flow unit) : Prop :=
  exists w0 i,
    reaches (scan_step config scan_id) w 0 w0 i /\
    let completes (f' : Flow unit) :=
      exists p e,
        _mark_scan_completed sched scan_id p i e w0 = f' /\
        (0 <= p)%Z /\
        (forall r, find_scan scan_id w0 = Some r -> (p <= total_items r)%Z) in
    match f with
    | Done _ w' => completes (Done tt w')
    | Returned w' => _mark_scan_cancelled sched scan_id w0 = Done tt w'
    | Raised _ w' => w' = w0
    | Blocked w' => w' = w0 /\ _pause_event (mgr w') = false
    | Cancelled w' =>
        w' = w0 \/ _mark_scan_cancelled sched scan_id w0 = Cancelled w'
        \/ completes (Cancelled w')
    end.

(** An enumeration request of the run was answered by the exception
    [e]. *)
Definition enumeration_failed (e : Py.exn) (w w' : World) : Prop :=
  exists q, enumeration_request q = true
            /\ In (q, Some e) (new_requests w w').

(** An item the server lists in one of its libraries. *)
Definition listed_item (srv : Plex.Server) (item : Plex.PlexItem) : Prop :=
  exists n lib items,
    Plex.section_items srv n lib = Py.Ok items /\ In item items.

(** [path] is the poster or the background path of an item the server
    lists. *)
Definition listed_image (srv : Plex.Server) (path : string) : Prop :=
  exists item,
    listed_item srv item /\ In path (ScannerMore.image_paths item).

(** The images the scanner of the running scan has downloaded. *)
Definition downloaded (w : World) : list string :=
  map fst (ArtworkScanner.downloads (scanner w)).

(** The scanner of the running scan has downloaded nothing but posters
    and backgrounds of listed items. *)
Definition tidy (srv : Plex.Server) (w : World) : Prop :=
  Forall (listed_image srv) (downloaded w).

(** Nobody calls [pause_scan] or [resume_scan] while the scan is being
    marked as over. *)
Definition calm_mark (sched : Schedule) : Prop :=
  Forall (eq CtlCancel) (during_mark sched).

(** [pause_scan] is called while the [_mark_scan_...] call that ends the
    run awaits its UPDATE and commit. *)
Definition pause_during_mark : Schedule :=
  {| during_resolve := []; during_enum := fun _ => [];
     at_gate := fun _ => []; during_item := fun _ => [];
     during_mark := [CtlPause]; task_cancelled := None |}.

(** The task of the scan is cancelled while item number [k] is being
    processed. *)
Definition shutdown_during_item (k : nat) : Schedule :=
  {| during_resolve := []; during_enum := fun _ => [];
     at_gate := fun _ => []; during_item := fun _ => [];
     during_mark := []; task_cancelled := Some (AwItem k) |}.

End Trace.

(** ** services/autofix_service.py *)

Module AutoFix.

(** A row of table [suggestions], as far as [_run] reads or writes it. *)
Record Suggestion : Type := mkSuggestion {
  artwork_type : string;
  image_url : string;
  score : Z;
  is_selected : bool
}.

(** A row of table [issues] with its eagerly loaded suggestions. *)
Record Issue : Type := mkIssue {
  scan_id : nat;
  issue_type : string;
  status : string;
  plex_rating_key : string;
  suggestions : list Suggestion
}.

(** The calls [_run] makes on the media server client; each of them
    catches every exception and returns a boolean. *)
Inductive Call : Type :=
| upload_poster (rating_key image_url : string)
| lock_poster (rating_key : string)
| upload_background (rating_key image_url : string)
| lock_background (rating_key : string).

(** [AutoFixService._progress]. *)
Record Progress : Type := mkProgress {
  processed : Z;
  total : Z;
  applied : Z;
  skipped : Z;
  failed : Z
}.

(** The events put on the subscriber queues; [progress] and [completed]
    carry a copy of the counters. *)
Inductive Event : Type :=
| started (total : Z)
| progress (p : Progress)
| completed (p : Progress).

(** What [_run] does not control: what the [k]-th call on the media server
    returns, whether [cancel] is called before the loop starts, and whether
    it is called while the issue numbered [k] is processed. *)
Record Env : Type := mkEnv {
  plex : nat -> Call -> bool;
  cancel_before : bool;
  cancel_during : nat -> bool
}.

(** The singleton and what it works on: table [issues] (in the order the
    query returns its rows), whether the media server is configured, the
    calls made on it so far with their results, and the events broadcast
    so far. *)
Record Service : Type := mkService {
  _running : bool;
  _cancel_requested : bool;
  _progress : Progress;
  issues : list Issue;
  plex_configured : bool;
  calls : list (Call * bool);
  sent : list Event
}.

Definition zero : Progress :=
  {| processed := 0; total := 0; applied := 0; skipped := 0; failed := 0 |}.

(** The [WHERE] clause of the query; [if scan_id:] is false for [None]
    and for [0]. *)
Definition selected (scan : option nat) (issue : Issue) : bool :=
  String.eqb (status issue) "pending"
  && match scan with
     | Some (S n) => (scan_id issue =? S n)%nat
     | _ => true
     end.

(** [sorted(issue.suggestions, key=lambda s: s.score, reverse=True)]: a
    stable sort; every suggestion travels with its position in the list,
    which is what tells the objects apart. *)
Fixpoint insert_desc (x : nat * Suggestion) (l : list (nat * Suggestion))
  : list (nat * Suggestion) :=
  match l with
  | [] => [x]
  | y :: ys =>
      if (score (snd x) <? score (snd y))%Z
      then y :: insert_desc x ys
      else x :: y :: ys
  end.

Fixpoint sorted_desc (l : list (nat * Suggestion))
  : list (nat * Suggestion) :=
  match l with
  | [] => []
  | x :: xs => insert_desc x (sorted_desc xs)
  end.

Definition numbered (l : list Suggestion) : list (nat * Suggestion) :=
  combine (seq 0 (length l)) l.

(** The suggestion [_run] picks for an issue, with its position. *)
Definition best_suggestion (min_score : Z) (l : list Suggestion)
  : option (nat * Suggestion) :=
  match sorted_desc (numbered l) with
  | [] => None
  | best :: _ =>
      if (min_score <=? score (snd best))%Z then Some best else None
  end.

(** [best_suggestion.is_selected = True]. *)
Fixpoint select_at (i : nat) (l : list Suggestion) : list Suggestion :=
  match l, i with
  | [], _ => []
  | s :: rest, O =>
      {| artwork_type := artwork_type s; image_url := image_url s;
         score := score s; is_selected := true |} :: rest
  | s :: rest, S j => s :: select_at j rest
  end.

(** One call on the media server. *)
Definition call (env : Env) (c : Call) (log : list (Call * bool))
  : bool * list (Call * bool) :=
  let ok := plex env (length log) c in
  (ok, log ++ [(c, ok)]).

(** The body of the inner [try]: upload, and lock after a successful
    upload; any other artwork type is no success. *)
Definition apply_suggestion (env : Env) (rating_key : string)
    (s : Suggestion) (log : list (Call * bool)) : bool * list (Call * bool) :=
  if String.eqb (artwork_type s) "poster" then
    let '(success, log1) := call env (upload_poster rating_key (image_url s)) log in
    if success then (success, snd (call env (lock_poster rating_key) log1))
    else (success, log1)
  else if String.eqb (artwork_type s) "background" then
    let '(success, log1) :=
      call env (upload_background rating_key (image_url s)) log in
    if success then (success, snd (call env (lock_background rating_key) log1))
    else (success, log1)
  else (false, log).

(** How one round of the loop ends for the issue. *)
Inductive Outcome : Type := Applied | Skipped | Failed.

Definition count (o : Outcome) (p : Progress) : Progress :=
  {| processed := processed p + 1;
     total := total p;
     applied := match o with Applied => applied p + 1 | _ => applied p end;
     skipped := match o with Skipped => skipped p + 1 | _ => skipped p end;
     failed := match o with Failed => failed p + 1 | _ => failed p end |}.

(** One round of the loop [for issue in issues], after the cancellation
    test. *)
Definition fix_issue (env : Env) (skip_unmatched : bool) (min_score : Z)
    (issue : Issue) (s : Service) : Issue * Service :=
  let '(issue', o, log) :=
    if skip_unmatched && String.eqb (issue_type issue) "no_match"
    then (issue, Skipped, calls s)
    else
      match best_suggestion min_score (suggestions issue) with
      | None => (issue, Skipped, calls s)
      | Some (i, best) =>
          let '(success, log) :=
            apply_suggestion env (plex_rating_key issue) best (calls s) in
          if success
          then ({| scan_id := scan_id issue;
                   issue_type := issue_type issue;
                   status := "applied";
                   plex_rating_key := plex_rating_key issue;
                   suggestions := select_at i (suggestions issue) |},
                Applied, log)
          else (issue, Failed, log)
      end in
  let p := count o (_progress s) in
  (issue',
   {| _running := _running s;
      _cancel_requested := _cancel_requested s;
      _progress := p;
      issues := issues s;
      plex_configured := plex_configured s;
      calls := log;
      sent := sent s ++ [progress p] |}).

(** [AutoFixService.cancel], called or not. *)
Definition cancel (called : bool) (s : Service) : Service :=
  {| _running := _running s;
     _cancel_requested :=
       if called && _running s then true else _cancel_requested s;
     _progress := _progress s;
     issues := issues s;
     plex_configured := plex_configured s;
     calls := calls s;
     sent := sent s |}.

(** The loop [for issue in issues] over the rows of the table: a row the
    query did not select is passed over, [break] leaves the rest as it
    is.  [k] numbers the issues processed. *)
Fixpoint loop (env : Env) (scan : option nat) (skip_unmatched : bool)
    (min_score : Z) (k : nat) (rows : list Issue) (s : Service)
  : list Issue * Service :=
  match rows with
  | [] => ([], s)
  | issue :: rest =>
      if negb (selected scan issue) then
        let '(rest', s') :=
          loop env scan skip_unmatched min_score k rest s in
        (issue :: rest', s')
      else if _cancel_requested s then (issue :: rest, s)
      else
        let '(issue', s1) := fix_issue env skip_unmatched min_score issue s in
        let '(rest', s') :=
          loop env scan skip_unmatched min_score (S k) rest
            (cancel (cancel_during env k) s1) in
        (issue' :: rest', s')
  end.

(** The [finally] of [_run], after an optional earlier
    [self._running = False]. *)
Definition finish (s : Service) : Service :=
  {| _running := false;
     _cancel_requested := _cancel_requested s;
     _progress := _progress s;
     issues := issues s;
     plex_configured := plex_configured s;
     calls := calls s;
     sent := sent s ++ [completed (_progress s)] |}.

(** [AutoFixService._run]. *)
Definition _run (env : Env) (scan : option nat) (skip_unmatched : bool)
    (min_score : Z) (s : Service) : Service :=
  let n := Z.of_nat (length (List.filter (selected scan) (issues s))) in
  let p := {| processed := processed (_progress s); total := n;
              applied := applied (_progress s);
              skipped := skipped (_progress s);
              failed := failed (_progress s) |} in
  let s1 := {| _running := _running s;
               _cancel_requested := _cancel_requested s;
               _progress := p;
               issues := issues s;
               plex_configured := plex_configured s;
               calls := calls s;
               sent := sent s ++ [started n] |} in
  match List.filter (selected scan) (issues s) with
  | [] =>
      finish {| _running := false;
                _cancel_requested := _cancel_requested s1;
                _progress := p;
                issues := issues s1;
                plex_configured := plex_configured s1;
                calls := calls s1;
                sent := sent s1 ++ [completed p] |}
  | _ =>
      if negb (plex_configured s1) then finish s1
      else
        let '(rows, s2) :=
          loop env scan skip_unmatched min_score 0 (issues s1)
            (cancel (cancel_before env) s1) in
        finish {| _running := _running s2;
                  _cancel_requested := _cancel_requested s2;
                  _progress := _progress s2;
                  issues := rows;
                  plex_configured := plex_configured s2;
                  calls := calls s2;
                  sent := sent s2 |}
  end.

(** [AutoFixService.start] and the task it creates; [None] is the
    [RuntimeError] of a start while the service is running. *)
Definition start (env : Env) (scan : option nat) (skip_unmatched : bool)
    (min_score : Z) (s : Service) : option Service :=
  if _running s then None
  else
    Some (_run env scan skip_unmatched min_score
            {| _running := true;
               _cancel_requested := false;
               _progress := zero;
               issues := issues s;
               plex_configured := plex_configured s;
               calls := calls s;
               sent := sent s |}).

(** A suggestion of largest score among those of the issue, with a score
    of at least [min_score]. *)
Definition best_of (min_score : Z) (issue : Issue) (sg : Suggestion) : Prop :=
  In sg (suggestions issue) /\ (min_score <= score sg)%Z /\
  forall other, In other (suggestions issue) -> (score other <= score sg)%Z.

(** An upload that one of the [rows] justifies. *)
Definition justified (rows : list Issue) (scan : option nat)
    (skip_unmatched : bool) (min_score : Z) (kind rating_key url : string)
  : Prop :=
  exists issue sg,
    In issue rows /\ selected scan issue = true /\
    (skip_unmatched && String.eqb (issue_type issue) "no_match") = false /\
    plex_rating_key issue = rating_key /\
    best_of min_score issue sg /\
    image_url sg = url /\ artwork_type sg = kind.

(** The calls of one round of the loop: nothing, an upload that failed,
    or an upload that succeeded followed by the lock of the same kind for
    the same item. *)
Inductive round (rows : list Issue) (scan : option nat)
    (skip_unmatched : bool) (min_score : Z) : list (Call * bool) -> Prop :=
| round_none : round rows scan skip_unmatched min_score []
| round_poster_failed key url :
    justified rows scan skip_unmatched min_score "poster" key url ->
    round rows scan skip_unmatched min_score [(upload_poster key url, false)]
| round_poster key url locked :
    justified rows scan skip_unmatched min_score "poster" key url ->
    round rows scan skip_unmatched min_score
      [(upload_poster key url, true); (lock_poster key, locked)]
| round_background_failed key url :
    justified rows scan skip_unmatched min_score "background" key url ->
    round rows scan skip_unmatched min_score
      [(upload_background key url, false)]
| round_background key url locked :
    justified rows scan skip_unmatched min_score "background" key url ->
    round rows scan skip_unmatched min_score
      [(upload_background key url, true); (lock_background key, locked)].

(** A log made of such rounds. *)
Inductive rounds (rows : list Issue) (scan : option nat)
    (skip_unmatched : bool) (min_score : Z) : list (Call * bool) -> Prop :=
| rounds_nil : rounds rows scan skip_unmatched min_score []
| rounds_app r rest :
    round rows scan skip_unmatched min_score r ->
    rounds rows scan skip_unmatched min_score rest ->
    rounds rows scan skip_unmatched min_score (r ++ rest).

(** What a run may do to a row of table [issues]: nothing, or turn it
    from pending to applied. *)
Definition kept_or_applied (old new : Issue) : Prop :=
  new = old \/
  (status old = "pending" /\ status new = "applied" /\
   scan_id new = scan_id old /\ issue_type new = issue_type old /\
   plex_rating_key new = plex_rating_key old /\
   length (suggestions new) = length (suggestions old)).

(** The counters add up. *)
Definition balanced (p : Progress) : Prop :=
  processed p = (applied p + skipped p + failed p)%Z /\
  (0 <= applied p)%Z /\ (0 <= skipped p)%Z /\ (0 <= failed p)%Z.

(** A service at rest with two pending issues: a poster issue with two
    suggestions and an unmatched item. *)
Definition two_issues : Service :=
  {| _running := false; _cancel_requested := false; _progress := zero;
     issues :=
       [ {| scan_id := 1; issue_type := "no_poster"; status := "pending";
            plex_rating_key := "603";
            suggestions :=
              [ {| artwork_type := "poster"; image_url := "https://a/1.jpg";
                   score := 40; is_selected := false |};
                {| artwork_type := "poster"; image_url := "https://a/2.jpg";
                   score := 85; is_selected := false |} ] |};
         {| scan_id := 1; issue_type := "no_match"; status := "pending";
            plex_rating_key := "123"; suggestions := [] |} ];
     plex_configured := true; calls := []; sent := [] |}.

(** A server that accepts every call, and nobody cancels. *)
Definition obliging : Env :=
  {| plex := fun _ _ => true; cancel_before := false;
     cancel_during := fun _ => false |}.

End AutoFix.

(** * Properties *)

(** ** TMDB scores *)

Section TMDBScores.

Import Schemas TMDB.

Lemma parse_entries_In base_url art_type items r :
  In r (parse_entries base_url art_type items) <->
  exists item, In item items /\ parse_entry base_url art_type item = Some r.
Proof.
  induction items as [|item rest IH]; simpl.
  - split; [tauto | intros (? & [] & _)].
  - destruct (parse_entry base_url art_type item) as [r0|] eqn:E; simpl;
      rewrite IH; split.
    + intros [-> | (i & Hi & Hp)]; [exists item | exists i]; tauto.
    + intros (i & [-> | Hi] & Hp); [left; congruence | right; eauto].
    + intros (i & Hi & Hp); eauto.
    + intros (i & [-> | Hi] & Hp); [congruence | eauto].
Qed.

Lemma _parse_response_In data base_url artwork_types r :
  In r (_parse_response data base_url artwork_types) <->
  exists art_type items item,
    In art_type artwork_types /\ entries data art_type = Some items /\
    In item items /\ parse_entry base_url art_type item = Some r.
Proof.
  induction artwork_types as [|t rest IH]; simpl.
  - split; [tauto | intros (? & ? & ? & [] & _)].
  - destruct (entries data t) as [items|] eqn:E.
    + rewrite in_app_iff, parse_entries_In, IH. split.
      * intros [(i & Hi & Hp) | (t' & is' & i & Ht & He & Hi & Hp)].
        -- exists t, items, i; tauto.
        -- exists t', is', i; tauto.
      * intros (t' & is' & i & [<- | Ht] & He & Hi & Hp).
        -- left. exists i. split; congruence.
        -- right. exists t', is', i; tauto.
    + rewrite IH. split.
      * intros (t' & is' & i & Ht & He & Hi & Hp). exists t', is', i; tauto.
      * intros (t' & is' & i & [<- | Ht] & He & Hi & Hp); [congruence|].
        exists t', is', i; tauto.
Qed.

Lemma int_of_float_nonneg (x : Q) :
  (0 <= x)%Q ->
  (inject_Z (Py.int_of_float x) <= x /\ x < inject_Z (Py.int_of_float x + 1))%Q.
Proof.
  intros Hx. unfold Py.int_of_float.
  destruct (Qle_bool 0 x) eqn:E.
  - split; [apply Qfloor_le | apply Qlt_floor].
  - apply Qle_bool_iff in Hx. congruence.
Qed.

Lemma parse_entry_score base_url art_type item r :
  parse_entry base_url art_type item = Some r ->
  score r = Py.int_of_float (vote_or_default item * 10).
Proof.
  unfold parse_entry.
  destruct (file_path item) as [fp|]; [|discriminate].
  destruct (String.eqb fp ""); [discriminate|].
  intros [= <-]. reflexivity.
Qed.

(** C7, as amended: the score TMDB suggestions carry is
    [int(vote_average * 10)], the product truncated toward zero, not the
    rounded product.  Every result of [_parse_response] comes from an entry
    of a requested kind that has a file path, and for a vote [v >= 0] its
    score [s] is the integer with [s <= v * 10 < s + 1]. *)
Theorem tmdb_score_is_truncated data base_url artwork_types r :
  In r (_parse_response data base_url artwork_types) ->
  exists art_type items item,
    In art_type artwork_types /\ entries data art_type = Some items /\
    In item items /\ parse_entry base_url art_type item = Some r /\
    score r = Py.int_of_float (vote_or_default item * 10) /\
    (forall v, vote_average item = Some v -> (0 <= v)%Q ->
       (inject_Z (score r) <= v * 10 /\ v * 10 < inject_Z (score r + 1))%Q).
Proof.
  intros Hr. apply _parse_response_In in Hr.
  destruct Hr as (t & items & item & Ht & He & Hi & Hp).
  exists t, items, item.
  pose proof (parse_entry_score _ _ _ _ Hp) as Hs.
  repeat (split; [assumption|]).
  intros v Hv Hpos. rewrite Hs. unfold vote_or_default. rewrite Hv.
  apply int_of_float_nonneg. lra.
Qed.

Lemma tmdb_score_is_truncated_witness :
  In poster_857_result
    (_parse_response poster_857 "https://image.tmdb.org/t/p/" [POSTER]) /\
  exists art_type items item,
    In art_type [POSTER] /\ entries poster_857 art_type = Some items /\
    In item items /\
    parse_entry "https://image.tmdb.org/t/p/" art_type item
      = Some poster_857_result /\
    score poster_857_result = Py.int_of_float (vote_or_default item * 10) /\
    (forall v, vote_average item = Some v -> (0 <= v)%Q ->
       (inject_Z (score poster_857_result) <= v * 10
        /\ v * 10 < inject_Z (score poster_857_result + 1))%Q).
Proof.
  assert (H : In poster_857_result
                (_parse_response poster_857 "https://image.tmdb.org/t/p/" [POSTER]))
    by (simpl; left; reflexivity).
  split; [exact H|].
  exact (tmdb_score_is_truncated poster_857 "https://image.tmdb.org/t/p/"
           [POSTER] poster_857_result H).
Defined.

(** C7 as stated fails: a poster voted 8.57 gets score 85, while
    [round(85.7)] is 86. *)
Lemma tmdb_score_not_rounded :
  ~ score_is_rounded poster_857 "https://image.tmdb.org/t/p/" [POSTER].
Proof.
  intros H.
  specialize (H POSTER _ _ (857 # 100) _ (or_introl eq_refl) eq_refl
                (or_introl eq_refl) eq_refl eq_refl).
  vm_compute in H. discriminate H.
Qed.

End TMDBScores.

(** ** The Resolution module *)

Section Resolution.

Import Plex EditionModules.

Lemma insert_desc_cons x l : exists y ys, insert_desc x l = y :: ys.
Proof.
  destruct l as [|z zs]; simpl; [eauto|].
  destruct (bitrate_key x <? bitrate_key z)%Z; eauto.
Qed.

Lemma sorted_desc_head (l : list MediaEntry) :
  forall m, head (sorted_desc l) = Some m ->
  In m l /\ forall x, In x l -> (bitrate_key x <= bitrate_key m)%Z.
Proof.
  induction l as [|x xs IH]; simpl; [discriminate|].
  destruct (sorted_desc xs) as [|y ys] eqn:Hs; simpl.
  - intros m [= <-]. destruct xs as [|x' xs'].
    + split; [now left|]. intros ? [<- | []]. lia.
    + simpl in Hs.
      destruct (insert_desc_cons x' (sorted_desc xs')) as (? & ? & Hc).
      congruence.
  - destruct (IH y eq_refl) as [Hin Hmax].
    destruct (bitrate_key x <? bitrate_key y)%Z eqn:E; simpl; intros m [= <-].
    + apply Z.ltb_lt in E.
      split; [now right|]. intros z [<- | Hz]; [lia | now apply Hmax].
    + apply Z.ltb_ge in E. split; [now left|].
      intros z [<- | Hz]; [lia|]. specialize (Hmax z Hz). lia.
Qed.

(** The main media entry is an entry of largest bitrate. *)
Lemma main_media_has_largest_bitrate (md : Metadata) (m : MediaEntry) :
  _get_main_media md = Some m ->
  In m (Media md)
  /\ forall x, In x (Media md) -> (bitrate_key x <= bitrate_key m)%Z.
Proof.
  unfold _get_main_media.
  destruct (Media md) eqn:E; [discriminate|].
  apply sorted_desc_head.
Qed.

(** The float test of the ladder, on integers. *)
Lemma fits_spec (w h W H : Z) (label : string) :
  fits w h (W, H, label) = true <->
  (85 * W <= 100 * w \/ 85 * H <= 100 * h)%Z.
Proof.
  unfold fits. rewrite orb_true_iff, !Qle_bool_iff.
  unfold Qle, Qmult, inject_Z; simpl. lia.
Qed.

Lemma ladder_first (w h : Z) (entries : list (Z * Z * string)) :
  forall i e,
    nth_error entries i = Some e ->
    fits w h e = true ->
    (forall j e', (j < i)%nat -> nth_error entries j = Some e' ->
       fits w h e' = false) ->
    ladder w h entries = snd e.
Proof.
  induction entries as [|e0 rest IH]; intros i e Hnth Hfit Hbefore.
  - destruct i; discriminate.
  - destruct i as [|i]; simpl in *.
    + injection Hnth as ->. now rewrite Hfit.
    + rewrite (Hbefore 0%nat e0) by (simpl; trivial; lia).
      apply (IH i); trivial.
      intros j e' Hj. apply (Hbefore (S j)). lia.
Qed.

Lemma ladder_none (w h : Z) (entries : list (Z * Z * string)) :
  (forall e, In e entries -> fits w h e = false) ->
  ladder w h entries = "SD".
Proof.
  induction entries as [|e0 rest IH]; intros Hall; simpl.
  - reflexivity.
  - rewrite (Hall e0) by (left; reflexivity).
    apply IH. intros e He. apply Hall. now right.
Qed.

(** C10: [ResolutionModule.extract] yields nothing when the main media
    entry has no non-empty [videoResolution], whatever its width and
    height; with the label present and both dimensions non-zero the answer
    is the label of the first rung, in the order 8K, 4K, 2K, 1080p, 720p,
    576p, 480p, whose width or height threshold of 85% is reached, and "SD"
    when no rung is reached. *)
Theorem resolution_needs_label_then_ladder (md : Metadata) (media : MediaEntry) :
  _get_main_media md = Some media ->
  (Py.truthy (videoResolution media) = false -> extract md = None) /\
  (Py.truthy (videoResolution media) = true ->
   int_or_zero (width media) <> 0%Z ->
   int_or_zero (height media) <> 0%Z ->
   let w := int_or_zero (width media) in
   let h := int_or_zero (height media) in
   map snd RESOLUTION_MAP = ["8K"; "4K"; "2K"; "1080p"; "720p"; "576p"; "480p"] /\
   (forall W H label,
      fits w h (W, H, label) = true <->
      (85 * W <= 100 * w \/ 85 * H <= 100 * h)%Z) /\
   (forall i e,
      nth_error RESOLUTION_MAP i = Some e ->
      fits w h e = true ->
      (forall j e', (j < i)%nat -> nth_error RESOLUTION_MAP j = Some e' ->
         fits w h e' = false) ->
      extract md = Some (snd e)) /\
   ((forall e, In e RESOLUTION_MAP -> fits w h e = false) ->
      extract md = Some "SD")).
Proof.
  intros Hmain. split.
  - intros Ht. unfold extract. now rewrite Hmain, Ht.
  - intros Ht Hw Hh. cbv zeta.
    assert (Hex : extract md =
                  Some (ladder (int_or_zero (width media))
                          (int_or_zero (height media)) RESOLUTION_MAP)).
    { unfold extract. rewrite Hmain, Ht.
      apply Z.eqb_neq in Hw, Hh. now rewrite Hw, Hh. }
    rewrite Hex.
    split; [reflexivity|]. split; [intros; apply fits_spec|]. split.
    + intros i e Hnth Hfit Hbefore. f_equal.
      now apply (ladder_first _ _ _ i).
    + intros Hnone. f_equal. now apply ladder_none.
Qed.

Lemma resolution_needs_label_then_ladder_witness :
  extract (metadata_of_media uhd_unlabelled) = None /\
  extract (metadata_of_media cropped_1080) = Some "1080p".
Proof.
  split.
  - exact (proj1 (resolution_needs_label_then_ladder
                    (metadata_of_media uhd_unlabelled) uhd_unlabelled eq_refl)
             eq_refl).
  - destruct (proj2 (resolution_needs_label_then_ladder
                       (metadata_of_media cropped_1080) cropped_1080 eq_refl)
                eq_refl) as (_ & _ & Hfirst & _).
    + simpl. lia.
    + simpl. lia.
    + apply (Hfirst 3%nat (1920, 1080, "1080p")%Z).
      * reflexivity.
      * reflexivity.
      * intros j e' Hj Hnth.
        destruct j as [|[|[|j]]]; simpl in Hnth; try lia;
          injection Hnth as <-; reflexivity.
Defined.

End Resolution.

(** ** The artwork defect detector *)

Section Detector.

Import ArtworkScanner.

Variable srv : Plex.Server.
Variable sc : Scanner.

Ltac split_checks :=
  repeat match goal with
         | |- context [_check_placeholder_poster ?a ?b ?c] =>
             destruct (_check_placeholder_poster a b c) as [[] ?]
         | |- context [_check_placeholder_background ?a ?b ?c] =>
             destruct (_check_placeholder_background a b c) as [[] ?]
         end.

Lemma kinds_after_short_circuit st item :
  (check_unmatched sc && negb (Plex.is_matched item)) = false ->
  forall t, In t (kinds (fst (scan_item srv sc st item))) ->
  t = NO_POSTER \/ t = NO_BACKGROUND \/ t = PLACEHOLDER_POSTER
  \/ t = PLACEHOLDER_BACKGROUND.
Proof.
  intros Hsc t. unfold scan_item, kinds. rewrite Hsc.
  destruct (check_posters sc && negb (Plex.has_poster item));
    destruct (check_backgrounds sc && negb (Plex.has_background item));
    destruct (check_placeholders sc && Plex.has_poster item);
    destruct (check_placeholders sc && Plex.has_background item);
    split_checks; simpl; intuition (subst; auto).
Qed.

(** C9: a [no_match] issue is reported exactly when the item is unmatched
    and [check_unmatched] is on; the call then reports nothing else, makes
    no download and leaves the memo alone. *)
Theorem no_match_short_circuits st item :
  (check_unmatched sc = true -> Plex.is_matched item = false ->
   scan_item srv sc st item = ([_create_issue item NO_MATCH None], st)) /\
  (In NO_MATCH (kinds (fst (scan_item srv sc st item))) ->
   fst (scan_item srv sc st item) = [_create_issue item NO_MATCH None]).
Proof.
  split.
  - intros Hc Hm. unfold scan_item. now rewrite Hc, Hm.
  - intros Hin.
    destruct (check_unmatched sc && negb (Plex.is_matched item)) eqn:Hsc.
    + unfold scan_item. now rewrite Hsc.
    + destruct (kinds_after_short_circuit st item Hsc _ Hin)
        as [H | [H | [H | H]]]; discriminate H.
Qed.

Lemma Qle_bool_false (a b : Q) : Qle_bool a b = false -> (b < a)%Q.
Proof.
  intros H. apply Qnot_le_lt. intros Hle.
  apply Qle_bool_iff in Hle. congruence.
Qed.

Ltac reflect_Q :=
  repeat match goal with
         | |- context [Qle_bool ?a ?b] => destruct (Qle_bool a b) eqn:?
         end;
  repeat match goal with
         | H : Qle_bool _ _ = true |- _ => apply Qle_bool_iff in H
         | H : Qle_bool _ _ = false |- _ => apply Qle_bool_false in H
         end.

(** The verdict on a poster ratio, in the words of the specification. *)
Lemma poster_verdict (r : Q) :
  poster_ratio_is_placeholder r = true <->
  (1 < r \/ (9 # 10) < r \/ r < (4 # 10))%Q.
Proof.
  unfold poster_ratio_is_placeholder, Py.Qltb,
    POSTER_ASPECT_RATIO, ASPECT_RATIO_TOLERANCE.
  reflect_Q; simpl; split; intros H; try discriminate H; try reflexivity; lra.
Qed.

Lemma poster_kind_reported st item p r st' :
  check_placeholders sc = true ->
  (check_unmatched sc && negb (Plex.is_matched item)) = false ->
  Plex.thumb item = Some p -> p <> "" ->
  _get_image_aspect_ratio srv st p = (Some r, st') ->
  In PLACEHOLDER_POSTER (kinds (fst (scan_item srv sc st item))) <->
  poster_ratio_is_placeholder r = true.
Proof.
  intros Hcp Hsc Hthumb Hp Hratio.
  assert (Hhas : Plex.has_poster item = true).
  { unfold Plex.has_poster, Py.truthy. rewrite Hthumb.
    apply negb_true_iff, String.eqb_neq, Hp. }
  assert (Hchk : _check_placeholder_poster srv st item
                 = (poster_ratio_is_placeholder r, st')).
  { unfold _check_placeholder_poster. rewrite Hthumb.
    apply String.eqb_neq in Hp. now rewrite Hp, Hratio. }
  unfold scan_item, kinds. rewrite Hsc, Hcp, Hhas, Hchk. simpl.
  destruct (check_posters sc); destruct (check_backgrounds sc && _);
    destruct (poster_ratio_is_placeholder r);
    destruct (Plex.has_background item);
    split_checks; simpl; intuition congruence.
Qed.

(** C6: for an item that reaches the poster check (placeholder checking on,
    not cut short as unmatched, a poster path present) and whose poster
    ratio [r] the scanner obtains, [placeholder_poster] is reported iff
    [r > 1.0] or [r > 0.9] or [r < 0.4]; a ratio within 15% of 2/3 is never
    flagged. *)
Theorem placeholder_poster_rule st item p r st' :
  check_placeholders sc = true ->
  (check_unmatched sc && negb (Plex.is_matched item)) = false ->
  Plex.thumb item = Some p -> p <> "" ->
  _get_image_aspect_ratio srv st p = (Some r, st') ->
  (In PLACEHOLDER_POSTER (kinds (fst (scan_item srv sc st item))) <->
   (1 < r \/ (9 # 10) < r \/ r < (4 # 10))%Q) /\
  (((2 # 3) * (1 - (15 # 100)) <= r /\ r <= (2 # 3) * (1 + (15 # 100)))%Q ->
   ~ In PLACEHOLDER_POSTER (kinds (fst (scan_item srv sc st item)))).
Proof.
  intros Hcp Hsc Hthumb Hp Hratio.
  pose proof (poster_kind_reported st item p r st' Hcp Hsc Hthumb Hp Hratio)
    as Hrep.
  rewrite poster_verdict in Hrep. split; [exact Hrep|].
  intros [Hlo Hhi] Hin. apply Hrep in Hin. lra.
Qed.

End Detector.

(** ** The aspect-ratio memo *)

Section Memo.

Import ArtworkScanner.

Variable srv : Plex.Server.

Lemma snoc_split {A : Type} (l l1 l2 : list A) (x y : A) :
  l ++ [x] = l1 ++ y :: l2 ->
  (l2 = [] /\ l = l1 /\ x = y)
  \/ exists l2', l2 = l2' ++ [x] /\ l = l1 ++ y :: l2'.
Proof.
  destruct l2 as [|z l2] using rev_ind; intros H.
  - left. apply app_inj_tail in H. tauto.
  - right. exists l2.
    change (l1 ++ y :: l2 ++ [z]) with (l1 ++ (y :: l2) ++ [z]) in H.
    rewrite app_assoc in H. apply app_inj_tail in H.
    destruct H as [-> ->]. split; reflexivity.
Qed.

Lemma memo_ok_fresh : memo_ok fresh.
Proof.
  split.
  - intros p out [].
  - intros l1 p out l2 H. destruct l1; discriminate H.
Qed.

(** A miss appends one download; the memo grows only on success. *)
Lemma memo_ok_miss st p out cache' :
  memo_ok st ->
  _aspect_ratio_cache st !! p = None ->
  (cache' = _aspect_ratio_cache st /\ succeeded out = false
   \/ exists r, cache' = <[p := r]> (_aspect_ratio_cache st)) ->
  memo_ok {| _aspect_ratio_cache := cache';
             downloads := downloads st ++ [(p, out)] |}.
Proof.
  intros [Hknown Hno] Hmiss Hcache. split; simpl.
  - intros q o Hin Hs. apply in_app_iff in Hin.
    destruct Hin as [Hin | [[= <- <-] | []]].
    + specialize (Hknown q o Hin Hs).
      destruct Hcache as [[-> _] | [r ->]]; [exact Hknown|].
      rewrite lookup_insert_is_Some. destruct (decide (p = q)); auto.
    + destruct Hcache as [[_ Hf] | [r ->]]; [congruence|].
      rewrite lookup_insert_eq. eauto.
  - intros l1 q o l2 Hsplit Hs e He.
    apply snoc_split in Hsplit.
    destruct Hsplit as [(-> & _ & _) | (l2' & -> & Hlog)]; [destruct He|].
    apply in_app_iff in He. destruct He as [He | [<- | []]].
    + exact (Hno l1 q o l2' Hlog Hs e He).
    + simpl. intros <-.
      assert (Hq : is_Some (_aspect_ratio_cache st !! p)).
      { apply (Hknown p o); [|exact Hs].
        rewrite Hlog. apply in_app_iff. right. left. reflexivity. }
      rewrite Hmiss in Hq. destruct Hq as [? [=]].
Qed.

Lemma memo_ok_get st p :
  memo_ok st -> memo_ok (snd (_get_image_aspect_ratio srv st p)).
Proof.
  intros Hok. unfold _get_image_aspect_ratio.
  destruct (_aspect_ratio_cache st !! p) as [r|] eqn:Hc; [exact Hok|].
  destruct (Plex.image srv _ _) as [|w h] eqn:Hout; simpl.
  - apply memo_ok_miss; auto.
  - destruct (h =? 0)%Z eqn:Hh; simpl.
    + apply memo_ok_miss; auto. left. split; [reflexivity|].
      simpl. now rewrite Hh.
    + apply memo_ok_miss; eauto.
Qed.

Lemma memo_ok_poster st item :
  memo_ok st -> memo_ok (snd (_check_placeholder_poster srv st item)).
Proof.
  intros Hok. unfold _check_placeholder_poster.
  destruct (Plex.thumb item) as [p|]; [|exact Hok].
  destruct (String.eqb p ""); [exact Hok|].
  pose proof (memo_ok_get st p Hok) as H.
  destruct (_get_image_aspect_ratio srv st p) as [[r|] st']; exact H.
Qed.

Lemma memo_ok_background st item :
  memo_ok st -> memo_ok (snd (_check_placeholder_background srv st item)).
Proof.
  intros Hok. unfold _check_placeholder_background.
  destruct (Plex.art item) as [p|]; [|exact Hok].
  destruct (String.eqb p ""); [exact Hok|].
  pose proof (memo_ok_get st p Hok) as H.
  destruct (_get_image_aspect_ratio srv st p) as [[r|] st']; exact H.
Qed.

Lemma memo_ok_scan_item sc st item :
  memo_ok st -> memo_ok (snd (scan_item srv sc st item)).
Proof.
  intros Hok. unfold scan_item.
  destruct (check_unmatched sc && _); [exact Hok|].
  assert (Hmid : memo_ok
    (snd (if check_placeholders sc && Plex.has_poster item
          then _check_placeholder_poster srv st item else (false, st)))).
  { destruct (check_placeholders sc && Plex.has_poster item);
      [now apply memo_ok_poster | exact Hok]. }
  destruct (check_placeholders sc && Plex.has_poster item).
  - destruct (_check_placeholder_poster srv st item) as [b st1].
    simpl in Hmid.
    destruct (check_placeholders sc && Plex.has_background item).
    + pose proof (memo_ok_background st1 item Hmid) as H.
      destruct b;
        destruct (_check_placeholder_background srv st1 item) as [[] st2];
        exact H.
    + destruct b; exact Hmid.
  - destruct (check_placeholders sc && Plex.has_background item).
    + pose proof (memo_ok_background st item Hok) as H.
      destruct (_check_placeholder_background srv st item) as [[] st2];
        exact H.
    + exact Hok.
Qed.

Lemma memo_ok_scan_items sc items :
  forall st, memo_ok st -> memo_ok (scan_items srv sc st items).
Proof.
  induction items as [|item rest IH]; intros st Hok; simpl.
  - exact Hok.
  - apply IH, memo_ok_scan_item, Hok.
Qed.

Lemma no_refetch_tail e log : no_refetch (e :: log) -> no_refetch log.
Proof.
  intros H l1 p out l2 Hsplit. apply (H (e :: l1)). now rewrite Hsplit.
Qed.

Lemma no_refetch_success_count p log :
  no_refetch log -> (success_count p log <= 1)%nat.
Proof.
  unfold success_count.
  induction log as [|[q o] rest IH]; intros Hno; simpl; [lia|].
  specialize (IH (no_refetch_tail _ _ Hno)).
  destruct (String.eqb q p && succeeded o) eqn:E; [|exact IH].
  apply andb_true_iff in E. destruct E as [Eq Es].
  apply String.eqb_eq in Eq. subst q.
  assert (Hnone : List.filter
            (fun e => String.eqb (fst e) p && succeeded (snd e)) rest = []).
  { clear IH. assert (Hall : forall e, In e rest -> fst e <> p)
      by (apply (Hno [] p o rest); trivial).
    clear Hno. induction rest as [|e rest IH]; simpl; [reflexivity|].
    destruct (String.eqb (fst e) p) eqn:Ee; simpl.
    - apply String.eqb_eq in Ee. destruct (Hall e); [now left | exact Ee].
    - apply IH. intros e' He'. apply Hall. now right. }
  rewrite Hnone. simpl. lia.
Qed.

Lemma memo_from_success_fresh : memo_from_success fresh.
Proof. intros p [r Hr]. simpl in Hr. rewrite lookup_empty in Hr. discriminate. Qed.

Lemma memo_from_success_get st p :
  memo_from_success st ->
  memo_from_success (snd (_get_image_aspect_ratio srv st p)).
Proof.
  intros Hok. unfold _get_image_aspect_ratio.
  destruct (_aspect_ratio_cache st !! p) as [r|] eqn:Hc; [exact Hok|].
  assert (Hkeep : forall out,
            memo_from_success
              {| _aspect_ratio_cache := _aspect_ratio_cache st;
                 downloads := downloads st ++ [(p, out)] |}).
  { intros out q Hq. destruct (Hok q Hq) as (o & Hin & Hs).
    exists o. split; [|exact Hs]. simpl. apply in_app_iff. now left. }
  destruct (Plex.image srv _ _) as [|w h] eqn:Hout; simpl; [apply Hkeep|].
  destruct (h =? 0)%Z eqn:Hh; simpl; [apply Hkeep|].
  intros q Hq. simpl in Hq. rewrite lookup_insert_is_Some in Hq.
  destruct Hq as [<- | [_ Hq]].
  - exists (Plex.ImageSize w h). split.
    + simpl. apply in_app_iff. right. now left.
    + simpl. now rewrite Hh.
  - destruct (Hok q Hq) as (o & Hin & Hs).
    exists o. split; [|exact Hs]. simpl. apply in_app_iff. now left.
Qed.

Lemma memo_from_success_poster st item :
  memo_from_success st ->
  memo_from_success (snd (_check_placeholder_poster srv st item)).
Proof.
  intros Hok. unfold _check_placeholder_poster.
  destruct (Plex.thumb item) as [p|]; [|exact Hok].
  destruct (String.eqb p ""); [exact Hok|].
  pose proof (memo_from_success_get st p Hok) as H.
  destruct (_get_image_aspect_ratio srv st p) as [[r|] st']; exact H.
Qed.

Lemma memo_from_success_background st item :
  memo_from_success st ->
  memo_from_success (snd (_check_placeholder_background srv st item)).
Proof.
  intros Hok. unfold _check_placeholder_background.
  destruct (Plex.art item) as [p|]; [|exact Hok].
  destruct (String.eqb p ""); [exact Hok|].
  pose proof (memo_from_success_get st p Hok) as H.
  destruct (_get_image_aspect_ratio srv st p) as [[r|] st']; exact H.
Qed.

Lemma memo_from_success_scan_item sc st item :
  memo_from_success st -> memo_from_success (snd (scan_item srv sc st item)).
Proof.
  intros Hok. unfold scan_item.
  destruct (check_unmatched sc && _); [exact Hok|].
  assert (Hmid : memo_from_success
    (snd (if check_placeholders sc && Plex.has_poster item
          then _check_placeholder_poster srv st item else (false, st)))).
  { destruct (check_placeholders sc && Plex.has_poster item);
      [now apply memo_from_success_poster | exact Hok]. }
  destruct (check_placeholders sc && Plex.has_poster item).
  - destruct (_check_placeholder_poster srv st item) as [b st1].
    simpl in Hmid.
    destruct (check_placeholders sc && Plex.has_background item).
    + pose proof (memo_from_success_background st1 item Hmid) as H.
      destruct b;
        destruct (_check_placeholder_background srv st1 item) as [[] st2];
        exact H.
    + destruct b; exact Hmid.
  - destruct (check_placeholders sc && Plex.has_background item).
    + pose proof (memo_from_success_background st item Hok) as H.
      destruct (_check_placeholder_background srv st item) as [[] st2];
        exact H.
    + exact Hok.
Qed.

Lemma memo_from_success_scan_items sc items :
  forall st, memo_from_success st ->
             memo_from_success (scan_items srv sc st items).
Proof.
  induction items as [|item rest IH]; intros st Hok; simpl.
  - exact Hok.
  - apply IH, memo_from_success_scan_item, Hok.
Qed.

(** A query for a path the memo does not know downloads it; a download
    that fails leaves the memo as it is. *)
Lemma miss_downloads st p :
  _aspect_ratio_cache st !! p = None ->
  let out := Plex.image srv (length (downloads st))
               (Plex.get_poster_url srv p) in
  let r := _get_image_aspect_ratio srv st p in
  downloads (snd r) = downloads st ++ [(p, out)] /\
  (succeeded out = false ->
   fst r = None /\ _aspect_ratio_cache (snd r) = _aspect_ratio_cache st).
Proof.
  intros Hc out r. subst out r. unfold _get_image_aspect_ratio. rewrite Hc.
  destruct (Plex.image srv _ _) as [|w h]; simpl; [now split|].
  destruct (h =? 0)%Z; simpl; [now split|]. split; [reflexivity|discriminate].
Qed.

(** C8, as amended: only a download that succeeded is memoized.  Over any
    sequence of [scan_item] calls on one instance, a path is never
    downloaded again once a download of it has yielded a ratio (so it
    succeeds at most once), and from then on its ratio is answered from the
    memo without any download.  A failed download (HTTP error, undecodable
    image, zero height) is not remembered: the memo knows a path only if a
    download of it succeeded, and a query for a path whose downloads have
    all failed downloads it again, returning nothing and leaving the memo
    as it is when this download fails too. *)
Theorem memo_stops_refetch_after_success sc items :
  let st := scan_items srv sc fresh items in
  no_refetch (downloads st) /\
  (forall p, (success_count p (downloads st) <= 1)%nat) /\
  (forall p out, In (p, out) (downloads st) -> succeeded out = true ->
     exists r, _get_image_aspect_ratio srv st p = (Some r, st)) /\
  (forall p, is_Some (_aspect_ratio_cache st !! p) ->
     exists out, In (p, out) (downloads st) /\ succeeded out = true) /\
  (forall p,
     (forall out, In (p, out) (downloads st) -> succeeded out = false) ->
     let out := Plex.image srv (length (downloads st))
                  (Plex.get_poster_url srv p) in
     let r := _get_image_aspect_ratio srv st p in
     downloads (snd r) = downloads st ++ [(p, out)] /\
     (succeeded out = false ->
      fst r = None /\ _aspect_ratio_cache (snd r) = _aspect_ratio_cache st)).
Proof.
  intros st.
  destruct (memo_ok_scan_items sc items fresh memo_ok_fresh) as [Hknown Hno].
  pose proof (memo_from_success_scan_items sc items fresh
                memo_from_success_fresh) as Hfrom.
  fold st in Hknown, Hno, Hfrom.
  split; [exact Hno|]. split; [|split; [|split]].
  - intros p. now apply no_refetch_success_count.
  - intros p out Hin Hs. destruct (Hknown p out Hin Hs) as [r Hr].
    exists r. unfold _get_image_aspect_ratio. now rewrite Hr.
  - exact Hfrom.
  - intros p Hfailed. apply miss_downloads.
    destruct (_aspect_ratio_cache st !! p) as [r|] eqn:Hc; [|reflexivity].
    destruct (Hfrom p) as (o & Hin & Hs); [rewrite Hc; eauto|].
    rewrite (Hfailed o Hin) in Hs. discriminate.
Qed.

End Memo.

(** ** The detector on concrete items *)

Section DetectorExamples.

Import ArtworkScanner.

Lemma no_match_short_circuits_witness :
  scan_item (image_server Plex.FetchFailed) all_checks fresh unmatched_item
  = ([_create_issue unmatched_item NO_MATCH None], fresh).
Proof.
  apply (proj1 (no_match_short_circuits (image_server Plex.FetchFailed)
                  all_checks fresh unmatched_item)); reflexivity.
Defined.

Lemma placeholder_poster_rule_witness :
  In PLACEHOLDER_POSTER
    (kinds (fst (scan_item (image_server (Plex.ImageSize 1920 1080))
                   all_checks fresh poster_item))).
Proof.
  refine (proj2 (proj1 (placeholder_poster_rule
            (image_server (Plex.ImageSize 1920 1080)) all_checks fresh
            poster_item "/library/metadata/603/thumb"
            (inject_Z 1920 / inject_Z 1080)%Q _
            eq_refl eq_refl eq_refl _ eq_refl)) _).
  - discriminate.
  - left. reflexivity.
Defined.

Lemma memo_stops_refetch_after_success_witness :
  let srv := image_server (Plex.ImageSize 1000 1500) in
  let st := scan_items srv all_checks fresh [poster_item; poster_item] in
  (success_count "/library/metadata/603/thumb" (downloads st) <= 1)%nat /\
  exists r,
    _get_image_aspect_ratio srv st "/library/metadata/603/thumb"
    = (Some r, st).
Proof.
  intros srv st.
  destruct (memo_stops_refetch_after_success srv all_checks
              [poster_item; poster_item]) as (_ & Hcount & Hmemo & _).
  split; [apply Hcount|].
  apply (Hmemo _ (Plex.ImageSize 1000 1500)); [|reflexivity].
  vm_compute. left. reflexivity.
Defined.

(** C8 as stated fails: when the download fails nothing is memoized, and
    scanning the same item twice downloads its poster twice. *)
Lemma failed_download_is_repeated :
  ~ fetched_at_most_once (image_server Plex.FetchFailed) all_checks
      [poster_item; poster_item].
Proof.
  intros H. specialize (H "/library/metadata/603/thumb").
  vm_compute in H. lia.
Qed.

End DetectorExamples.

(** ** The provider aggregator *)

Section Aggregator.

Import Schemas ArtworkService.

Lemma key_ltb_spec (a b : nat * Z) :
  key_ltb a b = true <->
  (fst a < fst b)%nat \/ (fst a = fst b /\ (snd a < snd b)%Z).
Proof.
  unfold key_ltb.
  rewrite orb_true_iff, andb_true_iff, Nat.ltb_lt, Nat.eqb_eq, Z.ltb_lt.
  reflexivity.
Qed.

Lemma key_le_spec (a b : nat * Z) :
  key_le a b <->
  (fst a < fst b)%nat \/ (fst a = fst b /\ (snd a <= snd b)%Z).
Proof.
  unfold key_le. rewrite <- not_true_iff_false, key_ltb_spec. lia.
Qed.

Lemma key_le_trans (a b c : nat * Z) : key_le a b -> key_le b c -> key_le a c.
Proof. rewrite !key_le_spec. lia. Qed.

Lemma key_ltb_le (a b : nat * Z) : key_ltb a b = true -> key_le a b.
Proof. rewrite key_ltb_spec, key_le_spec. lia. Qed.

Variable pm : gmap string nat.

Lemma insert_by_perm x l : Permutation (insert_by pm x l) (x :: l).
Proof.
  induction l as [|y ys IH]; simpl.
  - apply Permutation_refl.
  - destruct (key_ltb (sort_key pm y) (sort_key pm x)).
    + rewrite IH. apply perm_swap.
    + apply Permutation_refl.
Qed.

Lemma sort_by_perm l : Permutation (sort_by pm l) l.
Proof.
  induction l as [|x xs IH]; simpl.
  - apply perm_nil.
  - rewrite insert_by_perm. now apply perm_skip.
Qed.

Lemma insert_by_sorted x l :
  StronglySorted (by_key pm) l -> StronglySorted (by_key pm) (insert_by pm x l).
Proof.
  induction 1 as [|y ys Hs IH Hall]; simpl.
  - repeat constructor.
  - destruct (key_ltb (sort_key pm y) (sort_key pm x)) eqn:E.
    + constructor; [exact IH|].
      rewrite (insert_by_perm x ys). constructor; [|exact Hall].
      now apply key_ltb_le.
    + assert (Hxy : by_key pm x y) by exact E.
      constructor; [now constructor|].
      constructor; [exact Hxy|].
      revert Hall. apply List.Forall_impl.
      intros z Hyz. exact (key_le_trans _ _ _ Hxy Hyz).
Qed.

Lemma sort_by_sorted l : StronglySorted (by_key pm) (sort_by pm l).
Proof.
  induction l as [|x xs IH]; simpl.
  - constructor.
  - now apply insert_by_sorted.
Qed.

(** Stability: results of equal key keep the order they were gathered in. *)
Lemma insert_by_with_key k x l :
  with_key pm k (insert_by pm x l) = with_key pm k (x :: l).
Proof.
  unfold with_key.
  induction l as [|y ys IH]; [reflexivity|].
  cbn [insert_by].
  destruct (key_ltb (sort_key pm y) (sort_key pm x)) eqn:E; [|reflexivity].
  cbn [List.filter] in *. rewrite IH.
  destruct (has_key pm k x) eqn:Ex; destruct (has_key pm k y) eqn:Ey;
    try reflexivity.
  apply key_ltb_spec in E. unfold has_key in Ex, Ey.
  apply andb_true_iff in Ex, Ey.
  destruct Ex as [Ex1 Ex2], Ey as [Ey1 Ey2].
  apply Nat.eqb_eq in Ex1, Ey1. apply Z.eqb_eq in Ex2, Ey2. lia.
Qed.

Lemma sort_by_with_key k l : with_key pm k (sort_by pm l) = with_key pm k l.
Proof.
  induction l as [|x xs IH]; [reflexivity|].
  cbn [sort_by]. rewrite insert_by_with_key.
  unfold with_key in *. cbn [List.filter]. now rewrite IH.
Qed.

End Aggregator.

Section Priority.

Import Schemas ArtworkService.

Lemma priority_map_from_notin names :
  forall i m name,
    ~ In name names -> priority_map_from i names m !! name = m !! name.
Proof.
  induction names as [|n rest IH]; intros i m name Hnot; simpl.
  - reflexivity.
  - rewrite IH by (intros H; apply Hnot; now right).
    apply lookup_insert_ne. intros ->. apply Hnot. now left.
Qed.

Lemma priority_map_from_in names :
  forall i m name,
    In name names ->
    exists j, priority_map_from i names m !! name = Some j
              /\ (i <= j < i + length names)%nat.
Proof.
  induction names as [|n rest IH]; intros i m name Hin; simpl.
  - destruct Hin.
  - destruct (in_dec String.string_dec name rest) as [Hrest | Hrest].
    + destruct (IH (S i) (<[n := i]> m) name Hrest) as (j & Hj & Hr).
      exists j. split; [exact Hj | lia].
    + destruct Hin as [-> | Hin]; [|contradiction].
      exists i. rewrite priority_map_from_notin by exact Hrest.
      rewrite lookup_insert_eq. split; [reflexivity | lia].
Qed.

(** The index in the sort key of a result: below the length of the list
    for a listed source, the sentinel for any other. *)
Lemma priority_index priority r :
  (listed priority r ->
   (fst (sort_key (priority_map priority) r) < length priority)%nat) /\
  (~ listed priority r ->
   fst (sort_key (priority_map priority) r) = SENTINEL).
Proof.
  unfold listed, sort_key, priority_map. simpl. split; intros H.
  - destruct (priority_map_from_in priority 0 ∅ _ H) as (j & -> & Hj).
    simpl. lia.
  - rewrite priority_map_from_notin by exact H.
    now rewrite lookup_empty.
Qed.

(** C5, as amended: [get_artwork] returns the results of the configured
    providers, gathered in provider order and stably sorted by the key
    (priority index of the source, negated score), so equal inputs give
    the same list, ties included.  A source missing from the priority list
    gets the index 999; its results stand after those of every listed
    source provided the priority list has at most 999 entries. *)
Theorem get_artwork_sorted_by_priority priority providers :
  let pm := priority_map priority in
  let gathered := gather (List.filter is_configured providers) in
  let out := get_artwork priority providers in
  StronglySorted (by_key pm) out /\
  Permutation out gathered /\
  (forall k, with_key pm k out = with_key pm k gathered) /\
  (forall r, ~ listed priority r -> fst (sort_key pm r) = 999%nat) /\
  ((length priority <= 999)%nat -> unlisted_sort_last priority out).
Proof.
  intros pm gathered out.
  assert (Hout : out = sort_by pm gathered).
  { unfold out, get_artwork, gathered.
    destruct (List.filter is_configured providers); reflexivity. }
  assert (Hsorted : StronglySorted (by_key pm) out)
    by (rewrite Hout; apply sort_by_sorted).
  split; [exact Hsorted|].
  split; [rewrite Hout; apply sort_by_perm|].
  split; [intros k; rewrite Hout; apply sort_by_with_key|].
  split; [intros r Hr; now apply priority_index|].
  intros Hlen l1 x l2 y l3 Hsplit Hx Hy.
  rewrite Hsplit in Hsorted.
  assert (Hxy : by_key pm x y).
  { clear Hsplit. induction l1 as [|z l1 IH].
    - simpl in Hsorted. inversion Hsorted as [|? ? _ Hall]; subst.
      rewrite List.Forall_forall in Hall. apply Hall.
      apply in_app_iff. right. now left.
    - apply IH. now inversion Hsorted. }
  apply key_le_spec in Hxy.
  pose proof (proj2 (priority_index priority x) Hx) as Ex.
  pose proof (proj1 (priority_index priority y) Hy) as Ey.
  fold pm in Ex, Ey. unfold SENTINEL in Ex. lia.
Qed.

Lemma get_artwork_sorted_by_priority_witness :
  (length ["tmdb"; "fanart"] <= 999)%nat /\
  unlisted_sort_last ["tmdb"; "fanart"]
    (get_artwork ["tmdb"; "fanart"] two_providers).
Proof.
  assert (H : (length ["tmdb"; "fanart"] <= 999)%nat) by (simpl; lia).
  split; [exact H|].
  exact (proj2 (proj2 (proj2 (proj2
           (get_artwork_sorted_by_priority ["tmdb"; "fanart"] two_providers))))
           H).
Defined.

(** C5 as stated fails for a priority list of a thousand entries: "mediux",
    at position 999, gets the very index of the sentinel.  With the
    answers of [sample_answers] run through the parsers of the providers,
    the TMDB poster (score 85, source not listed) is returned before the
    Mediux posters (score 0, source listed). *)
Lemma sentinel_reached_by_long_priority_list :
  ~ unlisted_sort_last long_priority
      (get_artwork long_priority
         (Aggregation.providers_of Aggregation.sample_answers [POSTER])).
Proof.
  intros H.
  assert (Hout : exists l1 x l2 y l3,
            get_artwork long_priority
              (Aggregation.providers_of Aggregation.sample_answers [POSTER])
            = l1 ++ x :: l2 ++ y :: l3
            /\ x = TMDB.poster_857_result
            /\ source y = MEDIUX /\ score y = 0%Z).
  { eexists [_], _, [], _, [_]. vm_compute. repeat split. }
  destruct Hout as (l1 & x & l2 & y & l3 & Hout & -> & Hy & _).
  apply (H _ _ _ _ _ Hout).
  - unfold listed, long_priority. simpl value. intros Hin.
    apply in_app_iff in Hin. destruct Hin as [Hin | [Hin | []]].
    + apply repeat_spec in Hin. discriminate Hin.
    + discriminate Hin.
  - unfold listed, long_priority. rewrite Hy. apply in_app_iff. right. now left.
Qed.

End Priority.

(** ** Edition backups *)

Section Backups.

Import Sys EditionManager.

Variable srv : Plex.Server.

Lemma backups_of_add_same key b w :
  plex_rating_key b = key ->
  backups_of key (set_db (add_backup b) w) = backups_of key w ++ [b].
Proof.
  intros Hb. unfold backups_of. simpl.
  rewrite List.filter_app. simpl.
  now rewrite Hb, String.eqb_refl.
Qed.

(** Where the backup can be made it is made: after [backup_edition]
    returns for an item whose metadata the server delivers, the item has a
    backup row. *)
Lemma backup_edition_for_known_item key w item w1 :
  PlexService.get_item_metadata srv key w = (Some item, w1) ->
  forall w', backup_edition srv key w = (Py.Ok tt, w') ->
  backups_of key w' <> [].
Proof.
  intros Hmeta w'. unfold backup_edition.
  destruct (backups_of key w) as [|b [|b' rest]] eqn:Hb.
  - destruct (_get_plex_service w); [|discriminate].
    rewrite Hmeta. intros [= <-].
    rewrite backups_of_add_same by reflexivity.
    now destruct (backups_of key w1).
  - intros [= <-]. now rewrite Hb.
  - discriminate.
Qed.

(** So a write is backed up whenever the server delivers the item's
    metadata to [backup_edition]. *)
Lemma backed_up_when_item_known key edition w item w1 :
  PlexService.get_item_metadata srv key w = (Some item, w1) ->
  backed_up_when_written srv key edition w.
Proof.
  intros Hmeta. unfold backed_up_when_written, apply_edition.
  destruct (_get_plex_service w) eqn:Hcfg; [|simpl; rewrite skipn_all; intros []].
  pose proof (backup_edition_for_known_item key w item w1 Hmeta) as Hb.
  destruct (backup_edition srv key w) as [[[]|e] w2] eqn:Hbk.
  - specialize (Hb w2 eq_refl). intros _.
    unfold PlexService.set_edition, PlexService._request.
    now destruct (Plex.put_edition srv _ key edition).
  - simpl. clear Hb. revert Hbk. unfold backup_edition.
    destruct (backups_of key w) as [|b [|b' rest]] eqn:Hrows.
    + rewrite Hcfg, Hmeta. discriminate.
    + discriminate.
    + intros [= _ <-]. now rewrite Hrows.
Qed.

End Backups.

Section BackupMissed.

Import Sys EditionManager.

(** C2: the backup is skipped when the server does not deliver the item's
    metadata, and the edition is written all the same.  With no backup row
    for item 42 and a server whose metadata request times out,
    [apply_edition] returns [True], its PUT of the edition is the request
    after the failed GET, and table [edition_backups] is still empty. *)
Theorem edition_written_without_backup :
  let r := apply_edition Scenarios.timeout_server "42" "4K"
             Scenarios.initial_world in
  fst r = Py.Ok true /\
  requests (snd r) =
    [(Plex.GetMetadata "42", Some Py.PlexConnectionError);
     (Plex.PutEdition "42" "4K", None)] /\
  edition_backups (db (snd r)) = [] /\
  ~ backed_up_when_written Scenarios.timeout_server "42" "4K"
      Scenarios.initial_world.
Proof.
  cbv zeta. repeat split; try reflexivity.
  intros H. apply H; [|reflexivity].
  right. left. reflexivity.
Qed.

End BackupMissed.


(** ** The scan engine: terminal transitions *)

Section Terminal.

Import Sys ScanManager Trace.

Lemma find_update scan_id (f : Scan -> Scan) rows :
  (forall s, id (f s) = id s) ->
  find (fun s => (id s =? scan_id)%nat)
       (map (fun s => if (id s =? scan_id)%nat then f s else s) rows)
  = option_map f (find (fun s => (id s =? scan_id)%nat) rows).
Proof.
  intros Hid. induction rows as [|s rows IH]; simpl; [reflexivity|].
  destruct (id s =? scan_id)%nat eqn:E.
  - now rewrite Hid, E.
  - now rewrite E.
Qed.

Lemma find_map_id (k : nat) (g : Scan -> Scan) rows :
  (forall s, id (g s) = id s) ->
  find (fun s => (id s =? k)%nat) (map g rows)
  = option_map g (find (fun s => (id s =? k)%nat) rows).
Proof.
  intros Hid. induction rows as [|s rows IH]; simpl; [reflexivity|].
  rewrite Hid. now destruct (id s =? k)%nat.
Qed.

Lemma find_scan_in scan_id w :
  In scan_id (scan_ids w) -> exists s, find_scan scan_id w = Some s.
Proof.
  unfold scan_ids, find_scan.
  induction (scans (db w)) as [|s rows IH]; simpl; [intros []|].
  intros [<- | Hin].
  - rewrite Nat.eqb_refl. eauto.
  - destruct (id s =? scan_id)%nat; eauto.
Qed.

Lemma skipn_app_length {A : Type} (l extra : list A) :
  skipn (length l) (l ++ extra) = extra.
Proof. induction l as [|x l IH]; simpl; [reflexivity | exact IH]. Qed.

Lemma cancelled_writes_row scan_id w :
  find_scan scan_id (cancelled_writes scan_id w)
  = option_map
      (fun s =>
         {| id := id s; scan_type := scan_type s; status := "cancelled";
            total_items := total_items s;
            processed_items := processed_items s;
            issues_found := issues_found s;
            editions_updated := editions_updated s;
            current_library := current_library s;
            checkpoint := checkpoint s;
            triggered_by := triggered_by s; started_at := started_at s;
            paused_at := paused_at s; completed_at := Some (clock w) |})
      (find_scan scan_id w).
Proof.
  unfold find_scan, cancelled_writes. simpl.
  now rewrite find_update.
Qed.

Lemma failed_writes_row scan_id w :
  find_scan scan_id (failed_writes scan_id w)
  = option_map
      (fun s =>
         {| id := id s; scan_type := scan_type s; status := "failed";
            total_items := total_items s;
            processed_items := processed_items s;
            issues_found := issues_found s;
            editions_updated := editions_updated s;
            current_library := current_library s;
            checkpoint := checkpoint s;
            triggered_by := triggered_by s; started_at := started_at s;
            paused_at := paused_at s; completed_at := Some (clock w) |})
      (find_scan scan_id w).
Proof.
  unfold find_scan, failed_writes. simpl.
  now rewrite find_update.
Qed.

Lemma completed_writes_row scan_id p i e w :
  find_scan scan_id (completed_writes scan_id p i e w)
  = option_map
      (fun s =>
         {| id := id s; scan_type := scan_type s; status := "completed";
            total_items := total_items s;
            processed_items := p;
            issues_found := i;
            editions_updated := e;
            current_library := current_library s;
            checkpoint := None;
            triggered_by := triggered_by s; started_at := started_at s;
            paused_at := paused_at s; completed_at := Some (clock w) |})
      (find_scan scan_id w).
Proof.
  unfold find_scan, completed_writes. simpl.
  now rewrite find_update.
Qed.

Lemma retouched_refl r : retouched r r.
Proof. split; [now destruct r | now left]. Qed.

Lemma retouched_trans r1 r2 r3 :
  retouched r1 r2 -> retouched r2 r3 -> retouched r1 r3.
Proof.
  intros [H1 S1] [H2 S2]. split.
  - rewrite H2. rewrite H1. reflexivity.
  - destruct S2 as [S2 | S2]; [rewrite S2; exact S1 | tauto].
Qed.

(** A control call changes of a row at most the status and the pause
    time. *)
Lemma control_row c k w :
  exists g,
    find_scan k (control c w) = option_map g (find_scan k w)
    /\ forall r, retouched r (g r).
Proof.
  assert (Hsame : forall w', find_scan k w' = find_scan k w ->
            exists g, find_scan k w' = option_map g (find_scan k w)
                      /\ forall r, retouched r (g r)).
  { intros w' ->. exists (fun r => r). split; [|apply retouched_refl].
    now destruct (find_scan k w). }
  destruct c; unfold control, pause_scan, resume_scan, cancel_scan.
  - destruct (_status (mgr w)); try (apply Hsame; reflexivity).
    simpl. destruct (truthy_id (_current_scan_id (mgr w))) as [i|];
      [|apply Hsame; reflexivity].
    eexists. split.
    + unfold find_scan. simpl.
      apply find_map_id. intros s. now destruct (id s =? i)%nat.
    + intros r. simpl. destruct (id r =? i)%nat; [|apply retouched_refl].
      split; [reflexivity | simpl; tauto].
  - destruct (_status (mgr w)); try (apply Hsame; reflexivity).
    simpl. destruct (truthy_id (_current_scan_id (mgr w))) as [i|];
      [|apply Hsame; reflexivity].
    eexists. split.
    + unfold find_scan. simpl.
      apply find_map_id. intros s. now destruct (id s =? i)%nat.
    + intros r. simpl. destruct (id r =? i)%nat; [|apply retouched_refl].
      split; [reflexivity | simpl; tauto].
  - destruct (negb (is_running w)); apply Hsame; reflexivity.
Qed.

Lemma controls_row cs k :
  forall w,
  exists g,
    find_scan k (controls cs w) = option_map g (find_scan k w)
    /\ forall r, retouched r (g r).
Proof.
  unfold controls. induction cs as [|c cs IH]; intros w; simpl.
  - exists (fun r => r). split; [|apply retouched_refl].
    now destruct (find_scan k w).
  - destruct (control_row c k w) as (g1 & H1 & R1).
    destruct (IH (control c w)) as (g2 & H2 & R2).
    exists (fun r => g2 (g1 r)). split.
    + rewrite H2, H1. now destruct (find_scan k w).
    + intros r. eapply retouched_trans; [apply R1 | apply R2].
Qed.

(** Only [pause_scan] and [resume_scan] write to the database. *)
Lemma controls_calm cs :
  Forall (eq CtlCancel) cs ->
  forall w, db (controls cs w) = db w /\ sent (controls cs w) = sent w.
Proof.
  unfold controls. induction 1 as [|c cs Hc _ IH]; intros w; simpl.
  - now split.
  - subst c. destruct (IH (control CtlCancel w)) as [-> ->].
    unfold control, cancel_scan. now destruct (negb (is_running w)).
Qed.

(** No control call sends a request, touches the scanner, or writes to a
    table other than the scans and their events. *)
Lemma control_keeps c w :
  requests (control c w) = requests w /\
  scanner (control c w) = scanner w /\
  issues (db (control c w)) = issues (db w) /\
  edition_backups (db (control c w)) = edition_backups (db w).
Proof.
  destruct c; unfold control, pause_scan, resume_scan, cancel_scan.
  - destruct (_status (mgr w)); try (repeat split; reflexivity).
    simpl. destruct (truthy_id (_current_scan_id (mgr w)));
      repeat split; reflexivity.
  - destruct (_status (mgr w)); try (repeat split; reflexivity).
    simpl. destruct (truthy_id (_current_scan_id (mgr w)));
      repeat split; reflexivity.
  - destruct (negb (is_running w)); repeat split; reflexivity.
Qed.

Lemma controls_keep cs :
  forall w,
    requests (controls cs w) = requests w /\
    scanner (controls cs w) = scanner w /\
    issues (db (controls cs w)) = issues (db w) /\
    edition_backups (db (controls cs w)) = edition_backups (db w).
Proof.
  unfold controls. induction cs as [|c cs IH]; intros w; simpl.
  - repeat split.
  - destruct (IH (control c w)) as (-> & -> & -> & ->). apply control_keeps.
Qed.

(** The end of a [_mark_scan_...] call: the table of scans is the one the
    calls of the other coroutines leave. *)
Lemma finish_mark_row sched s ev k w :
  find_scan k (world_of (finish_mark sched s ev w))
  = find_scan k (controls (during_mark sched) w).
Proof.
  unfold finish_mark. now destruct (cancelled_at sched AwMark).
Qed.

Lemma finish_mark_done sched s ev w w' :
  finish_mark sched s ev w = Done tt w' ->
  w' = _broadcast ev (set_mgr (set_status s) (controls (during_mark sched) w)).
Proof.
  unfold finish_mark. now destruct (cancelled_at sched AwMark); intros [=].
Qed.

Lemma finish_mark_cancelled sched s ev w w' :
  finish_mark sched s ev w = Cancelled w' ->
  w' = controls (during_mark sched) w.
Proof.
  unfold finish_mark. now destruct (cancelled_at sched AwMark); intros [=].
Qed.

Lemma finish_mark_cases sched s ev w :
  finish_mark sched s ev w
  = Done tt (_broadcast ev (set_mgr (set_status s)
                              (controls (during_mark sched) w)))
  \/ finish_mark sched s ev w = Cancelled (controls (during_mark sched) w).
Proof. unfold finish_mark. destruct (cancelled_at sched AwMark); auto. Qed.

Lemma checkpoint_of_controls cs k w :
  checkpoint_of k (controls cs w) = checkpoint_of k w.
Proof.
  unfold checkpoint_of. destruct (controls_row cs k w) as (g & -> & R).
  destruct (find_scan k w) as [r|]; [|reflexivity].
  simpl. destruct (R r) as [-> _]. reflexivity.
Qed.

(** Of the three terminal transitions only the one to completed clears
    the checkpoint. *)
Lemma _mark_scan_completed_clears_checkpoint sched scan_id p i e w :
  checkpoint_of scan_id (world_of (_mark_scan_completed sched scan_id p i e w))
  = None.
Proof.
  unfold checkpoint_of, _mark_scan_completed. rewrite finish_mark_row.
  fold (checkpoint_of scan_id
          (controls (during_mark sched) (completed_writes scan_id p i e w))).
  rewrite checkpoint_of_controls. unfold checkpoint_of.
  rewrite completed_writes_row. now destruct (find_scan scan_id w).
Qed.

(** C1: the transitions to cancelled and to failed leave the checkpoint
    column as it is, only the transition to completed sets it to null.  A
    scan over one library of 101 items with the default interval of 100
    persists a checkpoint after the 100th item; [cancel_scan] called while
    that item is processed ends the scan as cancelled with the checkpoint
    still in its row. *)
Theorem cancelled_scan_keeps_checkpoint :
  (forall sched scan_id w,
     checkpoint_of scan_id (world_of (_mark_scan_cancelled sched scan_id w))
     = checkpoint_of scan_id w) /\
  (forall sched scan_id e w,
     checkpoint_of scan_id (world_of (_mark_scan_failed sched scan_id e w))
     = checkpoint_of scan_id w) /\
  let w' := fst (start_and_run EditionManager.resolution_registry
                   Scenarios.big_library (Scenarios.cancel_during_item 99)
                   (Scenarios.config_of "artwork") Scenarios.initial_world) in
  status_of 1 w' = Some "cancelled" /\
  checkpoint_of 1 w'
  = Some {| cp_processed := 100; cp_current_library := "1";
            cp_timestamp := 1 |}.
Proof.
  split; [|split].
  - intros sched scan_id w. unfold checkpoint_of, _mark_scan_cancelled.
    rewrite finish_mark_row.
    fold (checkpoint_of scan_id
            (controls (during_mark sched) (cancelled_writes scan_id w))).
    rewrite checkpoint_of_controls. unfold checkpoint_of.
    rewrite cancelled_writes_row. now destruct (find_scan scan_id w).
  - intros sched scan_id e w. unfold checkpoint_of, _mark_scan_failed.
    rewrite finish_mark_row.
    fold (checkpoint_of scan_id
            (controls (during_mark sched) (failed_writes scan_id w))).
    rewrite checkpoint_of_controls. unfold checkpoint_of.
    rewrite failed_writes_row. now destruct (find_scan scan_id w).
  - vm_compute. split; reflexivity.
Qed.

(** The item loop does finalize a cancellation: a round that starts with
    the flag set makes no request and no download, marks the row
    cancelled with [completed_at] set, broadcasts [scan_cancelled] last,
    and returns (when nobody pauses or resumes the scan meanwhile and the
    task is not cancelled). *)
Lemma cancel_seen_by_item_loop reg srv sched config scan_id total_items
    lib_id lib_name item c w s :
  calm_mark sched ->
  task_cancelled sched = None ->
  _cancel_requested (mgr w) = true ->
  find_scan scan_id w = Some s ->
  exists w',
    item_step reg srv sched config scan_id total_items lib_id lib_name item
      c w = Returned w'
    /\ status_of scan_id w' = Some "cancelled"
    /\ option_map completed_at (find_scan scan_id w') = Some (Some (clock w))
    /\ sent w' = sent w ++ [scan_cancelled scan_id]
    /\ requests w' = requests w
    /\ scanner w' = scanner w.
Proof.
  intros Hcalm Htask Hc Hs.
  unfold item_step. destruct c as [[p i] e]. rewrite Hc.
  unfold _mark_scan_cancelled, finish_mark, cancelled_at. rewrite Htask.
  cbn [and_return bind]. eexists. split; [reflexivity|].
  destruct (controls_calm _ Hcalm (cancelled_writes scan_id w)) as [Hdb Hsent].
  assert (Hrow : find_scan scan_id
                   (controls (during_mark sched) (cancelled_writes scan_id w))
                 = find_scan scan_id (cancelled_writes scan_id w))
    by (unfold find_scan; now rewrite Hdb).
  unfold status_of.
  change (find_scan scan_id (_broadcast ?ev (set_mgr ?f ?x)))
    with (find_scan scan_id x).
  rewrite Hrow, cancelled_writes_row, Hs.
  repeat split.
  - simpl. now rewrite Hsent.
  - simpl. now destruct (controls_keep (during_mark sched)
                           (cancelled_writes scan_id w)) as (-> & _).
  - simpl. now destruct (controls_keep (during_mark sched)
                           (cancelled_writes scan_id w)) as (_ & -> & _).
Qed.

(** C4: a cancellation seen by the library loop ends the scan as
    completed.  With two libraries of one item each and [cancel_scan]
    called while the first item is processed, the loop over the libraries
    breaks before the second library, and the scan is finalized by
    [_mark_scan_completed]: status completed with one item of two
    processed, a [scan_completed] broadcast and no [scan_cancelled]. *)
Theorem cancel_between_libraries_ends_completed :
  let r := start_and_run EditionManager.resolution_registry
             Scenarios.two_libraries (Scenarios.cancel_during_item 0)
             (Scenarios.config_of "artwork") Scenarios.initial_world in
  snd r = true /\
  _cancel_requested (mgr (fst r)) = true /\
  status_of 1 (fst r) = Some "completed" /\
  option_map total_items (find_scan 1 (fst r)) = Some 2%Z /\
  option_map processed_items (find_scan 1 (fst r)) = Some 1%Z /\
  sent (fst r) = [scan_started 1; scan_progress_total 1 2; scan_completed 1 1 0 0].
Proof. vm_compute. repeat split; reflexivity. Qed.

(** A cancellation of a paused scan lets one more item through: the loop
    has passed its cancellation test when it waits at the gate, so the item
    it waits for is scanned after [cancel_scan] has opened the gate. *)
Lemma cancel_while_paused_scans_one_more :
  let r := start_and_run EditionManager.resolution_registry
             Scenarios.small_library Scenarios.pause_then_cancel
             (Scenarios.config_of "artwork") Scenarios.initial_world in
  status_of 1 (fst r) = Some "cancelled" /\
  map fst (ArtworkScanner.downloads (scanner (fst r)))
  = ["/library/metadata/0/thumb"; "/library/metadata/0/art";
     "/library/metadata/1/thumb"; "/library/metadata/1/art"].
Proof. vm_compute. split; reflexivity. Qed.

End Terminal.

(** ** The scan engine: which requests a run makes *)

Section Requests.

Import Sys ScanManager Trace.

Lemma same_refl w : same w w.
Proof. split; reflexivity. Qed.

Lemma same_trans w1 w2 w3 : same w1 w2 -> same w2 w3 -> same w1 w3.
Proof. intros [H1 H2] [H3 H4]. split; congruence. Qed.

Lemma ext_refl P w : ext P w w.
Proof.
  split; [reflexivity|]. exists []. split; [|constructor].
  now rewrite app_nil_r.
Qed.

Lemma ext_trans P w1 w2 w3 : ext P w1 w2 -> ext P w2 w3 -> ext P w1 w3.
Proof.
  intros [Hi1 (e1 & Hr1 & Hp1)] [Hi2 (e2 & Hr2 & Hp2)].
  split; [congruence|]. exists (e1 ++ e2). split.
  - rewrite Hr2, Hr1. symmetry. apply app_assoc.
  - apply Forall_app. split; assumption.
Qed.

Lemma same_ext P w w' : same w w' -> ext P w w'.
Proof.
  intros [Hr Hi]. split; [exact Hi|]. exists []. split; [|constructor].
  now rewrite app_nil_r.
Qed.

Lemma ext_weaken (P Q : Plex.Request * option Py.exn -> Prop) w w' :
  (forall qe, P qe -> Q qe) -> ext P w w' -> ext Q w w'.
Proof.
  intros Hpq [Hi (e & Hr & Hp)]. split; [exact Hi|]. exists e.
  split; [exact Hr|]. revert Hp. apply List.Forall_impl. exact Hpq.
Qed.

Lemma item_request_clean qe : item_request qe -> clean qe.
Proof. unfold item_request, clean. congruence. Qed.

(** Operations that send no request and add no scan. *)
Ltac quiet :=
  split;
  [ reflexivity
  | unfold scan_ids; simpl; try reflexivity;
    rewrite List.map_map; apply List.map_ext; intros ?;
    destruct (_ =? _)%nat; reflexivity ].

Lemma cancelled_writes_same scan_id w : same w (cancelled_writes scan_id w).
Proof. unfold cancelled_writes. quiet. Qed.

Lemma failed_writes_same scan_id w : same w (failed_writes scan_id w).
Proof. unfold failed_writes. quiet. Qed.

Lemma completed_writes_same scan_id p i e w :
  same w (completed_writes scan_id p i e w).
Proof. unfold completed_writes. quiet. Qed.

Lemma _save_checkpoint_same scan_id p i e lib w :
  same w (_save_checkpoint scan_id p i e lib w).
Proof. unfold _save_checkpoint. quiet. Qed.

Lemma _save_issue_same scan_id issue w : same w (_save_issue scan_id issue w).
Proof. unfold _save_issue. quiet. Qed.

Lemma control_same c w : same w (control c w).
Proof.
  destruct c; unfold control, pause_scan, resume_scan, cancel_scan.
  - destruct (_status (mgr w)); try apply same_refl.
    simpl. destruct (truthy_id (_current_scan_id (mgr w))); quiet.
  - destruct (_status (mgr w)); try apply same_refl.
    simpl. destruct (truthy_id (_current_scan_id (mgr w))); quiet.
  - destruct (negb (is_running w)); quiet.
Qed.

Lemma controls_same cs : forall w, same w (controls cs w).
Proof.
  unfold controls. induction cs as [|c cs IH]; intros w; simpl.
  - apply same_refl.
  - eapply same_trans; [apply control_same | apply IH].
Qed.

Lemma finish_mark_same sched s ev w :
  same w (world_of (finish_mark sched s ev w)).
Proof.
  unfold finish_mark. destruct (cancelled_at sched AwMark); simpl.
  - apply controls_same.
  - eapply same_trans; [apply controls_same | quiet].
Qed.

Lemma _mark_scan_cancelled_same sched scan_id w :
  same w (world_of (_mark_scan_cancelled sched scan_id w)).
Proof.
  eapply same_trans; [apply cancelled_writes_same | apply finish_mark_same].
Qed.

Lemma _mark_scan_failed_same sched scan_id e w :
  same w (world_of (_mark_scan_failed sched scan_id e w)).
Proof.
  eapply same_trans; [apply failed_writes_same | apply finish_mark_same].
Qed.

Lemma _mark_scan_completed_same sched scan_id p i e w :
  same w (world_of (_mark_scan_completed sched scan_id p i e w)).
Proof.
  eapply same_trans; [apply completed_writes_same | apply finish_mark_same].
Qed.

Lemma save_issues_same scan_id found :
  forall w, same w (fold_left (fun w i => _save_issue scan_id i w) found w).
Proof.
  induction found as [|i found IH]; intros w; simpl.
  - apply same_refl.
  - eapply same_trans; [apply _save_issue_same | apply IH].
Qed.

Variable reg : EditionManager.Registry.
Variable srv : Plex.Server.
Variable sched : Schedule.
Variable config : Config.

(** One request appended, of the given kind. *)
Ltac one_request :=
  split; [reflexivity|];
  eexists [_]; split; [reflexivity|];
  constructor; [reflexivity | constructor].

Lemma get_item_metadata_ext key w :
  ext item_request w (snd (PlexService.get_item_metadata srv key w)).
Proof.
  unfold PlexService.get_item_metadata, PlexService._request.
  destruct (Plex.metadata srv _ key) as [[|md mds]|e]; one_request.
Qed.

Lemma set_edition_ext key edition w :
  ext item_request w (snd (PlexService.set_edition srv key edition w)).
Proof.
  unfold PlexService.set_edition, PlexService._request.
  destruct (Plex.put_edition srv _ key edition); one_request.
Qed.

Lemma generate_edition_ext key w :
  ext item_request w (snd (EditionManager.generate_edition reg srv key w)).
Proof.
  unfold EditionManager.generate_edition, PlexService._request.
  destruct (EditionManager._get_plex_service w); [|apply ext_refl].
  destruct (Plex.metadata srv _ key) as [[|md mds]|e]; try one_request.
  destruct (EditionManager.get_config reg _) as [[enabled order] sep].
  destruct (EditionManager.collect_parts reg enabled md order); one_request.
Qed.

Lemma backup_edition_ext key w :
  ext item_request w (snd (EditionManager.backup_edition srv key w)).
Proof.
  unfold EditionManager.backup_edition.
  destruct (EditionManager.backups_of key w) as [|b [|b' rest]];
    try apply ext_refl.
  destruct (EditionManager._get_plex_service w); [|apply ext_refl].
  pose proof (get_item_metadata_ext key w) as H.
  destruct (PlexService.get_item_metadata srv key w) as [[item|] w1];
    simpl in *; [|exact H].
  eapply ext_trans; [exact H|]. apply same_ext. quiet.
Qed.

Lemma apply_edition_ext key edition w :
  ext item_request w (snd (EditionManager.apply_edition srv key edition w)).
Proof.
  unfold EditionManager.apply_edition.
  destruct (EditionManager._get_plex_service w); [|apply ext_refl].
  pose proof (backup_edition_ext key w) as H.
  destruct (EditionManager.backup_edition srv key w) as [[u|e] w1];
    simpl in *; [|exact H].
  pose proof (set_edition_ext key edition w1) as H'.
  destruct (PlexService.set_edition srv key edition w1) as [ok w2].
  simpl in *. eapply ext_trans; eassumption.
Qed.

Lemma artwork_scan_same sc scan_id item n w :
  same w (snd (artwork_scan srv sc scan_id item n w)).
Proof.
  unfold artwork_scan.
  destruct (ArtworkScanner.scan_item srv sc (scanner w) item) as [found st].
  simpl. eapply same_trans; [|apply save_issues_same]. quiet.
Qed.

Lemma edition_scan_ext item n w :
  ext item_request w (snd (edition_scan reg srv item n w)).
Proof.
  unfold edition_scan.
  pose proof (generate_edition_ext (Plex.rating_key item) w) as H.
  destruct (EditionManager.generate_edition reg srv (Plex.rating_key item) w)
    as [[[edition|]|e] w1]; simpl in *; try exact H.
  destruct (String.eqb edition _); [exact H|].
  pose proof (apply_edition_ext (Plex.rating_key item) edition w1) as H'.
  destruct (EditionManager.apply_edition srv (Plex.rating_key item) edition w1)
    as [[ok|e] w2]; simpl in *; eapply ext_trans; eassumption.
Qed.

Lemma try_item_ext scan_id item i e w :
  ext item_request w (snd (try_item reg srv config scan_id item i e w)).
Proof.
  unfold try_item.
  assert (H1 : ext item_request w
                 (snd (if run_artwork config
                       then artwork_scan srv (scanner_of config) scan_id item i w
                       else (i, w)))).
  { destruct (run_artwork config); [|apply ext_refl].
    apply same_ext, artwork_scan_same. }
  destruct (if run_artwork config then _ else _) as [i1 w1]. simpl in H1.
  destruct (run_edition config && flag (c_edition_enabled config)
            && String.eqb (Plex.type item) "movie"); [|exact H1].
  pose proof (edition_scan_ext item e w1) as H2.
  destruct (edition_scan reg srv item e w1) as [[e1|x] w2]; simpl in *;
    eapply ext_trans; eassumption.
Qed.

Lemma item_step_ext scan_id total_items lib_id lib_name item c w :
  ext item_request w
    (world_of (item_step reg srv sched config scan_id total_items lib_id
                 lib_name item c w)).
Proof.
  unfold item_step. destruct c as [[p i] e].
  destruct (_cancel_requested (mgr w)).
  { pose proof (_mark_scan_cancelled_same sched scan_id w) as H.
    destruct (_mark_scan_cancelled sched scan_id w); now apply same_ext. }
  set (w0 := if _pause_event (mgr w) then w else _).
  assert (H0 : same w w0).
  { unfold w0. destruct (_pause_event (mgr w));
      [apply same_refl | apply controls_same]. }
  destruct (negb (_pause_event (mgr w)) && _); [now apply same_ext|].
  destruct (negb (_pause_event (mgr w0))); [now apply same_ext|].
  match goal with
  | |- context [try_item reg srv config scan_id item i e ?w1] =>
      pose proof (try_item_ext scan_id item i e w1) as Ht;
      assert (H1 : same w w1)
        by (eapply same_trans; [exact H0 | quiet]);
      destruct (try_item reg srv config scan_id item i e w1) as [[i1 e1] w2]
  end.
  simpl in Ht.
  assert (H2 : ext item_request w w2)
    by (eapply ext_trans; [apply same_ext, H1 | exact Ht]).
  match goal with
  | |- context [controls (during_item sched ?k) w2] =>
      pose proof (controls_same (during_item sched k) w2) as H3
  end.
  destruct (cancelled_at sched (AwItem _)).
  { simpl. eapply ext_trans; [exact H2 | apply same_ext, H3]. }
  destruct (checkpoint_interval config =? 0)%Z.
  { simpl. eapply ext_trans; [exact H2|]. apply same_ext.
    eapply same_trans; [exact H3 | quiet]. }
  simpl. eapply ext_trans; [exact H2|]. apply same_ext.
  eapply same_trans; [exact H3|].
  match goal with
  | |- same _ (if ?b then _broadcast ?ev ?w5 else ?w5') =>
      assert (H5 : same (controls (during_item sched (Z.to_nat p)) w2) w5);
      [| destruct b; [eapply same_trans; [exact H5 | quiet] | exact H5] ]
  end.
  destruct (_ =? 0)%Z.
  - eapply same_trans; [|apply _save_checkpoint_same]. quiet.
  - quiet.
Qed.

Lemma items_loop_ext scan_id total_items lib_id lib_name items :
  forall c w,
    ext item_request w
      (world_of (items_loop reg srv sched config scan_id total_items lib_id
                   lib_name items c w)).
Proof.
  induction items as [|item rest IH]; intros c w; simpl.
  - apply ext_refl.
  - pose proof (item_step_ext scan_id total_items lib_id lib_name item c w)
      as H.
    destruct (item_step reg srv sched config scan_id total_items lib_id
                lib_name item c w) as [c1 w1 | w1 | x w1 | w1 | w1];
      simpl in *; try exact H.
    eapply ext_trans; [exact H | apply IH].
Qed.

Lemma libraries_loop_ext scan_id total_items library_items :
  forall c w,
    ext item_request w
      (world_of (libraries_loop reg srv sched config scan_id total_items
                   library_items c w)).
Proof.
  induction library_items as [|[lib_id items] rest IH]; intros c w; simpl.
  - apply ext_refl.
  - destruct (_cancel_requested (mgr w)); [apply ext_refl|].
    match goal with
    | |- context [items_loop reg srv sched config scan_id total_items lib_id
                    ?name items c ?w1] =>
        pose proof (items_loop_ext scan_id total_items lib_id name items c w1)
          as H;
        assert (H1 : same w w1) by quiet;
        destruct (items_loop reg srv sched config scan_id total_items lib_id
                    name items c w1) as [c1 w2 | w2 | x w2 | w2 | w2]
    end; simpl in *;
      try (eapply ext_trans; [apply same_ext, H1 | exact H]).
    eapply ext_trans; [apply same_ext, H1|].
    eapply ext_trans; [exact H | apply IH].
Qed.

Lemma enumeration_failed_ext e w w1 w2 :
  ext (fun _ => True) w w1 -> enumeration_failed e w1 w2 ->
  ext (fun _ => True) w1 w2 ->
  enumeration_failed e w w2.
Proof.
  intros [_ (x1 & H1 & _)] (q & Hq & Hin) [_ (x2 & H2 & _)].
  exists q. split; [exact Hq|]. unfold new_requests in *.
  rewrite H2, skipn_app_length in Hin.
  rewrite H2, H1, <- app_assoc, skipn_app_length.
  apply in_app_iff. now right.
Qed.

(** Enumeration: every request is on record; they all succeeded when the
    loop was left without an exception (and the task was not cancelled);
    an exception that leaves the loop is the answer to one of them. *)
Lemma enumerate_ext library_ids :
  forall k library_items total w,
    let f := enumerate srv sched k library_ids library_items total w in
    ext (fun _ => True) w (world_of f)
    /\ (task_cancelled sched = None -> raised f = false ->
        ext clean w (world_of f))
    /\ (forall e w', f = Raised e w' -> enumeration_failed e w w').
Proof.
  induction library_ids as [|lib_id rest IH];
    intros k library_items total w; simpl.
  - split; [|split]; [apply ext_refl | intros _ _; apply ext_refl
                     | discriminate].
  - destruct (_cancel_requested (mgr w)).
    { simpl. split; [|split]; [apply ext_refl | intros _ _; apply ext_refl
                              | discriminate]. }
    unfold PlexService.get_all_library_items, PlexService._request.
    set (r := Plex.section_items srv _ lib_id).
    set (w2 := controls (during_enum sched k) _).
    assert (H1 : forall P : Plex.Request * option Py.exn -> Prop,
              P (Plex.GetSectionItems lib_id,
                 match r with Py.Ok _ => None | Py.Raise e => Some e end) ->
              ext P w w2).
    { intros P HP.
      eapply ext_trans; [|apply same_ext, controls_same].
      split; [reflexivity|]. eexists [_]. split; [reflexivity|].
      constructor; [exact HP | constructor]. }
    unfold cancelled_at.
    destruct (task_cancelled sched) as [a|] eqn:Htask.
    + destruct (Await_eqb (AwEnum k) a).
      * simpl. split; [apply H1; exact I|]. split; discriminate.
      * destruct r as [items|e] eqn:Hr.
        -- destruct (IH (S k) (dict_set lib_id items library_items)
                        (total + Z.of_nat (length items))%Z w2)
             as (Ha & _ & Hc).
           split; [eapply ext_trans; [apply H1; exact I | exact Ha]|].
           split; [discriminate|].
           intros e w' Hf. eapply enumeration_failed_ext;
             [apply H1; exact I | exact (Hc e w' Hf) |].
           rewrite Hf in Ha. exact Ha.
        -- simpl. split; [apply H1; exact I|]. split; [discriminate|].
           intros e' w' [= <- <-]. exists (Plex.GetSectionItems lib_id).
           split; [reflexivity|].
           destruct (H1 (fun _ => True) I) as [_ (x & Hx & _)].
           unfold new_requests. rewrite Hx, skipn_app_length.
           destruct (controls_same (during_enum sched k)
                       (log_request (Plex.GetSectionItems lib_id) (Some e) w))
             as [Hreq _].
           fold w2 in Hreq. rewrite Hreq in Hx. simpl in Hx.
           apply app_inv_head in Hx. subst x. now left.
    + destruct r as [items|e] eqn:Hr.
      * destruct (IH (S k) (dict_set lib_id items library_items)
                     (total + Z.of_nat (length items))%Z w2)
          as (Ha & Hb & Hc).
        split; [eapply ext_trans; [apply H1; exact I | exact Ha]|].
        split.
        -- intros _ Hx. eapply ext_trans; [apply H1 | exact (Hb eq_refl Hx)].
           intros _. reflexivity.
        -- intros e w' Hf. eapply enumeration_failed_ext;
             [apply H1; exact I | exact (Hc e w' Hf) |].
           rewrite Hf in Ha. exact Ha.
      * simpl. split; [apply H1; exact I|]. split; [discriminate|].
        intros e' w' [= <- <-]. exists (Plex.GetSectionItems lib_id).
        split; [reflexivity|].
        destruct (H1 (fun _ => True) I) as [_ (x & Hx & _)].
        unfold new_requests. rewrite Hx, skipn_app_length.
        destruct (controls_same (during_enum sched k)
                    (log_request (Plex.GetSectionItems lib_id) (Some e) w))
          as [Hreq _].
        fold w2 in Hreq. rewrite Hreq in Hx. simpl in Hx.
        apply app_inv_head in Hx. subst x. now left.
Qed.
Lemma resolve_libraries_ext w :
  let f := resolve_libraries srv sched config w in
  ext (fun _ => True) w (world_of f)
  /\ (task_cancelled sched = None -> raised f = false ->
      ext clean w (world_of f))
  /\ (forall e w', f = Raised e w' -> enumeration_failed e w w').
Proof.
  unfold resolve_libraries.
  destruct (c_libraries config) as [|l ls].
  2: { simpl. split; [|split]; [apply ext_refl | intros _ _; apply ext_refl
                               | discriminate]. }
  unfold PlexService.get_libraries, PlexService._request.
  set (r := Plex.sections srv _).
  set (w2 := controls (during_resolve sched) _).
  assert (H1 : forall P : Plex.Request * option Py.exn -> Prop,
            P (Plex.GetSections,
               match r with Py.Ok _ => None | Py.Raise e => Some e end) ->
            ext P w w2).
  { intros P HP.
    eapply ext_trans; [|apply same_ext, controls_same].
    split; [reflexivity|]. eexists [_]. split; [reflexivity|].
    constructor; [exact HP | constructor]. }
  assert (Hfail : forall e, r = Py.Raise e -> enumeration_failed e w w2).
  { intros e Hr. exists Plex.GetSections. split; [reflexivity|].
    destruct (H1 (fun _ => True) I) as [_ (x & Hx & _)].
    unfold new_requests. rewrite Hx, skipn_app_length.
    destruct (controls_same (during_resolve sched)
                (log_request Plex.GetSections
                   match r with Py.Ok _ => None | Py.Raise e => Some e end w))
      as [Hreq _].
    fold w2 in Hreq. rewrite Hreq in Hx. simpl in Hx.
    apply app_inv_head in Hx. subst x. rewrite Hr. now left. }
  unfold cancelled_at.
  destruct (task_cancelled sched) as [a|] eqn:Htask.
  - destruct (Await_eqb AwResolve a).
    + simpl. split; [apply H1; exact I|]. split; discriminate.
    + destruct r as [ids|e] eqn:Hr; simpl.
      * split; [apply H1; exact I|]. split; discriminate.
      * split; [apply H1; exact I|]. split; [discriminate|].
        intros e' w' [= <- <-]. now apply Hfail.
  - destruct r as [ids|e] eqn:Hr; simpl.
    + split; [apply H1; exact I|]. split; [|discriminate].
      intros _ _. apply H1. intros _. reflexivity.
    + split; [apply H1; exact I|]. split; [discriminate|].
      intros e' w' [= <- <-]. now apply Hfail.
Qed.

(** No [_mark_scan_...] call raises. *)
Lemma finish_mark_not_raised s ev w : raised (finish_mark sched s ev w) = false.
Proof. unfold finish_mark. now destruct (cancelled_at sched AwMark). Qed.

(** The loops raise only the division by a checkpoint interval of 0. *)
Lemma item_step_raised scan_id total_items lib_id lib_name item c w e w' :
  item_step reg srv sched config scan_id total_items lib_id lib_name item c w
  = Raised e w' ->
  checkpoint_interval config = 0%Z /\ e = Py.ZeroDivisionError.
Proof.
  unfold item_step. destruct c as [[p i] x].
  destruct (_cancel_requested (mgr w)).
  { unfold _mark_scan_cancelled, finish_mark.
    destruct (cancelled_at sched AwMark); discriminate. }
  destruct (negb (_pause_event (mgr w)) && _); [discriminate|].
  destruct (negb (_pause_event (mgr _))); [discriminate|].
  destruct (try_item _ _ _ _ _ _ _ _) as [[i1 e1] w2].
  destruct (cancelled_at sched (AwItem _)); [discriminate|].
  destruct (checkpoint_interval config =? 0)%Z eqn:E; [|discriminate].
  intros [= <- _]. apply Z.eqb_eq in E. now split.
Qed.

Lemma items_loop_raised scan_id total_items lib_id lib_name items :
  forall c w e w',
    items_loop reg srv sched config scan_id total_items lib_id lib_name
      items c w = Raised e w' ->
    checkpoint_interval config = 0%Z /\ e = Py.ZeroDivisionError.
Proof.
  induction items as [|item rest IH]; intros c w e w'; simpl; [discriminate|].
  destruct (item_step reg srv sched config scan_id total_items lib_id
              lib_name item c w) as [c1 w1 | w1 | x w1 | w1 | w1] eqn:Hs;
    try discriminate.
  - apply IH.
  - intros [= <- <-]. eapply item_step_raised. exact Hs.
Qed.

Lemma libraries_loop_raised scan_id total_items library_items :
  forall c w e w',
    libraries_loop reg srv sched config scan_id total_items library_items
      c w = Raised e w' ->
    checkpoint_interval config = 0%Z /\ e = Py.ZeroDivisionError.
Proof.
  induction library_items as [|[lib_id items] rest IH]; intros c w e w'; simpl;
    [discriminate|].
  destruct (_cancel_requested (mgr w)); [discriminate|].
  destruct (items_loop _ _ _ _ _ _ _ _ _ _ _)
    as [c1 w1 | w1 | x w1 | w1 | w1] eqn:Hs; try discriminate.
  - apply IH.
  - intros [= <- <-]. eapply items_loop_raised. exact Hs.
Qed.

(** [_execute_scan]: unless it raises (or the task is cancelled), no
    enumeration request of it failed; and what it raises is the missing
    configuration, the answer to an enumeration request, or the division
    by a checkpoint interval of 0. *)
Lemma _execute_scan_ext scan_id w :
  let f := _execute_scan reg srv sched scan_id config w in
  ext (fun _ => True) w (world_of f)
  /\ (task_cancelled sched = None -> raised f = false ->
      ext clean w (world_of f))
  /\ (forall e w', f = Raised e w' ->
        EditionManager._get_plex_service w = Py.Raise e
        \/ (checkpoint_interval config = 0%Z /\ e = Py.ZeroDivisionError)
        \/ enumeration_failed e w w').
Proof.
  unfold _execute_scan.
  destruct (EditionManager._get_plex_service w) as [u|e0].
  2: { simpl. split; [apply ext_refl|]. split; [discriminate|].
       intros e w' [= <- _]. now left. }
  assert (H0 : same w (set_scanner ArtworkScanner.fresh w)) by quiet.
  assert (Hfail0 : forall e w', enumeration_failed e
                                  (set_scanner ArtworkScanner.fresh w) w' ->
                                enumeration_failed e w w') by (intros; assumption).
  destruct (resolve_libraries_ext (set_scanner ArtworkScanner.fresh w))
    as (Ha & Hb & Hc).
  destruct (resolve_libraries srv sched config
              (set_scanner ArtworkScanner.fresh w))
    as [library_ids w1 | w1 | x w1 | w1 | w1]; simpl in Ha, Hb |- *.
  2,4,5: split; [eapply ext_trans; [apply same_ext, H0 | exact Ha]|];
         split; [|discriminate]; intros Ht _;
         eapply ext_trans; [apply same_ext, H0 | now apply Hb].
  2: { split; [eapply ext_trans; [apply same_ext, H0 | exact Ha]|].
       split; [discriminate|]. intros e w' [= <- <-]. right. right.
       apply Hfail0. now apply Hc. }
  clear Hc.
  destruct (enumerate_ext library_ids 0 [] 0%Z w1) as (Hd & He & Hf).
  destruct (enumerate srv sched 0 library_ids [] 0%Z w1)
    as [[library_items total_items] w2 | w2 | x w2 | w2 | w2];
    simpl in Hd, He |- *.
  2,4,5: split; [eapply ext_trans; [apply same_ext, H0|];
                 eapply ext_trans; [exact Ha | exact Hd]|];
         split; [|discriminate]; intros Ht _;
         eapply ext_trans; [apply same_ext, H0|];
         eapply ext_trans; [now apply Hb | now apply He].
  2: { split; [eapply ext_trans; [apply same_ext, H0|];
               eapply ext_trans; [exact Ha | exact Hd]|].
       split; [discriminate|]. intros e w' [= <- <-]. right. right.
       apply Hfail0. eapply enumeration_failed_ext;
         [exact Ha | now apply Hf | exact Hd]. }
  clear Hf.
  assert (H2 : ext (fun _ => True) w w2).
  { eapply ext_trans; [apply same_ext, H0|].
    eapply ext_trans; [exact Ha | exact Hd]. }
  assert (H2c : task_cancelled sched = None -> ext clean w w2).
  { intros Ht. eapply ext_trans; [apply same_ext, H0|].
    eapply ext_trans; [now apply Hb | now apply He]. }
  match goal with
  | |- context [libraries_loop reg srv sched config scan_id total_items
                  library_items ?c ?w5] =>
      pose proof (libraries_loop_ext scan_id total_items library_items c w5)
        as Hl;
      pose proof (libraries_loop_raised scan_id total_items library_items c w5)
        as Hlr;
      assert (H5 : same w2 w5) by quiet;
      destruct (libraries_loop reg srv sched config scan_id total_items
                  library_items c w5) as [[[p i] e] w6 | w6 | x w6 | w6 | w6]
  end; simpl in Hl |- *.
  all: assert (H6 : forall P : Plex.Request * option Py.exn -> Prop,
                 (forall qe, item_request qe -> P qe) ->
                 ext P w w2 -> ext P w w6)
    by (intros P HP Hw2; eapply ext_trans; [exact Hw2|];
        eapply ext_trans; [apply same_ext, H5|];
        eapply ext_weaken; [exact HP | exact Hl]).
  2,4,5: split; [apply H6; [intros; exact I | exact H2]|];
         split; [|discriminate]; intros Ht _;
         apply H6; [apply item_request_clean | now apply H2c].
  - pose proof (_mark_scan_completed_same sched scan_id p i e w6) as H7.
    assert (H8 : forall P, (forall qe, item_request qe -> P qe) ->
                           ext P w w2 ->
                           ext P w (world_of (_mark_scan_completed sched scan_id
                                                p i e w6)))
      by (intros P HP Hw2; eapply ext_trans;
          [now apply H6 | apply same_ext, H7]).
    split; [apply H8; [intros; exact I | exact H2]|]. split.
    + intros Ht _. apply H8; [apply item_request_clean | now apply H2c].
    + intros e' w' Hm. pose proof (finish_mark_not_raised COMPLETED
        (scan_completed scan_id p i e) (completed_writes scan_id p i e w6)) as Hn.
      unfold _mark_scan_completed in Hm. rewrite Hm in Hn. discriminate.
  - split; [apply H6; [intros; exact I | exact H2]|].
    split; [discriminate|]. intros e' w' [= <- <-]. right. left.
    eapply Hlr. reflexivity.
Qed.

End Requests.

(** ** More on the artwork defect detector *)

Section DetectorMore.

Import ArtworkScanner ScannerMore.

Variable srv : Plex.Server.
Variable sc : Scanner.

Ltac split_placeholder_checks :=
  repeat match goal with
         | |- context [_check_placeholder_poster ?a ?b ?c] =>
             destruct (_check_placeholder_poster a b c) as [[] ?]
         | |- context [_check_placeholder_background ?a ?b ?c] =>
             destruct (_check_placeholder_background a b c) as [[] ?]
         end.

(** X1: a call that is not cut short reports its issues in the fixed order
    no_poster, no_background, placeholder_poster, placeholder_background;
    it reports at most one issue about the poster and at most one about
    the background, so at most two in all, and never a no_logo issue. *)
Theorem scan_item_reports_at_most_two st item :
  let ks := kinds (fst (scan_item srv sc st item)) in
  (ks = [NO_MATCH] \/ sublist ks report_order) /\
  ~ (In NO_POSTER ks /\ In PLACEHOLDER_POSTER ks) /\
  ~ (In NO_BACKGROUND ks /\ In PLACEHOLDER_BACKGROUND ks) /\
  ~ In NO_LOGO ks /\
  (length ks <= 2)%nat.
Proof.
  unfold scan_item, kinds, report_order.
  destruct (check_unmatched sc && negb (Plex.is_matched item)).
  { simpl. split; [now left|]. repeat split; try lia; intuition congruence. }
  destruct (check_posters sc); destruct (check_backgrounds sc);
    destruct (check_placeholders sc);
    destruct (Plex.has_poster item); destruct (Plex.has_background item);
    simpl; split_placeholder_checks; simpl;
    (split; [right; repeat first [apply sublist_skip | apply sublist_cons | apply sublist_nil]|]);
    repeat split; try lia; intuition congruence.
Qed.

(** X2: outside the short circuit, a missing poster (background) is
    reported exactly when the check is on and the item has no poster
    (background) path, whatever the placeholder checks and the downloads
    do. *)
Theorem missing_artwork_reported_exactly st item :
  (check_unmatched sc && negb (Plex.is_matched item)) = false ->
  let ks := kinds (fst (scan_item srv sc st item)) in
  (In NO_POSTER ks <->
   check_posters sc = true /\ Plex.has_poster item = false) /\
  (In NO_BACKGROUND ks <->
   check_backgrounds sc = true /\ Plex.has_background item = false).
Proof.
  intros Hsc. unfold scan_item, kinds. rewrite Hsc.
  destruct (check_posters sc); destruct (check_backgrounds sc);
    destruct (check_placeholders sc);
    destruct (Plex.has_poster item); destruct (Plex.has_background item);
    simpl; split_placeholder_checks; simpl;
    intuition congruence.
Qed.

Lemma ratio_is_cached st p r st' :
  _get_image_aspect_ratio srv st p = (Some r, st') ->
  _aspect_ratio_cache st' !! p = Some r.
Proof.
  unfold _get_image_aspect_ratio.
  destruct (_aspect_ratio_cache st !! p) as [r0|] eqn:Hc.
  - intros [= <- <-]. exact Hc.
  - destruct (Plex.image srv _ _) as [|w h]; [discriminate|].
    destruct (h =? 0)%Z; [discriminate|].
    intros [= <- <-]. simpl. apply lookup_insert_eq.
Qed.

Lemma background_verdict (r : Q) :
  background_ratio_is_placeholder r = true <-> (r < 12 # 10)%Q.
Proof.
  unfold background_ratio_is_placeholder, Py.Qltb.
  destruct (Qle_bool 1 r) eqn:E1; destruct (Qle_bool (12 # 10) r) eqn:E2;
    simpl;
    repeat match goal with
           | H : Qle_bool _ _ = true |- _ => apply Qle_bool_iff in H
           | H : Qle_bool _ _ = false |- _ => apply Qle_bool_false in H
           end;
    split; intros H; try discriminate H; try reflexivity; lra.
Qed.

(** X3: for an item that reaches the background check and whose background
    ratio [r] the scanner obtains, [placeholder_background] is reported iff
    [r < 1.2]; the issue then carries [r] as its detected aspect ratio and
    is the last one of the list. *)
Theorem placeholder_background_rule st item p r st' :
  check_placeholders sc = true ->
  (check_unmatched sc && negb (Plex.is_matched item)) = false ->
  Plex.art item = Some p -> p <> "" ->
  _get_image_aspect_ratio srv (before_background srv sc st item) p
  = (Some r, st') ->
  (In PLACEHOLDER_BACKGROUND (kinds (fst (scan_item srv sc st item)))
   <-> (r < 12 # 10)%Q) /\
  ((r < 12 # 10)%Q ->
   last (fst (scan_item srv sc st item))
   = Some (_create_issue item PLACEHOLDER_BACKGROUND (Some r))).
Proof.
  intros Hcp Hsc Hart Hp Hratio.
  assert (Hhas : Plex.has_background item = true).
  { unfold Plex.has_background, Py.truthy. rewrite Hart.
    apply negb_true_iff, String.eqb_neq, Hp. }
  pose proof (ratio_is_cached _ _ _ _ Hratio) as Hcached.
  rewrite <- background_verdict.
  unfold before_background in Hratio. rewrite Hcp in Hratio. simpl in Hratio.
  assert (Hchk : forall st0,
            _get_image_aspect_ratio srv st0 p = (Some r, st') ->
            _check_placeholder_background srv st0 item
            = (background_ratio_is_placeholder r, st')).
  { intros st0 H0. unfold _check_placeholder_background. rewrite Hart.
    apply String.eqb_neq in Hp. now rewrite Hp, H0. }
  assert (Hdet : cached_ratio st' (Plex.art item) = r).
  { unfold cached_ratio. now rewrite Hart, Hcached. }
  unfold scan_item, kinds. rewrite Hsc, Hcp, Hhas. simpl.
  destruct (Plex.has_poster item).
  - destruct (_check_placeholder_poster srv st item) as [b1 st1].
    simpl in Hratio. pose proof (Hchk st1 Hratio) as Hbg.
    destruct (check_posters sc); destruct (check_backgrounds sc);
      destruct b1; simpl; rewrite Hbg;
      destruct (background_ratio_is_placeholder r);
      simpl; rewrite ?Hdet; split; intros; try discriminate;
      try reflexivity; intuition congruence.
  - pose proof (Hchk st Hratio) as Hbg.
    destruct (check_posters sc); destruct (check_backgrounds sc);
      simpl; rewrite Hbg;
      destruct (background_ratio_is_placeholder r);
      simpl; rewrite ?Hdet; split; intros; try discriminate;
      try reflexivity; intuition congruence.
Qed.

Lemma failed_get_keeps_memo_empty st p :
  (forall n url, succeeded (Plex.image srv n url) = false) ->
  _aspect_ratio_cache st = ∅ ->
  fst (_get_image_aspect_ratio srv st p) = None
  /\ _aspect_ratio_cache (snd (_get_image_aspect_ratio srv st p)) = ∅.
Proof.
  intros Hfail Hempty. unfold _get_image_aspect_ratio.
  rewrite Hempty, lookup_empty.
  specialize (Hfail (length (downloads st)) (Plex.get_poster_url srv p)).
  destruct (Plex.image srv _ _) as [|w h]; simpl in *; [now split|].
  apply negb_false_iff in Hfail. rewrite Hfail. simpl. now split.
Qed.

(** X4: a download that fails never produces a placeholder issue.  On a
    scanner with an empty memo and a server none of whose downloads yields
    a ratio (errors, undecodable images, zero height), [scan_item] reports
    neither placeholder kind and leaves the memo empty. *)
Theorem failed_downloads_flag_nothing st item :
  (forall n url, succeeded (Plex.image srv n url) = false) ->
  _aspect_ratio_cache st = ∅ ->
  ~ In PLACEHOLDER_POSTER (kinds (fst (scan_item srv sc st item))) /\
  ~ In PLACEHOLDER_BACKGROUND (kinds (fst (scan_item srv sc st item))) /\
  _aspect_ratio_cache (snd (scan_item srv sc st item)) = ∅.
Proof.
  intros Hfail Hempty.
  assert (Hposter : forall st0, _aspect_ratio_cache st0 = ∅ ->
            fst (_check_placeholder_poster srv st0 item) = false
            /\ _aspect_ratio_cache (snd (_check_placeholder_poster srv st0 item))
               = ∅).
  { intros st0 H0. unfold _check_placeholder_poster.
    destruct (Plex.thumb item) as [p|]; [|now split].
    destruct (String.eqb p ""); [now split|].
    destruct (failed_get_keeps_memo_empty st0 p Hfail H0) as [Hn He].
    destruct (_get_image_aspect_ratio srv st0 p) as [[r|] st1];
      simpl in *; [discriminate | now split]. }
  assert (Hback : forall st0, _aspect_ratio_cache st0 = ∅ ->
            fst (_check_placeholder_background srv st0 item) = false
            /\ _aspect_ratio_cache
                 (snd (_check_placeholder_background srv st0 item)) = ∅).
  { intros st0 H0. unfold _check_placeholder_background.
    destruct (Plex.art item) as [p|]; [|now split].
    destruct (String.eqb p ""); [now split|].
    destruct (failed_get_keeps_memo_empty st0 p Hfail H0) as [Hn He].
    destruct (_get_image_aspect_ratio srv st0 p) as [[r|] st1];
      simpl in *; [discriminate | now split]. }
  unfold scan_item, kinds.
  destruct (check_unmatched sc && negb (Plex.is_matched item)).
  { simpl. intuition congruence. }
  destruct (Hposter st Hempty) as [Hp1 Hp2].
  destruct (_check_placeholder_poster srv st item) as [b1 st1].
  simpl in Hp1, Hp2. subst b1.
  destruct (Hback st Hempty) as [Hb1 Hb2].
  destruct (Hback st1 Hp2) as [Hb3 Hb4].
  destruct (check_posters sc); destruct (check_backgrounds sc);
    destruct (check_placeholders sc);
    destruct (Plex.has_poster item); destruct (Plex.has_background item);
    simpl;
    repeat match goal with
           | |- context [_check_placeholder_background ?a ?b ?c] =>
               destruct (_check_placeholder_background a b c) as [? ?];
               simpl in *; subst
           end;
    simpl; intuition congruence.
Qed.

Lemma get_downloads st p :
  exists extra,
    downloads (snd (_get_image_aspect_ratio srv st p)) = downloads st ++ extra
    /\ (length extra <= 1)%nat
    /\ forall e, In e extra -> fst e = p.
Proof.
  unfold _get_image_aspect_ratio.
  destruct (_aspect_ratio_cache st !! p).
  { exists []. simpl. rewrite app_nil_r. repeat split; [lia | intros ? []]. }
  destruct (Plex.image srv _ _) as [|w h] eqn:Hout;
    [|destruct (h =? 0)%Z]; simpl; eexists [_];
    (split; [reflexivity|]); (split; [simpl; lia|]);
    intros e [<- | []]; reflexivity.
Qed.

Lemma scan_item_state st item :
  snd (scan_item srv sc st item)
  = if check_unmatched sc && negb (Plex.is_matched item) then st
    else if check_placeholders sc && Plex.has_background item
         then snd (_check_placeholder_background srv
                     (before_background srv sc st item) item)
         else before_background srv sc st item.
Proof.
  unfold scan_item, before_background.
  destruct (check_unmatched sc && negb (Plex.is_matched item)); [reflexivity|].
  destruct (check_posters sc && _); destruct (check_backgrounds sc && _);
    destruct (check_placeholders sc && Plex.has_poster item);
    destruct (check_placeholders sc && Plex.has_background item);
    destruct (_check_placeholder_poster srv st item) as [[] st1]; simpl;
    try (destruct (_check_placeholder_background srv st1 item) as [[] ?]);
    try (destruct (_check_placeholder_background srv st item) as [[] ?]);
    reflexivity.
Qed.

Lemma poster_check_downloads st item :
  exists extra,
    downloads (snd (_check_placeholder_poster srv st item))
    = downloads st ++ extra
    /\ sublist (map fst extra) (option_list (Plex.thumb item)).
Proof.
  unfold _check_placeholder_poster.
  destruct (Plex.thumb item) as [t|];
    [|exists []; rewrite app_nil_r; split; [reflexivity | constructor]].
  destruct (String.eqb t "");
    [exists []; rewrite app_nil_r; split; [reflexivity | apply sublist_nil_l]|].
  destruct (get_downloads st t) as (extra & He & Hl & Hin).
  exists extra. split.
  - destruct (_get_image_aspect_ratio srv st t) as [[r|] st1]; exact He.
  - destruct extra as [|[q o] [|? ?]]; simpl in Hl; try lia.
    + apply sublist_nil_l.
    + pose proof (Hin (q, o) (or_introl eq_refl)) as Hq. simpl in Hq.
      subst q. simpl. apply sublist_skip, sublist_nil.
Qed.

Lemma background_check_downloads st item :
  exists extra,
    downloads (snd (_check_placeholder_background srv st item))
    = downloads st ++ extra
    /\ sublist (map fst extra) (option_list (Plex.art item)).
Proof.
  unfold _check_placeholder_background.
  destruct (Plex.art item) as [t|];
    [|exists []; rewrite app_nil_r; split; [reflexivity | constructor]].
  destruct (String.eqb t "");
    [exists []; rewrite app_nil_r; split; [reflexivity | apply sublist_nil_l]|].
  destruct (get_downloads st t) as (extra & He & Hl & Hin).
  exists extra. split.
  - destruct (_get_image_aspect_ratio srv st t) as [[r|] st1]; exact He.
  - destruct extra as [|[q o] [|? ?]]; simpl in Hl; try lia.
    + apply sublist_nil_l.
    + pose proof (Hin (q, o) (or_introl eq_refl)) as Hq. simpl in Hq.
      subst q. simpl. apply sublist_skip, sublist_nil.
Qed.

(** X5: one call downloads at most two images: the item's own poster and
    background paths, in this order and each at most once; it downloads
    nothing when placeholder checking is off. *)
Theorem scan_item_downloads_own_images st item :
  exists extra,
    downloads (snd (scan_item srv sc st item)) = downloads st ++ extra
    /\ sublist (map fst extra) (image_paths item)
    /\ (length extra <= 2)%nat
    /\ (check_placeholders sc = false -> extra = []).
Proof.
  assert (Hgoal : exists e1 e2,
            downloads (snd (scan_item srv sc st item))
            = downloads st ++ e1 ++ e2
            /\ sublist (map fst e1) (option_list (Plex.thumb item))
            /\ sublist (map fst e2) (option_list (Plex.art item))
            /\ (check_placeholders sc = false -> e1 ++ e2 = [])).
  { rewrite scan_item_state. unfold before_background.
    assert (H0 : forall l : list string,
              sublist (map fst (@nil (string * Plex.FetchOutcome))) l)
      by (intros; apply sublist_nil_l).
    destruct (check_unmatched sc && negb (Plex.is_matched item)).
    { exists [], []. rewrite !app_nil_r. auto. }
    destruct (check_placeholders sc); simpl.
    2: { exists [], []. rewrite !app_nil_r. auto. }
    destruct (poster_check_downloads st item) as (e1 & He1 & Hs1).
    destruct (Plex.has_poster item); destruct (Plex.has_background item).
    - destruct (background_check_downloads
                  (snd (_check_placeholder_poster srv st item)) item)
        as (e2 & He2 & Hs2).
      exists e1, e2. rewrite He2, He1, <- app_assoc.
      repeat split; auto; discriminate.
    - exists e1, []. rewrite He1, app_nil_r.
      repeat split; auto; discriminate.
    - destruct (background_check_downloads st item) as (e2 & He2 & Hs2).
      exists [], e2. rewrite He2. repeat split; auto; discriminate.
    - exists [], []. rewrite !app_nil_r. repeat split; auto; discriminate. }
  destruct Hgoal as (e1 & e2 & Hd & Hs1 & Hs2 & Hoff).
  exists (e1 ++ e2). split; [exact Hd|].
  assert (Hsub : sublist (map fst (e1 ++ e2)) (image_paths item)).
  { rewrite List.map_app. unfold image_paths. now apply sublist_app. }
  split; [exact Hsub|]. split; [|exact Hoff].
  apply sublist_length in Hsub. rewrite length_map in Hsub.
  unfold image_paths in Hsub. rewrite length_app in Hsub.
  rewrite length_app.
  destruct (Plex.thumb item); destruct (Plex.art item); simpl in Hsub; lia.
Qed.

End DetectorMore.

(** ** External identifiers *)

Section ExternalIds.

Import ArtworkScanner ScannerMore.

Lemma prefix_append (p v : string) : String.prefix p (p +:+ v) = true.
Proof.
  induction p as [|c p IH]; simpl.
  - now destruct v.
  - destruct (Ascii.ascii_dec c c); [exact IH | congruence].
Qed.

Lemma substring_whole (v : string) : String.substring 0 (String.length v) v = v.
Proof. induction v as [|c v IH]; simpl; [reflexivity | now rewrite IH]. Qed.

Lemma substring_after_prefix (p v : string) :
  String.substring (String.length p)
    (String.length (p +:+ v) - String.length p) (p +:+ v) = v.
Proof.
  induction p as [|c p IH]; simpl.
  - rewrite Nat.sub_0_r. apply substring_whole.
  - exact IH.
Qed.

Lemma append_assoc (a b c : string) : (a +:+ b) +:+ c = a +:+ (b +:+ c).
Proof.
  induction a as [|x a IH]; [reflexivity |].
  change (String x ((a +:+ b) +:+ c) = String x (a +:+ (b +:+ c))).
  now rewrite IH.
Qed.

Lemma first_with_prefix_none (p : string) (gs : list string) :
  Plex.first_with_prefix p gs = None <->
  (forall g, In g gs -> String.prefix p g = false).
Proof.
  induction gs as [|g gs IH]; simpl.
  - split; [intros _ g [] | reflexivity].
  - destruct (String.prefix p g) eqn:Hg.
    + split; [discriminate |].
      intros H. specialize (H g (or_introl eq_refl)). congruence.
    + rewrite IH. split.
      * intros H g' [<- | Hg']; [exact Hg | now apply H].
      * intros H g' Hg'. apply H. now right.
Qed.

(** X6: an external id is read back from the guid that encodes it: if the
    first guid of an item with the prefix [source://] is [source://value],
    [get_external_id] returns [value], whatever follows that guid. *)
Theorem external_id_round_trip (item : Plex.PlexItem) (source value : string)
    (before after : list string) :
  Plex.guids item = before ++ (source +:+ "://" +:+ value) :: after ->
  (forall g, In g before -> String.prefix (source +:+ "://") g = false) ->
  Plex.get_external_id item source = Some value.
Proof.
  unfold Plex.get_external_id. intros -> Hbefore.
  induction before as [|g before IH]; simpl.
  - rewrite <- (append_assoc source "://" value).
    now rewrite prefix_append, substring_after_prefix.
  - rewrite (Hbefore g) by now left.
    apply IH. intros g' Hg'. apply Hbefore. now right.
Qed.

Lemma add_external_lookup (name : string) (v : option string)
    (m : gmap string string) (k : string) :
  add_external name v m !! k =
  if decide (name = k)
  then match v with
       | Some s => if String.eqb s "" then m !! k else Some s
       | None => m !! k
       end
  else m !! k.
Proof.
  unfold add_external. destruct v as [s|].
  - destruct (String.eqb s ""); destruct (decide (name = k)) as [->|Hk];
      try reflexivity.
    + apply lookup_insert_eq.
    + now apply lookup_insert_ne.
  - now destruct (decide (name = k)).
Qed.

(** X7: the external ids of a reported issue are exactly the non-empty ids
    that the item's guids give for tmdb, imdb and tvdb; no other key is
    set and an empty id is left out. *)
Theorem issue_external_ids (item : Plex.PlexItem) (t : IssueType)
    (d : option Q) (k v : string) :
  external_ids (_create_issue item t d) !! k = Some v <->
  In k ["tmdb"; "imdb"; "tvdb"] /\
  Plex.get_external_id item k = Some v /\ v <> "".
Proof.
  unfold _create_issue; cbn [external_ids].
  rewrite !add_external_lookup, lookup_empty.
  assert (Hempty : forall s : string, String.eqb s "" = true <-> s = "")
    by (intros s; apply String.eqb_eq).
  split.
  - intros H.
    repeat match type of H with
           | context [decide (?a = k)] =>
               destruct (decide (a = k)) as [<-|?]
           end; try discriminate;
      match type of H with
      | context [Plex.get_external_id item ?s] =>
          destruct (Plex.get_external_id item s) as [w|] eqn:Hw;
          try discriminate;
          destruct (String.eqb w "") eqn:Hne; try discriminate;
          injection H as <-;
          (split; [simpl; tauto |
                   split; [reflexivity |
                           intros ->; simpl in Hne; discriminate]])
      end.
  - intros (Hin & Hget & Hv).
    assert (Hne : String.eqb v "" = false).
    { destruct (String.eqb v "") eqn:E; [|reflexivity].
      apply Hempty in E. contradiction. }
    simpl in Hin.
    destruct Hin as [<- | [<- | [<- | []]]]; simpl; rewrite Hget, Hne;
      reflexivity.
Qed.

End ExternalIds.

(** ** The scanner on concrete items *)

Section DetectorMoreExamples.

Import ArtworkScanner ScannerMore.

Lemma missing_artwork_reported_exactly_witness :
  In NO_BACKGROUND
    (kinds (fst (scan_item (image_server Plex.FetchFailed) all_checks fresh
                   poster_item))).
Proof.
  apply (proj2 (missing_artwork_reported_exactly
                  (image_server Plex.FetchFailed) all_checks fresh poster_item
                  eq_refl)).
  split; reflexivity.
Defined.

Lemma placeholder_background_rule_witness :
  In PLACEHOLDER_BACKGROUND
    (kinds (fst (scan_item (image_server (Plex.ImageSize 1000 1500))
                   all_checks fresh backdrop_item))).
Proof.
  refine (proj2 (proj1 (placeholder_background_rule
                   (image_server (Plex.ImageSize 1000 1500)) all_checks fresh
                   backdrop_item "/library/metadata/604/art"
                   (inject_Z 1000 / inject_Z 1500)%Q _
                   eq_refl eq_refl eq_refl _ _)) _).
  - discriminate.
  - vm_compute. reflexivity.
  - reflexivity.
Defined.

Lemma failed_downloads_flag_nothing_witness :
  ~ In PLACEHOLDER_POSTER
      (kinds (fst (scan_item (image_server Plex.FetchFailed) all_checks fresh
                     backdrop_item))).
Proof.
  apply (failed_downloads_flag_nothing (image_server Plex.FetchFailed)
           all_checks fresh backdrop_item).
  - intros n url. reflexivity.
  - reflexivity.
Defined.

Lemma external_id_round_trip_witness :
  Plex.get_external_id backdrop_item "tmdb" = Some "604".
Proof.
  apply (external_id_round_trip backdrop_item "tmdb" "604"
           ["imdb://tt0234215"] []).
  - reflexivity.
  - intros g [<- | []]. reflexivity.
Defined.

End DetectorMoreExamples.

(** ** Providers and their aggregation *)

Section ProviderResults.

Import Schemas Aggregation.

Lemma well_formed_weaken p t ts r :
  In t ts -> well_formed p [t] r -> well_formed p ts r.
Proof.
  intros Ht (Hs & Hin & Hu). destruct Hin as [Heq | []].
  repeat split; auto. now rewrite <- Heq.
Qed.

Lemma append_nonempty (a b : string) : b <> "" -> a +:+ b <> "".
Proof.
  intros Hb. destruct a; [exact Hb | discriminate].
Qed.

Lemma eqb_empty_false (s : string) : String.eqb s "" = false -> s <> "".
Proof. intros H ->. discriminate. Qed.

Lemma in_wanted_In ts t : TVDB.in_wanted ts t = true -> In t ts.
Proof.
  unfold TVDB.in_wanted. rewrite existsb_exists.
  intros (x & Hx & Heq). now destruct t, x.
Qed.

Lemma In_in_wanted ts t : In t ts -> TVDB.in_wanted ts t = true.
Proof.
  unfold TVDB.in_wanted. rewrite existsb_exists.
  intros Hin. exists t. split; [exact Hin | now destruct t].
Qed.

Lemma in_wanted_ext ts ts' :
  (forall t, In t ts <-> In t ts') ->
  forall t, TVDB.in_wanted ts t = TVDB.in_wanted ts' t.
Proof.
  intros H t. destruct (TVDB.in_wanted ts' t) eqn:E.
  - apply In_in_wanted, H, in_wanted_In, E.
  - destruct (TVDB.in_wanted ts t) eqn:E'; [|reflexivity].
    apply in_wanted_In, H, In_in_wanted in E'. congruence.
Qed.

Lemma tmdb_parse_entry_wf base t item r :
  TMDB.parse_entry base t item = Some r -> well_formed TMDB [t] r.
Proof.
  unfold TMDB.parse_entry.
  destruct (TMDB.file_path item) as [fp|]; [|discriminate].
  destruct (String.eqb fp "") eqn:E; [discriminate|].
  intros [= <-]. repeat split; simpl; [now left|].
  apply append_nonempty, append_nonempty, eqb_empty_false, E.
Qed.

Lemma tmdb_parse_entries_wf base t items r :
  In r (TMDB.parse_entries base t items) -> well_formed TMDB [t] r.
Proof.
  induction items as [|item rest IH]; simpl; [intros []|].
  destruct (TMDB.parse_entry base t item) eqn:E; [|exact IH].
  intros [<- | Hin]; [now apply tmdb_parse_entry_wf in E | now apply IH].
Qed.

Lemma tmdb_parse_wf data base ts r :
  In r (TMDB._parse_response data base ts) -> well_formed TMDB ts r.
Proof.
  induction ts as [|t ts IH]; simpl; [intros []|].
  assert (Hrest : In r (TMDB._parse_response data base ts) ->
                  well_formed TMDB (t :: ts) r).
  { intros H. destruct (IH H) as (? & ? & ?). repeat split; auto.
    now right. }
  destruct (TMDB.entries data t) as [items|]; [|exact Hrest].
  rewrite in_app_iff. intros [Hin | Hin]; [|now apply Hrest].
  apply tmdb_parse_entries_wf in Hin.
  apply (well_formed_weaken TMDB t); [now left | exact Hin].
Qed.

Lemma tvdb_parse_artwork_wf ts item r :
  TVDB.parse_artwork ts item = Some r -> well_formed TVDB ts r.
Proof.
  unfold TVDB.parse_artwork.
  destruct (TVDB.a_type item) as [t|]; [|discriminate].
  destruct (TVDB.type_map_id t) as [m|]; [|discriminate].
  destruct (TVDB.in_wanted ts m) eqn:Hw; [|discriminate].
  destruct (TVDB.a_image item) as [u|]; [|discriminate].
  destruct (String.eqb u "") eqn:E; [discriminate|].
  intros [= <-]. repeat split; simpl.
  - now apply in_wanted_In.
  - now apply eqb_empty_false.
Qed.

Lemma in_omap {A B : Type} (f : A -> option B) (l : list A) (b : B) :
  In b (omap f l) <-> exists a, In a l /\ f a = Some b.
Proof.
  induction l as [|a l IH]; simpl.
  - split; [intros [] | intros (? & [] & _)].
  - destruct (f a) as [b'|] eqn:E; simpl; rewrite IH; split.
    + intros [<- | (a' & Ha' & Hf)]; [exists a; auto | exists a'; auto].
    + intros (a' & [<- | Ha'] & Hf); [left; congruence | right; eauto].
    + intros (a' & Ha' & Hf). exists a'; auto.
    + intros (a' & [<- | Ha'] & Hf); [congruence | eauto].
Qed.

Lemma tvdb_parse_wf artworks ts r :
  In r (TVDB._parse_response artworks ts) -> well_formed TVDB ts r.
Proof.
  destruct artworks as [items|]; simpl; [|intros []].
  rewrite in_omap. intros (item & _ & H).
  now apply tvdb_parse_artwork_wf in H.
Qed.

Lemma mediux_parse_file_wf ts n c file r :
  Mediux.parse_file ts n c file = Some r ->
  well_formed MEDIUX ts r /\ score r = 0%Z.
Proof.
  unfold Mediux.parse_file.
  destruct (Mediux.f_type file) as [t|]; [|discriminate].
  destruct (Mediux.type_mapping t) as [m|]; [|discriminate].
  destruct (TVDB.in_wanted ts m) eqn:Hw; [|discriminate].
  destruct (Mediux.f_id file) as [u|]; [|discriminate].
  destruct (String.eqb u "") eqn:E; [discriminate|].
  intros [= <-]. repeat split; simpl.
  - now apply in_wanted_In.
  - discriminate.
Qed.

Lemma mediux_parse_wf sets ts r :
  In r (Mediux._parse_response sets ts) ->
  well_formed MEDIUX ts r /\ score r = 0%Z.
Proof.
  destruct sets as [sets|]; simpl; [|intros []].
  rewrite in_flat_map. intros (s & _ & Hin).
  unfold Mediux.parse_set in Hin. apply in_omap in Hin.
  destruct Hin as (file & _ & H). now apply mediux_parse_file_wf in H.
Qed.

Lemma fanart_parse_items_wf t items rs r :
  Fanart.parse_items t items = Py.Ok rs -> In r rs -> well_formed FANART [t] r.
Proof.
  revert rs. induction items as [|item rest IH]; simpl; intros rs.
  - intros [= <-] [].
  - destruct (Fanart.i_url item) as [u|]; [|apply IH].
    destruct (String.eqb u "") eqn:E; [apply IH|].
    destruct (Fanart.likes_of item) as [likes|]; [|discriminate]. simpl.
    destruct (Fanart.parse_items t rest) as [rs'|]; [|discriminate]. simpl.
    intros [= <-] [<- | Hin]; [|now apply (IH rs')].
    repeat split; simpl; [now left | now apply eqb_empty_false].
Qed.

Lemma fanart_parse_keys_wf data t keys rs r :
  Fanart.parse_keys data t keys = Py.Ok rs -> In r rs ->
  well_formed FANART [t] r.
Proof.
  revert rs. induction keys as [|key rest IH]; simpl; intros rs.
  - intros [= <-] [].
  - destruct (match data !! key with
              | Some items => Fanart.parse_items t items
              | None => Py.Ok []
              end) as [first|] eqn:Hfirst; [|discriminate]. simpl.
    destruct (Fanart.parse_keys data t rest) as [others|]; [|discriminate].
    simpl. intros [= <-]. rewrite in_app_iff. intros [Hin | Hin].
    + destruct (data !! key) as [items|].
      * now apply (fanart_parse_items_wf t items first).
      * injection Hfirst as <-. destruct Hin.
    + now apply (IH others).
Qed.

Lemma fanart_parse_wf data ts r :
  In r (Fanart.parsed data ts) -> well_formed FANART ts r.
Proof.
  unfold Fanart.parsed.
  destruct (Fanart._parse_response data ts) as [rs|] eqn:H; [|intros []].
  revert rs H. induction ts as [|t ts IH]; simpl; intros rs.
  - intros [= <-] [].
  - destruct (Fanart.parse_keys data t (Fanart.type_mapping t))
      as [first|] eqn:Hfirst; [|discriminate]. simpl.
    destruct (Fanart._parse_response data ts) as [others|]; [|discriminate].
    simpl. intros [= <-]. rewrite in_app_iff. intros [Hin | Hin].
    + apply (well_formed_weaken FANART t); [now left|].
      exact (fanart_parse_keys_wf data t _ first r Hfirst Hin).
    + destruct (IH others eq_refl Hin) as (? & ? & ?).
      repeat split; auto. now right.
Qed.

End ProviderResults.

Section AggregatorMore.

Import Schemas ArtworkService Aggregation.

Lemma get_artwork_unfold priority providers :
  get_artwork priority providers =
  sort_by (priority_map priority)
    (gather (List.filter is_configured providers)).
Proof.
  unfold get_artwork.
  now destruct (List.filter is_configured providers).
Qed.

Lemma gather_app ps1 ps2 : gather (ps1 ++ ps2) = gather ps1 ++ gather ps2.
Proof.
  induction ps1 as [|p ps1 IH]; simpl; [reflexivity|].
  destruct (answer p); [|exact IH].
  now rewrite IH, app_assoc.
Qed.

Lemma In_get_artwork priority providers r :
  In r (get_artwork priority providers) <->
  In r (gather (List.filter is_configured providers)).
Proof.
  rewrite get_artwork_unfold.
  split; apply Permutation_in;
    [apply sort_by_perm | apply Permutation_sym, sort_by_perm].
Qed.

(** X8: a provider that is not configured, whose request raised, or that
    found nothing leaves the aggregated list as it is without that
    provider: the results of the others are kept, in the same order. *)
Theorem failing_provider_is_ignored priority ps1 q ps2 :
  drops_out q ->
  get_artwork priority (ps1 ++ q :: ps2) = get_artwork priority (ps1 ++ ps2).
Proof.
  intros Hq. rewrite !get_artwork_unfold. f_equal.
  rewrite !List.filter_app, !gather_app. f_equal.
  cbn [List.filter].
  destruct Hq as [Hq | [(e & Hq) | Hq]].
  - now rewrite Hq.
  - destruct (is_configured q); [|reflexivity]. simpl. now rewrite Hq.
  - destruct (is_configured q); [|reflexivity]. simpl. now rewrite Hq.
Qed.

Lemma gather_providers_of a ts r :
  In r (gather (List.filter is_configured (providers_of a ts))) ->
  (In r (Fanart.parsed (fanart_data a) ts) /\ fanart_key a = true)
  \/ (In r (Mediux._parse_response (mediux_sets a) ts) /\ mediux_key a = true)
  \/ (In r (TMDB._parse_response (tmdb_images a) (tmdb_base_url a) ts)
      /\ tmdb_key a = true)
  \/ (In r (TVDB._parse_response (tvdb_artworks a) ts) /\ tvdb_key a = true).
Proof.
  unfold providers_of.
  rewrite !List.filter_app, !gather_app, !in_app_iff.
  destruct (fanart_key a), (mediux_key a), (tmdb_key a), (tvdb_key a);
    simpl; rewrite ?app_nil_r; tauto.
Qed.

(** X9: whatever the four providers answer and whatever the priority
    list, every result the aggregator returns is of a kind that was asked
    for, has a URL, and names the provider it came from (never Plex). *)
Theorem aggregated_results_are_requested (a : Answers)
    (artwork_types : list ArtworkType) (priority : list string)
    (r : ArtworkResult) :
  In r (get_artwork priority (providers_of a artwork_types)) ->
  In (artwork_type r) artwork_types /\ image_url r <> ""
  /\ In (source r) [FANART; MEDIUX; TMDB; TVDB].
Proof.
  rewrite In_get_artwork. intros H.
  apply gather_providers_of in H.
  destruct H as [[H _] | [[H _] | [[H _] | [H _]]]].
  - apply fanart_parse_wf in H. destruct H as (-> & ? & ?). simpl. tauto.
  - apply mediux_parse_wf in H. destruct H as ((-> & ? & ?) & _).
    simpl. tauto.
  - apply tmdb_parse_wf in H. destruct H as (-> & ? & ?). simpl. tauto.
  - apply tvdb_parse_wf in H. destruct H as (-> & ? & ?). simpl. tauto.
Qed.

Lemma filter_filter_absorb {A : Type} (f g : A -> bool) (l : list A) :
  (forall x, In x l -> f x = true -> g x = true) ->
  List.filter f (List.filter g l) = List.filter f l.
Proof.
  induction l as [|x l IH]; intros H; [reflexivity|].
  cbn [List.filter].
  assert (IH' : List.filter f (List.filter g l) = List.filter f l)
    by (apply IH; intros y Hy; apply H; now right).
  destruct (g x) eqn:Eg; cbn [List.filter].
  - now rewrite IH'.
  - destruct (f x) eqn:Ef; [|exact IH'].
    rewrite (H x (or_introl eq_refl) Ef) in Eg. discriminate.
Qed.

Lemma filter_none {A : Type} (f : A -> bool) (l : list A) :
  (forall x, In x l -> f x = false) -> List.filter f l = [].
Proof.
  induction l as [|x l IH]; intros H; [reflexivity|].
  cbn [List.filter]. rewrite (H x) by now left.
  apply IH. intros y Hy. apply H. now right.
Qed.

Lemma filter_all {A : Type} (f : A -> bool) (l : list A) :
  (forall x, In x l -> f x = true) -> List.filter f l = l.
Proof.
  induction l as [|x l IH]; intros H; [reflexivity|].
  cbn [List.filter]. rewrite (H x) by now left.
  f_equal. apply IH. intros y Hy. apply H. now right.
Qed.

(** Results of one source that all have the same score keep their order
    through the sort. *)
Lemma of_source_sort_by pm p s l :
  (forall r, In r l -> is_source p r = true -> score r = s) ->
  of_source p (sort_by pm l) = of_source p l.
Proof.
  intros H. unfold of_source.
  set (k := (default SENTINEL (pm !! value p), (- s)%Z)).
  assert (Hkey : forall l', (forall r, In r l' -> In r l) ->
            List.filter (is_source p) (with_key pm k l')
            = List.filter (is_source p) l').
  { intros l' Hl'. apply filter_filter_absorb. intros r Hr Hp.
    unfold has_key, sort_key, k. simpl.
    unfold is_source in Hp. apply String.eqb_eq in Hp. rewrite Hp.
    rewrite Nat.eqb_refl. simpl. apply Z.eqb_eq. f_equal.
    apply H; [now apply Hl'|]. unfold is_source. now rewrite Hp, String.eqb_refl. }
  rewrite <- (Hkey (sort_by pm l)).
  - rewrite sort_by_with_key. apply Hkey. auto.
  - intros r. apply Permutation_in, sort_by_perm.
Qed.

Lemma of_source_other p q l :
  p <> q -> (forall r, In r l -> source r = q) -> of_source p l = [].
Proof.
  intros Hpq H. apply filter_none. intros r Hr.
  unfold is_source. rewrite (H r Hr).
  apply String.eqb_neq. now destruct p, q.
Qed.

Lemma of_source_same p l :
  (forall r, In r l -> source r = p) -> of_source p l = l.
Proof.
  intros H. apply filter_all. intros r Hr.
  unfold is_source. rewrite (H r Hr). apply String.eqb_refl.
Qed.

(** X10: Mediux gives no score (every result has score 0), so the Mediux
    results stand in the aggregated list in the very order in which the
    sets and files came from Mediux, wherever the priority list puts
    them; without a Mediux key there is none. *)
Theorem mediux_results_keep_their_order (a : Answers)
    (artwork_types : list ArtworkType) (priority : list string) :
  of_source MEDIUX (get_artwork priority (providers_of a artwork_types)) =
  if mediux_key a
  then Mediux._parse_response (mediux_sets a) artwork_types
  else [].
Proof.
  rewrite get_artwork_unfold.
  rewrite (of_source_sort_by _ MEDIUX 0%Z).
  - unfold providers_of, of_source.
    rewrite !List.filter_app, !gather_app, !List.filter_app.
    fold (of_source MEDIUX).
    assert (Hf : forall b l,
              (forall r, In r l -> source r = FANART) ->
              List.filter (is_source MEDIUX)
                (gather (List.filter is_configured
                   (if b : bool then [entry FANART true l] else []))) = []).
    { intros [] l Hl; simpl; [|reflexivity]. rewrite app_nil_r.
      now apply (of_source_other MEDIUX FANART). }
    assert (Ht : forall b l,
              (forall r, In r l -> source r = TMDB) ->
              List.filter (is_source MEDIUX)
                (gather (List.filter is_configured
                   (if b : bool then [entry TMDB true l] else []))) = []).
    { intros [] l Hl; simpl; [|reflexivity]. rewrite app_nil_r.
      now apply (of_source_other MEDIUX TMDB). }
    assert (Hv : forall b l,
              (forall r, In r l -> source r = TVDB) ->
              List.filter (is_source MEDIUX)
                (gather (List.filter is_configured
                   (if b : bool then [entry TVDB true l] else []))) = []).
    { intros [] l Hl; simpl; [|reflexivity]. rewrite app_nil_r.
      now apply (of_source_other MEDIUX TVDB). }
    rewrite Hf by (intros r Hr; apply fanart_parse_wf in Hr; destruct Hr as (Hs & _); exact Hs).
    rewrite Ht by (intros r Hr; apply tmdb_parse_wf in Hr; destruct Hr as (Hs & _); exact Hs).
    rewrite Hv by (intros r Hr; apply tvdb_parse_wf in Hr; destruct Hr as (Hs & _); exact Hs).
    rewrite app_nil_r. cbn [app].
    destruct (mediux_key a); simpl; [|reflexivity].
    rewrite app_nil_r. apply of_source_same.
    intros r Hr. apply mediux_parse_wf in Hr.
    destruct Hr as ((Hs & _) & _). exact Hs.
  - intros r Hr Hsrc. apply gather_providers_of in Hr.
    assert (Hm : source r = MEDIUX).
    { unfold is_source in Hsrc. apply String.eqb_eq in Hsrc.
      now destruct (source r). }
    destruct Hr as [[H _] | [[H _] | [[H _] | [H _]]]].
    + apply fanart_parse_wf in H. destruct H as (Hs & _). congruence.
    + apply mediux_parse_wf in H. apply H.
    + apply tmdb_parse_wf in H. destruct H as (Hs & _). congruence.
    + apply tvdb_parse_wf in H. destruct H as (Hs & _). congruence.
Qed.

Lemma omap_ext_in {A B : Type} (f g : A -> option B) (l : list A) :
  (forall a, f a = g a) -> omap f l = omap g l.
Proof.
  intros H. induction l as [|a l IH]; simpl; [reflexivity|].
  rewrite <- (H a). destruct (f a); [f_equal|]; exact IH.
Qed.

(** X11: TVDB and Mediux use the requested kinds as a set: asking for the
    same kinds in another order, or for a kind twice, gives the same
    results in the same order. *)
Theorem request_is_a_set_for_tvdb_and_mediux
    (artworks : option (list TVDB.Artwork))
    (sets : option (list Mediux.ArtSet))
    (artwork_types artwork_types' : list ArtworkType) :
  (forall t, In t artwork_types <-> In t artwork_types') ->
  TVDB._parse_response artworks artwork_types
    = TVDB._parse_response artworks artwork_types'
  /\ Mediux._parse_response sets artwork_types
    = Mediux._parse_response sets artwork_types'.
Proof.
  intros H. pose proof (in_wanted_ext _ _ H) as Hw. split.
  - destruct artworks as [items|]; simpl; [|reflexivity].
    apply omap_ext_in. intros item. unfold TVDB.parse_artwork.
    destruct (TVDB.a_type item) as [t|]; [|reflexivity].
    destruct (TVDB.type_map_id t) as [m|]; [|reflexivity].
    now rewrite Hw.
  - destruct sets as [ss|]; simpl; [|reflexivity].
    induction ss as [|s ss IH]; simpl; [reflexivity|].
    rewrite IH. f_equal. unfold Mediux.parse_set.
    apply omap_ext_in. intros file. unfold Mediux.parse_file.
    destruct (Mediux.f_type file) as [t|]; [|reflexivity].
    destruct (Mediux.type_mapping t) as [m|]; [|reflexivity].
    now rewrite Hw.
Qed.

Lemma fanart_parse_items_raise t items item u e :
  In item items -> Fanart.i_url item = Some u -> u <> "" ->
  Fanart.i_likes item = Some (Py.Raise e) ->
  exists e', Fanart.parse_items t items = Py.Raise e'.
Proof.
  intros Hin Hu Hne Hl.
  induction items as [|x rest IH]; [destruct Hin|]. simpl.
  assert (Hbad : x = item ->
            exists e', Py.bind (Fanart.likes_of x)
              (fun likes => Py.bind (Fanart.parse_items t rest)
                 (fun results => Py.Ok
                    ({| source := FANART; artwork_type := t;
                        image_url := u; thumbnail_url := Some u;
                        language := Fanart.i_lang x; score := likes;
                        set_name := None; creator_name := None |}
                     :: results))) = Py.Raise e').
  { intros ->. unfold Fanart.likes_of. rewrite Hl. simpl. eauto. }
  destruct Hin as [-> | Hin].
  - rewrite Hu. apply String.eqb_neq in Hne. rewrite Hne. now apply Hbad.
  - destruct (IH Hin) as (e' & He').
    destruct (Fanart.i_url x) as [ux|]; [|eauto].
    destruct (String.eqb ux ""); [eauto|].
    destruct (Fanart.likes_of x); simpl; [|eauto].
    rewrite He'. simpl. eauto.
Qed.

(** X12: one Fanart entry whose [likes] value [int] rejects loses every
    Fanart result of the query: the parser raises on it and [get_artwork]
    answers with the empty list. *)
Theorem fanart_bad_likes_loses_everything
    (data : gmap string (list Fanart.Item)) (artwork_types : list ArtworkType)
    (t : ArtworkType) (key : string) (items : list Fanart.Item)
    (item : Fanart.Item) (url : string) (e : Py.exn) :
  In t artwork_types -> In key (Fanart.type_mapping t) ->
  data !! key = Some items -> In item items ->
  Fanart.i_url item = Some url -> url <> "" ->
  Fanart.i_likes item = Some (Py.Raise e) ->
  Fanart.parsed data artwork_types = [].
Proof.
  intros Ht Hkey Hdata Hitem Hurl Hne Hlikes.
  destruct (fanart_parse_items_raise t items item url e Hitem Hurl Hne Hlikes)
    as (e1 & He1).
  assert (Hkeys : forall keys, In key keys ->
            exists e', Fanart.parse_keys data t keys = Py.Raise e').
  { induction keys as [|k keys IH]; [intros []|]. simpl.
    intros [-> | Hin].
    - rewrite Hdata, He1. simpl. eauto.
    - destruct (IH Hin) as (e' & He').
      destruct (match data !! k with
                | Some items0 => Fanart.parse_items t items0
                | None => Py.Ok []
                end); simpl; [|eauto].
      rewrite He'. simpl. eauto. }
  destruct (Hkeys _ Hkey) as (e2 & He2).
  assert (Hall : exists e', Fanart._parse_response data artwork_types
                            = Py.Raise e').
  { induction artwork_types as [|t' ts IH]; [destruct Ht|]. simpl.
    destruct Ht as [-> | Hin].
    - rewrite He2. simpl. eauto.
    - destruct (IH Hin) as (e' & He').
      destruct (Fanart.parse_keys data t' (Fanart.type_mapping t'));
        simpl; [|eauto].
      rewrite He'. simpl. eauto. }
  destruct Hall as (e3 & He3). unfold Fanart.parsed. now rewrite He3.
Qed.

End AggregatorMore.

Section AggregatorMoreExamples.

Import Schemas ArtworkService Aggregation.

Lemma failing_provider_is_ignored_witness :
  get_artwork ["tmdb"] (failing FANART :: two_providers)
  = get_artwork ["tmdb"] two_providers.
Proof.
  apply (failing_provider_is_ignored ["tmdb"] [] (failing FANART)
           two_providers).
  right. left. exists Py.OtherError. reflexivity.
Defined.

Lemma aggregated_results_are_requested_witness :
  In (artwork_type TMDB.poster_857_result) [POSTER]
  /\ image_url TMDB.poster_857_result <> ""
  /\ In (source TMDB.poster_857_result) [FANART; MEDIUX; TMDB; TVDB].
Proof.
  apply (aggregated_results_are_requested sample_answers [POSTER]
           ["tmdb"; "mediux"]).
  vm_compute. left. reflexivity.
Defined.

Lemma request_is_a_set_for_tvdb_and_mediux_witness :
  TVDB._parse_response (tvdb_artworks sample_answers) [POSTER; LOGO]
    = TVDB._parse_response (tvdb_artworks sample_answers) [LOGO; POSTER; LOGO]
  /\ Mediux._parse_response (mediux_sets sample_answers) [POSTER; LOGO]
    = Mediux._parse_response (mediux_sets sample_answers) [LOGO; POSTER; LOGO].
Proof.
  apply request_is_a_set_for_tvdb_and_mediux.
  intros t. simpl. tauto.
Defined.

Lemma fanart_bad_likes_loses_everything_witness :
  Fanart.parsed unreadable_fanart [POSTER; LOGO] = [].
Proof.
  apply (fanart_bad_likes_loses_everything unreadable_fanart [POSTER; LOGO]
           POSTER "movieposter" [unreadable_item] unreadable_item
           "https://assets.fanart.tv/p.jpg" Py.ValueError).
  - left. reflexivity.
  - left. reflexivity.
  - reflexivity.
  - left. reflexivity.
  - reflexivity.
  - discriminate.
  - reflexivity.
Defined.

End AggregatorMoreExamples.

(** ** Editions: backup, restore, configuration *)

Section EditionRoundTrip.

Import Sys EditionManager EditionRestore.

Variable srv : Plex.Server.

Lemma set_edition_db key edition w :
  db (snd (PlexService.set_edition srv key edition w)) = db w.
Proof.
  unfold PlexService.set_edition, PlexService._request.
  now destruct (Plex.put_edition srv _ key edition).
Qed.

Lemma get_item_metadata_db key w :
  db (snd (PlexService.get_item_metadata srv key w)) = db w.
Proof.
  unfold PlexService.get_item_metadata, PlexService._request.
  now destruct (Plex.metadata srv _ key) as [[|md mds]|e].
Qed.

Lemma backups_of_db key w w' :
  edition_backups (db w') = edition_backups (db w) ->
  backups_of key w' = backups_of key w.
Proof. unfold backups_of. now intros ->. Qed.

Lemma _get_plex_service_db w w' :
  plex_url (db w') = plex_url (db w) ->
  plex_token (db w') = plex_token (db w) ->
  _get_plex_service w' = _get_plex_service w.
Proof. unfold _get_plex_service. now intros -> ->. Qed.

(** What [backup_edition] does to the tables: nothing, or one new backup
    row for the item. *)
Lemma backup_edition_db key w :
  let w' := snd (backup_edition srv key w) in
  plex_url (db w') = plex_url (db w) /\
  plex_token (db w') = plex_token (db w) /\
  (edition_backups (db w') = edition_backups (db w) \/
   backups_of key w = [] /\
   exists b, plex_rating_key b = key /\
             edition_backups (db w') = edition_backups (db w) ++ [b]).
Proof.
  unfold backup_edition.
  destruct (backups_of key w) as [|b [|b' rest]] eqn:Hb; simpl; auto.
  destruct (_get_plex_service w); simpl; auto.
  pose proof (get_item_metadata_db key w) as Hdb.
  destruct (PlexService.get_item_metadata srv key w) as [[item|] w1];
    simpl in *; rewrite Hdb; auto.
  repeat split; auto. right. split; [reflexivity|].
  exists {| plex_rating_key := key; title := Plex.title item;
            original_edition := Plex.edition_title item |}.
  split; reflexivity.
Qed.

Lemma apply_edition_db key edition w :
  let w' := snd (apply_edition srv key edition w) in
  plex_url (db w') = plex_url (db w) /\
  plex_token (db w') = plex_token (db w) /\
  (edition_backups (db w') = edition_backups (db w) \/
   backups_of key w = [] /\
   exists b, plex_rating_key b = key /\
             edition_backups (db w') = edition_backups (db w) ++ [b]).
Proof.
  unfold apply_edition.
  destruct (_get_plex_service w); simpl; auto.
  pose proof (backup_edition_db key w) as H.
  destruct (backup_edition srv key w) as [[u|e] w1]; simpl in *; auto.
  pose proof (set_edition_db key edition w1) as Hdb.
  destruct (PlexService.set_edition srv key edition w1) as [ok w2].
  simpl in *. now rewrite Hdb.
Qed.

(** A backup row, once there, is what every later [apply_edition] finds:
    it is neither replaced nor joined by a second row for the item. *)
Lemma apply_edition_keeps_backup key b key' edition w :
  backups_of key w = [b] ->
  backups_of key (snd (apply_edition srv key' edition w)) = [b].
Proof.
  intros Hb.
  destruct (apply_edition_db key' edition w) as (_ & _ & [H | (Hnone & b' & Hk & H)]).
  - now rewrite (backups_of_db key w _ H).
  - unfold backups_of in *. rewrite H, List.filter_app. simpl.
    destruct (String.eqb (plex_rating_key b') key) eqn:E.
    + apply String.eqb_eq in E. rewrite Hk in E. rewrite E in Hnone.
      congruence.
    + now rewrite app_nil_r.
Qed.

Lemma apply_editions_keep_backup key b calls :
  forall w, backups_of key w = [b] ->
            backups_of key (apply_editions srv calls w) = [b].
Proof.
  induction calls as [|[k e] calls IH]; intros w Hb; [exact Hb|].
  change (apply_editions srv ((k, e) :: calls) w)
    with (apply_editions srv calls (snd (apply_edition srv k e w))).
  apply IH. now apply apply_edition_keeps_backup.
Qed.

Lemma apply_editions_config calls :
  forall w, _get_plex_service (apply_editions srv calls w)
            = _get_plex_service w.
Proof.
  induction calls as [|[k e] calls IH]; intros w; [reflexivity|].
  change (apply_editions srv ((k, e) :: calls) w)
    with (apply_editions srv calls (snd (apply_edition srv k e w))).
  rewrite IH.
  destruct (apply_edition_db k e w) as (Hu & Ht & _).
  now apply _get_plex_service_db.
Qed.

(** X13: the edition an item had before MetaFix first touched it is what
    [restore_edition] writes back, however many editions were applied to
    it or to other items in between.  If the media server is configured,
    the item has no backup yet and the server delivers it with edition
    [original], then after [apply_edition] and any further calls of it a
    [restore_edition] sends exactly one request, the PUT of [original]
    (the empty string when the item had no edition), and returns whether
    that PUT was answered. *)
Theorem restore_writes_back_the_original (key edition : string)
    (item : Plex.PlexItem) (calls : list (string * string)) (w w1 : World) :
  _get_plex_service w = Py.Ok tt ->
  backups_of key w = [] ->
  PlexService.get_item_metadata srv key w = (Some item, w1) ->
  let w2 := apply_editions srv ((key, edition) :: calls) w in
  let original := Plex.or_default (Plex.edition_title item) "" in
  exists e,
    fst (restore_edition srv key w2) = Py.Ok (answered e) /\
    requests (snd (restore_edition srv key w2))
      = requests w2 ++ [(Plex.PutEdition key original, e)] /\
    db (snd (restore_edition srv key w2)) = db w2.
Proof.
  intros Hcfg Hnone Hmeta w2 original.
  set (b := {| plex_rating_key := key; title := Plex.title item;
               original_edition := Plex.edition_title item |}).
  assert (Hfirst : backups_of key (snd (apply_edition srv key edition w)) = [b]).
  { unfold apply_edition, backup_edition. rewrite Hcfg, Hnone, Hmeta.
    pose proof (set_edition_db key edition (set_db (add_backup b) w1)) as Hdb.
    fold b.
    destruct (PlexService.set_edition srv key edition _) as [ok w'].
    simpl in *.
    rewrite (backups_of_db key (set_db (add_backup b) w1) w')
      by (simpl; now rewrite Hdb).
    rewrite backups_of_add_same by reflexivity.
    pose proof (get_item_metadata_db key w) as Hdb1. rewrite Hmeta in Hdb1.
    simpl in Hdb1.
    rewrite (backups_of_db key w w1) by now rewrite Hdb1.
    now rewrite Hnone. }
  assert (Hb : backups_of key w2 = [b]).
  { unfold w2.
    change (apply_editions srv ((key, edition) :: calls) w)
      with (apply_editions srv calls (snd (apply_edition srv key edition w))).
    now apply apply_editions_keep_backup. }
  assert (Hcfg2 : _get_plex_service w2 = Py.Ok tt).
  { unfold w2. now rewrite apply_editions_config. }
  unfold restore_edition. rewrite Hb, Hcfg2.
  unfold PlexService.set_edition, PlexService._request. simpl.
  fold original.
  destruct (Plex.put_edition srv (length (requests w2)) key original) as [[]|e].
  - exists None. now repeat split.
  - exists (Some e). now repeat split.
Qed.

End EditionRoundTrip.

Section EditionConfiguration.

Import Sys EditionManager.

Lemma mem_In name l : mem name l = true <-> In name l.
Proof.
  unfold mem. rewrite existsb_exists. split.
  - intros (x & Hx & E). apply String.eqb_eq in E. now subst.
  - intros H. exists name. split; [exact H | apply String.eqb_refl].
Qed.

Lemma mem_false name l : mem name l = false <-> ~ In name l.
Proof. rewrite <- mem_In. now destruct (mem name l). Qed.

Lemma complete_order_spec all_modules :
  forall saved_order,
  exists extra,
    complete_order all_modules saved_order = saved_order ++ extra /\
    List.NoDup extra /\
    (forall m, In m extra -> In m all_modules /\ ~ In m saved_order) /\
    (forall m, In m all_modules -> In m (saved_order ++ extra)).
Proof.
  induction all_modules as [|m rest IH]; intros saved; simpl.
  - exists []. rewrite app_nil_r.
    split; [reflexivity|]. split; [apply List.NoDup_nil|].
    split; [intros m [] | intros m []].
  - destruct (mem m saved) eqn:E.
    + destruct (IH saved) as (extra & -> & Hnd & Hex & Hall).
      exists extra. repeat split; auto.
      * right. now apply Hex.
      * now apply Hex.
      * intros m' [<- | Hin]; [|now apply Hall].
        apply in_app_iff. left. now apply mem_In.
    + apply mem_false in E.
      destruct (IH (saved ++ [m])) as (extra & -> & Hnd & Hex & Hall).
      exists (m :: extra). rewrite <- app_assoc. repeat split; auto.
      * constructor; [|exact Hnd].
        intros Hin. apply Hex in Hin. destruct Hin as [_ Hin].
        apply Hin, in_app_iff. right. now left.
      * destruct H as [<- | Hin]; [now left | right; now apply Hex].
      * destruct H as [<- | Hin]; [exact E|].
        intros Hs. apply Hex in Hin. destruct Hin as [_ Hin].
        apply Hin, in_app_iff. now left.
      * intros m' [<- | Hin].
        -- apply in_app_iff. right. now left.
        -- specialize (Hall m' Hin). rewrite <- app_assoc in Hall.
           exact Hall.
Qed.

(** X14: the module order [get_config] returns always names every module
    of the registry.  With a saved configuration it is the saved order,
    unchanged, followed by the registry modules the saved order lacks,
    each once; without one it is the registry order. *)
Theorem module_order_is_completed (reg : Registry) (w : World) :
  let order := snd (fst (get_config reg w)) in
  (forall name, In name (map fst reg) -> In name order) /\
  (edition_config (db w) = None -> order = map fst reg) /\
  (forall config, edition_config (db w) = Some config ->
     exists extra,
       order = module_order config ++ extra /\ List.NoDup extra /\
       forall m, In m extra ->
                 In m (map fst reg) /\ ~ In m (module_order config)).
Proof.
  unfold get_config.
  destruct (edition_config (db w)) as [config|]; simpl.
  - destruct (complete_order_spec (map fst reg) (module_order config))
      as (extra & Heq & Hnd & Hex & Hall).
    repeat split.
    + intros name Hin. rewrite Heq. now apply Hall.
    + discriminate.
    + intros c [= <-]. exists extra. auto.
  - repeat split; auto. discriminate.
Qed.

Lemma concat_nonempty sep v rest : v <> "" -> String.concat sep (v :: rest) <> "".
Proof.
  intros Hv. destruct v as [|c v]; [contradiction|].
  destruct rest; simpl; discriminate.
Qed.

Lemma collect_parts_nonempty reg enabled md order :
  Forall (fun v => v <> "") (collect_parts reg enabled md order).
Proof.
  induction order as [|name rest IH]; simpl; [constructor|].
  destruct (negb (mem name enabled)); [exact IH|].
  destruct (registry_get reg name) as [extract|]; [|exact IH].
  destruct (extract md) as [[v|]|e]; try exact IH.
  destruct (String.eqb v "") eqn:E; [exact IH|].
  constructor; [|exact IH]. intros ->. discriminate.
Qed.

(** X15: [generate_edition] only reads.  It leaves every table as it is;
    with a configured media server it sends one request, the GET of the
    item's metadata, and returns without raising; and the edition it
    returns is never the empty string. *)
Theorem generate_edition_only_reads (reg : Registry) (srv : Plex.Server)
    (key : string) (w : World) :
  let r := generate_edition reg srv key w in
  db (snd r) = db w /\
  fst r <> Py.Ok (Some "") /\
  (_get_plex_service w = Py.Ok tt ->
   (exists o, fst r = Py.Ok o) /\
   exists e, requests (snd r) = requests w ++ [(Plex.GetMetadata key, e)]).
Proof.
  unfold generate_edition, PlexService._request.
  destruct (_get_plex_service w) as [[]|e0]; simpl.
  - destruct (Plex.metadata srv (length (requests w)) key) as [[|md mds]|e];
      simpl.
    + repeat split; try discriminate; eauto.
    + destruct (get_config reg _) as [[enabled order] sep].
      pose proof (collect_parts_nonempty reg enabled md order) as Hne.
      destruct (collect_parts reg enabled md order) as [|v rest]; simpl.
      * repeat split; try discriminate; eauto.
      * repeat split; eauto.
        intros [= H]. inversion Hne as [|? ? Hv _]; subst.
        now apply (concat_nonempty sep v rest).
    + repeat split; try discriminate; eauto.
  - repeat split; discriminate.
Qed.

Lemma mem_filter_ne name name' enabled :
  name' <> name ->
  mem name' (List.filter (fun n => negb (String.eqb n name)) enabled)
  = mem name' enabled.
Proof.
  intros Hne. induction enabled as [|n rest IH]; [reflexivity|].
  cbn [List.filter]. destruct (String.eqb n name) eqn:E; simpl.
  - rewrite IH. apply String.eqb_eq in E. subst n.
    apply String.eqb_neq in Hne. now rewrite Hne.
  - now rewrite IH.
Qed.

(** X16: a module that raises, or that finds nothing, costs the edition
    only its own part: the parts collected are those collected with the
    module switched off. *)
Theorem failing_module_is_skipped (reg : Registry) (enabled order : list string)
    (md : Plex.Metadata) (name : string)
    (extract : Plex.Metadata -> Py.res (option string)) :
  registry_get reg name = Some extract ->
  (exists e, extract md = Py.Raise e) \/ extract md = Py.Ok None
    \/ extract md = Py.Ok (Some "") ->
  collect_parts reg enabled md order =
  collect_parts reg
    (List.filter (fun n => negb (String.eqb n name)) enabled) md order.
Proof.
  intros Hreg Hfail.
  induction order as [|name' rest IH]; simpl; [reflexivity|].
  rewrite <- IH.
  destruct (String.eqb name' name) eqn:E.
  - apply String.eqb_eq in E. subst name'.
    assert (Hoff : mem name (List.filter (fun n => negb (String.eqb n name))
                               enabled) = false).
    { apply mem_false. intros Hin. apply filter_In in Hin.
      destruct Hin as [_ Hin]. now rewrite String.eqb_refl in Hin. }
    rewrite Hoff, Hreg. simpl.
    destruct (negb (mem name enabled)); [reflexivity|].
    destruct Hfail as [(e & ->) | [-> | ->]]; reflexivity.
  - apply String.eqb_neq in E. now rewrite (mem_filter_ne name name' enabled E).
Qed.

End EditionConfiguration.

Section EditionExamples.

Import Sys EditionManager EditionRestore.

Lemma restore_writes_back_the_original_witness :
  exists e,
    fst (restore_edition edition_server "42"
           (apply_editions edition_server
              [("42", "4K"); ("42", "4K . HDR"); ("7", "1080p")]
              Scenarios.initial_world))
      = Py.Ok (answered e) /\
    requests (snd (restore_edition edition_server "42"
                     (apply_editions edition_server
                        [("42", "4K"); ("42", "4K . HDR"); ("7", "1080p")]
                        Scenarios.initial_world)))
      = requests (apply_editions edition_server
                    [("42", "4K"); ("42", "4K . HDR"); ("7", "1080p")]
                    Scenarios.initial_world)
        ++ [(Plex.PutEdition "42" "Final Cut", e)] /\
    db (snd (restore_edition edition_server "42"
               (apply_editions edition_server
                  [("42", "4K"); ("42", "4K . HDR"); ("7", "1080p")]
                  Scenarios.initial_world)))
      = db (apply_editions edition_server
              [("42", "4K"); ("42", "4K . HDR"); ("7", "1080p")]
              Scenarios.initial_world).
Proof.
  exact (restore_writes_back_the_original edition_server "42" "4K"
           (Plex.item_of_metadata blade_runner)
           [("42", "4K . HDR"); ("7", "1080p")]
           Scenarios.initial_world
           (snd (PlexService.get_item_metadata edition_server "42"
                   Scenarios.initial_world))
           eq_refl eq_refl eq_refl).
Defined.

Lemma failing_module_is_skipped_witness :
  collect_parts [("Broken", fun _ => Py.Raise Py.ValueError);
                 ("Resolution", fun md => Py.Ok (EditionModules.extract md))]
    ["Broken"; "Resolution"]
    (EditionModules.metadata_of_media EditionModules.cropped_1080)
    ["Broken"; "Resolution"]
  = collect_parts [("Broken", fun _ => Py.Raise Py.ValueError);
                   ("Resolution", fun md => Py.Ok (EditionModules.extract md))]
      (List.filter (fun n => negb (String.eqb n "Broken"))
         ["Broken"; "Resolution"])
      (EditionModules.metadata_of_media EditionModules.cropped_1080)
      ["Broken"; "Resolution"].
Proof.
  apply (failing_module_is_skipped _ _ _ _ "Broken"
           (fun _ => Py.Raise Py.ValueError)).
  - reflexivity.
  - left. exists Py.ValueError. reflexivity.
Defined.

End EditionExamples.

(** ** Pages of a library *)

Section Pagination.

Import Paging.

Lemma loop_honest (library : list Plex.PlexItem) (fuel : nat) :
  forall start,
    ((length library - start) / size < fuel)%nat ->
    loop fuel (honest library) start (firstn start library)
    = Some (Py.Ok library).
Proof.
  induction fuel as [|fuel IH]; intros start Hfuel; [lia|].
  cbn [loop]. unfold honest, capped at 1. rewrite Nat.min_id.
  rewrite take_take_drop.
  destruct (Z.of_nat (length library)
              <=? Z.of_nat (start + length (firstn size (skipn start library))))%Z
    eqn:E.
  - apply Z.leb_le in E. rewrite length_firstn, length_skipn in E.
    f_equal. f_equal. apply firstn_all2. lia.
  - apply Z.leb_gt in E. rewrite length_firstn, length_skipn in E.
    apply IH.
    assert (Hlt : (start + size < length library)%nat) by lia.
    unfold size in *.
    replace (length library - start)%nat
      with ((length library - (start + 100)) + 1 * 100)%nat in Hfuel by lia.
    rewrite Nat.div_add in Hfuel by lia. lia.
Qed.

(** X17: from a server that sends the pages it is asked for,
    [get_all_library_items] returns the whole library, every item once
    and in the server's order, after at most one round per hundred items
    and one more. *)
Theorem paging_returns_every_item (library : list Plex.PlexItem)
    (fuel : nat) :
  (length library / size < fuel)%nat ->
  get_all_library_items fuel (honest library) = Some (Py.Ok library).
Proof.
  intros Hfuel. unfold get_all_library_items.
  apply (loop_honest library fuel 0%nat).
  now rewrite Nat.sub_0_r.
Qed.

Lemma loop_bounded (pages : Pages) (T : Z) (fuel : nat) :
  (forall start items total,
     pages start = Py.Ok (items, total) -> (total <= T)%Z) ->
  forall start all_items,
    ((Z.to_nat (T - Z.of_nat start) + 99) / size < fuel)%nat ->
    exists r, loop fuel pages start all_items = Some r.
Proof.
  intros Hbound. induction fuel as [|fuel IH]; intros start acc Hfuel; [lia|].
  cbn [loop]. destruct (pages start) as [[items total]|e] eqn:Hp; [|eauto].
  destruct (total <=? Z.of_nat (start + length items))%Z eqn:E; [eauto|].
  apply Z.leb_gt in E. apply IH.
  specialize (Hbound _ _ _ Hp). unfold size in *.
  assert (Hpos : (Z.of_nat start + 100 <= T)%Z \/ (T < Z.of_nat start + 100)%Z)
    by lia.
  destruct Hpos as [Hpos | Hpos].
  - replace (Z.to_nat (T - Z.of_nat start) + 99)%nat
      with (Z.to_nat (T - Z.of_nat (start + 100)) + 99 + 1 * 100)%nat in Hfuel
      by lia.
    rewrite Nat.div_add in Hfuel by lia. lia.
  - replace (Z.to_nat (T - Z.of_nat (start + 100))) with 0%nat by lia.
    change ((0 + 99) / 100)%nat with 0%nat.
    assert (Hx : (0 < Z.to_nat (T - Z.of_nat start))%nat) by lia.
    assert (H1 : (1 <= (Z.to_nat (T - Z.of_nat start) + 99) / 100)%nat).
    { apply Nat.div_le_lower_bound; lia. }
    lia.
Qed.

(** X18: the loop of [get_all_library_items] ends, with a list or with the
    exception of a page, whatever the pages hold, as long as the totals
    the server reports stay below some bound: one round per started
    hundred of the bound, and one more, are enough. *)
Theorem paging_ends_when_total_is_bounded (pages : Pages) (T : Z)
    (fuel : nat) :
  (forall start items total,
     pages start = Py.Ok (items, total) -> (total <= T)%Z) ->
  ((Z.to_nat T + 99) / size < fuel)%nat ->
  exists r, get_all_library_items fuel pages = Some r.
Proof.
  intros Hbound Hfuel. unfold get_all_library_items.
  apply (loop_bounded pages T fuel Hbound).
  now rewrite Z.sub_0_r.
Qed.

Lemma loop_capped (cap : nat) (library : list Plex.PlexItem) (fuel : nat) :
  (cap < size)%nat ->
  forall start all_items r,
    (0 < start)%nat ->
    (length all_items < start)%nat ->
    (length all_items < length library)%nat ->
    loop fuel (capped cap library) start all_items = Some (Py.Ok r) ->
    (length r < length library)%nat.
Proof.
  intros Hcap. induction fuel as [|fuel IH];
    intros start acc r Hpos Hacc Hlen; [discriminate|].
  cbn [loop]. unfold capped at 1.
  rewrite Nat.min_l by lia.
  destruct (Z.of_nat (length library)
              <=? Z.of_nat (start + length (firstn cap (skipn start library))))%Z
    eqn:E.
  - intros [= <-]. rewrite length_app, length_firstn, length_skipn. lia.
  - apply Z.leb_gt in E. apply IH.
    + lia.
    + rewrite length_app, length_firstn, length_skipn. unfold size in *. lia.
    + rewrite length_app. rewrite length_firstn, length_skipn in *. lia.
Qed.

Lemma loop_capped_ok (cap : nat) (library : list Plex.PlexItem) (fuel : nat) :
  forall start all_items r0,
    loop fuel (capped cap library) start all_items = Some r0 ->
    exists r, r0 = Py.Ok r.
Proof.
  induction fuel as [|fuel IH]; intros start acc r0; [discriminate|].
  cbn [loop]. unfold capped at 1.
  destruct (_ <=? _)%Z; [intros [= <-]; eauto | apply IH].
Qed.

(** X19: the next page is asked for a hundred items further on, however
    many items the last page held.  From a server that caps its pages
    below a hundred items, [get_all_library_items] therefore does return
    (one round per started hundred of items, and one more, are enough),
    and what it returns has fewer items than the library, as soon as the
    library does not fit into one page. *)
Theorem short_pages_lose_items (cap : nat) (library : list Plex.PlexItem)
    (fuel : nat) :
  (cap < size)%nat ->
  (cap < length library)%nat ->
  ((length library + 99) / size < fuel)%nat ->
  exists r,
    get_all_library_items fuel (capped cap library) = Some (Py.Ok r) /\
    (length r < length library)%nat.
Proof.
  intros Hcap Hlib Hfuel.
  destruct (loop_bounded (capped cap library) (Z.of_nat (length library)) fuel)
    with (start := 0%nat) (all_items := @nil Plex.PlexItem) as (r0 & Hr0).
  { intros start items total [= _ <-]. lia. }
  { rewrite Z.sub_0_r, Nat2Z.id. exact Hfuel. }
  destruct (loop_capped_ok cap library fuel _ _ _ Hr0) as (r & ->).
  exists r. split; [exact Hr0|].
  revert Hr0. unfold get_all_library_items.
  destruct fuel as [|fuel']; [discriminate|].
  cbn [loop]. unfold capped at 1. rewrite Nat.min_l by lia.
  rewrite skipn_O, length_firstn.
  assert (Hle : (cap <= length library)%nat) by (clear -Hlib; lia).
  rewrite (Nat.min_l cap (length library) Hle). simpl app.
  destruct (Z.of_nat (length library) <=? Z.of_nat (0 + cap))%Z eqn:E.
  - apply Z.leb_le in E. lia.
  - apply (loop_capped cap library fuel' Hcap).
    + unfold size. lia.
    + rewrite length_firstn. unfold size in *. lia.
    + rewrite length_firstn. lia.
Qed.

End Pagination.

Section PaginationExamples.

Import Paging.

Lemma paging_returns_every_item_witness :
  get_all_library_items 2 (honest (Scenarios.movies 101))
  = Some (Py.Ok (Scenarios.movies 101)).
Proof.
  apply paging_returns_every_item.
  vm_compute. lia.
Defined.

Lemma paging_ends_when_total_is_bounded_witness :
  exists r, get_all_library_items 2 (capped 1 (Scenarios.movies 3)) = Some r.
Proof.
  apply (paging_ends_when_total_is_bounded _ 3%Z).
  - intros start items total [= _ <-]. simpl. lia.
  - vm_compute. lia.
Defined.

Lemma short_pages_lose_items_witness :
  exists r,
    get_all_library_items 2 (capped 1 (Scenarios.movies 2)) = Some (Py.Ok r) /\
    (length r < length (Scenarios.movies 2))%nat.
Proof.
  apply (short_pages_lose_items 1 (Scenarios.movies 2) 2).
  - unfold size. lia.
  - simpl. lia.
  - vm_compute. lia.
Defined.

End PaginationExamples.

(** ** Resolution labels and the main media entry *)

Section ResolutionMore.

Import Plex EditionModules ResolutionOrder.

Lemma fits_monotone (w h w' h' : Z) (e : Z * Z * string) :
  (w <= w')%Z -> (h <= h')%Z -> fits w h e = true -> fits w' h' e = true.
Proof.
  destruct e as [[W H] label]. rewrite !fits_spec. lia.
Qed.

(** X20: a larger frame never gets a smaller label: if neither width nor
    height shrinks, the label of the ladder stays or moves towards "8K"
    in the order 8K, 4K, 2K, 1080p, 720p, 576p, 480p, SD. *)
Theorem ladder_is_monotone (width height width' height' : Z) :
  (width <= width')%Z -> (height <= height')%Z ->
  (rank (ladder width' height' RESOLUTION_MAP)
   <= rank (ladder width height RESOLUTION_MAP))%nat.
Proof.
  intros Hw Hh.
  pose proof (fun e => fits_monotone width height width' height' e Hw Hh)
    as Hmono.
  unfold RESOLUTION_MAP. cbn [ladder].
  repeat match goal with
  | |- context [fits width height ?e] =>
      let E := fresh "E" in
      destruct (fits width height e) eqn:E;
      [ rewrite (Hmono e E); apply Nat.le_refl
      | destruct (fits width' height' e);
        [ repeat match goal with
                 | |- context [fits width height ?e'] =>
                     destruct (fits width height e')
                 end;
          vm_compute; lia
        | ] ]
  end.
  apply Nat.le_refl.
Qed.

Lemma sorted_desc_nil (l : list MediaEntry) : sorted_desc l = [] -> l = [].
Proof.
  destruct l as [|x xs]; [reflexivity|]. simpl.
  destruct (insert_desc_cons x (sorted_desc xs)) as (y & ys & ->).
  discriminate.
Qed.

Lemma sorted_desc_first (l : list MediaEntry) :
  forall m, head (sorted_desc l) = Some m ->
  exists l1 l2,
    l = l1 ++ m :: l2 /\
    (forall x, In x l1 -> (bitrate_key x < bitrate_key m)%Z) /\
    (forall x, In x l2 -> (bitrate_key x <= bitrate_key m)%Z).
Proof.
  induction l as [|x xs IH]; simpl; [discriminate|].
  destruct (sorted_desc xs) as [|y ys] eqn:Hs; simpl.
  - intros m [= <-]. apply sorted_desc_nil in Hs. subst xs.
    exists [], []. repeat split; intros ? [].
  - destruct (IH y eq_refl) as (l1 & l2 & Hxs & Hl1 & Hl2).
    destruct (bitrate_key x <? bitrate_key y)%Z eqn:E; simpl; intros m [= <-].
    + apply Z.ltb_lt in E.
      exists (x :: l1), l2. rewrite Hxs. repeat split; auto.
      intros z [<- | Hz]; [exact E | now apply Hl1].
    + apply Z.ltb_ge in E.
      exists [], xs. repeat split; [intros ? []|].
      intros z Hz. rewrite Hxs in Hz. apply in_app_iff in Hz.
      destruct Hz as [Hz | [<- | Hz]].
      * specialize (Hl1 z Hz). lia.
      * exact E.
      * specialize (Hl2 z Hz). lia.
Qed.

(** X21: the media entry the edition modules read is the first entry of
    largest bitrate (a missing bitrate counts as 0): every entry before it
    has a smaller bitrate, no entry after it a larger one. *)
Theorem main_media_is_first_of_largest_bitrate (md : Metadata)
    (m : MediaEntry) :
  _get_main_media md = Some m ->
  exists before after,
    Media md = before ++ m :: after /\
    (forall x, In x before -> (bitrate_key x < bitrate_key m)%Z) /\
    (forall x, In x after -> (bitrate_key x <= bitrate_key m)%Z).
Proof.
  unfold _get_main_media.
  destruct (Media md) eqn:E; [discriminate|].
  apply sorted_desc_first.
Qed.

End ResolutionMore.

Section ResolutionMoreExamples.

Import Plex EditionModules ResolutionOrder.

Lemma ladder_is_monotone_witness :
  (rank (ladder 3840 2160 RESOLUTION_MAP)
   <= rank (ladder 1920 800 RESOLUTION_MAP))%nat.
Proof.
  apply ladder_is_monotone; lia.
Defined.

Lemma main_media_is_first_of_largest_bitrate_witness :
  exists before after,
    Media twins = before ++ twin_1080 :: after /\
    (forall x, In x before -> (bitrate_key x < bitrate_key twin_1080)%Z) /\
    (forall x, In x after -> (bitrate_key x <= bitrate_key twin_1080)%Z).
Proof.
  apply main_media_is_first_of_largest_bitrate. reflexivity.
Defined.

End ResolutionMoreExamples.

(** ** The scan engine: the steps of a run *)

Section Traces.

Import Sys ScanManager Trace.

Lemma run_app t1 t2 w : run (t1 ++ t2) w = run t2 (run t1 w).
Proof. apply fold_left_app. Qed.

Lemma issue_rows_app t1 t2 :
  issue_rows (t1 ++ t2) = issue_rows t1 ++ issue_rows t2.
Proof. apply flat_map_app. Qed.

Lemma requests_of_app t1 t2 :
  requests_of (t1 ++ t2) = requests_of t1 ++ requests_of t2.
Proof. apply flat_map_app. Qed.

Lemma reaches_refl P w n : reaches P w n w n.
Proof. exists []. repeat split; [constructor | simpl; lia]. Qed.

Lemma reaches_trans P w1 n1 w2 n2 w3 n3 :
  reaches P w1 n1 w2 n2 -> reaches P w2 n2 w3 n3 -> reaches P w1 n1 w3 n3.
Proof.
  intros (t1 & -> & H1 & ->) (t2 & -> & H2 & ->).
  exists (t1 ++ t2). rewrite run_app, issue_rows_app, length_app.
  repeat split; [apply Forall_app; now split | lia].
Qed.

Lemma reaches_weaken (P Q : Step -> Prop) w n w' n' :
  (forall s, P s -> Q s) -> reaches P w n w' n' -> reaches Q w n w' n'.
Proof.
  intros Hpq (t & -> & H & ->). exists t. repeat split.
  revert H. apply List.Forall_impl. exact Hpq.
Qed.

Lemma reaches_step (P : Step -> Prop) s w n :
  P s -> issue_rows [s] = [] -> reaches P w n (step s w) n.
Proof.
  intros Hs Hrows. exists [s]. rewrite Hrows.
  repeat split; [now constructor | simpl; lia].
Qed.

Lemma controls_run cs : forall w, controls cs w = run (map SControl cs) w.
Proof.
  unfold controls, run. induction cs as [|c cs IH]; intros w; simpl;
    [reflexivity | apply IH].
Qed.

Lemma issue_rows_controls cs : issue_rows (map SControl cs) = [].
Proof. induction cs as [|c cs IH]; simpl; [reflexivity | exact IH]. Qed.

Lemma controls_reaches (P : Step -> Prop) cs w n :
  (forall c, P (SControl c)) -> reaches P w n (controls cs w) n.
Proof.
  intros Hp. exists (map SControl cs).
  rewrite controls_run, issue_rows_controls.
  repeat split; [|simpl; lia].
  apply Forall_map. apply List.Forall_forall. intros c _. apply Hp.
Qed.

Variable reg : EditionManager.Registry.
Variable srv : Plex.Server.
Variable sched : Schedule.
Variable config : Config.
Variable scan_id : nat.

(** One request about an item. *)
Ltac one_log :=
  match goal with
  | |- reaches _ ?w _ (log_request ?q ?e ?w) _ =>
      apply (reaches_step _ (SLog q e)); reflexivity
  end.

Lemma get_item_metadata_reaches key w n :
  reaches edition_step w n (snd (PlexService.get_item_metadata srv key w)) n.
Proof.
  unfold PlexService.get_item_metadata, PlexService._request.
  destruct (Plex.metadata srv _ key) as [[|md mds]|e]; simpl; one_log.
Qed.

Lemma set_edition_reaches key edition w n :
  reaches edition_step w n (snd (PlexService.set_edition srv key edition w)) n.
Proof.
  unfold PlexService.set_edition, PlexService._request.
  destruct (Plex.put_edition srv _ key edition); simpl; one_log.
Qed.

Lemma generate_edition_reaches key w n :
  reaches edition_step w n
    (snd (EditionManager.generate_edition reg srv key w)) n.
Proof.
  unfold EditionManager.generate_edition, PlexService._request.
  destruct (EditionManager._get_plex_service w); [|apply reaches_refl].
  destruct (Plex.metadata srv _ key) as [[|md mds]|e]; simpl; try one_log.
  destruct (EditionManager.get_config reg _) as [[enabled order] sep].
  destruct (EditionManager.collect_parts reg enabled md order); simpl; one_log.
Qed.

Lemma backup_edition_reaches key w n :
  reaches edition_step w n (snd (EditionManager.backup_edition srv key w)) n.
Proof.
  unfold EditionManager.backup_edition.
  destruct (EditionManager.backups_of key w) as [|b [|b' rest]];
    try apply reaches_refl.
  destruct (EditionManager._get_plex_service w); [|apply reaches_refl].
  pose proof (get_item_metadata_reaches key w n) as H.
  destruct (PlexService.get_item_metadata srv key w) as [[item|] w1];
    simpl in *; [|exact H].
  eapply reaches_trans; [exact H|].
  match goal with
  | |- reaches _ ?w _ (set_db (add_backup ?b) ?w) _ =>
      apply (reaches_step _ (SBackup b)); reflexivity
  end.
Qed.

Lemma apply_edition_reaches key edition w n :
  reaches edition_step w n
    (snd (EditionManager.apply_edition srv key edition w)) n.
Proof.
  unfold EditionManager.apply_edition.
  destruct (EditionManager._get_plex_service w); [|apply reaches_refl].
  pose proof (backup_edition_reaches key w n) as H.
  destruct (EditionManager.backup_edition srv key w) as [[u|e] w1];
    simpl in *; [|exact H].
  pose proof (set_edition_reaches key edition w1 n) as H'.
  destruct (PlexService.set_edition srv key edition w1) as [ok w2].
  simpl in *. eapply reaches_trans; eassumption.
Qed.

Lemma edition_scan_reaches item e w n :
  reaches edition_step w n (snd (edition_scan reg srv item e w)) n.
Proof.
  unfold edition_scan.
  pose proof (generate_edition_reaches (Plex.rating_key item) w n) as H.
  destruct (EditionManager.generate_edition reg srv (Plex.rating_key item) w)
    as [[[edition|]|x] w1]; simpl in *; try exact H.
  destruct (String.eqb edition _); [exact H|].
  pose proof (apply_edition_reaches (Plex.rating_key item) edition w1 n) as H'.
  destruct (EditionManager.apply_edition srv (Plex.rating_key item) edition w1)
    as [[ok|x] w2]; simpl in *; eapply reaches_trans; eassumption.
Qed.

Lemma save_issues_run found :
  forall w, fold_left (fun w i => _save_issue scan_id i w) found w
            = run (map (SIssue scan_id) found) w.
Proof.
  unfold run. induction found as [|i found IH]; intros w; simpl;
    [reflexivity | apply IH].
Qed.

Lemma issue_rows_issues found :
  length (issue_rows (map (SIssue scan_id) found)) = length found.
Proof.
  induction found as [|i found IH]; simpl; [reflexivity | now rewrite IH].
Qed.

Lemma artwork_scan_reaches sc item n w :
  reaches (item_kind config scan_id) w n
    (snd (artwork_scan srv sc scan_id item n w))
    (fst (artwork_scan srv sc scan_id item n w)).
Proof.
  unfold artwork_scan.
  destruct (ArtworkScanner.scan_item srv sc (scanner w) item) as [found st].
  simpl. exists (SScanner st :: map (SIssue scan_id) found).
  split; [now rewrite save_issues_run|]. split.
  - constructor; [exact I|]. apply Forall_map.
    apply List.Forall_forall. intros i _. reflexivity.
  - change (issue_rows (SScanner st :: map (SIssue scan_id) found))
      with (issue_rows (map (SIssue scan_id) found)).
    now rewrite issue_rows_issues.
Qed.

Lemma edition_step_item_kind s :
  editions_on config = true -> edition_step s -> item_kind config scan_id s.
Proof. intros Hon. destruct s; simpl; tauto. Qed.

Lemma try_item_reaches item i e w :
  let r := try_item reg srv config scan_id item i e w in
  reaches (item_kind config scan_id) w i (snd r) (fst (fst r)).
Proof.
  unfold try_item.
  assert (H1 : reaches (item_kind config scan_id) w i
                 (snd (if run_artwork config
                       then artwork_scan srv (scanner_of config) scan_id item i w
                       else (i, w)))
                 (fst (if run_artwork config
                       then artwork_scan srv (scanner_of config) scan_id item i w
                       else (i, w)))).
  { destruct (run_artwork config); [|apply reaches_refl].
    apply artwork_scan_reaches. }
  destruct (if run_artwork config then _ else _) as [i1 w1]. simpl in H1.
  fold (editions_on config).
  destruct (editions_on config) eqn:Hon; [|exact H1].
  destruct (String.eqb (Plex.type item) "movie"); [|exact H1]. simpl.
  pose proof (edition_scan_reaches item e w1 i1) as H2.
  apply (reaches_weaken _ (item_kind config scan_id)) in H2;
    [|intros s; now apply edition_step_item_kind].
  destruct (edition_scan reg srv item e w1) as [[e1|x] w2]; simpl in *;
    eapply reaches_trans; eassumption.
Qed.

Lemma item_kind_loop_step s :
  item_kind config scan_id s -> loop_step config scan_id s.
Proof. destruct s; simpl; tauto. Qed.

Lemma loop_step_scan_step s :
  loop_step config scan_id s -> scan_step config scan_id s.
Proof. destruct s; simpl; tauto. Qed.

Lemma progress_reaches f w n : reaches (loop_step config scan_id) w n (set_mgr (set_progress f) w) n.
Proof. apply (reaches_step _ (SProgress f)); [exact I | reflexivity]. Qed.

Lemma ends_reaches P w n w1 n1 f :
  reaches P w n w1 n1 -> ends P sched scan_id w1 n1 f ->
  ends P sched scan_id w n f.
Proof.
  intros H1 (w0 & n0 & H2 & Hf). exists w0, n0.
  split; [eapply reaches_trans; eassumption | exact Hf].
Qed.

Lemma ends_weaken (P Q : Step -> Prop) w n f :
  (forall s, P s -> Q s) -> ends P sched scan_id w n f ->
  ends Q sched scan_id w n f.
Proof.
  intros Hpq (w0 & n0 & H & Hf). exists w0, n0.
  split; [revert H; now apply reaches_weaken | exact Hf].
Qed.

(** A loop that is left from the world it has reached. *)
Lemma ends_here P w n w0 n0 (f : Flow Counters) :
  reaches P w n w0 n0 ->
  match f with
  | Done (_, n', _) w' => w' = w0 /\ n' = n0
  | Returned _ => False
  | Raised _ w' => w' = w0
  | Blocked w' => w' = w0 /\ _pause_event (mgr w') = false
  | Cancelled w' => w' = w0
  end ->
  ends P sched scan_id w n f.
Proof.
  intros H Hf. exists w0, n0. split; [exact H|].
  destruct f as [[[p' n'] e'] w' | w' | x w' | w' | w']; tauto.
Qed.

Lemma item_step_ends total_items lib_id lib_name item p i e w :
  let f := item_step reg srv sched config scan_id total_items lib_id lib_name
             item (p, i, e) w in
  ends (loop_step config scan_id) sched scan_id w i f /\
  (forall c' w', f = Done c' w' -> fst (fst c') = (p + 1)%Z).
Proof.
  unfold item_step.
  destruct (_cancel_requested (mgr w)).
  { split.
    - exists w, i. split; [apply reaches_refl|].
      destruct (_mark_scan_cancelled sched scan_id w)
        as [[] w' | w' | x w' | w' | w'] eqn:Hm; simpl;
        try (exfalso; unfold _mark_scan_cancelled, finish_mark in Hm;
             destruct (cancelled_at sched AwMark); discriminate Hm).
      + reflexivity.
      + now right.
    - intros c' w'. destruct (_mark_scan_cancelled sched scan_id w);
        discriminate. }
  set (w0 := if _pause_event (mgr w) then w else _).
  assert (H0 : reaches (loop_step config scan_id) w i w0 i).
  { unfold w0. destruct (_pause_event (mgr w));
      [apply reaches_refl | apply controls_reaches; intros c; exact I]. }
  destruct (negb (_pause_event (mgr w)) && _).
  { split; [|discriminate]. now apply (ends_here _ _ _ w0 i). }
  destruct (negb (_pause_event (mgr w0))) eqn:Hgate.
  { split; [|discriminate]. apply (ends_here _ _ _ w0 i); [exact H0|].
    split; [reflexivity|]. now destruct (_pause_event (mgr w0)). }
  match goal with
  | |- context [try_item reg srv config scan_id item i e ?w1] =>
      pose proof (try_item_reaches item i e w1) as Ht;
      assert (H1 : reaches (loop_step config scan_id) w i w1 i)
        by (eapply reaches_trans; [exact H0 | apply progress_reaches]);
      destruct (try_item reg srv config scan_id item i e w1) as [[i1 e1] w2]
  end.
  simpl in Ht.
  apply (reaches_weaken _ (loop_step config scan_id)) in Ht;
    [|apply item_kind_loop_step].
  assert (H2 : reaches (loop_step config scan_id) w i w2 i1)
    by (eapply reaches_trans; [exact H1 | exact Ht]).
  match goal with
  | |- context [controls (during_item sched ?k) w2] =>
      assert (H3 : reaches (loop_step config scan_id) w i
                     (controls (during_item sched k) w2) i1)
        by (eapply reaches_trans;
            [exact H2 | apply controls_reaches; intros c; exact I])
  end.
  destruct (cancelled_at sched (AwItem _)).
  { split; [|discriminate]. now apply (ends_here _ _ _ _ i1 _ H3). }
  match goal with
  | |- context [set_mgr (set_progress ?f) (controls ?cs w2)] =>
      assert (H4 : reaches (loop_step config scan_id) w i
                     (set_mgr (set_progress f) (controls cs w2)) i1)
        by (eapply reaches_trans; [exact H3 | apply progress_reaches])
  end.
  destruct (checkpoint_interval config =? 0)%Z.
  { split; [|discriminate]. now apply (ends_here _ _ _ _ i1 _ H4). }
  split; [|now intros c' w' [= <- _]].
  match goal with
  | |- ends _ _ _ _ _ (Done _ (if ?b then _broadcast ?ev ?w5 else ?w5')) =>
      assert (H5 : reaches (loop_step config scan_id) w i w5 i1);
      [| assert (H6 : reaches (loop_step config scan_id) w i
                        (if b then _broadcast ev w5 else w5) i1);
         [ destruct b; [|exact H5];
           eapply reaches_trans; [exact H5|];
           apply (reaches_step _ (SBroadcast ev)); reflexivity
         | now apply (ends_here _ _ _ _ i1 _ H6) ] ]
  end.
  destruct (_ =? 0)%Z; [|exact H4].
  eapply reaches_trans; [exact H4|].
  match goal with
  | |- reaches _ ?w4 _ (_save_checkpoint ?a ?b ?c ?d ?l ?w4) _ =>
      apply (reaches_step _ (SCheckpoint a b c d l)); reflexivity
  end.
Qed.

Lemma items_loop_ends total_items lib_id lib_name items :
  forall p i e w,
    let f := items_loop reg srv sched config scan_id total_items lib_id
               lib_name items (p, i, e) w in
    ends (loop_step config scan_id) sched scan_id w i f /\
    (forall c' w', f = Done c' w' ->
                   fst (fst c') = (p + Z.of_nat (length items))%Z).
Proof.
  induction items as [|item rest IH]; intros p i e w.
  - simpl. split.
    + apply (ends_here _ _ _ w i); [apply reaches_refl | now split].
    + intros c' w' [= <- _]. simpl. lia.
  - cbn [items_loop].
    destruct (item_step_ends total_items lib_id lib_name item p i e w)
      as [H Hp].
    destruct (item_step reg srv sched config scan_id total_items lib_id
                lib_name item (p, i, e) w)
      as [[[p1 i1] e1] w1 | w1 | x w1 | w1 | w1]; cbv zeta in *;
      try (split; [exact H | discriminate]).
    specialize (Hp _ _ eq_refl). simpl in Hp. subst p1.
    destruct (IH (p + 1)%Z i1 e1 w1) as [IH1 IH2].
    destruct H as (w0 & n0 & H & -> & ->). split.
    + eapply ends_reaches; eassumption.
    + intros c' w' Hf. rewrite (IH2 c' w' Hf). simpl length. lia.
Qed.

Lemma libraries_loop_ends total_items library_items :
  forall p i e w,
    let f := libraries_loop reg srv sched config scan_id total_items
               library_items (p, i, e) w in
    ends (loop_step config scan_id) sched scan_id w i f /\
    (forall c' w', f = Done c' w' ->
                   (p <= fst (fst c') <= p + item_count library_items)%Z).
Proof.
  assert (Hnn : forall l, (0 <= item_count l)%Z).
  { induction l as [|x l IHl]; simpl; lia. }
  induction library_items as [|[lib_id items] rest IH]; intros p i e w.
  - simpl. split.
    + apply (ends_here _ _ _ w i); [apply reaches_refl | now split].
    + intros c' w' [= <- _]. simpl. lia.
  - cbn [libraries_loop].
    destruct (_cancel_requested (mgr w)).
    { split.
      - apply (ends_here _ _ _ w i); [apply reaches_refl | now split].
      - intros c' w' [= <- _]. simpl.
        specialize (Hnn rest). lia. }
    match goal with
    | |- context [items_loop reg srv sched config scan_id total_items lib_id
                    ?name items (p, i, e) ?w1] =>
        destruct (items_loop_ends total_items lib_id name items p i e w1)
          as [H Hp];
        assert (H1 : reaches (loop_step config scan_id) w i w1 i)
          by apply progress_reaches;
        destruct (items_loop reg srv sched config scan_id total_items lib_id
                    name items (p, i, e) w1)
          as [[[p1 i1] e1] w2 | w2 | x w2 | w2 | w2]
    end; cbv zeta in *;
      try (split; [eapply ends_reaches; eassumption | discriminate]).
    specialize (Hp _ _ eq_refl). simpl in Hp. subst p1.
    destruct (IH (p + Z.of_nat (length items))%Z i1 e1 w2) as [IH1 IH2].
    destruct H as (w0 & n0 & H & -> & ->). split.
    + eapply ends_reaches; [exact H1|]. eapply ends_reaches; eassumption.
    + intros c' w' Hf. specialize (IH2 c' w' Hf).
      specialize (Hnn rest). simpl. lia.
Qed.

Lemma get_all_library_items_reaches lib_id w n :
  reaches (scan_step config scan_id) w n (snd (PlexService.get_all_library_items srv lib_id w)) n.
Proof.
  unfold PlexService.get_all_library_items, PlexService._request. simpl.
  match goal with
  | |- reaches _ ?w _ (log_request ?q ?e ?w) _ =>
      apply (reaches_step _ (SLog q e)); [|reflexivity]
  end.
  simpl. discriminate.
Qed.

Lemma enumerate_reaches library_ids :
  forall k library_items total_items w n,
    reaches (scan_step config scan_id) w n
      (world_of (enumerate srv sched k library_ids library_items total_items
                   w)) n.
Proof.
  induction library_ids as [|lib_id rest IH];
    intros k library_items total_items w n; cbn [enumerate].
  - apply reaches_refl.
  - destruct (_cancel_requested (mgr w)); [apply reaches_refl|].
    pose proof (get_all_library_items_reaches lib_id w n) as H.
    destruct (PlexService.get_all_library_items srv lib_id w) as [r w1].
    simpl in H.
    assert (H2 : reaches (scan_step config scan_id) w n
                   (controls (during_enum sched k) w1) n).
    { eapply reaches_trans; [exact H|].
      apply controls_reaches. intros c. exact I. }
    destruct (cancelled_at sched (AwEnum k)); [exact H2|].
    destruct r as [items|x]; simpl; [|exact H2].
    eapply reaches_trans; [exact H2 | apply IH].
Qed.

Lemma resolve_libraries_reaches w n :
  reaches (scan_step config scan_id) w n
    (world_of (resolve_libraries srv sched config w)) n.
Proof.
  unfold resolve_libraries.
  destruct (c_libraries config); [|apply reaches_refl].
  unfold PlexService.get_libraries, PlexService._request.
  match goal with
  | |- context [controls ?cs (log_request ?q ?e ?w)] =>
      assert (H : reaches (scan_step config scan_id) w n
                    (controls cs (log_request q e w)) n)
  end.
  { eapply reaches_trans; [|apply controls_reaches; intros c; exact I].
    match goal with
    | |- reaches _ ?w _ (log_request ?q ?e ?w) _ =>
        apply (reaches_step _ (SLog q e)); [|reflexivity]
    end.
    simpl. discriminate. }
  destruct (cancelled_at sched AwResolve); [exact H|].
  destruct (Plex.sections srv _); exact H.
Qed.

Lemma item_count_nonneg l : (0 <= item_count l)%Z.
Proof. induction l as [|x l IH]; simpl; lia. Qed.

Lemma item_count_dict_set k v d :
  (item_count (dict_set k v d) <= item_count d + Z.of_nat (length v))%Z.
Proof.
  induction d as [|[k' v'] d IH]; simpl; [lia|].
  destruct (String.eqb k' k); simpl; lia.
Qed.

Lemma enumerate_total library_ids :
  forall k library_items total_items w library_items' total_items' w',
    (item_count library_items <= total_items)%Z ->
    enumerate srv sched k library_ids library_items total_items w
    = Done (library_items', total_items') w' ->
    (item_count library_items' <= total_items')%Z.
Proof.
  induction library_ids as [|lib_id rest IH];
    intros k d total w d' total' w' Hle; cbn [enumerate].
  - intros [= <- <- _]. exact Hle.
  - destruct (_cancel_requested (mgr w)); [intros [= <- <- _]; exact Hle|].
    destruct (PlexService.get_all_library_items srv lib_id w) as [[items|x] w1];
      destruct (cancelled_at sched (AwEnum k)); try discriminate.
    apply IH. pose proof (item_count_dict_set lib_id items d). lia.
Qed.

(** What a step does to the row of a scan: nothing that changes its key
    or its total, and only a control call changes its status. *)
Lemma step_row s k w :
  loop_step config scan_id s ->
  exists g,
    find_scan k (step s w) = option_map g (find_scan k w) /\
    (forall r, id (g r) = id r /\ total_items (g r) = total_items r) /\
    ((forall c, s <> SControl c) -> forall r, status (g r) = status r).
Proof.
  intros Hs.
  assert (Hsame : forall w', find_scan k w' = find_scan k w ->
            exists g,
              find_scan k w' = option_map g (find_scan k w) /\
              (forall r, id (g r) = id r /\ total_items (g r) = total_items r)
              /\ ((forall c, s <> SControl c) ->
                  forall r, status (g r) = status r)).
  { intros w' ->. exists (fun r => r). repeat split.
    now destruct (find_scan k w). }
  destruct s as [q e | b | i issue | st | f | i p n e lib | i total | ev | c];
    try (apply Hsame; reflexivity).
  - eexists. split; [|split].
    + unfold find_scan, step, _save_checkpoint. simpl.
      apply find_map_id. intros s. now destruct (id s =? i)%nat.
    + intros r. simpl. now destruct (id r =? i)%nat.
    + intros _ r. simpl. now destruct (id r =? i)%nat.
  - destruct Hs.
  - destruct c; unfold step, control, pause_scan, resume_scan, cancel_scan.
    + destruct (_status (mgr w)); try (apply Hsame; reflexivity).
      simpl. destruct (truthy_id (_current_scan_id (mgr w))) as [i|];
        [|apply Hsame; reflexivity].
      eexists. split; [|split].
      * unfold find_scan. simpl.
        apply find_map_id. intros s. now destruct (id s =? i)%nat.
      * intros r. simpl. now destruct (id r =? i)%nat.
      * intros Hc. now destruct (Hc CtlPause).
    + destruct (_status (mgr w)); try (apply Hsame; reflexivity).
      simpl. destruct (truthy_id (_current_scan_id (mgr w))) as [i|];
        [|apply Hsame; reflexivity].
      eexists. split; [|split].
      * unfold find_scan. simpl.
        apply find_map_id. intros s. now destruct (id s =? i)%nat.
      * intros r. simpl. now destruct (id r =? i)%nat.
      * intros Hc. now destruct (Hc CtlResume).
    + destruct (negb (is_running w)); apply Hsame; reflexivity.
Qed.

Lemma run_row_total t :
  forall k w,
    Forall (loop_step config scan_id) t ->
    option_map total_items (find_scan k (run t w))
    = option_map total_items (find_scan k w).
Proof.
  induction t as [|s t IH]; intros k w Ht; [reflexivity|].
  inversion Ht as [|? ? Hs Ht']; subst.
  change (run (s :: t) w) with (run t (step s w)).
  rewrite IH by exact Ht'.
  destruct (step_row s k w Hs) as (g & -> & Hg & _).
  destruct (find_scan k w) as [r|]; simpl; [|reflexivity].
  f_equal. apply Hg.
Qed.

(** Every step leaves the keys of the scans, inserts the issue rows of
    [issue_rows] and sends the requests of [requests_of]. *)
Lemma step_frame s w :
  scan_ids (step s w) = scan_ids w /\
  issues (db (step s w)) = issues (db w) ++ issue_rows [s] /\
  requests (step s w) = requests w ++ requests_of [s].
Proof.
  assert (Hids : forall k (f : Scan -> Scan) rows,
            (forall r, id (f r) = id r) ->
            map id (map (fun r => if (id r =? k)%nat then f r else r) rows)
            = map id rows).
  { intros k f rows Hf. rewrite List.map_map. apply List.map_ext.
    intros r. destruct (id r =? k)%nat; [apply Hf | reflexivity]. }
  destruct s as [q e | b | i issue | st | f | i p n e lib | i total | ev | c];
    unfold scan_ids; simpl; rewrite ?app_nil_r;
    try (repeat split; reflexivity).
  - repeat split. now apply Hids.
  - repeat split. now apply Hids.
  - destruct c; unfold control, pause_scan, resume_scan, cancel_scan.
    + destruct (_status (mgr w)); try (repeat split; reflexivity).
      simpl. destruct (truthy_id (_current_scan_id (mgr w)));
        simpl; repeat split; try reflexivity. now apply Hids.
    + destruct (_status (mgr w)); try (repeat split; reflexivity).
      simpl. destruct (truthy_id (_current_scan_id (mgr w)));
        simpl; repeat split; try reflexivity. now apply Hids.
    + destruct (negb (is_running w)); repeat split; reflexivity.
Qed.

Lemma run_frame t :
  forall w,
    scan_ids (run t w) = scan_ids w /\
    issues (db (run t w)) = issues (db w) ++ issue_rows t /\
    requests (run t w) = requests w ++ requests_of t.
Proof.
  induction t as [|s t IH]; intros w.
  - simpl. now rewrite !app_nil_r.
  - change (run (s :: t) w) with (run t (step s w)).
    destruct (IH (step s w)) as (H1 & H2 & H3).
    destruct (step_frame s w) as (H4 & H5 & H6).
    rewrite H1, H2, H3, H4, H5, H6, <- !app_assoc.
    change (s :: t) with ([s] ++ t).
    rewrite issue_rows_app, requests_of_app.
    repeat split.
Qed.

Lemma issue_rows_of_scan t :
  Forall (scan_step config scan_id) t ->
  Forall (fun r => is_scan_id r = scan_id /\ is_status r = "pending")
    (issue_rows t).
Proof.
  induction 1 as [|s t Hs Ht IH]; [constructor|].
  change (s :: t) with ([s] ++ t). rewrite issue_rows_app.
  apply Forall_app. split; [|exact IH].
  destruct s; simpl; try constructor; [now split | constructor].
Qed.

Lemma requests_of_artwork_scan t :
  editions_on config = false ->
  Forall (scan_step config scan_id) t ->
  Forall (fun qe => enumeration_request (fst qe) = true) (requests_of t).
Proof.
  intros Hoff. induction 1 as [|s t Hs Ht IH]; [constructor|].
  change (s :: t) with ([s] ++ t). rewrite requests_of_app.
  apply Forall_app. split; [|exact IH].
  destruct s; simpl; try constructor; [|constructor].
  simpl. simpl in Hs. destruct (enumeration_request q); [reflexivity|].
  rewrite Hs in Hoff by reflexivity. discriminate.
Qed.

Lemma _execute_scan_ends w :
  execution_ends sched config scan_id w
    (_execute_scan reg srv sched scan_id config w).
Proof.
  unfold _execute_scan, execution_ends.
  destruct (EditionManager._get_plex_service w);
    [|exists w, 0%Z; split; [apply reaches_refl | reflexivity]].
  assert (H0 : reaches (scan_step config scan_id) w 0
                 (set_scanner ArtworkScanner.fresh w) 0)
    by (apply (reaches_step _ (SScanner ArtworkScanner.fresh));
        [exact I | reflexivity]).
  pose proof (resolve_libraries_reaches
                (set_scanner ArtworkScanner.fresh w) 0) as H1.
  destruct (resolve_libraries srv sched config _)
    as [library_ids w1 | w1 | x w1 | w1 | w1] eqn:Hres; simpl in H1;
    cbn [bind].
  2:{ exfalso. unfold resolve_libraries in Hres.
      destruct (c_libraries config); [|discriminate].
      destruct (PlexService.get_libraries srv _) as [[ids|x] w'];
        destruct (cancelled_at sched AwResolve); discriminate. }
  3:{ exfalso. unfold resolve_libraries in Hres.
      destruct (c_libraries config); [|discriminate].
      destruct (PlexService.get_libraries srv _) as [[ids|x] w'];
        destruct (cancelled_at sched AwResolve); discriminate. }
  2:{ exists w1, 0%Z. split; [eapply reaches_trans; eassumption|reflexivity]. }
  2:{ exists w1, 0%Z. split; [eapply reaches_trans; eassumption|now left]. }
  pose proof (enumerate_reaches library_ids 0 [] 0%Z w1 0) as H2.
  pose proof (enumerate_total library_ids 0 [] 0%Z w1) as Htot.
  assert (Hshape : forall k ids d t w0,
            match enumerate srv sched k ids d t w0 with
            | Returned _ | Blocked _ => False
            | _ => True
            end).
  { intros k ids. revert k. induction ids as [|lib rest IH];
      intros k d t w0; cbn [enumerate]; [exact I|].
    destruct (_cancel_requested (mgr w0)); [exact I|].
    destruct (PlexService.get_all_library_items srv lib w0) as [[items|x] w'];
      destruct (cancelled_at sched (AwEnum k)); try exact I. apply IH. }
  specialize (Hshape 0%nat library_ids [] 0%Z w1).
  destruct (enumerate srv sched 0 library_ids [] 0 w1)
    as [[library_items total_items] w2 | w2 | x w2 | w2 | w2];
    simpl in H2; cbn [bind]; try contradiction.
  2:{ exists w2, 0%Z. split; [|reflexivity]. eapply reaches_trans; [exact H0|].
      eapply reaches_trans; eassumption. }
  2:{ exists w2, 0%Z. split; [|now left]. eapply reaches_trans; [exact H0|].
      eapply reaches_trans; eassumption. }
  specialize (Htot library_items total_items w2 (Z.le_refl _) eq_refl).
  assert (H3 : reaches (scan_step config scan_id) w 0 w2 0).
  { eapply reaches_trans; [exact H0|]. eapply reaches_trans; eassumption. }
  match goal with
  | |- context [libraries_loop reg srv sched config scan_id total_items
                  library_items (0, 0, 0)%Z ?w5] =>
      destruct (libraries_loop_ends total_items library_items
                  0 0 0 w5)%Z as [H5 Hp];
      assert (H4 : reaches (scan_step config scan_id) w 0 w5 0);
      [| assert (Hrow : option_map Sys.total_items (find_scan scan_id w5)
                        = option_map (fun _ => total_items)
                            (find_scan scan_id w2));
         [| destruct (libraries_loop reg srv sched config scan_id total_items
                        library_items (0, 0, 0)%Z w5)
              as [[[p1 i1] e1] w6 | w6 | x w6 | w6 | w6] ] ]
  end; cbv zeta in *; cbn [bind].
  - eapply reaches_trans; [exact H3|].
    eapply reaches_trans;
      [apply (reaches_weaken _ _ _ _ _ _ loop_step_scan_step),
         progress_reaches|].
    eapply reaches_trans.
    + apply (reaches_step _ (STotal scan_id total_items)); reflexivity.
    + apply (reaches_step _ (SBroadcast
                               (scan_progress_total scan_id total_items)));
        reflexivity.
  - unfold find_scan. simpl. rewrite find_update by reflexivity.
    now destruct (find _ (scans (db w2))).
  - specialize (Hp _ _ eq_refl). simpl in Hp.
    destruct H5 as (w0 & n0 & H5 & Hw & Hn). subst w0 n0. exists w6, i1.
    split.
    { eapply reaches_trans; [exact H4|].
      revert H5. apply reaches_weaken, loop_step_scan_step. }
    assert (Hc : exists p e,
              _mark_scan_completed sched scan_id p i1 e w6
              = _mark_scan_completed sched scan_id p1 i1 e1 w6 /\
              (0 <= p)%Z /\
              (forall r, find_scan scan_id w6 = Some r ->
                         (p <= Sys.total_items r)%Z)).
    { exists p1, e1. split; [reflexivity|]. split; [lia|].
      intros r Hr. destruct H5 as (t & -> & Ht & _).
      match type of Hr with
      | find_scan _ (run t ?w5) = _ =>
          pose proof (run_row_total t scan_id w5 Ht) as Hrun
      end.
      rewrite Hr, Hrow in Hrun. simpl in Hrun.
      destruct (find_scan scan_id w2); [|discriminate].
      simpl in Hrun. injection Hrun as Hrun. lia. }
    destruct (_mark_scan_completed sched scan_id p1 i1 e1 w6)
      as [[] w' | w' | x w' | w' | w'] eqn:Hm;
      try (exfalso; unfold _mark_scan_completed, finish_mark in Hm;
           destruct (cancelled_at sched AwMark); discriminate Hm).
    + exact Hc.
    + right. right. exact Hc.
  - destruct H5 as (w0 & n0 & H5 & Hf). exists w0, n0. split; [|exact Hf].
    eapply reaches_trans; [exact H4|].
    revert H5. apply reaches_weaken, loop_step_scan_step.
  - destruct H5 as (w0 & n0 & H5 & Hf). exists w0, n0. split; [|exact Hf].
    eapply reaches_trans; [exact H4|].
    revert H5. apply reaches_weaken, loop_step_scan_step.
  - destruct H5 as (w0 & n0 & H5 & Hf). exists w0, n0. split; [|exact Hf].
    eapply reaches_trans; [exact H4|].
    revert H5. apply reaches_weaken, loop_step_scan_step.
  - destruct H5 as (w0 & n0 & H5 & Hf). exists w0, n0.
    split; [|destruct Hf; [now left | right; now left]].
    eapply reaches_trans; [exact H4|].
    revert H5. apply reaches_weaken, loop_step_scan_step.
Qed.

End Traces.

(** ** The scan engine: how a run ends *)

Section ScanOutcome.

Import Sys ScanManager Trace.

Variable reg : EditionManager.Registry.
Variable srv : Plex.Server.
Variable sched : Schedule.
Variable config : Config.
Variable scan_id : nat.

Lemma reaches_frame P w n w' n' :
  reaches P w n w' n' ->
  exists t, Forall P t /\ w' = run t w /\
            scan_ids w' = scan_ids w /\
            issues (db w') = issues (db w) ++ issue_rows t /\
            requests w' = requests w ++ requests_of t /\
            n' = (n + Z.of_nat (length (issue_rows t)))%Z.
Proof.
  intros (t & -> & Ht & ->). exists t.
  destruct (run_frame t w) as (H1 & H2 & H3). repeat split; assumption.
Qed.

(** A task that nobody cancels is never resumed with [CancelledError]. *)
Lemma cancelled_at_none a :
  task_cancelled sched = None -> cancelled_at sched a = false.
Proof. unfold cancelled_at. now intros ->. Qed.

Lemma finish_mark_no_cancel s ev w :
  task_cancelled sched = None ->
  finish_mark sched s ev w
  = Done tt (_broadcast ev (set_mgr (set_status s)
                              (controls (during_mark sched) w))).
Proof. intros H. unfold finish_mark. now rewrite cancelled_at_none. Qed.

Lemma item_step_not_cancelled total_items lib_id lib_name item c w :
  task_cancelled sched = None ->
  cancelled (item_step reg srv sched config scan_id total_items lib_id
               lib_name item c w) = false.
Proof.
  intros H. unfold item_step. destruct c as [[p i] e].
  destruct (_cancel_requested (mgr w)).
  { unfold _mark_scan_cancelled. now rewrite finish_mark_no_cancel. }
  rewrite !cancelled_at_none by exact H. rewrite andb_false_r.
  destruct (negb (_pause_event (mgr _))); [reflexivity|].
  destruct (try_item _ _ _ _ _ _ _ _) as [[i1 e1] w2].
  now destruct (checkpoint_interval config =? 0)%Z.
Qed.

Lemma items_loop_not_cancelled total_items lib_id lib_name items :
  task_cancelled sched = None ->
  forall c w,
    cancelled (items_loop reg srv sched config scan_id total_items lib_id
                 lib_name items c w) = false.
Proof.
  intros H. induction items as [|item rest IH]; intros c w; simpl;
    [reflexivity|].
  pose proof (item_step_not_cancelled total_items lib_id lib_name item c w H)
    as Hs.
  destruct (item_step _ _ _ _ _ _ _ _ _ _ _); try exact Hs. apply IH.
Qed.

Lemma libraries_loop_not_cancelled total_items library_items :
  task_cancelled sched = None ->
  forall c w,
    cancelled (libraries_loop reg srv sched config scan_id total_items
                 library_items c w) = false.
Proof.
  intros H. induction library_items as [|[lib_id items] rest IH];
    intros c w; simpl; [reflexivity|].
  destruct (_cancel_requested (mgr w)); [reflexivity|].
  match goal with
  | |- context [items_loop reg srv sched config scan_id total_items lib_id
                  ?name items c ?w1] =>
      pose proof (items_loop_not_cancelled total_items lib_id name items H
                    c w1) as Hs;
      destruct (items_loop reg srv sched config scan_id total_items lib_id
                  name items c w1)
  end; try exact Hs. apply IH.
Qed.

Lemma enumerate_not_cancelled library_ids :
  task_cancelled sched = None ->
  forall k d total w,
    cancelled (enumerate srv sched k library_ids d total w) = false.
Proof.
  intros H. induction library_ids as [|lib rest IH]; intros k d total w;
    cbn [enumerate]; [reflexivity|].
  destruct (_cancel_requested (mgr w)); [reflexivity|].
  destruct (PlexService.get_all_library_items srv lib w) as [[items|x] w1];
    rewrite cancelled_at_none by exact H; [apply IH | reflexivity].
Qed.

Lemma _execute_scan_not_cancelled w :
  task_cancelled sched = None ->
  cancelled (_execute_scan reg srv sched scan_id config w) = false.
Proof.
  intros H. unfold _execute_scan.
  destruct (EditionManager._get_plex_service w); [|reflexivity].
  unfold resolve_libraries.
  assert (Hrest : forall ids w1,
            cancelled
              (bind (enumerate srv sched 0 ids [] 0 w1)
                 (fun '(library_items, total_items) w2 =>
                    bind (libraries_loop reg srv sched config scan_id
                            total_items library_items (0, 0, 0)%Z
                            (_broadcast
                               (scan_progress_total scan_id total_items)
                               (set_db (update_scan scan_id (fun s =>
                                  {| id := id s; scan_type := scan_type s;
                                     status := status s;
                                     total_items := total_items;
                                     processed_items := processed_items s;
                                     issues_found := issues_found s;
                                     editions_updated := editions_updated s;
                                     current_library := current_library s;
                                     checkpoint := checkpoint s;
                                     triggered_by := triggered_by s;
                                     started_at := started_at s;
                                     paused_at := paused_at s;
                                     completed_at := completed_at s |}))
                                  (set_mgr (set_progress (fun p =>
                                     {| processed := processed p;
                                        total := total_items;
                                        p_issues_found := p_issues_found p;
                                        p_editions_updated :=
                                          p_editions_updated p;
                                        p_current_library :=
                                          p_current_library p;
                                        p_current_item := p_current_item p |}))
                                     w2))))
                      (fun '(processed, issues_found, editions_updated) w6 =>
                         _mark_scan_completed sched scan_id processed
                           issues_found editions_updated w6))) = false).
  { intros ids w1.
    pose proof (enumerate_not_cancelled ids H 0%nat [] 0%Z w1) as He.
    destruct (enumerate srv sched 0 ids [] 0 w1)
      as [[library_items total_items] w2 | | | |]; try exact He.
    cbn [bind].
    match goal with
    | |- context [libraries_loop reg srv sched config scan_id total_items
                    library_items ?c ?w5] =>
        pose proof (libraries_loop_not_cancelled total_items library_items H
                      c w5) as Hl;
        destruct (libraries_loop reg srv sched config scan_id total_items
                    library_items c w5) as [[[p i] e] w6 | | | |]
    end; try exact Hl.
    cbn [bind]. unfold _mark_scan_completed.
    now rewrite finish_mark_no_cancel. }
  destruct (c_libraries config) as [|l ls]; [|apply Hrest].
  destruct (PlexService.get_libraries srv _) as [[ids|x] w1];
    rewrite cancelled_at_none by exact H; [apply Hrest | reflexivity].
Qed.

(** What a [_mark_scan_...] call leaves of the row it has written: the
    calls of the other coroutines may have made it paused or running
    again; nothing else of it changes. *)
Lemma marked_row (writes : World -> World) (f : Scan -> Scan) s ev w r :
  find_scan scan_id (writes w) = option_map f (find_scan scan_id w) ->
  find_scan scan_id w = Some r ->
  exists r',
    find_scan scan_id (world_of (finish_mark sched s ev (writes w))) = Some r'
    /\ retouched (f r) r'
    /\ (calm_mark sched -> r' = f r).
Proof.
  intros Hw Hr. rewrite finish_mark_row.
  destruct (controls_row (during_mark sched) scan_id (writes w))
    as (g & Hg & R).
  rewrite Hg, Hw, Hr. simpl. exists (g (f r)).
  split; [reflexivity|]. split; [apply R|].
  intros Hcalm.
  destruct (controls_calm _ Hcalm (writes w)) as [Hdb _].
  assert (Heq : find_scan scan_id (controls (during_mark sched) (writes w))
                = find_scan scan_id (writes w))
    by (unfold find_scan; now rewrite Hdb).
  rewrite Hg, Hw, Hr in Heq. simpl in Heq. now injection Heq.
Qed.

(** A [_mark_scan_...] call sends no request, inserts no issue and
    leaves the scanner alone. *)
Lemma finish_mark_frame s ev w :
  let w' := world_of (finish_mark sched s ev w) in
  requests w' = requests w /\ scanner w' = scanner w /\
  issues (db w') = issues (db w) /\ scan_ids w' = scan_ids w.
Proof.
  intros w'. subst w'.
  destruct (controls_keep (during_mark sched) w) as (H1 & H2 & H3 & _).
  destruct (finish_mark_same sched s ev w) as [_ H4].
  unfold finish_mark in *. destruct (cancelled_at sched AwMark); simpl;
    repeat split; assumption.
Qed.

Lemma status_retouched (st : string) r r' :
  retouched r r' -> status r = st ->
  status r' = st \/ status r' = "paused" \/ status r' = "running".
Proof. intros [_ H] <-. exact H. Qed.


(** What a step does to the status of a row: a control call may make it
    paused or running, nothing else changes it. *)
Lemma step_status s k w :
  exists g,
    find_scan k (step s w) = option_map g (find_scan k w) /\
    forall r, status (g r) = status r \/ status (g r) = "paused"
              \/ status (g r) = "running".
Proof.
  assert (Hsame : forall w', find_scan k w' = find_scan k w ->
            exists g,
              find_scan k w' = option_map g (find_scan k w) /\
              forall r, status (g r) = status r \/ status (g r) = "paused"
                        \/ status (g r) = "running").
  { intros w' ->. exists (fun r => r). split; [|now left].
    now destruct (find_scan k w). }
  destruct s as [q e | b | i issue | st | f | i p n e lib | i total | ev | c];
    try (apply Hsame; reflexivity).
  - eexists. split.
    + unfold find_scan, step, _save_checkpoint. simpl.
      apply find_map_id. intros s. now destruct (id s =? i)%nat.
    + intros r. simpl. left. now destruct (id r =? i)%nat.
  - eexists. split.
    + unfold find_scan, step. simpl.
      apply find_map_id. intros s. now destruct (id s =? i)%nat.
    + intros r. simpl. left. now destruct (id r =? i)%nat.
  - destruct (control_row c k w) as (g & Hg & R). exists g.
    split; [exact Hg|]. intros r. apply (R r).
Qed.

Lemma run_status t k :
  forall w,
  exists g,
    find_scan k (run t w) = option_map g (find_scan k w) /\
    forall r, status (g r) = status r \/ status (g r) = "paused"
              \/ status (g r) = "running".
Proof.
  induction t as [|s t IH]; intros w.
  - exists (fun r => r). split; [|now left].
    change (run [] w) with w. now destruct (find_scan k w).
  - change (run (s :: t) w) with (run t (step s w)).
    destruct (step_status s k w) as (g1 & H1 & S1).
    destruct (IH (step s w)) as (g2 & H2 & S2).
    exists (fun r => g2 (g1 r)). split.
    + rewrite H2, H1. now destruct (find_scan k w).
    + intros r. destruct (S2 (g1 r)) as [E | E]; [|tauto].
      rewrite E. apply S1.
Qed.

(** X23: the row of a scan that ends as completed counts what the run
    did.  For a scan whose task is not cancelled, or whose row is not
    completed when the task starts ([start_scan] creates it as running):
    the run only appended issue rows, each for this scan and pending;
    their number is the row's [issues_found]; the row's [processed_items]
    lies between 0 and its [total_items]; and the checkpoint is
    cleared. *)
Theorem completed_scan_counts_its_issues (w : World) :
  let w' := fst (run_scan reg srv sched scan_id config w) in
  task_cancelled sched = None \/ status_of scan_id w <> Some "completed" ->
  snd (run_scan reg srv sched scan_id config w) = true ->
  status_of scan_id w' = Some "completed" ->
  exists r new,
    find_scan scan_id w' = Some r /\
    issues (db w') = issues (db w) ++ new /\
    Forall (fun x => is_scan_id x = scan_id /\ is_status x = "pending") new /\
    issues_found r = Z.of_nat (length new) /\
    (0 <= processed_items r <= total_items r)%Z /\
    checkpoint r = None.
Proof.
  intros w' Hstart. subst w'. unfold run_scan, status_of.
  pose proof (_execute_scan_ends reg srv sched config scan_id w) as H.
  assert (Hnc : task_cancelled sched = None ->
                cancelled (_execute_scan reg srv sched scan_id config w)
                = false) by apply _execute_scan_not_cancelled.
  (* the run was ended by [_mark_scan_completed] *)
  assert (Hcompleted : forall w0 i p e,
            reaches (scan_step config scan_id) w 0 w0 i ->
            (0 <= p)%Z ->
            (forall r, find_scan scan_id w0 = Some r ->
                       (p <= total_items r)%Z) ->
            let w1 := world_of (_mark_scan_completed sched scan_id p i e w0) in
            option_map status (find_scan scan_id w1) = Some "completed" ->
            exists r new,
              find_scan scan_id w1 = Some r /\
              issues (db w1) = issues (db w) ++ new /\
              Forall (fun x => is_scan_id x = scan_id
                               /\ is_status x = "pending") new /\
              issues_found r = Z.of_nat (length new) /\
              (0 <= processed_items r <= total_items r)%Z /\
              checkpoint r = None).
  { intros w0 i p e Hr Hp Htotal w1. subst w1.
    apply reaches_frame in Hr.
    destruct Hr as (t & Ht & _ & _ & Hissues & _ & Hi).
    unfold _mark_scan_completed.
    destruct (finish_mark_frame COMPLETED (scan_completed scan_id p i e)
                (completed_writes scan_id p i e w0)) as (_ & _ & Hiss & _).
    destruct (find_scan scan_id w0) as [r0|] eqn:Hr0.
    2: { rewrite finish_mark_row.
         destruct (controls_row (during_mark sched) scan_id
                     (completed_writes scan_id p i e w0)) as (g & -> & _).
         rewrite completed_writes_row, Hr0. discriminate. }
    destruct (marked_row _ _ COMPLETED (scan_completed scan_id p i e) w0 r0
                (completed_writes_row scan_id p i e w0) Hr0)
      as (r' & -> & [Hr' _] & _).
    intros _. exists r', (issue_rows t).
    split; [reflexivity|]. split; [rewrite Hiss; exact Hissues|].
    split; [now apply (issue_rows_of_scan config)|].
    rewrite Hr'. simpl.
    split; [lia|]. split; [|reflexivity].
    split; [exact Hp | now apply Htotal]. }
  (* it was not: the row is not completed *)
  assert (Hother : forall (writes : World -> World) (f : Scan -> Scan) s ev
                          w0,
            find_scan scan_id (writes w0)
            = option_map f (find_scan scan_id w0) ->
            (forall r, status (f r) <> "completed") ->
            option_map status
              (find_scan scan_id (world_of (finish_mark sched s ev (writes w0))))
            <> Some "completed").
  { intros writes f s ev w0 Hw Hf.
    destruct (find_scan scan_id w0) as [r0|] eqn:Hr0.
    - assert (Hw' : find_scan scan_id (writes w0)
                    = option_map f (find_scan scan_id w0)) by now rewrite Hr0.
      destruct (marked_row writes f s ev w0 r0 Hw' Hr0)
        as (r' & -> & [_ R] & _).
      simpl. intros [= E]. rewrite E in R.
      destruct R as [R | [R | R]]; try discriminate.
      now apply (Hf r0).
    - rewrite finish_mark_row.
      destruct (controls_row (during_mark sched) scan_id (writes w0))
        as (g & -> & _).
      rewrite Hw. discriminate. }
  destruct (_execute_scan reg srv sched scan_id config w)
    as [[] w1 | w1 | x w1 | w1 | w1]; simpl; [| | |discriminate|]; intros _;
    change (find_scan scan_id (set_mgr back_to_idle ?x))
      with (find_scan scan_id x).
  - destruct H as (w0 & i & H & p & e & Hm & Hp & Htotal).
    replace w1 with (world_of (_mark_scan_completed sched scan_id p i e w0))
      by now rewrite Hm.
    now apply Hcompleted.
  - destruct H as (w0 & i & H & Hm).
    replace w1 with (world_of (_mark_scan_cancelled sched scan_id w0))
      by now rewrite Hm.
    intros Hc. exfalso. revert Hc.
    apply (Hother _ _ _ _ _ (cancelled_writes_row _ _)). discriminate.
  - intros Hc. exfalso. revert Hc.
    apply (Hother _ _ _ _ _ (failed_writes_row _ _)). discriminate.
  - destruct H as (w0 & i & H & [-> | [Hm | (p & e & Hm & Hp & Htotal)]]).
    + intros Hc. exfalso.
      destruct Hstart as [Htask | Hstart]; [now specialize (Hnc Htask)|].
      apply Hstart. unfold status_of.
      destruct H as (t & -> & _).
      destruct (run_status t scan_id w) as (g & Hg & S).
      rewrite Hg in Hc. destruct (find_scan scan_id w) as [r|]; [|discriminate].
      simpl in *. injection Hc as Hc. f_equal.
      destruct (S r) as [E | [E | E]]; rewrite E in Hc;
        [exact Hc | discriminate | discriminate].
    + replace w1 with (world_of (_mark_scan_cancelled sched scan_id w0))
        by now rewrite Hm.
      intros Hc. exfalso. revert Hc.
      apply (Hother _ _ _ _ _ (cancelled_writes_row _ _)). discriminate.
    + replace w1 with (world_of (_mark_scan_completed sched scan_id p i e w0))
        by now rewrite Hm.
      now apply Hcompleted.
Qed.

(** What one [scan_item] call downloads: poster and background of the
    item. *)
Lemma scan_item_downloaded sc st item :
  exists extra,
    ArtworkScanner.downloads (snd (ArtworkScanner.scan_item srv sc st item))
    = ArtworkScanner.downloads st ++ extra
    /\ forall e, In e extra -> In (fst e) (ScannerMore.image_paths item).
Proof.
  assert (Hsub : forall (extra : list (string * Plex.FetchOutcome)) o,
            sublist (map fst extra) (option_list o) ->
            forall e, In e extra -> In (fst e) (option_list o)).
  { intros extra o Hs e He. apply list_elem_of_In.
    apply (elem_of_sublist _ _ _ (proj2 (list_elem_of_In _ _)
                                    (in_map fst _ _ He)) Hs). }
  rewrite scan_item_state. unfold ScannerMore.before_background.
  unfold ScannerMore.image_paths.
  destruct (ArtworkScanner.check_unmatched sc && negb (Plex.is_matched item)).
  { exists []. rewrite app_nil_r. split; [reflexivity | intros e []]. }
  destruct (poster_check_downloads srv st item) as (e1 & He1 & Hs1).
  destruct (ArtworkScanner.check_placeholders sc && Plex.has_poster item);
    destruct (ArtworkScanner.check_placeholders sc
              && Plex.has_background item).
  - destruct (background_check_downloads srv
                (snd (ArtworkScanner._check_placeholder_poster srv st item))
                item) as (e2 & He2 & Hs2).
    exists (e1 ++ e2). rewrite He2, He1, <- app_assoc.
    split; [reflexivity|]. intros e He. apply in_app_iff.
    apply in_app_iff in He. destruct He as [He | He].
    + left. now apply (Hsub e1).
    + right. now apply (Hsub e2).
  - exists e1. split; [exact He1|]. intros e He. apply in_app_iff.
    left. now apply (Hsub e1).
  - destruct (background_check_downloads srv st item) as (e2 & He2 & Hs2).
    exists e2. split; [exact He2|]. intros e He. apply in_app_iff.
    right. now apply (Hsub e2).
  - exists []. rewrite app_nil_r. split; [reflexivity | intros e []].
Qed.

Lemma run_edition_scanner t :
  forall w, Forall edition_step t -> scanner (run t w) = scanner w.
Proof.
  induction t as [|s t IH]; intros w Ht; [reflexivity|].
  inversion Ht as [|? ? Hs Ht']; subst.
  change (run (s :: t) w) with (run t (step s w)).
  rewrite IH by exact Ht'.
  destruct s; simpl in Hs; try contradiction; reflexivity.
Qed.

Lemma save_issues_scanner found :
  forall w, scanner (fold_left (fun w i => _save_issue scan_id i w) found w)
            = scanner w.
Proof.
  induction found as [|i found IH]; intros w; simpl; [reflexivity|].
  now rewrite IH.
Qed.

(** The scanner after the [try] block of an item: the old one, or the
    one [scan_item] leaves. *)
Lemma try_item_scanner item i e w :
  scanner (snd (try_item reg srv config scan_id item i e w)) = scanner w
  \/ scanner (snd (try_item reg srv config scan_id item i e w))
     = snd (ArtworkScanner.scan_item srv (scanner_of config) (scanner w) item).
Proof.
  unfold try_item.
  assert (H1 : scanner (snd (if run_artwork config
                             then artwork_scan srv (scanner_of config) scan_id
                                    item i w
                             else (i, w))) = scanner w
               \/ scanner (snd (if run_artwork config
                                then artwork_scan srv (scanner_of config)
                                       scan_id item i w
                                else (i, w)))
                  = snd (ArtworkScanner.scan_item srv (scanner_of config)
                           (scanner w) item)).
  { destruct (run_artwork config); [|now left]. right.
    unfold artwork_scan.
    destruct (ArtworkScanner.scan_item srv (scanner_of config) (scanner w) item)
      as [found st].
    simpl. now rewrite save_issues_scanner. }
  destruct (if run_artwork config then _ else _) as [i1 w1]. simpl in H1.
  destruct (run_edition config && flag (c_edition_enabled config)
            && String.eqb (Plex.type item) "movie"); [|exact H1].
  destruct (edition_scan_reaches reg srv item e w1 i1) as (t & Hw & Ht & _).
  assert (Hs : scanner (snd (edition_scan reg srv item e w1)) = scanner w1)
    by (rewrite Hw; now apply run_edition_scanner).
  destruct (edition_scan reg srv item e w1) as [[e1|x] w2]; simpl in *;
    now rewrite Hs.
Qed.

Lemma tidy_scanner w w' : scanner w' = scanner w -> tidy srv w -> tidy srv w'.
Proof. unfold tidy, downloaded. now intros ->. Qed.

Lemma try_item_tidy item i e w :
  listed_item srv item -> tidy srv w ->
  tidy srv (snd (try_item reg srv config scan_id item i e w)).
Proof.
  intros Hitem Hw.
  destruct (try_item_scanner item i e w) as [Hs | Hs];
    [now apply (tidy_scanner w)|].
  unfold tidy, downloaded in *. rewrite Hs.
  destruct (scan_item_downloaded (scanner_of config) (scanner w) item)
    as (extra & -> & Hin).
  rewrite List.map_app. apply Forall_app. split; [exact Hw|].
  apply Forall_map. apply List.Forall_forall. intros x Hx.
  exists item. split; [exact Hitem | now apply Hin].
Qed.

Lemma finish_mark_tidy s ev w :
  tidy srv w -> tidy srv (world_of (finish_mark sched s ev w)).
Proof.
  apply tidy_scanner. now destruct (finish_mark_frame s ev w) as (_ & -> & _).
Qed.

Lemma controls_tidy cs w : tidy srv w -> tidy srv (controls cs w).
Proof.
  apply tidy_scanner. now destruct (controls_keep cs w) as (_ & -> & _).
Qed.

Lemma item_step_tidy total_items lib_id lib_name item c w :
  listed_item srv item -> tidy srv w ->
  tidy srv (world_of (item_step reg srv sched config scan_id total_items
                        lib_id lib_name item c w)).
Proof.
  intros Hitem Hw. unfold item_step. destruct c as [[p i] e].
  destruct (_cancel_requested (mgr w)).
  { pose proof (finish_mark_tidy CANCELLED (scan_cancelled scan_id)
                  (cancelled_writes scan_id w)) as H.
    unfold _mark_scan_cancelled.
    destruct (finish_mark sched CANCELLED _ _); simpl in *; apply H;
      exact Hw. }
  set (w0 := if _pause_event (mgr w) then w else _).
  assert (H0 : tidy srv w0).
  { unfold w0. destruct (_pause_event (mgr w));
      [exact Hw | now apply controls_tidy]. }
  destruct (negb (_pause_event (mgr w)) && _); [exact H0|].
  destruct (negb (_pause_event (mgr w0))); [exact H0|].
  match goal with
  | |- context [try_item reg srv config scan_id item i e ?w1] =>
      pose proof (try_item_tidy item i e w1 Hitem H0) as Ht;
      destruct (try_item reg srv config scan_id item i e w1) as [[i1 e1] w2]
  end.
  simpl in Ht.
  pose proof (controls_tidy (during_item sched (Z.to_nat p)) w2 Ht) as H3.
  destruct (cancelled_at sched (AwItem _)); [exact H3|].
  destruct (checkpoint_interval config =? 0)%Z; [exact H3|].
  simpl. destruct (_ mod 5 =? 0)%Z; destruct (_ =? 0)%Z; exact H3.
Qed.

Lemma items_loop_tidy total_items lib_id lib_name items :
  Forall (listed_item srv) items ->
  forall c w,
    tidy srv w ->
    tidy srv (world_of (items_loop reg srv sched config scan_id total_items
                          lib_id lib_name items c w)).
Proof.
  induction 1 as [|item rest Hitem _ IH]; intros c w Hw; simpl; [exact Hw|].
  pose proof (item_step_tidy total_items lib_id lib_name item c w Hitem Hw)
    as H.
  destruct (item_step _ _ _ _ _ _ _ _ _ _ _); try exact H. now apply IH.
Qed.

Lemma libraries_loop_tidy total_items library_items :
  Forall (fun l => Forall (listed_item srv) (snd l)) library_items ->
  forall c w,
    tidy srv w ->
    tidy srv (world_of (libraries_loop reg srv sched config scan_id
                          total_items library_items c w)).
Proof.
  induction 1 as [|[lib_id items] rest Hitems _ IH]; intros c w Hw; simpl;
    [exact Hw|].
  destruct (_cancel_requested (mgr w)); [exact Hw|].
  match goal with
  | |- context [items_loop reg srv sched config scan_id total_items lib_id
                  ?name items c ?w1] =>
      pose proof (items_loop_tidy total_items lib_id name items Hitems c w1 Hw)
        as H;
      destruct (items_loop reg srv sched config scan_id total_items lib_id
                  name items c w1)
  end; try exact H. now apply IH.
Qed.

Lemma dict_set_listed k v d :
  Forall (listed_item srv) v ->
  Forall (fun l => Forall (listed_item srv) (snd l)) d ->
  Forall (fun l => Forall (listed_item srv) (snd l)) (dict_set k v d).
Proof.
  intros Hv. induction 1 as [|[k' v'] d Hh Ht IH]; simpl.
  - now repeat constructor.
  - destruct (String.eqb k' k); constructor; assumption.
Qed.

(** The enumeration downloads nothing, and every item it puts into the
    dict is listed by the server. *)
Lemma enumerate_tidy library_ids :
  forall k d total w,
    Forall (fun l => Forall (listed_item srv) (snd l)) d ->
    let f := enumerate srv sched k library_ids d total w in
    scanner (world_of f) = scanner w /\
    forall d' total' w', f = Done (d', total') w' ->
      Forall (fun l => Forall (listed_item srv) (snd l)) d'.
Proof.
  induction library_ids as [|lib rest IH]; intros k d total w Hd;
    cbn [enumerate].
  - split; [reflexivity|]. now intros d' total' w' [= <- _ _].
  - destruct (_cancel_requested (mgr w)).
    { split; [reflexivity|]. now intros d' total' w' [= <- _ _]. }
    unfold PlexService.get_all_library_items, PlexService._request.
    set (w2 := controls _ _).
    assert (Hs : scanner w2 = scanner w)
      by (unfold w2; now destruct (controls_keep (during_enum sched k)
                                     (log_request (Plex.GetSectionItems lib)
                                        match Plex.section_items srv
                                                (length (requests w)) lib with
                                        | Py.Ok _ => None
                                        | Py.Raise e => Some e
                                        end w)) as (_ & -> & _)).
    destruct (cancelled_at sched (AwEnum k)); [split; [exact Hs|discriminate]|].
    destruct (Plex.section_items srv (length (requests w)) lib)
      as [items|x] eqn:Hitems; [|split; [exact Hs|discriminate]].
    destruct (IH (S k) (dict_set lib items d)
                (total + Z.of_nat (length items))%Z w2) as [IH1 IH2].
    { apply dict_set_listed; [|exact Hd].
      apply List.Forall_forall. intros item Hin.
      exists (length (requests w)), lib, items. now split. }
    split; [now rewrite IH1 | exact IH2].
Qed.

Lemma resolve_libraries_scanner w :
  scanner (world_of (resolve_libraries srv sched config w)) = scanner w.
Proof.
  unfold resolve_libraries. destruct (c_libraries config); [|reflexivity].
  unfold PlexService.get_libraries, PlexService._request.
  match goal with
  | |- context [controls ?cs ?x] =>
      destruct (controls_keep cs x) as (_ & Hs & _)
  end.
  destruct (cancelled_at sched AwResolve); [exact Hs|].
  destruct (Plex.sections srv _); exact Hs.
Qed.

(** A run that gets past the configuration test starts from a fresh
    scanner and downloads posters and backgrounds of listed items only. *)
Lemma _execute_scan_tidy w :
  EditionManager._get_plex_service w = Py.Ok tt ->
  tidy srv (world_of (_execute_scan reg srv sched scan_id config w)).
Proof.
  intros Hcfg. unfold _execute_scan. rewrite Hcfg.
  assert (H0 : tidy srv (set_scanner ArtworkScanner.fresh w)) by constructor.
  pose proof (resolve_libraries_scanner (set_scanner ArtworkScanner.fresh w))
    as H1.
  destruct (resolve_libraries srv sched config _)
    as [library_ids w1 | w1 | x w1 | w1 | w1]; simpl in H1; cbn [bind];
    try exact (tidy_scanner (set_scanner ArtworkScanner.fresh w) _ H1 H0).
  destruct (enumerate_tidy library_ids 0 [] 0%Z w1 (List.Forall_nil _))
    as [H2 Hd].
  assert (Hw1 : tidy srv w1)
    by exact (tidy_scanner (set_scanner ArtworkScanner.fresh w) _ H1 H0).
  destruct (enumerate srv sched 0 library_ids [] 0 w1)
    as [[library_items total_items] w2 | w2 | x w2 | w2 | w2];
    simpl in H2; cbn [bind]; try exact (tidy_scanner w1 _ H2 Hw1).
  specialize (Hd _ _ _ eq_refl).
  match goal with
  | |- context [libraries_loop reg srv sched config scan_id total_items
                  library_items ?c ?w5] =>
      assert (H5 : tidy srv w5) by exact (tidy_scanner w1 _ H2 Hw1);
      pose proof (libraries_loop_tidy total_items library_items Hd c w5 H5)
        as Hl;
      destruct (libraries_loop reg srv sched config scan_id total_items
                  library_items c w5) as [[[p i] e] w6 | w6 | x w6 | w6 | w6]
  end; simpl in Hl; cbn [bind]; try exact Hl.
  unfold _mark_scan_completed. now apply finish_mark_tidy.
Qed.

(** X24: without the edition half (scan type artwork, or editions
    disabled) the traffic of a run with the media server is reading only.
    Through the Plex client it lists libraries and their items: it never
    asks for the metadata of an item and never writes an edition.  Through
    the client of the artwork scanner it downloads images, and in a
    configured run none but posters and backgrounds of items the server
    has listed. *)
Theorem artwork_scan_only_enumerates (w : World) :
  run_edition config && flag (c_edition_enabled config) = false ->
  let w' := fst (run_scan reg srv sched scan_id config w) in
  Forall (fun qe => enumeration_request (fst qe) = true) (new_requests w w')
  /\ (EditionManager._get_plex_service w = Py.Ok tt ->
      Forall (listed_image srv) (downloaded w')).
Proof.
  intros Hoff w'. subst w'. split.
  - unfold run_scan, new_requests.
    pose proof (_execute_scan_ends reg srv sched config scan_id w) as H.
    assert (Hend : forall w0 w' i,
              reaches (scan_step config scan_id) w 0 w0 i ->
              requests w' = requests w0 ->
              Forall (fun qe => enumeration_request (fst qe) = true)
                (skipn (length (requests w)) (requests w'))).
    { intros w0 w' i Hr ->. apply reaches_frame in Hr.
      destruct Hr as (t & Ht & _ & _ & _ & -> & _).
      rewrite skipn_app_length.
      now apply (requests_of_artwork_scan config scan_id). }
    assert (Hcompleted : forall w0 w1 (f : Flow unit) p i e,
              _mark_scan_completed sched scan_id p i e w0 = f ->
              world_of f = w1 -> requests w1 = requests w0).
    { intros w0 w1 f p i e <- <-.
      now destruct (_mark_scan_completed_same sched scan_id p i e w0). }
    assert (Hcancelled : forall w0 w1 (f : Flow unit),
              _mark_scan_cancelled sched scan_id w0 = f ->
              world_of f = w1 -> requests w1 = requests w0).
    { intros w0 w1 f <- <-.
      now destruct (_mark_scan_cancelled_same sched scan_id w0). }
    destruct (_execute_scan reg srv sched scan_id config w)
      as [[] w1 | w1 | x w1 | w1 | w1]; simpl.
    + destruct H as (w0 & i & H & p & e & Hm & _).
      apply (Hend w0 _ i H). now apply (Hcompleted _ _ _ _ _ _ Hm).
    + destruct H as (w0 & i & H & Hm).
      apply (Hend w0 _ i H). now apply (Hcancelled _ _ _ Hm).
    + destruct H as (w0 & i & H & ->).
      apply (Hend w0 _ i H).
      now destruct (_mark_scan_failed_same sched scan_id x w0).
    + destruct H as (w0 & i & H & -> & _). now apply (Hend w0 _ i).
    + destruct H as (w0 & i & H & [-> | [Hm | (p & e & Hm & _)]]).
      * now apply (Hend w0 _ i).
      * apply (Hend w0 _ i H). now apply (Hcancelled _ _ _ Hm).
      * apply (Hend w0 _ i H). now apply (Hcompleted _ _ _ _ _ _ Hm).
  - intros Hcfg. unfold run_scan.
    pose proof (_execute_scan_tidy w Hcfg) as H.
    destruct (_execute_scan reg srv sched scan_id config w)
      as [[] w1 | w1 | x w1 | w1 | w1]; simpl in *; try exact H.
    unfold _mark_scan_failed.
    now apply (finish_mark_tidy FAILED (scan_failed scan_id x)
                 (failed_writes scan_id w1)).
Qed.

End ScanOutcome.

(** ** The scan engine: the pause gate and the other scans *)

Section Gate.

Import Sys ScanManager Trace.

Variable config : Config.
Variable scan_id : nat.

Lemma truthy_id_pos : (0 < scan_id)%nat -> truthy_id (Some scan_id) = Some scan_id.
Proof. destruct scan_id; [lia | reflexivity]. Qed.

Lemma other_scans_update (f : Scan -> Scan) (w w' : World) :
  (forall r, id (f r) = id r) ->
  scans (db w') = map (fun r => if (id r =? scan_id)%nat then f r else r)
                    (scans (db w)) ->
  other_scans scan_id w' = other_scans scan_id w.
Proof.
  intros Hf Hw. unfold other_scans. rewrite Hw. clear Hw.
  induction (scans (db w)) as [|r rows IH]; [reflexivity|].
  cbn [map List.filter].
  destruct (id r =? scan_id)%nat eqn:E.
  - rewrite Hf, E. simpl. exact IH.
  - rewrite E. simpl. now rewrite IH.
Qed.

Lemma status_of_update (f : Scan -> Scan) (st : string) (w w' : World) :
  (forall r, id (f r) = id r) -> (forall r, status (f r) = st) ->
  In scan_id (scan_ids w) ->
  scans (db w') = map (fun r => if (id r =? scan_id)%nat then f r else r)
                    (scans (db w)) ->
  status_of scan_id w' = Some st.
Proof.
  intros Hid Hst Hin Hw. unfold status_of, find_scan. rewrite Hw.
  rewrite find_update by exact Hid.
  apply find_scan_in in Hin. destruct Hin as (r & Hr).
  unfold find_scan in Hr. rewrite Hr. simpl. now rewrite Hst.
Qed.

Lemma status_of_keep (f : Scan -> Scan) (w w' : World) :
  (forall r, id (f r) = id r) -> (forall r, status (f r) = status r) ->
  scans (db w') = map (fun r => if (id r =? scan_id)%nat then f r else r)
                    (scans (db w)) ->
  status_of scan_id w' = status_of scan_id w.
Proof.
  intros Hid Hst Hw. unfold status_of, find_scan. rewrite Hw.
  rewrite find_update by exact Hid.
  destruct (find _ (scans (db w))); simpl; [now rewrite Hst | reflexivity].
Qed.

(** Every step of the scan keeps the gate consistent and the rows of the
    other scans as they are. *)
Lemma step_gate s w :
  scan_step config scan_id s ->
  gate_consistent scan_id w ->
  gate_consistent scan_id (step s w)
  /\ other_scans scan_id (step s w) = other_scans scan_id w.
Proof.
  intros Hs (Hpos & Hin & Hcur & Hgate & Hrow).
  assert (Hids : In scan_id (scan_ids (step s w)))
    by (destruct (step_frame s w) as (-> & _); exact Hin).
  assert (Hsame : forall w',
            mgr w' = mgr w -> scans (db w') = scans (db w) ->
            In scan_id (scan_ids w') ->
            gate_consistent scan_id w'
            /\ other_scans scan_id w' = other_scans scan_id w).
  { intros w' Hm Hsc Hi. unfold gate_consistent, other_scans, status_of,
      find_scan in *. rewrite Hm, Hsc. repeat split; assumption. }
  destruct s as [q e | b | i issue | st | f | i p n e lib | i total | ev | c];
    try (apply Hsame; [reflexivity | reflexivity | exact Hids]).
  - (* progress *)
    unfold gate_consistent, other_scans, status_of, find_scan in *.
    simpl. repeat split; assumption.
  - (* checkpoint *)
    simpl in Hs. subst i. split.
    + repeat split; try assumption.
      intros Hp. rewrite <- (Hrow Hp).
      eapply status_of_keep; [| |reflexivity]; reflexivity.
    + eapply other_scans_update; [|reflexivity]. reflexivity.
  - (* total *)
    simpl in Hs. subst i. split.
    + repeat split; try assumption.
      intros Hp. rewrite <- (Hrow Hp).
      eapply status_of_keep; [| |reflexivity]; reflexivity.
    + eapply other_scans_update; [|reflexivity]. reflexivity.
  - (* control *)
    destruct c; unfold step, control, pause_scan, resume_scan, cancel_scan.
    + destruct (_status (mgr w)) eqn:Hst;
        try (apply Hsame; [reflexivity | reflexivity | exact Hin]).
      simpl. rewrite Hcur, (truthy_id_pos Hpos). split.
      * repeat split; try assumption.
        -- unfold scan_ids in *. simpl. rewrite List.map_map.
           erewrite List.map_ext; [exact Hin|].
           intros r. now destruct (id r =? scan_id)%nat.
        -- intros _. eapply status_of_update;
             [| |exact Hin|reflexivity]; reflexivity.
      * eapply other_scans_update; [|reflexivity]. reflexivity.
    + destruct (_status (mgr w)) eqn:Hst;
        try (apply Hsame; [reflexivity | reflexivity | exact Hin]).
      simpl. rewrite Hcur, (truthy_id_pos Hpos). split.
      * repeat split; try assumption; try discriminate.
        unfold scan_ids in *. simpl. rewrite List.map_map.
        erewrite List.map_ext; [exact Hin|].
        intros r. now destruct (id r =? scan_id)%nat.
      * eapply other_scans_update; [|reflexivity]. reflexivity.
    + destruct (negb (is_running w));
        [apply Hsame; [reflexivity | reflexivity | exact Hin]|].
      split; [|reflexivity].
      unfold gate_consistent, status_of, find_scan in *. simpl.
      repeat split; try assumption. discriminate.
Qed.

Lemma run_gate t :
  forall w,
    Forall (scan_step config scan_id) t ->
    gate_consistent scan_id w ->
    gate_consistent scan_id (run t w)
    /\ other_scans scan_id (run t w) = other_scans scan_id w.
Proof.
  induction t as [|s t IH]; intros w Ht Hw; [now split|].
  inversion Ht as [|? ? Hs Ht']; subst.
  change (run (s :: t) w) with (run t (step s w)).
  destruct (step_gate s w Hs Hw) as [Hg Ho].
  destruct (IH (step s w) Ht' Hg) as [Hg' Ho'].
  split; [exact Hg' | congruence].
Qed.

(** A control call writes to the row of the current scan only. *)
Lemma control_other_scans c w :
  (0 < scan_id)%nat ->
  _current_scan_id (mgr w) = Some scan_id ->
  other_scans scan_id (control c w) = other_scans scan_id w
  /\ _current_scan_id (mgr (control c w)) = Some scan_id.
Proof.
  intros Hpos Hcur.
  destruct c; unfold control, pause_scan, resume_scan, cancel_scan.
  - destruct (_status (mgr w)); try (now split).
    simpl. rewrite Hcur, (truthy_id_pos Hpos). split; [|exact Hcur].
    eapply other_scans_update; [|reflexivity]. reflexivity.
  - destruct (_status (mgr w)); try (now split).
    simpl. rewrite Hcur, (truthy_id_pos Hpos). split; [|exact Hcur].
    eapply other_scans_update; [|reflexivity]. reflexivity.
  - destruct (negb (is_running w)); now split.
Qed.

Lemma controls_other_scans cs :
  (0 < scan_id)%nat ->
  forall w,
    _current_scan_id (mgr w) = Some scan_id ->
    other_scans scan_id (controls cs w) = other_scans scan_id w.
Proof.
  intros Hpos. unfold controls.
  induction cs as [|c cs IH]; intros w Hcur; simpl; [reflexivity|].
  destruct (control_other_scans c w Hpos Hcur) as [Ho Hc].
  now rewrite IH.
Qed.

Lemma finish_mark_other_scans sched s ev w :
  (0 < scan_id)%nat ->
  _current_scan_id (mgr w) = Some scan_id ->
  other_scans scan_id (world_of (finish_mark sched s ev w))
  = other_scans scan_id w.
Proof.
  intros Hpos Hcur. unfold finish_mark.
  destruct (cancelled_at sched AwMark); simpl;
    apply (controls_other_scans _ Hpos w Hcur).
Qed.

(** The three [_mark_scan_...] calls leave the rows of the other scans. *)
Lemma marks_other_scans sched w :
  gate_consistent scan_id w ->
  (forall p i e,
     other_scans scan_id
       (world_of (_mark_scan_completed sched scan_id p i e w))
     = other_scans scan_id w) /\
  other_scans scan_id (world_of (_mark_scan_cancelled sched scan_id w))
  = other_scans scan_id w /\
  (forall x,
     other_scans scan_id (world_of (_mark_scan_failed sched scan_id x w))
     = other_scans scan_id w).
Proof.
  intros (Hpos & _ & Hcur & _).
  unfold _mark_scan_completed, _mark_scan_cancelled, _mark_scan_failed.
  split; [intros p i e | split; [|intros x]];
    rewrite finish_mark_other_scans by (exact Hpos || exact Hcur);
    (eapply other_scans_update; [|reflexivity]); reflexivity.
Qed.

End Gate.

Section GateOutcome.

Import Sys ScanManager Trace.

Variable reg : EditionManager.Registry.
Variable srv : Plex.Server.
Variable sched : Schedule.
Variable config : Config.

Lemma id_below_next_id (d : Db) (r : Scan) :
  In r (scans d) -> (id r < next_id d)%nat.
Proof.
  unfold next_id. induction (scans d) as [|x rows IH]; [intros []|].
  simpl. intros [<- | Hin]; [lia|]. specialize (IH Hin). lia.
Qed.

Lemma other_scans_fresh (w : World) :
  other_scans (next_id (db w)) w = scans (db w).
Proof.
  unfold other_scans. apply filter_all. intros r Hr.
  apply id_below_next_id in Hr.
  destruct (id r =? next_id (db w))%nat eqn:E; [|reflexivity].
  apply Nat.eqb_eq in E. lia.
Qed.

Lemma start_scan_gate (w : World) :
  is_running w = false ->
  fst (start_scan config w) = Some (next_id (db w)) /\
  gate_consistent (next_id (db w)) (snd (start_scan config w)) /\
  other_scans (next_id (db w)) (snd (start_scan config w)) = scans (db w).
Proof.
  intros Hrun. unfold start_scan. rewrite Hrun. simpl.
  split; [reflexivity|]. split.
  - unfold gate_consistent. simpl. repeat split; try discriminate.
    + unfold next_id. lia.
    + unfold scan_ids. simpl. rewrite List.map_app. apply in_app_iff.
      right. now left.
  - unfold other_scans. simpl. rewrite List.filter_app. simpl.
    rewrite Nat.eqb_refl. simpl. rewrite app_nil_r.
    apply other_scans_fresh.
Qed.


(** X26: a scan only ever changes its own row of the table of scans.
    Whatever the server answers and whenever pause, resume and cancel
    are called, after [start_and_run] the rows of all other scans are the
    rows the table had before, in the same order. *)
Theorem scan_changes_only_its_own_row (w : World) :
  other_scans (next_id (db w))
    (fst (start_and_run reg srv sched config w))
  = scans (db w).
Proof.
  unfold start_and_run.
  destruct (is_running w) eqn:Hrun.
  { unfold start_scan. rewrite Hrun. simpl. apply other_scans_fresh. }
  destruct (start_scan_gate w Hrun) as (Hid & Hgate & Hother).
  destruct (start_scan config w) as [o w1]. simpl in Hid, Hgate, Hother.
  subst o. unfold run_scan.
  pose proof (_execute_scan_ends reg srv sched config (next_id (db w)) w1)
    as H.
  assert (Hrun' : forall w0 i,
            reaches (scan_step config (next_id (db w))) w1 0 w0 i ->
            gate_consistent (next_id (db w)) w0 /\
            other_scans (next_id (db w)) w0 = scans (db w)).
  { intros w0 i (t & -> & Ht & _).
    destruct (run_gate config (next_id (db w)) t w1 Ht Hgate) as [Hg Ho].
    split; [exact Hg | congruence]. }
  destruct (_execute_scan reg srv sched (next_id (db w)) config w1)
    as [[] w2 | w2 | x w2 | w2 | w2]; simpl;
    change (other_scans ?k (set_mgr back_to_idle ?x))
      with (other_scans k x).
  - destruct H as (w0 & i & H & p & e & Hm & _).
    destruct (Hrun' w0 i H) as [Hg <-].
    destruct (marks_other_scans _ sched w0 Hg) as (Hc & _).
    rewrite <- (Hc p i e), Hm. reflexivity.
  - destruct H as (w0 & i & H & Hm).
    destruct (Hrun' w0 i H) as [Hg <-].
    destruct (marks_other_scans _ sched w0 Hg) as (_ & Hc & _).
    rewrite <- Hc, Hm. reflexivity.
  - destruct H as (w0 & i & H & Hw). simpl in Hw. subst w2.
    destruct (Hrun' w0 i H) as [Hg <-].
    destruct (marks_other_scans _ sched w0 Hg) as (_ & _ & Hc).
    apply Hc.
  - destruct H as (w0 & i & H & Hw & _). subst w2.
    now destruct (Hrun' w0 i H).
  - destruct H as (w0 & i & H & [Hw | [Hm | (p & e & Hm & _)]]).
    + subst w2. now destruct (Hrun' w0 i H).
    + destruct (Hrun' w0 i H) as [Hg <-].
      destruct (marks_other_scans _ sched w0 Hg) as (_ & Hc & _).
      rewrite <- Hc, Hm. reflexivity.
    + destruct (Hrun' w0 i H) as [Hg <-].
      destruct (marks_other_scans _ sched w0 Hg) as (Hc & _).
      rewrite <- (Hc p i e), Hm. reflexivity.
Qed.

End GateOutcome.

(** ** The scan engine: a run that nobody disturbs *)

Section Undisturbed.

Import Sys ScanManager Trace.

Variable reg : EditionManager.Registry.
Variable srv : Plex.Server.
Variable config : Config.
Variable scan_id : nat.

Hypothesis Hsrv : enumerable srv.
Hypothesis Hinterval : checkpoint_interval config <> 0%Z.

Lemma run_item_mgr t :
  forall w, Forall (item_kind config scan_id) t -> mgr (run t w) = mgr w.
Proof.
  induction t as [|s t IH]; intros w Ht; [reflexivity|].
  inversion Ht as [|? ? Hs Ht']; subst.
  change (run (s :: t) w) with (run t (step s w)).
  rewrite IH by exact Ht'.
  destruct s; simpl in Hs; try contradiction; reflexivity.
Qed.

(** A round of the item loop that finds no cancellation pending and the
    gate open counts its item, whatever the media server answers and
    whatever is raised while the item is processed (the task not being
    cancelled meanwhile); without a control call meanwhile it leaves the
    gate open and no cancellation pending. *)
Lemma item_step_continues sched total_items lib_id lib_name item p i e w :
  going w ->
  cancelled_at sched (AwItem (Z.to_nat p)) = false ->
  exists i' e' w',
    item_step reg srv sched config scan_id total_items lib_id
      lib_name item (p, i, e) w = Done (p + 1, i', e')%Z w'
    /\ (during_item sched (Z.to_nat p) = [] -> going w').
Proof.
  intros [Hc Hg] Hnc. unfold item_step. rewrite Hc, Hg. cbv iota.
  rewrite Hg. simpl negb. cbv iota. simpl andb. cbv iota.
  match goal with
  | |- context [try_item reg srv config scan_id item i e ?w1] =>
      pose proof (try_item_reaches reg srv config scan_id item i e w1) as Ht;
      destruct (try_item reg srv config scan_id item i e w1) as [[i1 e1] w2]
  end.
  simpl in Ht. destruct Ht as (t & -> & Ht & _).
  match goal with
  | |- context [run t ?w1] => pose proof (run_item_mgr t w1 Ht) as Hm
  end.
  rewrite Hnc. rewrite (proj2 (Z.eqb_neq _ _) Hinterval).
  eexists _, _, _. split; [reflexivity|].
  intros ->. unfold going. simpl.
  repeat match goal with
         | |- context [if ?b then _ else _] => destruct b
         end; simpl; rewrite Hm; simpl; split; assumption.
Qed.

Lemma item_step_going total_items lib_id lib_name item p i e w :
  going w ->
  exists i' e' w',
    item_step reg srv Scenarios.quiet config scan_id total_items lib_id
      lib_name item (p, i, e) w = Done (p + 1, i', e')%Z w'
    /\ going w'.
Proof.
  intros Hw.
  destruct (item_step_continues Scenarios.quiet total_items lib_id lib_name
              item p i e w Hw eq_refl) as (i' & e' & w' & Hs & Hg).
  exists i', e', w'. split; [exact Hs | now apply Hg].
Qed.

Lemma items_loop_going total_items lib_id lib_name items :
  forall p i e w,
    going w ->
    exists i' e' w',
      items_loop reg srv Scenarios.quiet config scan_id total_items lib_id
        lib_name items (p, i, e) w
      = Done (p + Z.of_nat (length items), i', e')%Z w'
      /\ going w'.
Proof.
  induction items as [|item rest IH]; intros p i e w Hw.
  - exists i, e, w. simpl. rewrite Z.add_0_r. now split.
  - cbn [items_loop].
    destruct (item_step_going total_items lib_id lib_name item p i e w Hw)
      as (i1 & e1 & w1 & -> & Hw1).
    destruct (IH (p + 1)%Z i1 e1 w1 Hw1) as (i2 & e2 & w2 & -> & Hw2).
    exists i2, e2, w2. split; [|exact Hw2].
    f_equal. f_equal. f_equal. simpl length. lia.
Qed.

Lemma libraries_loop_going total_items library_items :
  forall p i e w,
    going w ->
    exists i' e' w',
      libraries_loop reg srv Scenarios.quiet config scan_id total_items
        library_items (p, i, e) w
      = Done (p + item_count library_items, i', e')%Z w'
      /\ going w'.
Proof.
  induction library_items as [|[lib_id items] rest IH]; intros p i e w Hw.
  - exists i, e, w. simpl. rewrite Z.add_0_r. now split.
  - cbn [libraries_loop]. destruct Hw as [Hc Hg]. rewrite Hc.
    match goal with
    | |- context [items_loop reg srv Scenarios.quiet config scan_id
                    total_items lib_id ?name items (p, i, e) ?w1] =>
        destruct (items_loop_going total_items lib_id name items p i e w1)
          as (i1 & e1 & w2 & -> & Hw2); [split; assumption|]
    end.
    destruct (IH (p + Z.of_nat (length items))%Z i1 e1 w2 Hw2)
      as (i2 & e2 & w3 & -> & Hw3).
    exists i2, e2, w3. split; [|exact Hw3].
    f_equal. f_equal. f_equal. simpl. lia.
Qed.

Lemma item_count_dict_set_new k v d :
  ~ In k (map fst d) ->
  item_count (dict_set k v d) = (item_count d + Z.of_nat (length v))%Z
  /\ map fst (dict_set k v d) = map fst d ++ [k].
Proof.
  induction d as [|[k' v'] d IH]; simpl; intros Hk; [split; [lia|reflexivity]|].
  destruct (String.eqb k' k) eqn:E.
  - apply String.eqb_eq in E. subst k'. exfalso. apply Hk. now left.
  - destruct IH as [IH1 IH2]; [intros H; apply Hk; now right|].
    simpl. rewrite IH1, IH2. split; [lia | reflexivity].
Qed.

Lemma enumerate_going library_ids :
  forall k library_items total_items w,
    going w ->
    exists library_items' total_items' w',
      enumerate srv Scenarios.quiet k library_ids library_items total_items w
      = Done (library_items', total_items') w'
      /\ going w'
      /\ (List.NoDup (map fst library_items ++ library_ids) ->
          (total_items' - item_count library_items'
           = total_items - item_count library_items)%Z).
Proof.
  induction library_ids as [|lib_id rest IH];
    intros k d total w Hw; cbn [enumerate].
  - exists d, total, w. repeat split; apply Hw.
  - destruct Hw as [Hc Hg]. rewrite Hc.
    unfold PlexService.get_all_library_items, PlexService._request.
    destruct (proj2 Hsrv (length (requests w)) lib_id) as (items & ->).
    simpl.
    match goal with
    | |- context [enumerate srv Scenarios.quiet ?k' rest ?d' ?total' ?w'] =>
        destruct (IH k' d' total' w') as (d2 & total2 & w2 & -> & Hw2 & Hnd);
          [split; assumption|]
    end.
    exists d2, total2, w2. repeat split; try apply Hw2.
    intros Hnodup.
    assert (Hnew : ~ In lib_id (map fst d)).
    { intros Hin. apply NoDup_remove_2 in Hnodup. apply Hnodup.
      apply in_app_iff. now left. }
    destruct (item_count_dict_set_new lib_id items d Hnew) as [Hcount Hkeys].
    rewrite Hnd.
    + rewrite Hcount. lia.
    + rewrite Hkeys, <- app_assoc. exact Hnodup.
Qed.

End Undisturbed.

Section UndisturbedOutcome.

Import Sys ScanManager Trace.

Variable reg : EditionManager.Registry.
Variable srv : Plex.Server.
Variable config : Config.

Lemma start_scan_going (w : World) :
  is_running w = false ->
  going (snd (start_scan config w)) /\
  EditionManager._get_plex_service (snd (start_scan config w))
  = EditionManager._get_plex_service w /\
  requests (snd (start_scan config w)) = requests w.
Proof.
  intros Hrun. unfold start_scan. rewrite Hrun. simpl.
  repeat split.
Qed.


End UndisturbedOutcome.

(** ** The scan engine: pause and resume *)

Section PauseResume.

Import Sys ScanManager Trace.

(** X28: pausing a running scan and resuming it is a round trip.  Both
    calls are accepted, and afterwards the manager and the table of scans
    are what they were (the row is running again, its pause time
    cleared); what remains of the two calls are the events paused and
    resumed, in the event table and on the subscribers' queues. *)
Theorem pause_then_resume_restores (scan_id : nat) (w : World) :
  _status (mgr w) = RUNNING ->
  _pause_event (mgr w) = true ->
  _current_scan_id (mgr w) = Some scan_id ->
  (0 < scan_id)%nat ->
  (forall r, In r (scans (db w)) -> id r = scan_id ->
             status r = "running" /\ paused_at r = None) ->
  let w' := snd (resume_scan (snd (pause_scan w))) in
  fst (pause_scan w) = true /\
  fst (resume_scan (snd (pause_scan w))) = true /\
  mgr w' = mgr w /\
  scans (db w') = scans (db w) /\
  scan_events (db w')
  = scan_events (db w)
    ++ [ {| ev_scan_id := scan_id; event_type := "paused" |};
         {| ev_scan_id := scan_id; event_type := "resumed" |} ] /\
  sent w' = sent w ++ [scan_paused (Some scan_id);
                       scan_resumed (Some scan_id)].
Proof.
  intros Hst Hev Hcur Hpos Hrows.
  destruct scan_id as [|n]; [lia|].
  unfold pause_scan. rewrite Hst. simpl.
  unfold resume_scan. simpl.
  repeat (rewrite Hcur; simpl).
  repeat split.
  - destruct (mgr w) as [st cur cancel ev prog]. simpl in *. now subst.
  - rewrite List.map_map.
    erewrite List.map_ext_in; [apply List.map_id|].
    intros r Hr. simpl.
    destruct (id r =? S n)%nat eqn:E; [|now rewrite E].
    simpl. rewrite E.
    apply Nat.eqb_eq in E. destruct (Hrows r Hr E) as [Hs Hp].
    destruct r. simpl in *. now subst.
  - now rewrite <- app_assoc.
  - now rewrite <- app_assoc.
Qed.

End PauseResume.

(** ** The scan engine: authentication errors *)

Section AuthErrors.

Import Sys ScanManager Trace.

Lemma start_scan_new_row config w :
  is_running w = false ->
  exists w1,
    start_scan config w = (Some (next_id (db w)), w1)
    /\ requests w1 = requests w
    /\ In (next_id (db w)) (scan_ids w1).
Proof.
  intros Hrun. unfold start_scan. rewrite Hrun. simpl.
  eexists. split; [reflexivity|]. split; [reflexivity|].
  unfold scan_ids. simpl. rewrite List.map_app. apply in_app_iff.
  right. left. reflexivity.
Qed.

(** The status a [_mark_scan_...] call leaves in the row when nobody
    pauses or resumes the scan meanwhile. *)
Lemma marked_status sched scan_id (writes : World -> World)
    (f : Scan -> Scan) s ev (st : string) w :
  calm_mark sched ->
  In scan_id (scan_ids w) ->
  find_scan scan_id (writes w) = option_map f (find_scan scan_id w) ->
  (forall r, status (f r) = st) ->
  status_of scan_id
    (set_mgr back_to_idle (world_of (finish_mark sched s ev (writes w))))
  = Some st.
Proof.
  intros Hcalm Hin Hw Hst.
  destruct (find_scan_in scan_id w Hin) as (r & Hr).
  destruct (marked_row sched scan_id writes f s ev w r Hw Hr)
    as (r' & Hr' & _ & Hc).
  unfold status_of.
  change (find_scan scan_id (set_mgr back_to_idle ?x))
    with (find_scan scan_id x).
  rewrite Hr', (Hc Hcalm). simpl. now rewrite Hst.
Qed.




End AuthErrors.

Section ScanExamples.

Import Sys ScanManager Trace.


(** What the conditions of X22 exclude does happen.  [pause_scan] called
    while [_mark_scan_completed] awaits its commit is accepted: the run
    ends with the manager idle and [scan_completed] sent last, and the row
    of the scan says paused. *)
Lemma pause_during_mark_leaves_row_paused :
  let r := start_and_run EditionManager.resolution_registry
             Scenarios.small_library pause_during_mark
             (Scenarios.config_of "artwork") Scenarios.initial_world in
  snd r = true /\
  _status (mgr (fst r)) = IDLE /\
  status_of 1 (fst r) = Some "paused" /\
  option_map processed_items (find_scan 1 (fst r)) = Some 3%Z /\
  last (sent (fst r)) = Some (scan_completed 1 3 0 0).
Proof. vm_compute. repeat split; reflexivity. Qed.

(** A task that is cancelled while the second item is processed leaves
    [run_scan] through [except asyncio.CancelledError]: the manager is
    idle, the row still says running, and no event tells of an end. *)
Lemma cancelled_task_leaves_row_running :
  let r := start_and_run EditionManager.resolution_registry
             Scenarios.small_library (shutdown_during_item 1)
             (Scenarios.config_of "artwork") Scenarios.initial_world in
  snd r = true /\
  _status (mgr (fst r)) = IDLE /\
  status_of 1 (fst r) = Some "running" /\
  sent (fst r) = [scan_started 1; scan_progress_total 1 3].
Proof. vm_compute. repeat split; reflexivity. Qed.

Lemma completed_scan_counts_its_issues_witness :
  exists r new,
    find_scan 1
      (fst (run_scan EditionManager.resolution_registry
              Scenarios.small_library Scenarios.quiet 1
              (Scenarios.config_of "artwork")
              (started (Scenarios.config_of "artwork")))) = Some r /\
    issues (db (fst (run_scan EditionManager.resolution_registry
                       Scenarios.small_library Scenarios.quiet 1
                       (Scenarios.config_of "artwork")
                       (started (Scenarios.config_of "artwork")))))
    = issues (db (started (Scenarios.config_of "artwork"))) ++ new /\
    Forall (fun x => is_scan_id x = 1%nat /\ is_status x = "pending") new /\
    issues_found r = Z.of_nat (length new) /\
    (0 <= processed_items r <= total_items r)%Z /\
    checkpoint r = None.
Proof.
  apply (completed_scan_counts_its_issues
           EditionManager.resolution_registry Scenarios.small_library
           Scenarios.quiet (Scenarios.config_of "artwork") 1
           (started (Scenarios.config_of "artwork"))).
  - left. reflexivity.
  - vm_compute. reflexivity.
  - vm_compute. reflexivity.
Defined.

Lemma artwork_scan_only_enumerates_witness :
  Forall (fun qe => enumeration_request (fst qe) = true)
    (new_requests (started (Scenarios.config_of "artwork"))
       (fst (run_scan EditionManager.resolution_registry
               Scenarios.small_library Scenarios.quiet 1
               (Scenarios.config_of "artwork")
               (started (Scenarios.config_of "artwork")))))
  /\ Forall (listed_image Scenarios.small_library)
       (downloaded
          (fst (run_scan EditionManager.resolution_registry
                  Scenarios.small_library Scenarios.quiet 1
                  (Scenarios.config_of "artwork")
                  (started (Scenarios.config_of "artwork"))))).
Proof.
  destruct (artwork_scan_only_enumerates
              EditionManager.resolution_registry Scenarios.small_library
              Scenarios.quiet (Scenarios.config_of "artwork") 1
              (started (Scenarios.config_of "artwork")) eq_refl)
    as [Hrequests Hdownloads].
  split; [exact Hrequests | apply Hdownloads; reflexivity].
Defined.



Lemma pause_then_resume_restores_witness :
  mgr (snd (resume_scan
              (snd (pause_scan (started (Scenarios.config_of "artwork"))))))
  = mgr (started (Scenarios.config_of "artwork")).
Proof.
  apply (pause_then_resume_restores 1
           (started (Scenarios.config_of "artwork"))).
  - reflexivity.
  - reflexivity.
  - reflexivity.
  - lia.
  - intros r [<- | []] _. split; reflexivity.
Defined.

End ScanExamples.

(** ** Auto-fix *)

Section AutoFixCounters.

Import AutoFix.

Variable env : Env.
Variable scan : option nat.
Variable skip_unmatched : bool.
Variable min_score : Z.

Lemma count_balanced o p :
  balanced p ->
  balanced (count o p) /\ processed (count o p) = (processed p + 1)%Z
  /\ total (count o p) = total p.
Proof.
  unfold balanced. intros (H & Ha & Hs & Hf).
  destruct o; simpl; repeat split; lia.
Qed.

(** What one round does to the service, the calls apart. *)
Lemma fix_issue_service issue s :
  exists o,
    _progress (snd (fix_issue env skip_unmatched min_score issue s))
      = count o (_progress s) /\
    _running (snd (fix_issue env skip_unmatched min_score issue s))
      = _running s /\
    _cancel_requested (snd (fix_issue env skip_unmatched min_score issue s))
      = _cancel_requested s /\
    sent (snd (fix_issue env skip_unmatched min_score issue s))
      = sent s ++ [progress (count o (_progress s))].
Proof.
  unfold fix_issue.
  destruct (skip_unmatched && String.eqb (issue_type issue) "no_match").
  { exists Skipped. repeat split. }
  destruct (best_suggestion min_score (suggestions issue)) as [[i best]|].
  2:{ exists Skipped. repeat split. }
  destruct (apply_suggestion env (plex_rating_key issue) best (calls s))
    as [[] log].
  - exists Applied. repeat split.
  - exists Failed. repeat split.
Qed.

Lemma loop_counters rows :
  forall k s,
    balanced (_progress s) ->
    let r := loop env scan skip_unmatched min_score k rows s in
    balanced (_progress (snd r)) /\
    total (_progress (snd r)) = total (_progress s) /\
    _running (snd r) = _running s /\
    (processed (_progress s) <= processed (_progress (snd r))
     <= processed (_progress s)
        + Z.of_nat (length (List.filter (selected scan) rows)))%Z /\
    (_cancel_requested s = false ->
     (forall n, cancel_during env n = false) ->
     processed (_progress (snd r))
     = processed (_progress s)
       + Z.of_nat (length (List.filter (selected scan) rows)))%Z /\
    (exists more, sent (snd r) = sent s ++ more).
Proof.
  induction rows as [|issue rest IH]; intros k s Hb;
    pose proof Hb as (Hb0 & Hba & Hbs & Hbf).
  - simpl. repeat split; try assumption; try lia.
    exists []. now rewrite app_nil_r.
  - cbn [loop List.filter].
    destruct (selected scan issue) eqn:Hsel; cbn [negb].
    + destruct (_cancel_requested s) eqn:Hc.
      { simpl. repeat split; try assumption; try lia; try discriminate.
        exists []. now rewrite app_nil_r. }
      destruct (fix_issue_service issue s) as (o & Hp & Hr & Hcr & Hs).
      destruct (fix_issue env skip_unmatched min_score issue s)
        as [issue' s1]. simpl in Hp, Hr, Hcr, Hs.
      destruct (count_balanced o _ Hb) as (Hb1 & Hp1 & Ht1).
      assert (Hb2 : balanced (_progress (cancel (cancel_during env k) s1)))
        by (simpl; rewrite Hp; exact Hb1).
      specialize (IH (S k) (cancel (cancel_during env k) s1) Hb2).
      destruct (loop env scan skip_unmatched min_score (S k) rest
                  (cancel (cancel_during env k) s1)) as [rest' s'].
      simpl in IH |- *. rewrite Hp, Hr, Hs in IH.
      destruct IH as (IHb & IHt & IHr & IHp & IHfull & (more & IHs)).
      pose proof IHb as (IHb0 & IHba & IHbs & IHbf).
      repeat split; try assumption; try lia.
      * intros _ Hnone. rewrite IHfull; [lia| |exact Hnone].
        rewrite (Hnone k), Hcr. exact Hc.
      * eexists. rewrite IHs, <- app_assoc. reflexivity.
    + specialize (IH k s Hb).
      destruct (loop env scan skip_unmatched min_score k rest s)
        as [rest' s'].
      simpl in IH |- *. exact IH.
Qed.

(** X29: the counters of an auto-fix run add up.  After [start] and the
    task it creates, processed = applied + skipped + failed, no counter is
    negative, processed is at most total, total is the number of pending
    issues the query selected, the service is no longer running, and the
    event sent last is [completed] with these counters.  If the media
    server is configured and nobody cancels, every selected issue was
    processed. *)
Theorem autofix_counters_add_up (s s' : Service) :
  start env scan skip_unmatched min_score s = Some s' ->
  let p := _progress s' in
  balanced p /\
  (processed p <= total p)%Z /\
  total p = Z.of_nat (length (List.filter (selected scan) (issues s))) /\
  _running s' = false /\
  last (sent s') = Some (completed p) /\
  (plex_configured s = true -> cancel_before env = false ->
   (forall k, cancel_during env k = false) ->
   processed p = total p).
Proof.
  unfold start. destruct (_running s); [discriminate|].
  intros [= <-]. unfold _run. cbn [issues _progress zero processed applied
    skipped failed plex_configured _running _cancel_requested calls sent].
  assert (Hz : forall n, balanced {| processed := 0; total := n; applied := 0;
                                     skipped := 0; failed := 0 |})
    by (intros n; unfold balanced; simpl; lia).
  destruct (List.filter (selected scan) (issues s)) as [|i0 sel] eqn:Hsel.
  - simpl. repeat split; try apply Hz; try lia.
    apply last_snoc.
  - destruct (plex_configured s) eqn:Hplex; cbn [negb].
    2:{ simpl. repeat split; try apply Hz; try lia; try discriminate.
        apply last_snoc. }
    match goal with
    | |- context [loop env scan skip_unmatched min_score 0 (issues s) ?s1] =>
        pose proof (loop_counters (issues s) 0 s1 (Hz _)) as H;
        destruct (loop env scan skip_unmatched min_score 0 (issues s) s1)
          as [rows s2]
    end.
    simpl in H |- *. rewrite Hsel in H. simpl in H.
    destruct H as (Hb & Ht & _ & Hp & Hfull & _).
    repeat split; try apply Hb; try lia.
    + apply last_snoc.
    + intros _ Hcb Hcd. rewrite Hcb in Hfull. simpl in Hfull.
      rewrite Hfull by auto. lia.
Qed.

End AutoFixCounters.

Section AutoFixCalls.

Import AutoFix.

Variable env : Env.
Variable scan : option nat.
Variable skip_unmatched : bool.
Variable min_score : Z.

Lemma autofix_insert_desc_cons x l : exists y ys, insert_desc x l = y :: ys.
Proof.
  destruct l as [|z zs]; simpl; [eauto|].
  destruct (score (snd x) <? score (snd z))%Z; eauto.
Qed.

Lemma autofix_sorted_desc_head (l : list (nat * Suggestion)) :
  forall m, head (sorted_desc l) = Some m ->
  In m l /\ forall x, In x l -> (score (snd x) <= score (snd m))%Z.
Proof.
  induction l as [|x xs IH]; simpl; [discriminate|].
  destruct (sorted_desc xs) as [|y ys] eqn:Hs; simpl.
  - intros m [= <-]. destruct xs as [|x' xs'].
    + split; [now left|]. intros ? [<- | []]. lia.
    + simpl in Hs.
      destruct (autofix_insert_desc_cons x' (sorted_desc xs')) as (? & ? & Hc).
      congruence.
  - destruct (IH y eq_refl) as [Hin Hmax].
    destruct (score (snd x) <? score (snd y))%Z eqn:E; simpl; intros m [= <-].
    + apply Z.ltb_lt in E.
      split; [now right|]. intros z [<- | Hz]; [lia | now apply Hmax].
    + apply Z.ltb_ge in E. split; [now left|].
      intros z [<- | Hz]; [lia|]. specialize (Hmax z Hz). lia.
Qed.

Lemma in_numbered (l : list Suggestion) (sg : Suggestion) :
  In sg l -> forall a, exists j, In (j, sg) (combine (seq a (length l)) l).
Proof.
  induction l as [|x l IH]; [intros []|].
  intros [<- | Hin] a; simpl.
  - exists a. now left.
  - destruct (IH Hin (S a)) as (j & Hj). exists j. now right.
Qed.

Lemma best_suggestion_best (l : list Suggestion) i sg :
  best_suggestion min_score l = Some (i, sg) ->
  In sg l /\ (min_score <= score sg)%Z /\
  forall other, In other l -> (score other <= score sg)%Z.
Proof.
  unfold best_suggestion.
  destruct (sorted_desc (numbered l)) as [|best rest] eqn:Hs; [discriminate|].
  destruct (min_score <=? score (snd best))%Z eqn:E; [|discriminate].
  intros [= ->]. apply Z.leb_le in E.
  destruct (autofix_sorted_desc_head (numbered l) (i, sg)) as [Hin Hmax];
    [now rewrite Hs|].
  split; [|split; [exact E|]].
  - unfold numbered in Hin. now apply in_combine_r in Hin.
  - intros other Ho. destruct (in_numbered l other Ho 0) as (j & Hj).
    exact (Hmax (j, other) Hj).
Qed.

Lemma length_select_at l : forall i, length (select_at i l) = length l.
Proof.
  induction l as [|x l IH]; intros [|i]; simpl; try reflexivity.
  now rewrite IH.
Qed.

Variable rows : list Issue.

Lemma rounds_one r : round rows scan skip_unmatched min_score r ->
                     rounds rows scan skip_unmatched min_score r.
Proof.
  intros H. rewrite <- (app_nil_r r). apply rounds_app; [exact H|].
  apply rounds_nil.
Qed.

Lemma rounds_append a b :
  rounds rows scan skip_unmatched min_score a ->
  rounds rows scan skip_unmatched min_score b ->
  rounds rows scan skip_unmatched min_score (a ++ b).
Proof.
  induction 1 as [|r rest Hr Hrest IH]; intros Hb; [exact Hb|].
  rewrite <- app_assoc. apply rounds_app; [exact Hr | now apply IH].
Qed.

Lemma apply_suggestion_round key sg log :
  (forall kind, artwork_type sg = kind ->
     justified rows scan skip_unmatched min_score kind key (image_url sg)) ->
  exists r,
    snd (apply_suggestion env key sg log) = log ++ r /\
    round rows scan skip_unmatched min_score r.
Proof.
  intros Hj. unfold apply_suggestion, call.
  destruct (String.eqb (artwork_type sg) "poster") eqn:Ep.
  { apply String.eqb_eq in Ep. specialize (Hj _ Ep).
    destruct (plex env (length log) (upload_poster key (image_url sg))).
    - eexists. simpl. rewrite <- app_assoc. split; [reflexivity|].
      now apply round_poster.
    - eexists. simpl. split; [reflexivity|]. now apply round_poster_failed. }
  destruct (String.eqb (artwork_type sg) "background") eqn:Eb.
  { apply String.eqb_eq in Eb. specialize (Hj _ Eb).
    destruct (plex env (length log) (upload_background key (image_url sg))).
    - eexists. simpl. rewrite <- app_assoc. split; [reflexivity|].
      now apply round_background.
    - eexists. simpl. split; [reflexivity|].
      now apply round_background_failed. }
  exists []. simpl. rewrite app_nil_r. split; [reflexivity|].
  apply round_none.
Qed.

Lemma fix_issue_round issue s :
  In issue rows -> selected scan issue = true ->
  (exists r,
     calls (snd (fix_issue env skip_unmatched min_score issue s))
       = calls s ++ r /\
     round rows scan skip_unmatched min_score r) /\
  kept_or_applied issue (fst (fix_issue env skip_unmatched min_score issue s)).
Proof.
  intros Hin Hsel. unfold fix_issue.
  destruct (skip_unmatched && String.eqb (issue_type issue) "no_match")
    eqn:Hskip.
  { simpl. split; [|now left]. exists []. rewrite app_nil_r.
    split; [reflexivity | apply round_none]. }
  destruct (best_suggestion min_score (suggestions issue)) as [[i best]|]
    eqn:Hbest.
  2:{ simpl. split; [|now left]. exists []. rewrite app_nil_r.
      split; [reflexivity | apply round_none]. }
  apply best_suggestion_best in Hbest.
  destruct (apply_suggestion_round (plex_rating_key issue) best (calls s))
    as (r & Hr & Hround).
  { intros kind Hk. exists issue, best. repeat split; try assumption;
      apply Hbest. }
  destruct (apply_suggestion env (plex_rating_key issue) best (calls s))
    as [[] log]; simpl in Hr |- *.
  - split; [eauto|]. right. repeat split.
    + unfold selected in Hsel. apply andb_true_iff in Hsel.
      destruct Hsel as [Hst _]. now apply String.eqb_eq in Hst.
    + apply length_select_at.
  - split; [eauto | now left].
Qed.

Lemma loop_rounds part :
  (forall issue, In issue part -> In issue rows) ->
  forall k s,
    let r := loop env scan skip_unmatched min_score k part s in
    (exists new, calls (snd r) = calls s ++ new /\
                 rounds rows scan skip_unmatched min_score new) /\
    Forall2 kept_or_applied part (fst r).
Proof.
  induction part as [|issue rest IH]; intros Hsub k s.
  - simpl. split; [|constructor]. exists []. rewrite app_nil_r.
    split; [reflexivity | apply rounds_nil].
  - assert (Hrest : forall i, In i rest -> In i rows)
      by (intros i Hi; apply Hsub; now right).
    assert (Hsame : forall l : list Issue, Forall2 kept_or_applied l l).
    { induction l; constructor; [now left | assumption]. }
    cbn [loop].
    destruct (selected scan issue) eqn:Hsel; cbn [negb].
    + destruct (_cancel_requested s).
      { simpl. split; [|apply Hsame]. exists []. rewrite app_nil_r.
        split; [reflexivity | apply rounds_nil]. }
      destruct (fix_issue_round issue s (Hsub issue (or_introl eq_refl)) Hsel)
        as [(r & Hr & Hround) Hkept].
      destruct (fix_issue env skip_unmatched min_score issue s)
        as [issue' s1]. simpl in Hr, Hkept.
      specialize (IH Hrest (S k) (cancel (cancel_during env k) s1)).
      destruct (loop env scan skip_unmatched min_score (S k) rest
                  (cancel (cancel_during env k) s1)) as [rest' s'].
      simpl in IH |- *. destruct IH as [(new & Hnew & Hrounds) Hall].
      split; [|now constructor].
      exists (r ++ new). rewrite Hnew, Hr, <- app_assoc.
      split; [reflexivity|]. now apply rounds_app.
    + specialize (IH Hrest k s).
      destruct (loop env scan skip_unmatched min_score k rest s)
        as [rest' s'].
      simpl in IH |- *. destruct IH as [Hcalls Hall].
      split; [exact Hcalls|]. constructor; [now left | exact Hall].
Qed.

End AutoFixCalls.

Section AutoFixSafety.

Import AutoFix.

(** X30: auto-fix only uploads the best suggestion of an issue it
    selected.  The calls a run makes on the media server are a sequence
    of rounds, each an upload alone (it failed) or an upload that
    succeeded followed by the lock of the same kind for the same item;
    every upload is for a pending issue of the run that is not a skipped
    unmatched item, with the URL of a suggestion of that issue whose score
    is the largest of the issue's suggestions and at least [min_score],
    and of the kind of that suggestion.  Every row of the issues table is
    left as it was or turned from pending to applied. *)
Theorem autofix_uploads_only_the_best (env : Env) (scan : option nat)
    (skip_unmatched : bool) (min_score : Z) (s s' : Service) :
  start env scan skip_unmatched min_score s = Some s' ->
  (exists new,
     calls s' = calls s ++ new /\
     rounds (issues s) scan skip_unmatched min_score new) /\
  Forall2 kept_or_applied (issues s) (issues s').
Proof.
  unfold start. destruct (_running s); [discriminate|].
  intros [= <-]. unfold _run. cbn [issues _progress zero processed applied
    skipped failed plex_configured _running _cancel_requested calls sent].
  assert (Hsame : forall l : list Issue, Forall2 kept_or_applied l l).
  { induction l; constructor; [now left | assumption]. }
  assert (Hnone : exists new,
            calls s = calls s ++ new /\
            rounds (issues s) scan skip_unmatched min_score new).
  { exists []. rewrite app_nil_r. split; [reflexivity | apply rounds_nil]. }
  destruct (List.filter (selected scan) (issues s)) as [|i0 sel].
  - simpl. split; [exact Hnone | apply Hsame].
  - destruct (plex_configured s); cbn [negb].
    2:{ simpl. split; [exact Hnone | apply Hsame]. }
    match goal with
    | |- context [loop env scan skip_unmatched min_score 0 (issues s) ?s1] =>
        pose proof (loop_rounds env scan skip_unmatched min_score (issues s)
                      (issues s) (fun i H => H) 0 s1) as H;
        destruct (loop env scan skip_unmatched min_score 0 (issues s) s1)
          as [rows s2]
    end.
    simpl in H |- *. exact H.
Qed.

End AutoFixSafety.

Section AutoFixExamples.

Import AutoFix.

Lemma autofix_counters_add_up_witness :
  processed (_progress (_run obliging (Some 1%nat) true 50
                          {| _running := true; _cancel_requested := false;
                             _progress := zero; issues := issues two_issues;
                             plex_configured := true; calls := [];
                             sent := [] |}))
  = total (_progress (_run obliging (Some 1%nat) true 50
                        {| _running := true; _cancel_requested := false;
                           _progress := zero; issues := issues two_issues;
                           plex_configured := true; calls := [];
                           sent := [] |})).
Proof.
  apply (autofix_counters_add_up obliging (Some 1%nat) true 50 two_issues _
           eq_refl); [reflexivity | reflexivity |].
  intros k. reflexivity.
Defined.

Lemma autofix_uploads_only_the_best_witness :
  Forall2 kept_or_applied (issues two_issues)
    (issues (_run obliging (Some 1%nat) true 50
               {| _running := true; _cancel_requested := false;
                  _progress := zero; issues := issues two_issues;
                  plex_configured := true; calls := [];
                  sent := [] |})).
Proof.
  apply (autofix_uploads_only_the_best obliging (Some 1%nat) true 50
           two_issues _ eq_refl).
Defined.

End AutoFixExamples.

